(** * Flurry++ : element kernels, Runge-Kutta driver and supermesh clipping

    A shallow embedding of the parts of [ele.cpp], [solver.cpp] and
    [superMesh.cpp] that the time-step pipeline rests on, with the
    properties of the specification stated over it.

    Numbers.  The C++ type [double] is modelled by the real numbers [R]:
    every statement below is about the arithmetic the code writes down,
    evaluated exactly.  Comparisons are the decidable tests [Rlt_dec];
    [std::abs], [std::sqrt], [std::min], [std::max] and [std::pow] are
    [Rabs], [sqrt], [Rmin], [Rmax] and [Rpower].

    Containers.  [vector<double>] is [list R], [matrix<double>] is a list of
    rows, indexed from 0.  Reading outside a container yields 0 and writing
    outside leaves it unchanged (the C++ behaviour there is undefined); the
    theorems that depend on an access being in range say so. *)

From Stdlib Require Import Reals Lra Lia List Bool Arith String.
Import ListNotations.
Local Open Scope R_scope.

(* ================================================================== *)
(** * Numeric tests *)

Definition Rltb (a b : R) : bool := if Rlt_dec a b then true else false.

(** [x == 0] *)
Definition Rzerob (x : R) : bool := negb (Rltb x 0) && negb (Rltb 0 x).

(* ================================================================== *)
(** * Containers and loops *)

Definition matrix : Type := list (list R).

(** [l[i] = x]; nothing happens when [i] is not an index of [l]. *)
Fixpoint upd {A : Type} (i : nat) (x : A) (l : list A) : list A :=
  match l, i with
  | [], _ => []
  | _ :: t, O => x :: t
  | h :: t, S i' => h :: upd i' x t
  end.

(** [M(i,j)] *)
Definition mget (M : matrix) (i j : nat) : R := nth j (nth i M []) 0.

(** [M(i,j) = x] *)
Definition mset (M : matrix) (i j : nat) (x : R) : matrix :=
  upd i (upd j x (nth i M [])) M.

(** [dims M n m]: [M] has [n] rows of [m] entries. *)
Definition dims (M : matrix) (n m : nat) : Prop :=
  List.length M = n /\ Forall (fun r => List.length r = m) M.

(** [M.initializeToZero()] keeps the dimensions. *)
Definition initializeToZero (M : matrix) : matrix := map (map (fun _ => 0)) M.

(** A fresh [matrix<double> M(n,m)], value-initialised. *)
Definition zeros (n m : nat) : matrix := repeat (repeat 0 m) n.

(** [for (int i=0; i<n; i++) body]: the body is run for i = 0, 1, ..., n-1
    in this order on the state [s]. *)
Fixpoint for_ {S : Type} (n : nat) (body : nat -> S -> S) (s : S) : S :=
  match n with
  | O => s
  | S n' => body n' (for_ n' body s)
  end.

(** [FatalError(msg)] prints the message and exits the process. *)
Inductive result (A : Type) : Type :=
| Ok (a : A)
| FatalError (msg : string).
Arguments Ok {A} a.
Arguments FatalError {A} msg.

Definition bind {A B : Type} (r : result A) (f : A -> result B) : result B :=
  match r with
  | Ok a => f a
  | FatalError msg => FatalError msg
  end.

(** A [for] loop whose body may end the process. *)
Fixpoint forM_ {S : Type} (n : nat) (body : nat -> S -> result S) (s : S) : result S :=
  match n with
  | O => Ok s
  | S n' => bind (forM_ n' body s) (body n')
  end.

(** [T[i](r,c)] and [T[i](r,c) = x] on a [vector<matrix<double>>]. *)
Definition tget (T : list matrix) (i r c : nat) : R := mget (nth i T []) r c.

Definition tset (T : list matrix) (i r c : nat) (x : R) : list matrix :=
  upd i (mset (nth i T []) r c x) T.

(** [Q(a,b)(r,c)] and [Q(a,b)(r,c) = x] on a two-index array of matrices. *)
Definition qget (Q : list (list matrix)) (a b r c : nat) : R :=
  tget (nth a Q []) b r c.

Definition qset (Q : list (list matrix)) (a b r c : nat) (x : R) : list (list matrix) :=
  upd a (tset (nth a Q []) b r c x) Q.

(** Every matrix of [T] is [n x m], and there are [d] of them. *)
Definition dimsT (T : list matrix) (d n m : nat) : Prop :=
  List.length T = d /\ Forall (fun M => dims M n m) T.

Definition dimsQ (Q : list (list matrix)) (d n m : nat) : Prop :=
  List.length Q = d /\ Forall (fun T => dimsT T d n m) Q.

(** The [n x m] matrix with entries [f i j]. *)
Definition tabulate (n m : nat) (f : nat -> nat -> R) : matrix :=
  map (fun i => map (fun j => f i j) (seq 0 m)) (seq 0 n).

(** [acc = 0; for (j=0; j<n; j++) acc += f(j)] *)
Definition Rsum (n : nat) (f : nat -> R) : R := for_ n (fun j acc => acc + f j) 0.

(* ================================================================== *)
(** * Points (points.hpp) *)

Record point : Type := mkPoint { px : R; py : R; pz : R }.

Definition Vec3 : Type := point.

Definition origin : point := mkPoint 0 0 0.

(** [pt[dim]] *)
Definition pidx (p : point) (dim : nat) : R :=
  match dim with
  | O => px p
  | S O => py p
  | _ => pz p
  end.

(** [pt[dim] = v] *)
Definition pset (p : point) (dim : nat) (v : R) : point :=
  match dim with
  | O => mkPoint v (py p) (pz p)
  | S O => mkPoint (px p) v (pz p)
  | _ => mkPoint (px p) (py p) v
  end.

Definition padd (a b : point) : point :=
  mkPoint (px a + px b) (py a + py b) (pz a + pz b).

Definition psub (a b : point) : Vec3 :=
  mkPoint (px a - px b) (py a - py b) (pz a - pz b).

Definition pscale (a : Vec3) (c : R) : Vec3 :=
  mkPoint (px a * c) (py a * c) (pz a * c).

Definition pdivide (a : point) (c : R) : point :=
  mkPoint (px a / c) (py a / c) (pz a / c).

(** [Vec3 * Vec3] is the dot product. *)
Definition pdot (a b : Vec3) : R :=
  px a * px b + py a * py b + pz a * pz b.

(** [Vec3::norm] and [point::abs]: the Euclidean length and the
    componentwise absolute value. *)
Definition pnorm (a : Vec3) : R := sqrt (px a * px a + py a * py a + pz a * pz a).

Definition pabs (p : point) : point := mkPoint (Rabs (px p)) (Rabs (py p)) (Rabs (pz p)).

(* ================================================================== *)
(** * superMesh.cpp *)

Module superMesh.

(** [struct tetra]: four nodes, [nodes[0..3]]. *)
Record tetra : Type := mkTetra { t0 : point; t1 : point; t2 : point; t3 : point }.

Definition nodes (t : tetra) (i : nat) : point :=
  match i with
  | 0%nat => t0 t
  | 1%nat => t1 t
  | 2%nat => t2 t
  | _ => t3 t
  end.

(** Face centroid: [for (auto &pt:clipFace) xc += pt;  xc /= clipFace.size();] *)
Definition centroid (clipFace : list point) : point :=
  pdivide (fold_left padd clipFace origin) (INR (List.length clipFace)).

(** [deadPts]: the indices [i] with [(tet.nodes[i] - xc) * norm > 0], in
    increasing order as a [std::set<int>] iterates them. *)
Definition isDead (tet : tetra) (xc : point) (norm : Vec3) (i : nat) : bool :=
  Rltb 0 (pdot (psub (nodes tet i) xc) norm).

Definition deadPts (tet : tetra) (xc : point) (norm : Vec3) : list nat :=
  filter (isDead tet xc norm) [0; 1; 2; 3]%nat.

(** [deadPts.count(i)] *)
Definition count (s : list nat) (i : nat) : bool := existsb (Nat.eqb i) s.

(** The orientation table of cases 1 and 3; a key that is absent from a
    [std::map] reads as the value-initialised array. *)
Definition flipTet1 (k : nat) : nat * nat * nat :=
  match k with
  | 0 => (1, 3, 2)
  | 1 => (0, 2, 3)
  | 2 => (0, 3, 1)
  | 3 => (0, 1, 2)
  | _ => (0, 0, 0)
  end%nat.

(** The re-orientation table of case 2, keyed by the two kept nodes. *)
Definition flipTet2 (keep : nat * nat) : nat * nat * nat * nat :=
  match keep with
  | (0, 1) => (0, 1, 2, 3)
  | (0, 2) => (1, 2, 0, 3)
  | (0, 3) => (1, 3, 2, 0)
  | (1, 2) => (2, 0, 1, 3)
  | (1, 3) => (3, 0, 2, 1)
  | (2, 3) => (3, 2, 1, 0)
  | _ => (0, 0, 0, 0)
  end%nat.

(** Edge-plane intersection: [ab*((norm*ac)/(norm*ab)) + a] with
    [ab = b - a] and [ac = xc - a]. *)
Definition intersect (a b xc : point) (norm : Vec3) : point :=
  let ab := psub b a in
  let ac := psub xc a in
  padd (pscale ab (pdot norm ac / pdot norm ab)) a.

(** Case 2: the kept indices, in increasing order. *)
Definition keepPts (dead : list nat) : list nat :=
  filter (fun i => negb (count dead i)) [0; 1; 2; 3]%nat.

Definition clipTet (tet : tetra) (clipFace : list point) (norm : Vec3) : list tetra :=
  let xc := centroid clipFace in
  let dead := deadPts tet xc norm in
  match List.length dead with
  | 0%nat => [tet]
  | 1%nat =>
      let kill := hd 0%nat dead in
      let '(e0, e1, e2) := flipTet1 kill in
      let newPt e := intersect (nodes tet kill) (nodes tet e) xc norm in
      let n0 := newPt e0 in
      let n1 := newPt e1 in
      let n2 := newPt e2 in
      [ mkTetra (nodes tet e0) (nodes tet e1) n0 (nodes tet e2);
        mkTetra (nodes tet e2) n0 n2 n1;
        mkTetra (nodes tet e1) (nodes tet e2) n1 n0 ]
  | 2%nat =>
      let keep := keepPts dead in
      let '(i0, i1, i2, i3) := flipTet2 (nth 0 keep 0%nat, nth 1 keep 0%nat) in
      let n0 := intersect (nodes tet i0) (nodes tet i3) xc norm in
      let n1 := intersect (nodes tet i1) (nodes tet i3) xc norm in
      let n2 := intersect (nodes tet i1) (nodes tet i2) xc norm in
      let n3 := intersect (nodes tet i0) (nodes tet i2) xc norm in
      [ mkTetra (nodes tet i1) n0 n3 (nodes tet i0);
        mkTetra n0 n3 n1 (nodes tet i1);
        mkTetra n1 n3 n2 (nodes tet i1) ]
  | 3%nat =>
      let keep := hd 0%nat (keepPts dead) in
      let '(e0, e1, e2) := flipTet1 keep in
      let newPt e := intersect (nodes tet keep) (nodes tet e) xc norm in
      [ mkTetra (newPt e0) (newPt e1) (newPt e2) (nodes tet keep) ]
  | _ => []
  end.

(** The number of vertices of [tet] on the cut side of the plane through the
    centroid of [clipFace] with normal [norm]. *)
Definition nCutSide (tet : tetra) (clipFace : list point) (norm : Vec3) : nat :=
  let xc := centroid clipFace in
  ((if isDead tet xc norm 0 then 1 else 0) +
   (if isDead tet xc norm 1 then 1 else 0) +
   (if isDead tet xc norm 2 then 1 else 0) +
   (if isDead tet xc norm 3 then 1 else 0))%nat.

(** Number of output tetrahedra for 0, 1, 2, 3, 4 vertices on the cut side:
    as the switch of [clipTet] produces them, and as the specification
    words it ("0/1/3/3 ... case 4 signals no contribution"). *)
Definition count_of_switch (k : nat) : nat := nth k [1; 3; 3; 1; 0]%nat 0%nat.

Definition count_as_specified (k : nat) : nat := nth k [0; 1; 3; 3; 0]%nat 0%nat.

(** The unit tetrahedron, and a clipping face in the plane [x = 2] whose
    normal points away from it. *)
Definition unitTet : tetra :=
  mkTetra (mkPoint 0 0 0) (mkPoint 1 0 0) (mkPoint 0 1 0) (mkPoint 0 0 1).

Definition farFace : list point :=
  [mkPoint 2 0 0; mkPoint 2 1 0; mkPoint 2 0 1].

Definition xNormal : Vec3 := mkPoint 1 0 0.

(** A clipping face in the plane [x = 1/2], which cuts node 1 off the unit
    tetrahedron. *)
Definition midFace : list point :=
  [mkPoint (1/2) 0 0; mkPoint (1/2) 1 0; mkPoint (1/2) 0 1].

(** A clipping face in the plane [x + y = 1/2] with normal [(1,1,0)], which
    cuts nodes 1 and 2 off the unit tetrahedron. *)
Definition diagFace : list point :=
  [mkPoint (1/2) 0 0; mkPoint 0 (1/2) 0; mkPoint (1/2) 0 1].

Definition diagNormal : Vec3 := mkPoint 1 1 0.

(** [tet.nodes[j] = p] *)
Definition setNode (t : tetra) (j : nat) (p : point) : tetra :=
  match j with
  | 0%nat => mkTetra p (t1 t) (t2 t) (t3 t)
  | 1%nat => mkTetra (t0 t) p (t2 t) (t3 t)
  | 2%nat => mkTetra (t0 t) (t1 t) p (t3 t)
  | _ => mkTetra (t0 t) (t1 t) (t2 t) p
  end.

(** The connectivity table [ind[5][4]] of [splitHexIntoTet]. *)
Definition ind : list (list nat) :=
  [[0; 1; 4; 3]; [2; 1; 6; 3]; [5; 1; 6; 4]; [7; 3; 4; 6]; [1; 3; 6; 4]]%nat.

(** [splitHexIntoTet]: five value-initialised tetrahedra, filled node by
    node from the table. *)
Definition splitHexIntoTet (hexNodes : list point) : list tetra :=
  let newTets := repeat (mkTetra origin origin origin origin) 5 in
  for_ 5 (fun i newTets =>
    for_ 4 (fun j newTets =>
      upd i (setNode (nth i newTets (mkTetra origin origin origin origin)) j
               (nth (nth j (nth i ind []) 0%nat) hexNodes origin)) newTets)
      newTets) newTets.

(** [p] lies on the edge of [tet] from node [a] to node [b], at parameter
    [s] of the way. *)
Definition onEdge (tet : tetra) (p : point) : Prop :=
  exists a b s, (a < 4)%nat /\ (b < 4)%nat /\ 0 <= s <= 1 /\
    p = padd (pscale (psub (nodes tet b) (nodes tet a)) s) (nodes tet a).

(** The members of [superMesh] that [integrate] reads. *)
Record superMesh : Type := mkSuperMesh {
  nQpts : nat;
  nTets : nat;
  nQpts_tet : nat
}.

(** What a call of a value-returning function can come to: a fatal error
    (the process exits), a returned value, or control reaching the closing
    brace without a [return]; the last carries the local accumulator. *)
Inductive outcome : Type :=
| Fatal (msg : string)
| Returned (v : R)
| NoReturn (val : R).

Definition integrate (sm : superMesh) (data : list R) : outcome :=
  if negb (List.length data =? nQpts sm)%nat then
    Fatal "To integrate over supermesh, data must lie at its quadrature nodes."
  else
    let val := 0 in
    let val :=
      for_ (nTets sm) (fun i val =>
        for_ (nQpts_tet sm) (fun j val => val) val) val in
    NoReturn val.

End superMesh.

(* ================================================================== *)
(** * input.hpp : the run parameters *)

Module input.

Inductive equation_t : Type := ADVECTION_DIFFUSION | NAVIER_STOKES.

(** The members of [input] that the kernels below read or write. *)
Record input : Type := mkInput {
  equation : equation_t;
  dtType : nat;
  dt : R;
  motion : nat;
  meshType : nat;
  oversetMethod : nat;
  gamma : R;
  exps0 : R;
  iter : nat;
  time : R;
  rkTime : R;
  RKa : list R;
  RKb : list R
}.

Definition set_iter (v : nat) (p : input) : input :=
  mkInput (equation p) (dtType p) (dt p) (motion p) (meshType p)
    (oversetMethod p) (gamma p) (exps0 p) v (time p) (rkTime p) (RKa p) (RKb p).

Definition set_time (v : R) (p : input) : input :=
  mkInput (equation p) (dtType p) (dt p) (motion p) (meshType p)
    (oversetMethod p) (gamma p) (exps0 p) (iter p) v (rkTime p) (RKa p) (RKb p).

Definition set_rkTime (v : R) (p : input) : input :=
  mkInput (equation p) (dtType p) (dt p) (motion p) (meshType p)
    (oversetMethod p) (gamma p) (exps0 p) (iter p) (time p) v (RKa p) (RKb p).

Definition set_dt (v : R) (p : input) : input :=
  mkInput (equation p) (dtType p) v (motion p) (meshType p)
    (oversetMethod p) (gamma p) (exps0 p) (iter p) (time p) (rkTime p) (RKa p) (RKb p).

(** The members of [input] that [setInitialCondition] reads. *)
Record initialCondition : Type := mkInitialCondition {
  icType : nat;
  rhoIC : R;
  vxIC : R;
  vyIC : R;
  vzIC : R;
  pIC : R
}.

(** [meshType] value of an overset run. *)
Definition OVERSET_MESH : nat := 2.

End input.

(* ================================================================== *)
(** * ele.cpp : the element state and its kernels *)

Module ele.

(** The members of [ele] that the kernels below read or write.  Arrays are
    sized by [setupArrays]: [U_spts], [U0], [src_spts] and every
    [divF_spts[s]] are [nSpts x nFields], [U_fpts] is [nFpts x nFields],
    the Jacobian arrays hold one [nDims x nDims] matrix per point. *)
Record ele : Type := mkEle {
  ID : nat;
  nDims : nat;
  nFields : nat;
  nSpts : nat;
  nFpts : nat;
  nNodes : nat;
  dt : R;
  nodes : list point;
  nodesRK : list point;
  U_spts : matrix;
  U_fpts : matrix;
  U0 : matrix;
  Uavg : list R;
  divF_spts : list matrix;
  src_spts : matrix;
  F_spts : list matrix;
  dF_spts : list (list matrix);
  dU_spts : list matrix;
  dShape_spts : list matrix;
  dShape_fpts : list matrix;
  Jac_spts : list matrix;
  Jac_fpts : list matrix;
  JGinv_spts : list matrix;
  JGinv_fpts : list matrix;
  detJac_spts : list R;
  detJac_fpts : list R;
  tNorm_fpts : matrix;
  norm_fpts : matrix;
  dA_fpts : list R;
  gridVel_spts : matrix
}.

Definition set_dt (v : R) (e : ele) : ele :=
  mkEle (ID e) (nDims e) (nFields e) (nSpts e) (nFpts e) (nNodes e) v
    (nodes e) (nodesRK e) (U_spts e) (U_fpts e) (U0 e) (Uavg e) (divF_spts e)
    (src_spts e) (F_spts e) (dF_spts e) (dU_spts e) (dShape_spts e)
    (dShape_fpts e) (Jac_spts e) (Jac_fpts e) (JGinv_spts e) (JGinv_fpts e)
    (detJac_spts e) (detJac_fpts e) (tNorm_fpts e) (norm_fpts e) (dA_fpts e)
    (gridVel_spts e).

Definition set_U_spts (v : matrix) (e : ele) : ele :=
  mkEle (ID e) (nDims e) (nFields e) (nSpts e) (nFpts e) (nNodes e) (dt e)
    (nodes e) (nodesRK e) v (U_fpts e) (U0 e) (Uavg e) (divF_spts e)
    (src_spts e) (F_spts e) (dF_spts e) (dU_spts e) (dShape_spts e)
    (dShape_fpts e) (Jac_spts e) (Jac_fpts e) (JGinv_spts e) (JGinv_fpts e)
    (detJac_spts e) (detJac_fpts e) (tNorm_fpts e) (norm_fpts e) (dA_fpts e)
    (gridVel_spts e).

Definition set_U_fpts (v : matrix) (e : ele) : ele :=
  mkEle (ID e) (nDims e) (nFields e) (nSpts e) (nFpts e) (nNodes e) (dt e)
    (nodes e) (nodesRK e) (U_spts e) v (U0 e) (Uavg e) (divF_spts e)
    (src_spts e) (F_spts e) (dF_spts e) (dU_spts e) (dShape_spts e)
    (dShape_fpts e) (Jac_spts e) (Jac_fpts e) (JGinv_spts e) (JGinv_fpts e)
    (detJac_spts e) (detJac_fpts e) (tNorm_fpts e) (norm_fpts e) (dA_fpts e)
    (gridVel_spts e).

Definition set_U0 (v : matrix) (e : ele) : ele :=
  mkEle (ID e) (nDims e) (nFields e) (nSpts e) (nFpts e) (nNodes e) (dt e)
    (nodes e) (nodesRK e) (U_spts e) (U_fpts e) v (Uavg e) (divF_spts e)
    (src_spts e) (F_spts e) (dF_spts e) (dU_spts e) (dShape_spts e)
    (dShape_fpts e) (Jac_spts e) (Jac_fpts e) (JGinv_spts e) (JGinv_fpts e)
    (detJac_spts e) (detJac_fpts e) (tNorm_fpts e) (norm_fpts e) (dA_fpts e)
    (gridVel_spts e).

Definition set_divF_spts (v : list matrix) (e : ele) : ele :=
  mkEle (ID e) (nDims e) (nFields e) (nSpts e) (nFpts e) (nNodes e) (dt e)
    (nodes e) (nodesRK e) (U_spts e) (U_fpts e) (U0 e) (Uavg e) v (src_spts e)
    (F_spts e) (dF_spts e) (dU_spts e) (dShape_spts e) (dShape_fpts e)
    (Jac_spts e) (Jac_fpts e) (JGinv_spts e) (JGinv_fpts e) (detJac_spts e)
    (detJac_fpts e) (tNorm_fpts e) (norm_fpts e) (dA_fpts e) (gridVel_spts e).

Definition set_F_spts (v : list matrix) (e : ele) : ele :=
  mkEle (ID e) (nDims e) (nFields e) (nSpts e) (nFpts e) (nNodes e) (dt e)
    (nodes e) (nodesRK e) (U_spts e) (U_fpts e) (U0 e) (Uavg e) (divF_spts e)
    (src_spts e) v (dF_spts e) (dU_spts e) (dShape_spts e) (dShape_fpts e)
    (Jac_spts e) (Jac_fpts e) (JGinv_spts e) (JGinv_fpts e) (detJac_spts e)
    (detJac_fpts e) (tNorm_fpts e) (norm_fpts e) (dA_fpts e) (gridVel_spts e).

Definition set_dF_spts (v : list (list matrix)) (e : ele) : ele :=
  mkEle (ID e) (nDims e) (nFields e) (nSpts e) (nFpts e) (nNodes e) (dt e)
    (nodes e) (nodesRK e) (U_spts e) (U_fpts e) (U0 e) (Uavg e) (divF_spts e)
    (src_spts e) (F_spts e) v (dU_spts e) (dShape_spts e) (dShape_fpts e)
    (Jac_spts e) (Jac_fpts e) (JGinv_spts e) (JGinv_fpts e) (detJac_spts e)
    (detJac_fpts e) (tNorm_fpts e) (norm_fpts e) (dA_fpts e) (gridVel_spts e).

Definition set_Jac_spts (v : list matrix) (e : ele) : ele :=
  mkEle (ID e) (nDims e) (nFields e) (nSpts e) (nFpts e) (nNodes e) (dt e)
    (nodes e) (nodesRK e) (U_spts e) (U_fpts e) (U0 e) (Uavg e) (divF_spts e)
    (src_spts e) (F_spts e) (dF_spts e) (dU_spts e) (dShape_spts e)
    (dShape_fpts e) v (Jac_fpts e) (JGinv_spts e) (JGinv_fpts e)
    (detJac_spts e) (detJac_fpts e) (tNorm_fpts e) (norm_fpts e) (dA_fpts e)
    (gridVel_spts e).

Definition set_Jac_fpts (v : list matrix) (e : ele) : ele :=
  mkEle (ID e) (nDims e) (nFields e) (nSpts e) (nFpts e) (nNodes e) (dt e)
    (nodes e) (nodesRK e) (U_spts e) (U_fpts e) (U0 e) (Uavg e) (divF_spts e)
    (src_spts e) (F_spts e) (dF_spts e) (dU_spts e) (dShape_spts e)
    (dShape_fpts e) (Jac_spts e) v (JGinv_spts e) (JGinv_fpts e)
    (detJac_spts e) (detJac_fpts e) (tNorm_fpts e) (norm_fpts e) (dA_fpts e)
    (gridVel_spts e).

Definition set_JGinv_spts (v : list matrix) (e : ele) : ele :=
  mkEle (ID e) (nDims e) (nFields e) (nSpts e) (nFpts e) (nNodes e) (dt e)
    (nodes e) (nodesRK e) (U_spts e) (U_fpts e) (U0 e) (Uavg e) (divF_spts e)
    (src_spts e) (F_spts e) (dF_spts e) (dU_spts e) (dShape_spts e)
    (dShape_fpts e) (Jac_spts e) (Jac_fpts e) v (JGinv_fpts e) (detJac_spts e)
    (detJac_fpts e) (tNorm_fpts e) (norm_fpts e) (dA_fpts e) (gridVel_spts e).

Definition set_JGinv_fpts (v : list matrix) (e : ele) : ele :=
  mkEle (ID e) (nDims e) (nFields e) (nSpts e) (nFpts e) (nNodes e) (dt e)
    (nodes e) (nodesRK e) (U_spts e) (U_fpts e) (U0 e) (Uavg e) (divF_spts e)
    (src_spts e) (F_spts e) (dF_spts e) (dU_spts e) (dShape_spts e)
    (dShape_fpts e) (Jac_spts e) (Jac_fpts e) (JGinv_spts e) v (detJac_spts e)
    (detJac_fpts e) (tNorm_fpts e) (norm_fpts e) (dA_fpts e) (gridVel_spts e).

Definition set_detJac_spts (v : list R) (e : ele) : ele :=
  mkEle (ID e) (nDims e) (nFields e) (nSpts e) (nFpts e) (nNodes e) (dt e)
    (nodes e) (nodesRK e) (U_spts e) (U_fpts e) (U0 e) (Uavg e) (divF_spts e)
    (src_spts e) (F_spts e) (dF_spts e) (dU_spts e) (dShape_spts e)
    (dShape_fpts e) (Jac_spts e) (Jac_fpts e) (JGinv_spts e) (JGinv_fpts e) v
    (detJac_fpts e) (tNorm_fpts e) (norm_fpts e) (dA_fpts e) (gridVel_spts e).

Definition set_detJac_fpts (v : list R) (e : ele) : ele :=
  mkEle (ID e) (nDims e) (nFields e) (nSpts e) (nFpts e) (nNodes e) (dt e)
    (nodes e) (nodesRK e) (U_spts e) (U_fpts e) (U0 e) (Uavg e) (divF_spts e)
    (src_spts e) (F_spts e) (dF_spts e) (dU_spts e) (dShape_spts e)
    (dShape_fpts e) (Jac_spts e) (Jac_fpts e) (JGinv_spts e) (JGinv_fpts e)
    (detJac_spts e) v (tNorm_fpts e) (norm_fpts e) (dA_fpts e)
    (gridVel_spts e).

Definition set_norm_fpts (v : matrix) (e : ele) : ele :=
  mkEle (ID e) (nDims e) (nFields e) (nSpts e) (nFpts e) (nNodes e) (dt e)
    (nodes e) (nodesRK e) (U_spts e) (U_fpts e) (U0 e) (Uavg e) (divF_spts e)
    (src_spts e) (F_spts e) (dF_spts e) (dU_spts e) (dShape_spts e)
    (dShape_fpts e) (Jac_spts e) (Jac_fpts e) (JGinv_spts e) (JGinv_fpts e)
    (detJac_spts e) (detJac_fpts e) (tNorm_fpts e) v (dA_fpts e)
    (gridVel_spts e).

Definition set_dA_fpts (v : list R) (e : ele) : ele :=
  mkEle (ID e) (nDims e) (nFields e) (nSpts e) (nFpts e) (nNodes e) (dt e)
    (nodes e) (nodesRK e) (U_spts e) (U_fpts e) (U0 e) (Uavg e) (divF_spts e)
    (src_spts e) (F_spts e) (dF_spts e) (dU_spts e) (dShape_spts e)
    (dShape_fpts e) (Jac_spts e) (Jac_fpts e) (JGinv_spts e) (JGinv_fpts e)
    (detJac_spts e) (detJac_fpts e) (tNorm_fpts e) (norm_fpts e) v
    (gridVel_spts e).

(** ** Geometric transformation (calcTransforms) *)

(** The accumulation of the Jacobian at one point:
    [J(dim1,dim2) += dShape(i,dim2)*nodes[i][dim1]] over nodes and
    dimensions. *)
Definition accumJac (n_nodes n_dims : nat) (dShape : matrix) (nds : list point)
           (J : matrix) : matrix :=
  for_ n_nodes (fun i J =>
    for_ n_dims (fun dim1 J =>
      for_ n_dims (fun dim2 J =>
        mset J dim1 dim2
          (mget J dim1 dim2 + mget dShape i dim2 * pidx (nth i nds origin) dim1)) J) J) J.

Definition det2 (J : matrix) : R :=
  mget J 0 0 * mget J 1 1 - mget J 1 0 * mget J 0 1.

(** Inverse of the 2x2 transformation matrix, times its determinant. *)
Definition adj2 (J JG : matrix) : matrix :=
  let JG := mset JG 0 0 (mget J 1 1) in
  let JG := mset JG 0 1 (- mget J 0 1) in
  let JG := mset JG 1 0 (- mget J 1 0) in
  mset JG 1 1 (mget J 0 0).

Definition det3 (J : matrix) : R :=
  let xr := mget J 0 0 in let xs := mget J 0 1 in let xt := mget J 0 2 in
  let yr := mget J 1 0 in let ys := mget J 1 1 in let yt := mget J 1 2 in
  let zr := mget J 2 0 in let zs := mget J 2 1 in let zt := mget J 2 2 in
  xr*(ys*zt - yt*zs) - xs*(yr*zt - yt*zr) + xt*(yr*zs - ys*zr).

Definition adj3 (J JG : matrix) : matrix :=
  let xr := mget J 0 0 in let xs := mget J 0 1 in let xt := mget J 0 2 in
  let yr := mget J 1 0 in let ys := mget J 1 1 in let yt := mget J 1 2 in
  let zr := mget J 2 0 in let zs := mget J 2 1 in let zt := mget J 2 2 in
  let JG := mset JG 0 0 (ys*zt - yt*zs) in
  let JG := mset JG 0 1 (xt*zs - xs*zt) in
  let JG := mset JG 0 2 (xs*yt - xt*ys) in
  let JG := mset JG 1 0 (yt*zr - yr*zt) in
  let JG := mset JG 1 1 (xr*zt - xt*zr) in
  let JG := mset JG 1 2 (xt*yr - xr*yt) in
  let JG := mset JG 2 0 (yr*zs - ys*zr) in
  let JG := mset JG 2 1 (xs*zr - xr*zs) in
  mset JG 2 2 (xr*ys - xs*yr).

(** One pass of the loop over solution points. *)
Definition calcTransforms_spt (moving : bool) (spt : nat) (e : ele) : result ele :=
  let nds := if moving then nodesRK e else nodes e in
  let e :=
    set_Jac_spts
      (upd spt
         (accumJac (nNodes e) (nDims e) (nth spt (dShape_spts e) []) nds
            (initializeToZero (nth spt (Jac_spts e) [])))
         (Jac_spts e)) e in
  let J := nth spt (Jac_spts e) [] in
  let e :=
    if (nDims e =? 2)%nat then
      let e := set_detJac_spts (upd spt (det2 J) (detJac_spts e)) e in
      set_JGinv_spts (upd spt (adj2 J (nth spt (JGinv_spts e) [])) (JGinv_spts e)) e
    else if (nDims e =? 3)%nat then
      let e := set_detJac_spts (upd spt (det3 J) (detJac_spts e)) e in
      set_JGinv_spts (upd spt (adj3 J (nth spt (JGinv_spts e) [])) (JGinv_spts e)) e
    else e in
  if Rltb (nth spt (detJac_spts e) 0) 0
  then FatalError "Negative Jacobian at solution points."
  else Ok e.

(** One pass of the loop over flux points, in its two parts: the Jacobian,
    its determinant and its inverse times the determinant ... *)
Definition calcTransforms_fpt_jac (moving : bool) (fpt : nat) (e : ele) : ele :=
  let nds := if moving then nodesRK e else nodes e in
  let e :=
    set_Jac_fpts
      (upd fpt
         (accumJac (nNodes e) (nDims e) (nth fpt (dShape_fpts e) []) nds
            (initializeToZero (nth fpt (Jac_fpts e) [])))
         (Jac_fpts e)) e in
  let J := nth fpt (Jac_fpts e) [] in
  if (nDims e =? 2)%nat then
    let e := set_detJac_fpts (upd fpt (det2 J) (detJac_fpts e)) e in
    set_JGinv_fpts (upd fpt (adj2 J (nth fpt (JGinv_fpts e) [])) (JGinv_fpts e)) e
  else if (nDims e =? 3)%nat then
    let e := set_detJac_fpts (upd fpt (det3 J) (detJac_fpts e)) e in
    set_JGinv_fpts (upd fpt (adj3 J (nth fpt (JGinv_fpts e) [])) (JGinv_fpts e)) e
  else e.

(** ... and the outward normal with its magnitude. *)
Definition calcTransforms_fpt_normal (fpt : nat) (e : ele) : ele :=
  (* face normal from reference to physical space: JGinv .dot. tNorm *)
  let e :=
    set_norm_fpts
      (for_ (nDims e) (fun dim1 N =>
         let N := mset N fpt dim1 0 in
         for_ (nDims e) (fun dim2 N =>
           mset N fpt dim1
             (mget N fpt dim1
              + mget (nth fpt (JGinv_fpts e) []) dim2 dim1 * mget (tNorm_fpts e) fpt dim2))
           N) (norm_fpts e)) e in
  (* magnitude of the face normal *)
  let e := set_dA_fpts (upd fpt 0 (dA_fpts e)) e in
  let e :=
    set_dA_fpts
      (for_ (nDims e) (fun dim dA =>
         upd fpt (nth fpt dA 0 + mget (norm_fpts e) fpt dim * mget (norm_fpts e) fpt dim) dA)
         (dA_fpts e)) e in
  let e := set_dA_fpts (upd fpt (sqrt (nth fpt (dA_fpts e) 0)) (dA_fpts e)) e in
  (* normalize; a collapsed edge has dA = 0 and gets the zero normal *)
  if Rltb (Rabs (nth fpt (dA_fpts e) 0)) 1e-10 then
    let e := set_dA_fpts (upd fpt 0 (dA_fpts e)) e in
    set_norm_fpts (for_ (nDims e) (fun dim N => mset N fpt dim 0) (norm_fpts e)) e
  else
    set_norm_fpts
      (for_ (nDims e) (fun dim N =>
         mset N fpt dim (mget N fpt dim / nth fpt (dA_fpts e) 0)) (norm_fpts e)) e.

Definition calcTransforms_fpt (moving : bool) (fpt : nat) (e : ele) : ele :=
  calcTransforms_fpt_normal fpt (calcTransforms_fpt_jac moving fpt e).

Definition calcTransforms (moving : bool) (e : ele) : result ele :=
  bind (forM_ (nSpts e) (calcTransforms_spt moving) e)
       (fun e => Ok (for_ (nFpts e) (calcTransforms_fpt moving) e)).

(** The determinant the loop over solution points computes at [spt], read
    off the element as it is on entry. *)
Definition detJ_spt (moving : bool) (e : ele) (spt : nat) : R :=
  let nds := if moving then nodesRK e else nodes e in
  let J := accumJac (nNodes e) (nDims e) (nth spt (dShape_spts e) []) nds
             (initializeToZero (nth spt (Jac_spts e) [])) in
  if (nDims e =? 2)%nat then det2 J
  else if (nDims e =? 3)%nat then det3 J
  else nth spt (detJac_spts e) 0.

(** The same at a flux point. *)
Definition detJ_fpt (moving : bool) (e : ele) (fpt : nat) : R :=
  let nds := if moving then nodesRK e else nodes e in
  let J := accumJac (nNodes e) (nDims e) (nth fpt (dShape_fpts e) []) nds
             (initializeToZero (nth fpt (Jac_fpts e) [])) in
  if (nDims e =? 2)%nat then det2 J
  else if (nDims e =? 3)%nat then det3 J
  else nth fpt (detJac_fpts e) 0.

(** Sum of the squares of the first [n] entries of a row. *)
Definition sumsq (n : nat) (row : list R) : R :=
  for_ n (fun dim acc => acc + nth dim row 0 * nth dim row 0) 0.

(** Euclidean norm of the stored normal at a flux point. *)
Definition normOfNormal (e : ele) (fpt : nat) : R :=
  sqrt (sumsq (nDims e) (nth fpt (norm_fpts e) [])).

(** The arrays the solution-point loop writes are as long as the loop. *)
Definition wf_spts (e : ele) : Prop :=
  List.length (detJac_spts e) = nSpts e /\ List.length (Jac_spts e) = nSpts e.

(** The per-point arrays the flux-point loop writes are as long as the
    loop, and the normals have one entry per dimension. *)
Definition wf_fpts (e : ele) : Prop :=
  dims (norm_fpts e) (nFpts e) (nDims e) /\
  List.length (dA_fpts e) = nFpts e /\
  List.length (detJac_fpts e) = nFpts e /\
  List.length (Jac_fpts e) = nFpts e /\
  List.length (JGinv_fpts e) = nFpts e.

(** What one pass of the flux-point loop computes at [fpt], read off the
    element as it is on entry: the inverse Jacobian times the determinant,
    the normal before it is normalized, the area element and the normal
    that are stored. *)
Definition JGinv_at (moving : bool) (e : ele) (fpt : nat) : matrix :=
  let nds := if moving then nodesRK e else nodes e in
  let J := accumJac (nNodes e) (nDims e) (nth fpt (dShape_fpts e) []) nds
             (initializeToZero (nth fpt (Jac_fpts e) [])) in
  if (nDims e =? 2)%nat then adj2 J (nth fpt (JGinv_fpts e) [])
  else if (nDims e =? 3)%nat then adj3 J (nth fpt (JGinv_fpts e) [])
  else nth fpt (JGinv_fpts e) [].

(** The normal loop on one row of [norm_fpts]. *)
Definition rawNormal (n_dims : nat) (JG tNorm : matrix) (fpt : nat) (row : list R) : list R :=
  for_ n_dims (fun dim1 r =>
    let r := upd dim1 0 r in
    for_ n_dims (fun dim2 r =>
      upd dim1 (nth dim1 r 0 + mget JG dim2 dim1 * mget tNorm fpt dim2) r) r) row.

(** The stored area element and normal, from the normal [raw] before it is
    normalized. *)
Definition storedArea (n_dims : nat) (raw : list R) : R :=
  if Rltb (Rabs (sqrt (sumsq n_dims raw))) 1e-10 then 0 else sqrt (sumsq n_dims raw).

Definition storedNormal (n_dims : nat) (raw : list R) : list R :=
  if Rltb (Rabs (sqrt (sumsq n_dims raw))) 1e-10
  then for_ n_dims (fun dim r => upd dim 0 r) raw
  else for_ n_dims (fun dim r => upd dim (nth dim r 0 / sqrt (sumsq n_dims raw)) r) raw.

Definition rawNormal_at (moving : bool) (e : ele) (fpt : nat) : list R :=
  rawNormal (nDims e) (JGinv_at moving e fpt) (tNorm_fpts e) fpt (nth fpt (norm_fpts e) []).

Definition dA_at (moving : bool) (e : ele) (fpt : nat) : R :=
  storedArea (nDims e) (rawNormal_at moving e fpt).

Definition norm_at (moving : bool) (e : ele) (fpt : nat) : list R :=
  storedNormal (nDims e) (rawNormal_at moving e fpt).

(** ** Positivity enforcement (getPrimitives, checkDensity, checkEntropy) *)

(** [getPrimitives] and [getPrimitivesFpt] run the same code on a row of
    [U_spts] and of [U_fpts]: [V] starts as [nFields] zeros. *)
Definition primitives (params : input.input) (n_dims n_fields : nat) (U : list R) : list R :=
  let V := repeat 0 n_fields in
  match input.equation params with
  | input.ADVECTION_DIFFUSION => upd 0 (nth 0 U 0) V
  | input.NAVIER_STOKES =>
      let V := upd 0 (nth 0 U 0) V in
      let V := upd 1 (nth 1 U 0 / nth 0 V 0) V in
      let V := upd 2 (nth 2 U 0 / nth 0 V 0) V in
      let vMagSq := nth 1 V 0 * nth 1 V 0 + nth 2 V 0 * nth 2 V 0 in
      let '(V, vMagSq) :=
        if (n_dims =? 3)%nat then
          let V := upd 3 (nth 3 U 0 / nth 0 V 0) V in
          (V, vMagSq + nth 3 V 0 * nth 3 V 0)
        else (V, vMagSq) in
      upd (n_dims + 1)
          ((input.gamma params - 1) * (nth (n_dims + 1) U 0 - 0.5 * nth 0 V 0 * vMagSq)) V
  end.

Definition getPrimitives (params : input.input) (e : ele) (spt : nat) : list R :=
  primitives params (nDims e) (nFields e) (nth spt (U_spts e) []).

Definition getPrimitivesFpt (params : input.input) (e : ele) (fpt : nat) : list R :=
  primitives params (nDims e) (nFields e) (nth fpt (U_fpts e) []).

(** Tolerance for squeezing. *)
Definition tol : R := 1e-10.

(** The scan for negative densities: the flag [negRho] and the running
    minimum [minRho] over the first [n] rows of [U]. *)
Definition scanRho (n : nat) (U : matrix) (st : bool * R) : bool * R :=
  for_ n (fun pt '(negRho, minRho) =>
    if Rltb (mget U pt 0) 0 then (true, Rmin minRho (mget U pt 0))
    else (negRho, minRho)) st.

(** The same scan with the [break] of [checkDensity]: it stops at the first
    negative density. *)
Fixpoint scanRho_break (pts : list nat) (U : matrix) (st : bool * R) : bool * R :=
  match pts with
  | [] => st
  | pt :: rest =>
      if Rltb (mget U pt 0) 0 then (true, Rmin (snd st) (mget U pt 0))
      else scanRho_break rest U st
  end.

(** The density squeeze: only field 0 is blended. *)
Definition squeezeRho (eps : R) (e : ele) : ele :=
  let e :=
    for_ (nSpts e) (fun spt e =>
      set_U_spts
        (mset (U_spts e) spt 0
           ((1 - eps) * nth 0 (Uavg e) 0 + eps * mget (U_spts e) spt 0)) e) e in
  for_ (nFpts e) (fun fpt e =>
    set_U_fpts
      (mset (U_fpts e) fpt 0
         ((1 - eps) * nth 0 (Uavg e) 0 + eps * mget (U_fpts e) fpt 0)) e) e.

Definition checkDensity (e : ele) : bool * ele :=
  let '(negRho, minRho) := scanRho_break (seq 0 (nSpts e)) (U_spts e) (false, 1e15) in
  let '(negRho, minRho) := scanRho_break (seq 0 (nFpts e)) (U_fpts e) (negRho, minRho) in
  if negRho then
    let eps := Rabs (nth 0 (Uavg e) 0 - tol) / (nth 0 (Uavg e) 0 - minRho) in
    (negRho, squeezeRho eps e)
  else (negRho, e).

(** [checkEntropy], first part: "check if density is negative and squeeze
    if needed". *)
Definition negRho (e : ele) : bool :=
  fst (scanRho (nFpts e) (U_fpts e) (scanRho (nSpts e) (U_spts e) (false, 1e15))).

Definition minRho (e : ele) : R :=
  snd (scanRho (nFpts e) (U_fpts e) (scanRho (nSpts e) (U_spts e) (false, 1e15))).

Definition densityEps (e : ele) : R :=
  Rabs (nth 0 (Uavg e) 0 - tol) / (nth 0 (Uavg e) 0 - minRho e).

Definition checkEntropy_density (e : ele) : ele :=
  if negRho e then squeezeRho (densityEps e) e else e.

(** [checkEntropy], second part: "check for entropy loss and correct if
    needed".  [tau] is the entropy-bounding value of one row. *)
Definition tau (params : input.input) (n_dims : nat) (phi : list R) : R :=
  nth (n_dims + 1) phi 0 - input.exps0 params * Rpower (nth 0 phi 0) (input.gamma params).

Definition minTau (params : input.input) (e : ele) : R :=
  let m :=
    for_ (nSpts e) (fun spt m =>
      Rmin m (tau params (nDims e) (getPrimitives params e spt))) 1e15 in
  for_ (nFpts e) (fun fpt m =>
    Rmin m (tau params (nDims e) (getPrimitivesFpt params e fpt))) m.

(** Pressure of the mean state, as the squeeze computes it. *)
Definition pAvg (params : input.input) (e : ele) : R :=
  let rho := nth 0 (Uavg e) 0 in
  let u := nth 1 (Uavg e) 0 / rho in
  let v := nth 2 (Uavg e) 0 / rho in
  let w := if (nDims e =? 3)%nat then nth 3 (Uavg e) 0 / rho else 0 in
  let vMagSq := u*u + v*v + w*w in
  (input.gamma params - 1) * (nth (nDims e + 1) (Uavg e) 0 - 0.5 * rho * vMagSq).

Definition entropyEps (params : input.input) (e : ele) : R :=
  minTau params e
  / (minTau params e - pAvg params e
     + input.exps0 params * Rpower (nth 0 (Uavg e) 0) (input.gamma params)).

(** The entropy squeeze: every field is blended. *)
Definition squeezeAll (Eps : R) (e : ele) : ele :=
  let e :=
    for_ (nSpts e) (fun spt e =>
      for_ (nFields e) (fun i e =>
        set_U_spts
          (mset (U_spts e) spt i
             (Eps * nth i (Uavg e) 0 + (1 - Eps) * mget (U_spts e) spt i)) e) e) e in
  for_ (nFpts e) (fun fpt e =>
    for_ (nFields e) (fun i e =>
      set_U_fpts
        (mset (U_fpts e) fpt i
           (Eps * nth i (Uavg e) 0 + (1 - Eps) * mget (U_fpts e) fpt i)) e) e) e.

Definition checkEntropy_tau (params : input.input) (e : ele) : ele :=
  if Rltb (minTau params e) 0 then squeezeAll (entropyEps params e) e else e.

Definition checkEntropy (params : input.input) (e : ele) : ele :=
  checkEntropy_tau params (checkEntropy_density e).

(** The entropy-bounding value of a row of conserved variables, written
    out: [(gamma-1)*(E - rho*|v|^2/2) - exps0*rho^gamma]. *)
Definition tauOf (params : input.input) (n_dims : nat) (U : list R) : R :=
  let rho := nth 0 U 0 in
  let q := nth 1 U 0 / rho * (nth 1 U 0 / rho) + nth 2 U 0 / rho * (nth 2 U 0 / rho)
           + (if (n_dims =? 3)%nat then nth 3 U 0 / rho * (nth 3 U 0 / rho) else 0) in
  (input.gamma params - 1) * (nth (n_dims + 1) U 0 - 0.5 * rho * q)
  - input.exps0 params * Rpower rho (input.gamma params).

(** The solution arrays are sized: one row of [nFields] entries per
    point. *)
Definition wf_U (e : ele) : Prop :=
  dims (U_spts e) (nSpts e) (nFields e) /\ dims (U_fpts e) (nFpts e) (nFields e).

(** ** Reference-location search (getBoundingBox, getRefLocNewton) *)

(** [getBoundingBox]: the box starts as [{INF,INF,INF,-INF,-INF,-INF}] and
    takes the minimum and maximum with every node, so after the first node
    it holds that node's coordinates; without nodes it stays infinite,
    which is [None] here. *)
Definition getBoundingBox (params : input.input) (e : ele) : option (list R) :=
  let nds := if (input.motion params =? 0)%nat then nodes e else nodesRK e in
  match nds with
  | [] => None
  | n0 :: rest =>
      Some (fold_left
              (fun bbox pt =>
                 for_ 3 (fun dim bbox =>
                   let bbox := upd dim (Rmin (nth dim bbox 0) (pidx pt dim)) bbox in
                   upd (dim + 3) (Rmax (nth (dim + 3) bbox 0) (pidx pt dim)) bbox) bbox)
              rest [px n0; py n0; pz n0; px n0; py n0; pz n0])
  end.

(** The bounding-box test that opens both reference-location searches. *)
Definition outsideBox (box : list R) (pos : point) : bool :=
  let eps := 1e-10 in
  Rltb (px pos) (nth 0 box 0 - eps) || Rltb (py pos) (nth 1 box 0 - eps)
  || Rltb (pz pos) (nth 2 box 0 - eps) || Rltb (nth 3 box 0 + eps) (px pos)
  || Rltb (nth 4 box 0 + eps) (py pos) || Rltb (nth 5 box 0 + eps) (pz pos).

Definition sentinel : point := mkPoint 99 99 99.

(** Every component in [[-1,1]]. *)
Definition inRefBox (p : point) : Prop :=
  (-1 <= px p <= 1) /\ (-1 <= py p <= 1) /\ (-1 <= pz p <= 1).

Section Newton.

(** Helpers whose code is outside these sources ([funcs.cpp],
    [matrix.hpp]); the search is modelled for any of them. *)
Variable shape_quad : point -> nat -> list R.
Variable dshape_quad : point -> nat -> matrix.
Variable det : matrix -> R.
Variable adjoint : matrix -> matrix.

Variable params : input.input.
Variable e : ele.

(** The first half of the body of the [while] loop: the Jacobian [grad] of
    the position map at [loc] and the residual [dx = pos - x(loc)]. *)
Definition newton_grad_dx (pos loc : point) : matrix * point :=
  let shape := shape_quad loc (nNodes e) in
  let dshape := dshape_quad loc (nNodes e) in
  let nds := if negb (input.motion params =? 0)%nat then nodesRK e else nodes e in
  for_ (nNodes e) (fun n st =>
    for_ (nDims e) (fun i '(grad, dx) =>
      let grad :=
        for_ (nDims e) (fun j grad =>
          mset grad i j (mget grad i j + pidx (nth n nds origin) i * mget dshape n j))
          grad in
      (grad, pset dx i (pidx dx i - nth n shape 0 * pidx (nth n nds origin) i))) st)
    (zeros (nDims e) (nDims e), pos).

(** [detJ] of the pass from [loc]. *)
Definition newton_detJ (pos loc : point) : R := det (fst (newton_grad_dx pos loc)).

(** The body of the [while] loop: from [loc] to the next, clamped, [loc]
    and the squared residual [norm].  The code divides by [detJ] without a
    test.  For [detJ == 0] the quotients are infinite or not numbers in
    double arithmetic, and a [loc] that is not a number passes the clamp
    [max(min(loc,1.),-1.)] as it is; the real numbers have no value for
    such a pass, which is [None] here. *)
Definition newton_step (pos loc : point) : option (point * R) :=
  let '(grad, dx) := newton_grad_dx pos loc in
  let detJ := det grad in
  let ginv := adjoint grad in
  if Rzerob detJ then None
  else
    let delta :=
      for_ (nDims e) (fun i delta =>
        for_ (nDims e) (fun j delta =>
          pset delta i (pidx delta i + mget ginv i j * pidx dx j / detJ)) delta) origin in
    let '(norm, loc) :=
      for_ (nDims e) (fun i '(norm, loc) =>
        let norm := norm + pidx dx i * pidx dx i in
        let loc := pset loc i (pidx loc i + pidx delta i) in
        let loc := pset loc i (Rmax (Rmin (pidx loc i) 1) (-1)) in
        (norm, loc)) (0, loc) in
    Some (loc, norm).

(** The location and the squared residual after [k] passes of the loop,
    which starts from [loc = {0,0,0}] and [norm = 1]. *)
Fixpoint newton_iter (pos : point) (k : nat) : option (point * R) :=
  match k with
  | O => Some (origin, 1)
  | S k' =>
      match newton_iter pos k' with
      | Some (loc, _) => newton_step pos loc
      | None => None
      end
  end.

(** [while (norm > tol && iter<iterMax) { ...; iter++; if (iter == iterMax)
    return false; } return true;] with [remaining = iterMax - iter].  The
    iterates are collected in order; the C++ function returns the flag and
    the last [loc] only.  The result is [None] when a pass has no value. *)
Fixpoint newton_loop (remaining : nat) (tol : R) (pos : point) (norm : R) (loc : point)
         (iterates : list point) : option (bool * point * list point) :=
  match remaining with
  | O => Some (true, loc, iterates)
  | S r =>
      if Rltb tol norm then
        match newton_step pos loc with
        | None => None
        | Some (loc, norm) =>
            let iterates := iterates ++ [loc] in
            if (r =? 0)%nat then Some (false, loc, iterates)
            else newton_loop r tol pos norm loc iterates
        end
      else Some (true, loc, iterates)
  end.

Definition iterMax : nat := 20.

Definition getRefLocNewton_iterates (pos : point) : option (bool * point * list point) :=
  match getBoundingBox params e with
  | None => Some (false, sentinel, [])
  | Some box =>
      if outsideBox box pos then Some (false, sentinel, [])
      else
        let h := Rmin (nth 3 box 0 - nth 0 box 0) (nth 4 box 0 - nth 1 box 0) in
        let h := if (nDims e =? 3)%nat then Rmin h (nth 5 box 0 - nth 2 box 0) else h in
        let tol := 1e-12 * h in
        newton_loop iterMax tol pos 1 origin []
  end.

(** [bool getRefLocNewton(point pos, point &loc)]: the flag and the value
    left in [loc]. *)
Definition getRefLocNewton (pos : point) : option (bool * point) :=
  match getRefLocNewton_iterates pos with
  | Some (ok, loc, _) => Some (ok, loc)
  | None => None
  end.

(** The search was turned away by the bounding-box test. *)
Definition bboxReject (pos : point) : bool :=
  match getBoundingBox params e with
  | None => true
  | Some box => outsideBox box pos
  end.

End Newton.

(** [calcPos]: the physical position of the reference location [loc], the
    nodes weighted by the shape functions there.  [getShape] dispatches on
    the element type to the shape functions of [funcs.cpp], which are not
    among the sources; it is the first argument. *)
Definition calcPos (getShape : point -> list R) (params : input.input) (e : ele)
           (loc : point) : point :=
  let tmpShape := getShape loc in
  let nds := if (input.motion params =? 0)%nat then nodes e else nodesRK e in
  for_ (nNodes e) (fun iv pt =>
    for_ (nDims e) (fun dim pt =>
      pset pt dim (pidx pt dim + nth iv tmpShape 0 * pidx (nth iv nds origin) dim)) pt)
    origin.

(** Modelled from the spec: the shape functions of the 4-node quadrilateral
    and their reference derivatives ([shape_quad], [dshape_quad] of
    [funcs.cpp], which is not among the sources), for the position map
    [r -> sum_i N_i(r) x_i] with nodes in counter-clockwise order from
    [(-1,-1)]. *)
Definition shape_quad4 (loc : point) (n_nodes : nat) : list R :=
  let xi := px loc in let eta := py loc in
  [ (1 - xi) * (1 - eta) / 4; (1 + xi) * (1 - eta) / 4;
    (1 + xi) * (1 + eta) / 4; (1 - xi) * (1 + eta) / 4 ].

(** Modelled from the spec: the reference derivatives of these shape
    functions ([dshape_quad] of [funcs.cpp], which is not among the
    sources), one row per node. *)
Definition dshape_quad4 (loc : point) (n_nodes : nat) : matrix :=
  let xi := px loc in let eta := py loc in
  [ [- (1 - eta) / 4; - (1 - xi) / 4]; [(1 - eta) / 4; - (1 + xi) / 4];
    [(1 + eta) / 4; (1 + xi) / 4]; [- (1 + eta) / 4; (1 - xi) / 4] ].

(** Modelled from the spec: the determinant of a 2x2 [matrix<double>]
    ([matrix.hpp] is not among the sources). *)
Definition det_2x2 (M : matrix) : R := mget M 0 0 * mget M 1 1 - mget M 0 1 * mget M 1 0.

(** Modelled from the spec: the adjoint (determinant times inverse) of a
    2x2 [matrix<double>] ([matrix.hpp] is not among the sources). *)
Definition adjoint_2x2 (M : matrix) : matrix :=
  [ [mget M 1 1; - mget M 0 1]; [- mget M 1 0; mget M 0 0] ].

(** The element size used as the scale of tolerances: the smallest extent
    of the bounding box, as [getRefLocNewton] takes it. *)
Definition elementSize (params : input.input) (e : ele) : R :=
  match getBoundingBox params e with
  | None => 0
  | Some box =>
      let h := Rmin (nth 3 box 0 - nth 0 box 0) (nth 4 box 0 - nth 1 box 0) in
      if (nDims e =? 3)%nat then Rmin h (nth 5 box 0 - nth 2 box 0) else h
  end.

(** ** A concrete element

    The order-0 quadrilateral: one solution point at the centre of the
    reference square, one flux point at the middle of each edge (bottom,
    right, top, left), four corner nodes.  The shape derivatives are those
    of the bilinear shape functions [(1 +- xi)(1 +- eta)/4] at these points
    (what [dshape_quad] stores for a 4-node element); every array has the
    size [setupArrays] gives it for one Runge-Kutta stage. *)
Definition dShape_centre : matrix :=
  [[-1/4; -1/4]; [1/4; -1/4]; [1/4; 1/4]; [-1/4; 1/4]].

Definition dShape_edges : list matrix :=
  [ [[-1/2; -1/4]; [1/2; -1/4]; [0; 1/4]; [0; 1/4]];
    [[-1/4; 0]; [1/4; -1/2]; [1/4; 1/2]; [-1/4; 0]];
    [[0; -1/4]; [0; -1/4]; [1/2; 1/4]; [-1/2; 1/4]];
    [[-1/4; -1/2]; [1/4; 0]; [1/4; 0]; [-1/4; 1/2]] ].

Definition quad0 (nds : list point) (U Umean : list R) : ele :=
  let nF := List.length U in
  {| ID := 0; nDims := 2; nFields := nF; nSpts := 1; nFpts := 4; nNodes := 4;
     dt := 0;
     nodes := nds; nodesRK := nds;
     U_spts := [U]; U_fpts := [U; U; U; U]; U0 := [U]; Uavg := Umean;
     divF_spts := [zeros 1 nF]; src_spts := zeros 1 nF;
     F_spts := [zeros 1 nF; zeros 1 nF];
     dF_spts := [[zeros 1 nF; zeros 1 nF]; [zeros 1 nF; zeros 1 nF]];
     dU_spts := [zeros 1 nF; zeros 1 nF];
     dShape_spts := [dShape_centre]; dShape_fpts := dShape_edges;
     Jac_spts := [zeros 2 2]; Jac_fpts := repeat (zeros 2 2) 4;
     JGinv_spts := [zeros 2 2]; JGinv_fpts := repeat (zeros 2 2) 4;
     detJac_spts := [0]; detJac_fpts := [0; 0; 0; 0];
     tNorm_fpts := [[0; -1]; [1; 0]; [0; 1]; [-1; 0]];
     norm_fpts := zeros 4 2; dA_fpts := [0; 0; 0; 0];
     gridVel_spts := zeros 1 2 |}.

(** The axis-parallel square with corners [(0,0)] and [(a,a)]. *)
Definition squareNodes (a : R) : list point :=
  [mkPoint 0 0 0; mkPoint a 0 0; mkPoint a a 0; mkPoint 0 a 0].

(** The square of side 4 with one field. *)
Definition square4 : ele := quad0 (squareNodes 4) [1] [1].

(** The square with corners [(1,0)], [(0,1)], [(-1,0)], [(0,-1)]; its
    bounding box is [[-1,1] x [-1,1]], of which it covers half. *)
Definition diamond : ele :=
  quad0 [mkPoint 0 (-1) 0; mkPoint 1 0 0; mkPoint 0 1 0; mkPoint (-1) 0 0] [1] [1].

(** A quadrilateral whose last two nodes coincide. *)
Definition pinched : ele :=
  quad0 [mkPoint 0 0 0; mkPoint 1 0 0; mkPoint 0 1 0; mkPoint 0 1 0] [1] [1].

(** Parameters of a static run. *)
Definition staticRun : input.input :=
  {| input.equation := input.NAVIER_STOKES; input.dtType := 0; input.dt := 1/2;
     input.motion := 0; input.meshType := 1; input.oversetMethod := 0;
     input.gamma := 7/5; input.exps0 := 0;
     input.iter := 0; input.time := 0; input.rkTime := 0;
     input.RKa := [0]; input.RKb := [1] |}.

(** A cell of a two-dimensional Euler run (fields: density, two momenta,
    energy) at rest: density [rho] at its solution point, density 1 at its
    four flux points, mean density [avg]. *)
Definition restCell (rho avg : R) : ele :=
  set_U_fpts [[1; 0; 0; 5/2]; [1; 0; 0; 5/2]; [1; 0; 0; 5/2]; [1; 0; 0; 5/2]]
    (quad0 (squareNodes 4) [rho; 0; 0; 5/2] [avg; 0; 0; 5/2]).

(** A two-dimensional element given by its solution arrays; the geometric
    arrays, which the squeezes do not read, are left empty. *)
Definition stateCell (Us Uf : matrix) (Um : list R) : ele :=
  {| ID := 0; nDims := 2; nFields := List.length Um;
     nSpts := List.length Us; nFpts := List.length Uf; nNodes := 4;
     dt := 0; nodes := squareNodes 4; nodesRK := squareNodes 4;
     U_spts := Us; U_fpts := Uf; U0 := []; Uavg := Um;
     divF_spts := []; src_spts := []; F_spts := []; dF_spts := []; dU_spts := [];
     dShape_spts := []; dShape_fpts := [];
     Jac_spts := []; Jac_fpts := []; JGinv_spts := []; JGinv_fpts := [];
     detJac_spts := []; detJac_fpts := [];
     tNorm_fpts := []; norm_fpts := []; dA_fpts := []; gridVel_spts := [] |}.

(** An order-1 cell on Lobatto points (4 solution points, 8 flux points,
    all at the corners) of a gas at rest with density 1: total energy [ea]
    on the lower edge, [eb] on the upper edge, [em] in the mean. *)
Definition lobattoCell (ea eb em : R) : ele :=
  stateCell
    [[1; 0; 0; ea]; [1; 0; 0; ea]; [1; 0; 0; eb]; [1; 0; 0; eb]]
    [[1; 0; 0; ea]; [1; 0; 0; ea]; [1; 0; 0; ea]; [1; 0; 0; eb];
     [1; 0; 0; eb]; [1; 0; 0; eb]; [1; 0; 0; eb]; [1; 0; 0; ea]]
    [1; 0; 0; em].

(** A quadrilateral collapsed to a point. *)
Definition collapsed : ele := quad0 (squareNodes 0) [1] [1].

(** A self-intersecting quadrilateral: the Jacobian determinant is 2 at the
    centre and -1 at the middle of the bottom edge. *)
Definition bowtie : ele :=
  quad0 [mkPoint 0 0 0; mkPoint 4 0 0; mkPoint (-10) (-1) 0; mkPoint 10 (-1) 0] [1] [1].

(** ** Flux at the solution points and its chain-rule divergence *)

Section Flux.

(** [inviscidFlux] of flux.cpp, which is not among the sources: from the
    state at one point it fills [tempF], the [nDims x nFields] physical
    flux there. *)
Variable inviscidFlux : input.input -> list R -> matrix.

(** [matrix<double>::adjoint] of matrix.hpp, which is not among the
    sources. *)
Variable adjoint : matrix -> matrix.

Definition calcInviscidFlux_spts (params : input.input) (e : ele) : ele :=
  for_ (nSpts e) (fun spt e =>
    let tempF := inviscidFlux params (nth spt (U_spts e) []) in
    if negb (input.motion params =? 0)%nat then
      (* don't transform yet; that is handled later *)
      for_ (nDims e) (fun i e =>
        for_ (nFields e) (fun k e =>
          set_F_spts (tset (F_spts e) i spt k (mget tempF i k)) e) e) e
    else
      (* transform back to the reference domain *)
      for_ (nDims e) (fun i e =>
        for_ (nFields e) (fun k e =>
          let e := set_F_spts (tset (F_spts e) i spt k 0) e in
          for_ (nDims e) (fun j e =>
            set_F_spts
              (tset (F_spts e) i spt k
                 (tget (F_spts e) i spt k
                  + mget (nth spt (JGinv_spts e) []) i j * mget tempF j k)) e) e) e) e) e.

(** The entry [(spt,k)] of [F_spts[i]] that [calcInviscidFlux_spts] writes,
    read off the element as it is on entry. *)
Definition F_at (params : input.input) (e : ele) (i spt k : nat) : R :=
  let tempF := inviscidFlux params (nth spt (U_spts e) []) in
  if negb (input.motion params =? 0)%nat then mget tempF i k
  else Rsum (nDims e) (fun j => mget (nth spt (JGinv_spts e) []) i j * mget tempF j k).

(** The 4x4 space-time Jacobian at a solution point: the Jacobian, the grid
    velocity as fourth column, 1 in the corner. *)
Definition spaceTimeJacobian (e : ele) (spt : nat) : matrix :=
  let Jn := mset (zeros 4 4) 3 3 1 in
  for_ 3 (fun i Jn =>
    let Jn := for_ 3 (fun j Jn => mset Jn i j (mget (nth spt (Jac_spts e) []) i j)) Jn in
    mset Jn i 3 (mget (gridVel_spts e) spt i)) Jn.

(** The first index of [dF_spts] is the derivative, the second the flux
    direction. *)
Definition transformGradF_spts (step : nat) (e : ele) : ele :=
  if (nDims e =? 2)%nat then
    for_ (nSpts e) (fun spt e =>
      let A := mget (gridVel_spts e) spt 1 * mget (nth spt (Jac_spts e) []) 0 1
               - mget (gridVel_spts e) spt 0 * mget (nth spt (Jac_spts e) []) 1 1 in
      let B := mget (gridVel_spts e) spt 0 * mget (nth spt (Jac_spts e) []) 1 0
               - mget (gridVel_spts e) spt 1 * mget (nth spt (Jac_spts e) []) 0 0 in
      for_ (nFields e) (fun k e =>
        let e :=
          set_dF_spts
            (qset (dF_spts e) 0 0 spt k
               (qget (dF_spts e) 0 0 spt k * mget (nth spt (Jac_spts e) []) 1 1
                - qget (dF_spts e) 0 1 spt k * mget (nth spt (Jac_spts e) []) 0 1
                + tget (dU_spts e) 0 spt k * A)) e in
        let e :=
          set_dF_spts
            (qset (dF_spts e) 1 1 spt k
               (- qget (dF_spts e) 1 0 spt k * mget (nth spt (Jac_spts e) []) 1 0
                + qget (dF_spts e) 1 1 spt k * mget (nth spt (Jac_spts e) []) 0 0
                + tget (dU_spts e) 1 spt k * B)) e in
        set_divF_spts
          (tset (divF_spts e) step spt k
             (qget (dF_spts e) 0 0 spt k + qget (dF_spts e) 1 1 spt k)) e) e) e
  else
    let e :=
      set_divF_spts
        (upd step (initializeToZero (nth step (divF_spts e) [])) (divF_spts e)) e in
    for_ (nSpts e) (fun spt e =>
      (* the full space+time Jacobian matrix and its adjoint *)
      let S := adjoint (spaceTimeJacobian e spt) in
      let e :=
        for_ 3 (fun dim1 e =>
          for_ 3 (fun dim2 e =>
            for_ (nFields e) (fun k e =>
              set_divF_spts
                (tset (divF_spts e) step spt k
                   (tget (divF_spts e) step spt k
                    + qget (dF_spts e) dim2 dim1 spt k * mget S dim2 dim1)) e) e) e) e in
      for_ 3 (fun dim e =>
        for_ (nFields e) (fun k e =>
          set_divF_spts
            (tset (divF_spts e) step spt k
               (tget (divF_spts e) step spt k
                + tget (dU_spts e) dim spt k * mget S dim 3)) e) e) e) e.

(** The entry [(spt,k)] of [divF_spts[step]] that [transformGradF_spts]
    writes, read off the element as it is on entry: in two dimensions ... *)
Definition chain2_at (e : ele) (spt k : nat) : R :=
  let J := nth spt (Jac_spts e) [] in
  let A := mget (gridVel_spts e) spt 1 * mget J 0 1
           - mget (gridVel_spts e) spt 0 * mget J 1 1 in
  let B := mget (gridVel_spts e) spt 0 * mget J 1 0
           - mget (gridVel_spts e) spt 1 * mget J 0 0 in
  (qget (dF_spts e) 0 0 spt k * mget J 1 1 - qget (dF_spts e) 0 1 spt k * mget J 0 1
   + tget (dU_spts e) 0 spt k * A)
  + (- qget (dF_spts e) 1 0 spt k * mget J 1 0 + qget (dF_spts e) 1 1 spt k * mget J 0 0
     + tget (dU_spts e) 1 spt k * B).

(** ... and in three, where the terms are added to zero in the order of the
    loops. *)
Definition chain3_at (e : ele) (spt k : nat) : R :=
  let S := adjoint (spaceTimeJacobian e spt) in
  for_ 3 (fun dim acc => acc + tget (dU_spts e) dim spt k * mget S dim 3)
    (for_ 3 (fun dim1 acc =>
       for_ 3 (fun dim2 acc => acc + qget (dF_spts e) dim2 dim1 spt k * mget S dim2 dim1) acc)
       0).

(** The twelve terms of [chain3_at] in the order the loops add them. *)
Definition chain3_terms (e : ele) (spt : nat) : list (nat -> R) :=
  let S := adjoint (spaceTimeJacobian e spt) in
  flat_map (fun dim1 =>
              map (fun dim2 k => qget (dF_spts e) dim2 dim1 spt k * mget S dim2 dim1)
                  (seq 0 3))
           (seq 0 3)
  ++ map (fun dim k => tget (dU_spts e) dim spt k * mget S dim 3) (seq 0 3).

End Flux.

(** A list without its entry [i], a matrix without row [i] and column [j],
    and the sign of the cofactor of entry [(i,j)]. *)
Definition dropAt {A : Type} (i : nat) (l : list A) : list A :=
  firstn i l ++ skipn (S i) l.

Definition minor (M : matrix) (i j : nat) : matrix := map (dropAt j) (dropAt i M).

Definition cofactorSign (i j : nat) : R := if Nat.even (i + j) then 1 else -1.

(** Modelled from the spec: the adjoint of a 4x4 [matrix<double>]
    ([matrix::adjoint] of matrix.hpp, which is not among the sources), the
    transposed matrix of cofactors, equal to the determinant times the
    inverse. *)
Definition adjoint_4x4 (M : matrix) : matrix :=
  tabulate 4 4 (fun i j => cofactorSign i j * det3 (minor M j i)).

(** The inverse transformation times the determinant, as [calcTransforms]
    stores it from the Jacobian at every solution point. *)
Definition JGinv_of (n_dims : nat) (J : matrix) : matrix :=
  if (n_dims =? 2)%nat then adj2 J (zeros 2 2) else adj3 J (zeros 3 3).

(** The determinant [calcTransforms] stores with a Jacobian. *)
Definition detJac_of (n_dims : nat) (J : matrix) : R :=
  if (n_dims =? 2)%nat then det2 J else det3 J.

Definition metrics_spts (e : ele) : Prop :=
  forall spt, (spt < nSpts e)%nat ->
    nth spt (JGinv_spts e) [] = JGinv_of (nDims e) (nth spt (Jac_spts e) []).

(** The same Jacobian at every solution point: the element is a
    parallelogram or a parallelepiped. *)
Definition constantJacobian (e : ele) : Prop :=
  forall spt, (spt < nSpts e)%nat -> nth spt (Jac_spts e) [] = nth 0 (Jac_spts e) [].

Definition zeroGridVel (e : ele) : Prop :=
  forall spt dim, (spt < nSpts e)%nat -> (dim < nDims e)%nat ->
    mget (gridVel_spts e) spt dim = 0.

(** The flux arrays have the sizes [setupArrays] gives them. *)
Definition wf_flux (e : ele) (step : nat) : Prop :=
  dimsT (F_spts e) (nDims e) (nSpts e) (nFields e) /\
  dimsQ (dF_spts e) (nDims e) (nSpts e) (nFields e) /\
  (step < List.length (divF_spts e))%nat /\
  dimsT (divF_spts e) (List.length (divF_spts e)) (nSpts e) (nFields e).

(** ** Runge-Kutta stage updates *)

Definition timeStepA (params : input.input) (step : nat) (rkVal : R) (e : ele) : ele :=
  let e := if negb (input.dtType params =? 2)%nat then set_dt (input.dt params) e else e in
  for_ (nSpts e) (fun spt e =>
    for_ (nFields e) (fun i e =>
      set_U_spts
        (mset (U_spts e) spt i
           (mget (U0 e) spt i
            - rkVal * dt e * mget (nth step (divF_spts e) []) spt i
              / nth spt (detJac_spts e) 0))
        e) e) e.

Definition timeStepB (params : input.input) (step : nat) (rkVal : R) (e : ele) : ele :=
  let e := if negb (input.dtType params =? 2)%nat then set_dt (input.dt params) e else e in
  for_ (nSpts e) (fun spt e =>
    for_ (nFields e) (fun i e =>
      set_U_spts
        (mset (U_spts e) spt i
           (mget (U_spts e) spt i
            - rkVal * dt e * mget (nth step (divF_spts e) []) spt i
              / nth spt (detJac_spts e) 0))
        e) e) e.

Definition timeStepA_source (params : input.input) (step : nat) (rkVal : R) (e : ele) : ele :=
  let e := if negb (input.dtType params =? 2)%nat then set_dt (input.dt params) e else e in
  for_ (nSpts e) (fun spt e =>
    for_ (nFields e) (fun i e =>
      set_U_spts
        (mset (U_spts e) spt i
           (mget (U0 e) spt i
            - rkVal * dt e
              * (mget (nth step (divF_spts e) []) spt i + mget (src_spts e) spt i)
              / nth spt (detJac_spts e) 0))
        e) e) e.

Definition timeStepB_source (params : input.input) (step : nat) (rkVal : R) (e : ele) : ele :=
  let e := if negb (input.dtType params =? 2)%nat then set_dt (input.dt params) e else e in
  for_ (nSpts e) (fun spt e =>
    for_ (nFields e) (fun i e =>
      set_U_spts
        (mset (U_spts e) spt i
           (mget (U_spts e) spt i
            - rkVal * dt e
              * (mget (nth step (divF_spts e) []) spt i + mget (src_spts e) spt i)
              / nth spt (detJac_spts e) 0))
        e) e) e.

(** The time step a stage update multiplies by: [params->dt] unless the
    time step is local to the element ([dtType == 2]). *)
Definition stage_dt (params : input.input) (e : ele) : R :=
  if negb (input.dtType params =? 2)%nat then input.dt params else dt e.

(** The value [timeStepA] writes at [(spt,i)]. *)
Definition gA (step : nat) (rkVal : R) (e : ele) (spt i : nat) (old : R) : R :=
  mget (U0 e) spt i
  - rkVal * dt e * mget (nth step (divF_spts e) []) spt i
    / nth spt (detJac_spts e) 0.

(** The value [timeStepB] writes at [(spt,i)], [old] being the entry it replaces. *)
Definition gB (step : nat) (rkVal : R) (e : ele) (spt i : nat) (old : R) : R :=
  old
  - rkVal * dt e * mget (nth step (divF_spts e) []) spt i
    / nth spt (detJac_spts e) 0.

(** The values the variants with the multigrid source write. *)
Definition gA_source (step : nat) (rkVal : R) (e : ele) (spt i : nat) (old : R) : R :=
  mget (U0 e) spt i
  - rkVal * dt e * (mget (nth step (divF_spts e) []) spt i + mget (src_spts e) spt i)
    / nth spt (detJac_spts e) 0.

Definition gB_source (step : nat) (rkVal : R) (e : ele) (spt i : nat) (old : R) : R :=
  old
  - rkVal * dt e * (mget (nth step (divF_spts e) []) spt i + mget (src_spts e) spt i)
    / nth spt (detJac_spts e) 0.

(** The element update that [solver::timeStepA(step, PMG_Source)] calls,
    and the one that [solver::timeStepB(step, PMG_Source)] calls. *)
Definition stageUpdateA (PMG_Source : bool) : input.input -> nat -> R -> ele -> ele :=
  if PMG_Source then timeStepA_source else timeStepA.

Definition stageUpdateB (PMG_Source : bool) : input.input -> nat -> R -> ele -> ele :=
  if PMG_Source then timeStepB_source else timeStepB.

(** The residual a stage update reads at [(spt,i)]: the divergence of
    stage [step], plus the multigrid source when [PMG_Source] is set. *)
Definition stageRHS (PMG_Source : bool) (step : nat) (e : ele) (spt i : nat) : R :=
  if PMG_Source
  then mget (nth step (divF_spts e) []) spt i + mget (src_spts e) spt i
  else mget (nth step (divF_spts e) []) spt i.

Definition copyUspts_U0 (e : ele) : ele := set_U0 (U_spts e) e.

Definition copyU0_Uspts (e : ele) : ele := set_U_spts (U0 e) e.

(** ** The flux in the reference domain (transformFlux_physToRef) *)

Section FluxTransform.

(** [matrix<double>::adjoint] of matrix.hpp, which is not among the
    sources. *)
Variable adjoint : matrix -> matrix.

Definition transformFlux_physToRef (params : input.input) (e : ele) : list matrix :=
  let outF := repeat (zeros (nSpts e) (nFields e)) (nDims e) in
  if negb (input.motion params =? 0)%nat then
    (* use space-time transformation *)
    for_ (nSpts e) (fun spt outF =>
      let jacobian := zeros (nDims e + 1) (nDims e + 1) in
      let jacobian := mset jacobian (nDims e) (nDims e) 1 in
      let jacobian :=
        for_ (nDims e) (fun dim1 jacobian =>
          let jacobian := mset jacobian dim1 (nDims e) (mget (gridVel_spts e) spt dim1) in
          for_ (nDims e) (fun dim2 jacobian =>
            mset jacobian dim1 dim2 (mget (nth spt (Jac_spts e) []) dim1 dim2)) jacobian)
          jacobian in
      let S := adjoint jacobian in
      for_ (nFields e) (fun k outF =>
        for_ (nDims e) (fun dim1 outF =>
          let outF := tset outF dim1 spt k (mget (U_spts e) spt k * mget S dim1 (nDims e)) in
          for_ (nDims e) (fun dim2 outF =>
            tset outF dim1 spt k
                 (tget outF dim1 spt k + mget S dim1 dim2 * tget (F_spts e) dim2 spt k))
            outF) outF) outF) outF
  else
    (* standard static transformation *)
    for_ (nSpts e) (fun spt outF =>
      for_ (nDims e) (fun dim1 outF =>
        for_ (nFields e) (fun k outF =>
          let outF := tset outF dim1 spt k 0 in
          for_ (nDims e) (fun dim2 outF =>
            tset outF dim1 spt k
                 (tget outF dim1 spt k
                  + mget (nth spt (JGinv_spts e) []) dim1 dim2 * tget (F_spts e) dim2 spt k))
            outF) outF) outF) outF.

End FluxTransform.

(** ** The objective of the Nelder-Mead search (getDxNelderMead) *)

(** The distance between [physPos] and the image of [refLoc], plus a
    penalty for every reference coordinate outside [[-1,1]]. *)
Definition getDxNelderMead (getShape : point -> list R) (params : input.input) (e : ele)
           (refLoc physPos : point) : R :=
  let pt := calcPos getShape params e refLoc in
  let dx := psub physPos pt in
  let norm := pnorm dx in
  let refLoc := pabs refLoc in
  for_ (nDims e) (fun i norm =>
    if Rltb 1 (pidx refLoc i) then
      let dxi2 := (pidx refLoc i - 1) * (pidx refLoc i - 1) in
      norm + (exp (dxi2 * dxi2) - 1)
    else norm) norm.

(** ** Rigid translation of the element *)

Definition set_nodes (v : list point) (e : ele) : ele :=
  mkEle (ID e) (nDims e) (nFields e) (nSpts e) (nFpts e) (nNodes e) (dt e)
    v (nodesRK e) (U_spts e) (U_fpts e) (U0 e) (Uavg e) (divF_spts e)
    (src_spts e) (F_spts e) (dF_spts e) (dU_spts e) (dShape_spts e)
    (dShape_fpts e) (Jac_spts e) (Jac_fpts e) (JGinv_spts e) (JGinv_fpts e)
    (detJac_spts e) (detJac_fpts e) (tNorm_fpts e) (norm_fpts e) (dA_fpts e)
    (gridVel_spts e).

Definition set_nodesRK (v : list point) (e : ele) : ele :=
  mkEle (ID e) (nDims e) (nFields e) (nSpts e) (nFpts e) (nNodes e) (dt e)
    (nodes e) v (U_spts e) (U_fpts e) (U0 e) (Uavg e) (divF_spts e)
    (src_spts e) (F_spts e) (dF_spts e) (dU_spts e) (dShape_spts e)
    (dShape_fpts e) (Jac_spts e) (Jac_fpts e) (JGinv_spts e) (JGinv_fpts e)
    (detJac_spts e) (detJac_fpts e) (tNorm_fpts e) (norm_fpts e) (dA_fpts e)
    (gridVel_spts e).

(** The element with every node, in [nodes] and in [nodesRK], moved by
    [t]: what a rigid translation of the mesh ([motion == 4]) does to it,
    [move] leaving the transforms as they are in that case. *)
Definition translate (t : Vec3) (e : ele) : ele :=
  set_nodesRK (map (fun p => padd p t) (nodesRK e))
    (set_nodes (map (fun p => padd p t) (nodes e)) e).

(** The shape derivatives at a point add up to zero over the nodes, in
    every reference direction. *)
Definition dShape_sums_zero (n_nodes n_dims : nat) (dShape : matrix) : Prop :=
  forall d, (d < n_dims)%nat -> Rsum n_nodes (fun i => mget dShape i d) = 0.

(** ** Reference normals (setTransformedNormals_fpts) *)

Definition set_tNorm_fpts (v : matrix) (e : ele) : ele :=
  mkEle (ID e) (nDims e) (nFields e) (nSpts e) (nFpts e) (nNodes e) (dt e)
    (nodes e) (nodesRK e) (U_spts e) (U_fpts e) (U0 e) (Uavg e) (divF_spts e)
    (src_spts e) (F_spts e) (dF_spts e) (dU_spts e) (dShape_spts e)
    (dShape_fpts e) (Jac_spts e) (Jac_fpts e) (JGinv_spts e) (JGinv_fpts e)
    (detJac_spts e) (detJac_fpts e) v (norm_fpts e) (dA_fpts e)
    (gridVel_spts e).

(** The element types the kernels distinguish; [OTHER] stands for every
    other value of [eType]. *)
Inductive eType_t : Type := TRI | QUAD | HEX | OTHER.

(** [tNorm_fpts(fpt,dim) = x] *)
Definition setTNorm (fpt dim : nat) (x : R) (e : ele) : ele :=
  set_tNorm_fpts (mset (tNorm_fpts e) fpt dim x) e.

(** [eType] and [order] are members of [ele] set by the constructor.  A
    face index for which the inner [switch] has no case writes nothing. *)
Definition setTransformedNormals_fpts (eType : eType_t) (order : nat) (e : ele)
  : result ele :=
  forM_ (nFpts e) (fun fpt e =>
    match eType with
    | TRI =>
        match (fpt / (order + 1))%nat with
        | 0%nat => Ok (setTNorm fpt 1 (-1) (setTNorm fpt 0 0 e))
        | 1%nat => Ok (setTNorm fpt 1 (sqrt 2) (setTNorm fpt 0 (sqrt 2) e))
        | 2%nat => Ok (setTNorm fpt 1 0 (setTNorm fpt 0 (-1) e))
        | _ => Ok e
        end
    | QUAD =>
        (* face ordering for quads: bottom, right, top, left *)
        match (fpt / (order + 1))%nat with
        | 0%nat => Ok (setTNorm fpt 1 (-1) (setTNorm fpt 0 0 e))
        | 1%nat => Ok (setTNorm fpt 1 0 (setTNorm fpt 0 1 e))
        | 2%nat => Ok (setTNorm fpt 1 1 (setTNorm fpt 0 0 e))
        | 3%nat => Ok (setTNorm fpt 1 0 (setTNorm fpt 0 (-1) e))
        | _ => Ok e
        end
    | HEX =>
        match (fpt / ((order + 1) * (order + 1)))%nat with
        | 0%nat => Ok (setTNorm fpt 2 (-1) (setTNorm fpt 1 0 (setTNorm fpt 0 0 e)))
        | 1%nat => Ok (setTNorm fpt 2 1 (setTNorm fpt 1 0 (setTNorm fpt 0 0 e)))
        | 2%nat => Ok (setTNorm fpt 2 0 (setTNorm fpt 1 0 (setTNorm fpt 0 (-1) e)))
        | 3%nat => Ok (setTNorm fpt 2 0 (setTNorm fpt 1 0 (setTNorm fpt 0 1 e)))
        | 4%nat => Ok (setTNorm fpt 2 0 (setTNorm fpt 1 (-1) (setTNorm fpt 0 0 e)))
        | 5%nat => Ok (setTNorm fpt 2 0 (setTNorm fpt 1 1 (setTNorm fpt 0 0 e)))
        | _ => Ok e
        end
    | OTHER => FatalError "Element type not yet implemented."
    end) e.

(** ** Initial condition (setInitialCondition) *)

(** [U_spts(spt,k) = x] *)
Definition setU (spt k : nat) (x : R) (e : ele) : ele :=
  set_U_spts (mset (U_spts e) spt k x) e.

(** [pos_spts], the physical positions of the solution points, is a member
    of [ele] filled by [calcPosSpts]. *)
Definition setInitialCondition (params : input.input) (ic : input.initialCondition)
           (pos_spts : list point) (e : ele) : ele :=
  match input.equation params with
  | input.NAVIER_STOKES =>
      let gamma := input.gamma params in
      if (input.icType ic =? 0)%nat then
        (* uniform "freestream" solution *)
        let rho := input.rhoIC ic in
        let vx := input.vxIC ic in
        let vy := input.vyIC ic in
        let vz := if (nDims e =? 3)%nat then input.vzIC ic else 0 in
        let p := input.pIC ic in
        for_ (nSpts e) (fun spt e =>
          let e := setU spt 0 rho e in
          let e := setU spt 1 (rho * vx) e in
          let e := setU spt 2 (rho * vy) e in
          let e := if (nDims e =? 3)%nat then setU spt 3 (rho * vz) e else e in
          setU spt (nDims e + 1)
               (p / (gamma - 1) + (0.5 * rho * (vx*vx + vy*vy + vz*vz))) e) e
      else if (input.icType ic =? 1)%nat then
        (* isentropic vortex of strength eps centered at (0,0) *)
        let eps := 5 in
        for_ (nSpts e) (fun spt e =>
          let x := px (nth spt pos_spts origin) in
          let y := py (nth spt pos_spts origin) in
          let f := 1 - (x*x + y*y) in
          (* limiting rho to 1e-3 to avoid negative density/pressure issues *)
          let rho := Rmax (Rpower (1 - eps*eps*(gamma - 1) / (8*gamma*PI*PI) * exp f)
                                  (1 / (gamma - 1) + 1e-5)) 1e-3 in
          let vx := 1 - eps*y / (2*PI) * exp (f/2) in
          let vy := 1 + eps*x / (2*PI) * exp (f/2) in
          let p := Rpower rho gamma in
          let e := setU spt 0 rho e in
          let e := setU spt 1 (rho * vx) e in
          let e := setU spt 2 (rho * vy) e in
          let e := if (nDims e =? 3)%nat then setU spt 3 0 e else e in
          setU spt (nDims e + 1) (p / (gamma - 1) + (0.5 * rho * (vx*vx + vy*vy))) e) e
      else if (input.icType ic =? 2)%nat then
        (* isentropic vortex of strength eps centered at (0,0) (Liang version) *)
        let eps := 1 in
        let rc := 1 in
        let Minf := 0.3 in
        let Uinf := 1 in
        let rhoInf := 1 in
        let theta := atan 0.5 in
        let Pinf := Rpower Minf (-2) / gamma in
        let eM := (eps*Minf) * (eps*Minf) in
        for_ (nSpts e) (fun spt e =>
          let x := px (nth spt pos_spts origin) in
          let y := py (nth spt pos_spts origin) in
          let f := - (x*x + y*y) / (rc*rc) in
          let vx := Uinf * (cos theta - y*eps/rc * exp (f/2)) in
          let vy := Uinf * (sin theta + x*eps/rc * exp (f/2)) in
          let rho := rhoInf * Rpower (1 - (gamma - 1)/2 * eM * exp f) (gamma / (gamma - 1)) in
          let p := Pinf * Rpower (1 - (gamma - 1)/2 * eM * exp f) (gamma / (gamma - 1)) in
          let e := setU spt 0 rho e in
          let e := setU spt 1 (rho * vx) e in
          let e := setU spt 2 (rho * vy) e in
          let e := if (nDims e =? 3)%nat then setU spt 3 0 e else e in
          setU spt (nDims e + 1) (p / (gamma - 1) + (0.5 * rho * (vx*vx + vy*vy))) e) e
      else e
  | input.ADVECTION_DIFFUSION =>
      if (input.icType ic =? 0)%nat then
        (* simple Gaussian bump centered at (0,0) *)
        for_ (nSpts e) (fun spt e =>
          let r2 := pdot (nth spt pos_spts origin) (nth spt pos_spts origin) in
          setU spt 0 (exp (- r2)) e) e
      else if (input.icType ic =? 1)%nat then
        for_ (nSpts e) (fun spt e =>
          setU spt 0 (1 + sin (2*PI*(px (nth spt pos_spts origin) + 5) / 10)) e) e
      else if (input.icType ic =? 2)%nat then
        for_ (nSpts e) (fun spt e =>
          setU spt 0 (cos (2*PI*px (nth spt pos_spts origin) / 6)
                      * cos (2*PI*py (nth spt pos_spts origin) / 6)
                      * cos (2*PI*pz (nth spt pos_spts origin) / 6)) e) e
      else e
  end.

(** ** Solution transfer (getUSpts, setUSpts) *)

(** [Uvec] is a caller's buffer of [nSpts*nFields] entries, solution point
    by solution point. *)
Definition getUSpts (e : ele) (Uvec : list R) : list R :=
  for_ (nSpts e) (fun spt Uvec =>
    for_ (nFields e) (fun field Uvec =>
      upd (spt * nFields e + field) (mget (U_spts e) spt field) Uvec) Uvec) Uvec.

Definition setUSpts (Uvec : list R) (e : ele) : ele :=
  for_ (nSpts e) (fun spt e =>
    for_ (nFields e) (fun field e =>
      setU spt field (nth (spt * nFields e + field) Uvec 0) e) e) e.

(** ** Residual norms (getNormResidual) *)

(** [weights] are the quadrature weights [getQptWeights(order,nDims)], one
    per solution point. *)
Definition getNormResidual (weights : list R) (normType : nat) (e : ele) : list R :=
  for_ (nSpts e) (fun spt res =>
    for_ (nFields e) (fun i res =>
      let d := mget (nth 0 (divF_spts e) []) spt i in
      if (normType =? 1)%nat then
        upd i (nth i res 0 + Rabs d * nth spt weights 0) res
      else if (normType =? 2)%nat then
        upd i (nth i res 0 + d * d / nth spt (detJac_spts e) 0 * nth spt weights 0) res
      else if (normType =? 3)%nat then
        (* infinity norm *)
        upd i (Rmax (Rabs d / nth spt (detJac_spts e) 0) (nth i res 0)) res
      else res) res) (repeat 0 (nFields e)).

(** ** Gradient of the solution in the reference domain *)

Definition transformGradU_physToRef (e : ele) : list matrix :=
  let outDU := repeat (zeros (nSpts e) (nFields e)) (nDims e) in
  if (nDims e =? 2)%nat then
    for_ (nSpts e) (fun spt outDU =>
      for_ (nFields e) (fun k outDU =>
        let J := nth spt (Jac_spts e) [] in
        let outDU :=
          tset outDU 0 spt k
               (tget (dU_spts e) 0 spt k * mget J 1 1 - tget (dU_spts e) 1 spt k * mget J 0 1) in
        tset outDU 1 spt k
             (- tget (dU_spts e) 0 spt k * mget J 1 0 + tget (dU_spts e) 1 spt k * mget J 0 0))
        outDU) outDU
  else outDU.

(** ** Wave speeds and the time-step limit (calcWaveSpFpts, calcDt) *)

(** [advectV] holds [params->advectVx], [advectVy] and [advectVz];
    [gridVel_fpts] and [waveSp_fpts] are members of [ele] sized by
    [setupArrays] ([nFpts x nDims] and [nFpts]).  The result is the new
    [waveSp_fpts]. *)
Definition calcWaveSpFpts (params : input.input) (advectV : point) (gridVel_fpts : matrix)
           (e : ele) (waveSp_fpts : list R) : list R :=
  match input.equation params with
  | input.ADVECTION_DIFFUSION =>
      for_ (nFpts e) (fun fpt waveSp_fpts =>
        let u := px advectV in
        let v := py advectV in
        let w := if (nDims e =? 3)%nat then pz advectV else 0 in
        let '(u, v, w) :=
          if negb (input.motion params =? 0)%nat then
            (u - mget gridVel_fpts fpt 0, v - mget gridVel_fpts fpt 1,
             if (nDims e =? 3)%nat then w - mget gridVel_fpts fpt 2 else w)
          else (u, v, w) in
        let csq := u*u + v*v + w*w in
        upd fpt (sqrt csq / nth fpt (dA_fpts e) 0) waveSp_fpts) waveSp_fpts
  | input.NAVIER_STOKES =>
      for_ (nFpts e) (fun fpt waveSp_fpts =>
        let rho := mget (U_fpts e) fpt 0 in
        let u := mget (U_fpts e) fpt 1 / rho in
        let v := mget (U_fpts e) fpt 2 / rho in
        let w := if (nDims e =? 3)%nat then mget (U_fpts e) fpt 3 / rho else 0 in
        let rhoVSq := rho * (u*u + v*v + w*w) in
        let p := (input.gamma params - 1) * (mget (U_fpts e) fpt (nDims e + 1) - 0.5 * rhoVSq) in
        let vN := u * mget (norm_fpts e) fpt 0 + v * mget (norm_fpts e) fpt 1 in
        let vN := if (nDims e =? 3)%nat then vN + w * mget (norm_fpts e) fpt 2 else vN in
        let vgN :=
          if negb (input.motion params =? 0)%nat then
            let vgN := mget gridVel_fpts fpt 0 * mget (norm_fpts e) fpt 0
                       + mget gridVel_fpts fpt 1 * mget (norm_fpts e) fpt 1 in
            if (nDims e =? 3)%nat then vgN + mget gridVel_fpts fpt 2 * mget (norm_fpts e) fpt 2
            else vgN
          else 0 in
        let csq := Rmax (input.gamma params * p / rho) 0 in
        upd fpt ((Rabs (vN - vgN) + sqrt csq) / nth fpt (dA_fpts e) 0) waveSp_fpts)
        waveSp_fpts
  end.

(** [CFL] is [params->CFL] and [cflLimit] is [getCFLLimit(order)]; the new
    time step is returned and stored in the element. *)
Definition calcDt (CFL cflLimit : R) (waveSp_fpts : list R) (e : ele) : R * ele :=
  let waveSp :=
    for_ (nFpts e) (fun fpt waveSp =>
      if Rltb 0 (nth fpt (dA_fpts e) 0) (* ignore collapsed edges *)
      then Rmax waveSp (nth fpt waveSp_fpts 0)
      else waveSp) 0 in
  let dt := CFL * cflLimit * (2 / (waveSp + 1e-10)) in
  (dt, set_dt dt e).

End ele.

(* ================================================================== *)
(** * The operator cache *)

Module oper.

(** Modelled from the spec: the operators of one element type and order
    ([oper.cpp] is not among the sources).  [opp_grad_spts] holds one
    [nSpts x nSpts] matrix per reference dimension, the derivative of each
    solution basis function at each solution point; every operator acts as a
    dense matrix product on the element data. *)
Record oper : Type := mkOper {
  nDims : nat;
  nSpts : nat;
  nFields : nat;
  opp_grad_spts : list matrix
}.

(** Modelled from the spec: the dense product of an [n x p] by a [p x m]
    matrix. *)
Definition timesMatrix (n p m : nat) (A B : matrix) : matrix :=
  tabulate n m (fun i k => Rsum p (fun j => mget A i j * mget B j k)).

(** Modelled from the spec: the reference-space gradient of the flux, the
    derivative operator of direction [d1] applied to the flux of direction
    [d2]. *)
Definition applyGradFSpts (op : oper) (F_spts : list matrix) : list (list matrix) :=
  map (fun d1 =>
         map (fun d2 =>
                timesMatrix (nSpts op) (nSpts op) (nFields op)
                  (nth d1 (opp_grad_spts op) []) (nth d2 F_spts []))
             (seq 0 (nDims op)))
      (seq 0 (nDims op)).

(** Modelled from the spec: the divergence operator, the sum over the
    reference dimensions [d] of the derivative of the flux of direction [d]
    along [d]. *)
Definition applyDivFSpts (op : oper) (F_spts : list matrix) : matrix :=
  tabulate (nSpts op) (nFields op) (fun spt k =>
    Rsum (nDims op) (fun d =>
      mget (timesMatrix (nSpts op) (nSpts op) (nFields op)
              (nth d (opp_grad_spts op) []) (nth d F_spts [])) spt k)).

(** Modelled from the spec: the operators of the order-1 quadrilateral on
    Lobatto points ([setupOperators] is not among the sources).  The
    solution points are the corners [(-1,-1)], [(1,-1)], [(-1,1)], [(1,1)]
    of the reference square, and the basis is the product of the linear
    Lagrange polynomials, of derivative [-1/2] and [1/2]. *)
Definition lobatto1 (n_fields : nat) : oper :=
  {| nDims := 2; nSpts := 4; nFields := n_fields;
     opp_grad_spts :=
       [ [[-1/2; 1/2; 0; 0]; [-1/2; 1/2; 0; 0]; [0; 0; -1/2; 1/2]; [0; 0; -1/2; 1/2]];
         [[-1/2; 0; 1/2; 0]; [0; -1/2; 0; 1/2]; [-1/2; 0; 1/2; 0]; [0; -1/2; 0; 1/2]] ] |}.

End oper.

(* ================================================================== *)
(** * solver.cpp : one Runge-Kutta step *)

Module solver.

(** Cell blanking status kept by the geometry ([Geo->iblankCell]). *)
Inductive iblank_t : Type := NORMAL | HOLE | FRINGE.

Record solver : Type := mkSolver {
  params : input.input;
  eles : list ele.ele;
  nRKSteps : nat;
  iblankCell : list iblank_t
}.

Definition set_params (v : input.input) (s : solver) : solver :=
  mkSolver v (eles s) (nRKSteps s) (iblankCell s).

Definition set_eles (v : list ele.ele) (s : solver) : solver :=
  mkSolver (params s) v (nRKSteps s) (iblankCell s).

Definition isNormal (b : iblank_t) : bool :=
  match b with NORMAL => true | _ => false end.

(** [for (uint i=0; i<eles.size(); i++) eles[i]->f(...)] *)
Definition forEles (f : ele.ele -> ele.ele) (s : solver) : solver :=
  set_eles (map f (eles s)) s.

(** The same loop restricted to the cells whose blanking status is
    [NORMAL]; a cell without an entry in [iblankCell] is left alone. *)
Definition forNormalEles (f : ele.ele -> ele.ele) (s : solver) : solver :=
  set_eles
    (map (fun e => if isNormal (nth (ele.ID e) (iblankCell s) HOLE) then f e else e)
         (eles s)) s.

Definition fieldInterp (s : solver) : bool :=
  (input.meshType (params s) =? input.OVERSET_MESH)%nat
  && (input.oversetMethod (params s) =? 2)%nat.

(** An element the stage updates pass over: in the overset
    field-interpolation mode, one whose cell is not [NORMAL]. *)
Definition passedOver (s : solver) (e : ele.ele) : bool :=
  fieldInterp s && negb (isNormal (nth (ele.ID e) (iblankCell s) HOLE)).

Definition timeStepA (step : nat) (PMG_Source : bool) (s : solver) : solver :=
  let rkVal := nth (step + 1) (input.RKa (params s)) 0 in
  if PMG_Source then
    if fieldInterp s
    then forNormalEles (ele.timeStepA_source (params s) step rkVal) s
    else forEles (ele.timeStepA_source (params s) step rkVal) s
  else
    if fieldInterp s
    then forNormalEles (ele.timeStepA (params s) step rkVal) s
    else forEles (ele.timeStepA (params s) step rkVal) s.

Definition timeStepB (step : nat) (PMG_Source : bool) (s : solver) : solver :=
  let rkVal := nth step (input.RKb (params s)) 0 in
  if PMG_Source then
    if fieldInterp s
    then forNormalEles (ele.timeStepB_source (params s) step rkVal) s
    else forEles (ele.timeStepB_source (params s) step rkVal) s
  else
    if fieldInterp s
    then forNormalEles (ele.timeStepB (params s) step rkVal) s
    else forEles (ele.timeStepB (params s) step rkVal) s.

Definition copyUspts_U0 (s : solver) : solver := forEles ele.copyUspts_U0 s.

Definition copyU0_Uspts (s : solver) : solver := forEles ele.copyU0_Uspts s.

Section Update.

(** The collaborators of [update] whose code lies outside these sources
    (global time-step reduction over MPI, mesh motion through the geometry
    service, the residual pipeline over faces and operators) are taken as
    arbitrary transformers of the solver state. *)
Variable calcDt : solver -> solver.
Variable moveMesh : nat -> solver -> solver.
Variable calcResidual : nat -> solver -> solver.

Definition set_rkTime_stage (step : nat) (s : solver) : solver :=
  set_params
    (input.set_rkTime
       (input.time (params s) + nth step (input.RKa (params s)) 0 * input.dt (params s))
       (params s)) s.

(** [nRKSteps] is assigned by [setup] only, so it is read once; the stage
    indices are those of a run with at least one stage. *)
Definition update (PMG_Source : bool) (s : solver) : solver :=
  let nRK := nRKSteps s in
  let s := set_params (input.set_iter (input.iter (params s) + 1) (params s)) s in
  let s := if negb (input.dtType (params s) =? 0)%nat then calcDt s else s in
  let s :=
    for_ (nRK - 1) (fun step s =>
      let s := set_rkTime_stage step s in
      let s := moveMesh step s in
      let s := if (step =? 0)%nat then copyUspts_U0 s else s in
      let s := calcResidual step s in
      timeStepA step PMG_Source s) s in
  let s := set_rkTime_stage (nRK - 1) s in
  let s := moveMesh (nRK - 1) s in
  let s := calcResidual (nRK - 1) s in
  let s := if (1 <? nRK)%nat then copyU0_Uspts s else s in
  let s := for_ nRK (fun step s => timeStepB step PMG_Source s) s in
  set_params (input.set_time (input.time (params s) + input.dt (params s)) (params s)) s.

(** The step as the specification words it: [S-1] stages each ending in
    [timeStepA], the final residual, one restore of the snapshot when
    [S > 1], [timeStepB] for every stage, and the time advanced by [dt]. *)
Definition stageA (PMG_Source : bool) (step : nat) (s : solver) : solver :=
  let s := moveMesh step (set_rkTime_stage step s) in
  let s := if (step =? 0)%nat then copyUspts_U0 s else s in
  timeStepA step PMG_Source (calcResidual step s).

Definition update_stages (PMG_Source : bool) (s : solver) : solver :=
  let nRK := nRKSteps s in
  let s0 := set_params (input.set_iter (input.iter (params s) + 1) (params s)) s in
  let s0 := if negb (input.dtType (params s0) =? 0)%nat then calcDt s0 else s0 in
  let sA := fold_left (fun t step => stageA PMG_Source step t) (seq 0 (nRK - 1)) s0 in
  let sR := calcResidual (nRK - 1) (moveMesh (nRK - 1) (set_rkTime_stage (nRK - 1) sA)) in
  let sU := if (1 <? nRK)%nat then copyU0_Uspts sR else sR in
  let sB := fold_left (fun t step => timeStepB step PMG_Source t) (seq 0 nRK) sU in
  set_params (input.set_time (input.time (params sB) + input.dt (params sB)) (params sB)) sB.

End Update.

(** A transformer of the solver state that leaves the snapshot [U0] of
    every element as it is. *)
Definition keeps_U0 (F : solver -> solver) : Prop :=
  forall t, map ele.U0 (eles (F t)) = map ele.U0 (eles t).

(** ** The divergence of the flux (calcInviscidFlux_spts, calcFluxDivergence)

    The solver runs these kernels over all its elements, one at a time and
    each with the entry [opers[eType][order]] of the operator table; they
    are given here on one element [e] with its entry [op]. *)
Section Divergence.

Variable inviscidFlux : input.input -> list R -> matrix.
Variable adjoint : matrix -> matrix.

Definition calcGradF_spts (op : oper.oper) (e : ele.ele) : ele.ele :=
  ele.set_dF_spts (oper.applyGradFSpts op (ele.F_spts e)) e.

Definition calcDivF_spts (op : oper.oper) (step : nat) (e : ele.ele) : ele.ele :=
  ele.set_divF_spts (upd step (oper.applyDivFSpts op (ele.F_spts e)) (ele.divF_spts e)) e.

Definition calcFluxDivergence (params : input.input) (op : oper.oper) (step : nat)
           (e : ele.ele) : ele.ele :=
  if negb (input.motion params =? 0)%nat then
    (* non-conservation-form chain-rule transformation *)
    ele.transformGradF_spts adjoint step (calcGradF_spts op e)
  else
    (* standard conservative form *)
    calcDivF_spts op step e.

(** The flux at the solution points followed by its divergence, as
    [calcResidual] runs them for an inviscid stage. *)
Definition fluxDivergence (params : input.input) (op : oper.oper) (step : nat)
           (e : ele.ele) : ele.ele :=
  calcFluxDivergence params op step (ele.calcInviscidFlux_spts inviscidFlux params e).

(** The derivative along the reference direction [a] of the physical flux
    of direction [b], at solution point [s] and for field [k]. *)
Definition gradF_at (params : input.input) (op : oper.oper) (e : ele.ele)
           (a b s k : nat) : R :=
  Rsum (ele.nSpts e) (fun j =>
    mget (nth a (oper.opp_grad_spts op) []) s j
    * mget (inviscidFlux params (nth j (ele.U_spts e) [])) b k).

End Divergence.

(** The operator entry fits the element. *)
Definition oper_fits (op : oper.oper) (e : ele.ele) : Prop :=
  oper.nDims op = ele.nDims e /\ oper.nSpts op = ele.nSpts e /\
  oper.nFields op = ele.nFields e.

(** Modelled from the spec: the flux of the linear scalar advection
    equation with wave speed [(Vx, Vy)] ([flux.cpp] is not among the
    sources). *)
Definition advectionFlux (Vx Vy : R) (params : input.input) (U : list R) : matrix :=
  [[Vx * nth 0 U 0]; [Vy * nth 0 U 0]].

(** Advection runs on a static mesh and on a mesh in rigid translation. *)
Definition advStatic : input.input :=
  {| input.equation := input.ADVECTION_DIFFUSION; input.dtType := 0; input.dt := 1/2;
     input.motion := 0; input.meshType := 1; input.oversetMethod := 0;
     input.gamma := 7/5; input.exps0 := 0;
     input.iter := 0; input.time := 0; input.rkTime := 0;
     input.RKa := [0]; input.RKb := [1] |}.

Definition advMoving : input.input :=
  {| input.equation := input.ADVECTION_DIFFUSION; input.dtType := 0; input.dt := 1/2;
     input.motion := 4; input.meshType := 1; input.oversetMethod := 0;
     input.gamma := 7/5; input.exps0 := 0;
     input.iter := 0; input.time := 0; input.rkTime := 0;
     input.RKa := [0]; input.RKb := [1] |}.

(** The order-1 quadrilateral on Lobatto points with one field, before
    [calcTransforms]: the solution points are the corners of the reference
    square, the shape derivatives are those of [dshape_quad] there, the
    grid velocity is zero and the field takes the values [U]. *)
Definition lobattoCorners : list point :=
  [mkPoint (-1) (-1) 0; mkPoint 1 (-1) 0; mkPoint (-1) 1 0; mkPoint 1 1 0].

Definition quad1 (nds : list point) (U : list R) : ele.ele :=
  {| ele.ID := 0; ele.nDims := 2; ele.nFields := 1; ele.nSpts := 4; ele.nFpts := 0;
     ele.nNodes := 4; ele.dt := 0;
     ele.nodes := nds; ele.nodesRK := nds;
     ele.U_spts := map (fun u => [u]) U; ele.U_fpts := []; ele.U0 := map (fun u => [u]) U;
     ele.Uavg := [0];
     ele.divF_spts := [zeros 4 1]; ele.src_spts := zeros 4 1;
     ele.F_spts := [zeros 4 1; zeros 4 1];
     ele.dF_spts := [[zeros 4 1; zeros 4 1]; [zeros 4 1; zeros 4 1]];
     ele.dU_spts := [zeros 4 1; zeros 4 1];
     ele.dShape_spts := map (fun p => ele.dshape_quad4 p 4) lobattoCorners;
     ele.dShape_fpts := [];
     ele.Jac_spts := repeat (zeros 2 2) 4; ele.Jac_fpts := [];
     ele.JGinv_spts := repeat (zeros 2 2) 4; ele.JGinv_fpts := [];
     ele.detJac_spts := [0; 0; 0; 0]; ele.detJac_fpts := [];
     ele.tNorm_fpts := []; ele.norm_fpts := []; ele.dA_fpts := [];
     ele.gridVel_spts := zeros 4 2 |}.

(** A trapezoid, twice as wide at the top as at the bottom, and a
    parallelogram. *)
Definition trapezoidNodes : list point :=
  [mkPoint (-1) (-1) 0; mkPoint 1 (-1) 0; mkPoint 2 1 0; mkPoint (-2) 1 0].

Definition parallelogramNodes : list point :=
  [mkPoint 0 0 0; mkPoint 2 0 0; mkPoint 3 2 0; mkPoint 1 2 0].

(** The same elements after [calcTransforms]. *)
Definition trapezoid (U : list R) : ele.ele :=
  ele.set_detJac_spts [1; 1; 2; 2]
    (ele.set_JGinv_spts
       [[[1; 1/2]; [0; 1]]; [[1; -1/2]; [0; 1]]; [[1; 1/2]; [0; 2]]; [[1; -1/2]; [0; 2]]]
       (ele.set_Jac_spts
          [[[1; -1/2]; [0; 1]]; [[1; 1/2]; [0; 1]]; [[2; -1/2]; [0; 1]]; [[2; 1/2]; [0; 1]]]
          (quad1 trapezoidNodes U))).

Definition parallelogram (U : list R) : ele.ele :=
  ele.set_detJac_spts [1; 1; 1; 1]
    (ele.set_JGinv_spts (repeat [[1; -1/2]; [0; 1]] 4)
       (ele.set_Jac_spts (repeat [[1; 1/2]; [0; 1]] 4)
          (quad1 parallelogramNodes U))).

(** ** Positivity enforcement over the elements (checkDensity, checkEntropy) *)

(** One access of the loop body [squeezed = check || squeezed] to the
    shared flag: iteration [i] reads the flag, iteration [i] writes it. *)
Inductive flag_access : Type :=
| ReadFlag (i : nat)
| WriteFlag (i : nat).

Definition access_iter (a : flag_access) : nat :=
  match a with ReadFlag i => i | WriteFlag i => i end.

Definition is_read (a : flag_access) : bool :=
  match a with ReadFlag _ => true | WriteFlag _ => false end.

(** The state is the flag and, per iteration, the value it last read;
    [check i] is what [eles[i]->checkDensity()] returned. *)
Definition flag_step (check : nat -> bool) (st : bool * (nat -> bool)) (a : flag_access)
  : bool * (nat -> bool) :=
  let '(squeezed, seen) := st in
  match a with
  | ReadFlag i => (squeezed, fun j => if (j =? i)%nat then squeezed else seen j)
  | WriteFlag i => (check i || seen i, seen)
  end.

(** The accesses of [n] iterations in some order: every iteration reads
    once and then writes once, and nothing else happens. *)
Definition isSchedule (n : nat) (sched : list flag_access) : bool :=
  forallb (fun a => (access_iter a <? n)%nat) sched
  && forallb (fun i =>
       match map is_read (filter (fun a => (access_iter a =? i)%nat) sched) with
       | [true; false] => true
       | _ => false
       end) (seq 0 n).

(** The order of a build without OpenMP: one iteration after the other. *)
Definition serialSchedule (n : nat) : list flag_access :=
  flat_map (fun i => [ReadFlag i; WriteFlag i]) (seq 0 n).

(** [squeezed] starts false; every element is squeezed in place by its own
    iteration; the iterations of the [omp parallel for] share [squeezed]
    without a reduction clause, so their reads and writes of it take place
    in the order [sched]. *)
Definition checkDensity (sched : list flag_access) (s : solver) : bool * solver :=
  let results := map ele.checkDensity (eles s) in
  let check := fun i => nth i (map fst results) false in
  let '(squeezed, _) := fold_left (flag_step check) sched (false, fun _ => false) in
  (squeezed, set_eles (map snd results) s).

Definition checkEntropy (s : solver) : solver := forEles (ele.checkEntropy (params s)) s.

(** ** The global time step (calcDt) *)

(** [min] on time steps, [None] standing for [INFINITY]. *)
Definition min_dt (a b : option R) : option R :=
  match a, b with
  | Some x, Some y => Some (Rmin x y)
  | Some x, None => Some x
  | None, _ => b
  end.

(** [MPI_Allreduce(&dtTmp, &dt, 1, MPI_DOUBLE, MPI_MIN, MPI_COMM_WORLD)] as
    one rank sees it: the minimum of its own [dtTmp] and of the values the
    other ranks contribute. *)
Definition MPI_Allreduce_MIN (dtTmp : option R) (ranks : list (option R)) : option R :=
  fold_left min_dt ranks dtTmp.

Section CalcDt.

(** [params->CFL] and, for the element at position [i] of [eles], the value
    of [getCFLLimit(order)] and the member [waveSp_fpts]. *)
Variable CFL : R.
Variable cflLimit : nat -> R.
Variable waveSp_fpts : nat -> list R.

(** The build flag [_NO_MPI] and, for a build without it, the [dtTmp] of
    the other ranks of [MPI_COMM_WORLD] ([None] for [INFINITY]). *)
Variable NO_MPI : bool.
Variable dtRanks : list (option R).

(** [dt] starts as [INFINITY], which is [None] here, and takes the minimum
    with the time step of every element in turn; unless the build has no
    MPI the minimum over the ranks replaces it; [params->dt] receives the
    result, and there is no real number for it to receive when that is
    still [INFINITY]. *)
Definition calcDt (s : solver) : option solver :=
  let '(dt, es) :=
    for_ (List.length (eles s)) (fun i '(dt, es) =>
      match nth_error es i with
      | Some e =>
          let '(d, e') := ele.calcDt CFL (cflLimit i) (waveSp_fpts i) e in
          (Some (match dt with Some x => Rmin x d | None => d end), upd i e' es)
      | None => (dt, es)
      end) (None, eles s) in
  let dt := if NO_MPI then dt else MPI_Allreduce_MIN dt dtRanks in
  match dt with
  | Some dt => Some (set_params (input.set_dt dt (params s)) (set_eles es s))
  | None => None
  end.

End CalcDt.

(** ** A concrete run: one element, classical four-stage Runge-Kutta *)
Definition rk44 : input.input :=
  {| input.equation := input.NAVIER_STOKES; input.dtType := 0; input.dt := 1/2;
     input.motion := 0; input.meshType := 1; input.oversetMethod := 0;
     input.gamma := 7/5; input.exps0 := 0;
     input.iter := 0; input.time := 0; input.rkTime := 0;
     input.RKa := [0; 1/2; 1/2; 1]; input.RKb := [1/6; 1/3; 1/3; 1/6] |}.

Definition ele1 : ele.ele :=
  ele.set_detJac_spts [4]
    (ele.set_divF_spts [[[2]]; [[0]]; [[0]]; [[0]]]
       (ele.quad0 (ele.squareNodes 4) [1] [1])).

Definition solver1 : solver :=
  {| params := rk44; eles := [ele1]; nRKSteps := 4; iblankCell := [NORMAL] |}.

(** Two cells at rest, the first with density [-1] at its solution point. *)
Definition squeezePair : solver :=
  {| params := rk44; eles := [ele.restCell (-1) 1; ele.restCell 1 1]; nRKSteps := 4;
     iblankCell := [NORMAL] |}.

End solver.

(* ================================================================== *)
(** * Frames and loop views used by the properties *)

(** What the solution-point loop leaves alone: everything but [Jac_spts],
    [detJac_spts] and [JGinv_spts], and of the first two the entries whose
    index is [untouched]. *)
Definition spts_frame (untouched : nat -> Prop) (e e' : ele.ele) : Prop :=
  ele.nSpts e' = ele.nSpts e /\ ele.nFpts e' = ele.nFpts e /\
  ele.nDims e' = ele.nDims e /\ ele.nNodes e' = ele.nNodes e /\
  ele.nodes e' = ele.nodes e /\ ele.nodesRK e' = ele.nodesRK e /\
  ele.dShape_spts e' = ele.dShape_spts e /\ ele.dShape_fpts e' = ele.dShape_fpts e /\
  ele.Jac_fpts e' = ele.Jac_fpts e /\ ele.JGinv_fpts e' = ele.JGinv_fpts e /\
  ele.detJac_fpts e' = ele.detJac_fpts e /\ ele.tNorm_fpts e' = ele.tNorm_fpts e /\
  ele.norm_fpts e' = ele.norm_fpts e /\ ele.dA_fpts e' = ele.dA_fpts e /\
  List.length (ele.detJac_spts e') = List.length (ele.detJac_spts e) /\
  List.length (ele.Jac_spts e') = List.length (ele.Jac_spts e) /\
  (forall j, untouched j -> nth j (ele.detJac_spts e') 0 = nth j (ele.detJac_spts e) 0) /\
  (forall j, untouched j -> nth j (ele.Jac_spts e') [] = nth j (ele.Jac_spts e) []).

(** What the flux-point loop leaves alone. *)
Definition fpts_frame (untouched : nat -> Prop) (e e' : ele.ele) : Prop :=
  (ele.nSpts e' = ele.nSpts e /\ ele.nFpts e' = ele.nFpts e /\
   ele.nDims e' = ele.nDims e /\ ele.nNodes e' = ele.nNodes e /\
   ele.nodes e' = ele.nodes e /\ ele.nodesRK e' = ele.nodesRK e /\
   ele.dShape_fpts e' = ele.dShape_fpts e /\ ele.tNorm_fpts e' = ele.tNorm_fpts e /\
   ele.Jac_spts e' = ele.Jac_spts e /\ ele.JGinv_spts e' = ele.JGinv_spts e /\
   ele.detJac_spts e' = ele.detJac_spts e) /\
  (List.length (ele.Jac_fpts e') = List.length (ele.Jac_fpts e) /\
   List.length (ele.JGinv_fpts e') = List.length (ele.JGinv_fpts e) /\
   List.length (ele.detJac_fpts e') = List.length (ele.detJac_fpts e) /\
   List.length (ele.norm_fpts e') = List.length (ele.norm_fpts e) /\
   List.length (ele.dA_fpts e') = List.length (ele.dA_fpts e)) /\
  (forall j, untouched j ->
     nth j (ele.Jac_fpts e') [] = nth j (ele.Jac_fpts e) [] /\
     nth j (ele.JGinv_fpts e') [] = nth j (ele.JGinv_fpts e) [] /\
     nth j (ele.detJac_fpts e') 0 = nth j (ele.detJac_fpts e) 0 /\
     nth j (ele.norm_fpts e') [] = nth j (ele.norm_fpts e) [] /\
     nth j (ele.dA_fpts e') 0 = nth j (ele.dA_fpts e) 0).

(** What a scan for negative densities returns. *)
Definition scan_ok (n : nat) (U : matrix) (st0 st : bool * R) : Prop :=
  (fst st = true <-> (fst st0 = true \/ exists i, (i < n)%nat /\ mget U i 0 < 0)) /\
  snd st <= snd st0 /\
  (forall i, (i < n)%nat -> mget U i 0 < 0 -> snd st <= mget U i 0) /\
  (snd st = snd st0 \/ exists i, (i < n)%nat /\ mget U i 0 < 0 /\ snd st = mget U i 0).

(** The two squeezes as loops on one array. *)
Definition blendRho (eps a0 : R) (n : nat) (M : matrix) : matrix :=
  for_ n (fun i M => mset M i 0 ((1 - eps) * a0 + eps * mget M i 0)) M.

Definition blendAll (Eps : R) (avg : list R) (n m : nat) (M : matrix) : matrix :=
  for_ n (fun i M =>
    for_ m (fun j M => mset M i j (Eps * nth j avg 0 + (1 - Eps) * mget M i j)) M) M.

(** What the divergence of stage [step] leaves alone: every member but
    [dF_spts] and [divF_spts], and in [divF_spts] every stage but [step]. *)
Definition flux_frame (step : nat) (e e' : ele.ele) : Prop :=
  e' = ele.set_divF_spts (ele.divF_spts e') (ele.set_dF_spts (ele.dF_spts e') e) /\
  List.length (ele.divF_spts e') = List.length (ele.divF_spts e) /\
  forall s, s <> step -> nth s (ele.divF_spts e') [] = nth s (ele.divF_spts e) [].

(* ================================================================== *)
(** * Properties *)

(** ** Numeric tests *)

Lemma Rltb_true (a b : R) : a < b -> Rltb a b = true.
Proof. intros H. unfold Rltb. destruct (Rlt_dec a b); [reflexivity | contradiction]. Qed.

Lemma Rltb_false (a b : R) : ~ a < b -> Rltb a b = false.
Proof. intros H. unfold Rltb. destruct (Rlt_dec a b); [contradiction | reflexivity]. Qed.

Lemma Rltb_iff (a b : R) : Rltb a b = true <-> a < b.
Proof.
  unfold Rltb. destruct (Rlt_dec a b); split; intros; try assumption;
    try reflexivity; try discriminate; contradiction.
Qed.

Lemma Rltb_iff_false (a b : R) : Rltb a b = false <-> b <= a.
Proof.
  unfold Rltb. destruct (Rlt_dec a b); split; intros; try reflexivity;
    try discriminate; lra.
Qed.

(** Decides the comparisons of a goal whose operands are numerals. *)
Ltac Rdecide :=
  repeat match goal with
         | |- context [Rltb ?a ?b] =>
             first [ rewrite (Rltb_true a b) by lra
                   | rewrite (Rltb_false a b) by lra ]
         end.


(** ** Containers *)

Lemma upd_length {A : Type} (i : nat) (x : A) (l : list A) :
  List.length (upd i x l) = List.length l.
Proof.
  revert i; induction l as [|h t IH]; intros [|i]; simpl; auto.
Qed.

Lemma nth_upd_eq {A : Type} (i : nat) (x d : A) (l : list A) :
  (i < List.length l)%nat -> nth i (upd i x l) d = x.
Proof.
  revert i; induction l as [|h t IH]; intros [|i] H; simpl in *; try lia; auto.
  apply IH; lia.
Qed.

Lemma nth_upd_neq {A : Type} (i j : nat) (x d : A) (l : list A) :
  i <> j -> nth j (upd i x l) d = nth j l d.
Proof.
  revert i j; induction l as [|h t IH]; intros [|i] [|j] H; simpl; auto; try lia.
Qed.

Lemma upd_out {A : Type} (i : nat) (x : A) (l : list A) :
  (List.length l <= i)%nat -> upd i x l = l.
Proof.
  revert i; induction l as [|h t IH]; intros [|i] H; simpl in *; auto; try lia.
  f_equal; apply IH; lia.
Qed.

Lemma upd_upd {A : Type} (i : nat) (x y : A) (l : list A) :
  upd i x (upd i y l) = upd i x l.
Proof.
  revert i; induction l as [|h t IH]; intros [|i]; simpl; auto.
  f_equal; apply IH.
Qed.

Lemma dims_row (M : matrix) (n m i : nat) :
  dims M n m -> (i < n)%nat -> List.length (nth i M []) = m.
Proof.
  intros [Hn Hr] Hi. rewrite Forall_forall in Hr. apply Hr, nth_In. lia.
Qed.

Lemma Forall_upd {A : Type} (P : A -> Prop) (i : nat) (x : A) (l : list A) :
  Forall P l -> P x -> Forall P (upd i x l).
Proof.
  intros Hl Hx; revert i; induction Hl as [|h t Hh Ht IH]; intros [|i]; simpl;
    constructor; auto.
Qed.

Lemma dims_mset (M : matrix) (n m i j : nat) (x : R) :
  dims M n m -> dims (mset M i j x) n m.
Proof.
  intros [Hn Hr]. split.
  - unfold mset. now rewrite upd_length.
  - unfold mset. destruct (Nat.lt_ge_cases i (List.length M)) as [Hi|Hi].
    + apply Forall_upd; auto. rewrite upd_length.
      rewrite Forall_forall in Hr. apply Hr, nth_In, Hi.
    + rewrite (upd_out i); auto.
Qed.

Lemma mget_mset_eq (M : matrix) (n m i j : nat) (x : R) :
  dims M n m -> (i < n)%nat -> (j < m)%nat -> mget (mset M i j x) i j = x.
Proof.
  intros HM Hi Hj. unfold mget, mset.
  rewrite nth_upd_eq by (destruct HM; lia).
  apply nth_upd_eq. rewrite (dims_row M n m); auto.
Qed.

Lemma mget_mset_neq (M : matrix) (i j a b : nat) (x : R) :
  (i, j) <> (a, b) -> mget (mset M i j x) a b = mget M a b.
Proof.
  intros H. unfold mget, mset.
  destruct (Nat.eq_dec i a) as [->|Hia].
  - destruct (Nat.lt_ge_cases a (List.length M)) as [Ha|Ha].
    + rewrite nth_upd_eq by exact Ha. apply nth_upd_neq. congruence.
    + rewrite upd_out by exact Ha. reflexivity.
  - now rewrite nth_upd_neq.
Qed.

(** ** Loops *)

Lemma for_ind {S : Type} (P : nat -> S -> Prop) (body : nat -> S -> S) (s : S) (n : nat) :
  P 0%nat s ->
  (forall i t, (i < n)%nat -> P i t -> P (Datatypes.S i) (body i t)) ->
  P n (for_ n body s).
Proof.
  intros H0 Hstep. induction n as [|n IH]; simpl; auto.
  apply Hstep; [lia|]. apply IH. intros; apply Hstep; auto; lia.
Qed.

Lemma for_ext {S : Type} (f g : nat -> S -> S) (n : nat) (s : S) :
  (forall i t, (i < n)%nat -> f i t = g i t) -> for_ n f s = for_ n g s.
Proof.
  intros H. induction n as [|n IH]; simpl; auto.
  rewrite IH by (intros; apply H; lia). apply H; lia.
Qed.

Lemma for_fold {S : Type} (body : nat -> S -> S) (n : nat) (s : S) :
  for_ n body s = fold_left (fun t i => body i t) (seq 0 n) s.
Proof.
  induction n as [|n IH]; simpl for_; auto.
  rewrite seq_S, fold_left_app. simpl. now rewrite IH.
Qed.

(** A loop that only rewrites one component [put a s0] of the state is the
    loop on that component. *)
Lemma for_lift {S A : Type} (put : A -> S) (body : nat -> S -> S)
      (k : nat -> A -> A) (n : nat) :
  (forall i a, (i < n)%nat -> body i (put a) = put (k i a)) ->
  forall a, for_ n body (put a) = put (for_ n k a).
Proof.
  intros H a. induction n as [|n IH]; simpl; auto.
  rewrite IH by (intros; apply H; lia). apply H; lia.
Qed.

(** A doubly nested loop that rewrites entry [(i,j)] from its old value
    acts on each entry in range once. *)
Lemma for_row_dims (m i : nat) (h : nat -> R -> R) (M : matrix) (n0 m0 : nat) :
  dims M n0 m0 ->
  dims (for_ m (fun j M => mset M i j (h j (mget M i j))) M) n0 m0.
Proof.
  intros HM. induction m as [|m IH]; simpl; auto using dims_mset.
Qed.

Lemma for_row_get (m i : nat) (h : nat -> R -> R) (M : matrix) (n0 m0 a b : nat) :
  dims M n0 m0 -> (i < n0)%nat -> (m <= m0)%nat ->
  mget (for_ m (fun j M => mset M i j (h j (mget M i j))) M) a b =
  if (a =? i)%nat && (b <? m)%nat then h b (mget M a b) else mget M a b.
Proof.
  intros HM Hi Hm. induction m as [|m IH]; simpl for_.
  - rewrite andb_false_r. reflexivity.
  - destruct (Nat.eq_dec a i) as [->|Hai].
    + rewrite Nat.eqb_refl in *. simpl andb in *.
      destruct (Nat.eq_dec b m) as [->|Hbm].
      * rewrite (mget_mset_eq _ n0 m0) by (auto using for_row_dims; lia).
        rewrite IH by lia.
        replace (m <? m)%nat with false by (symmetry; apply Nat.ltb_ge; lia).
        replace (m <? Datatypes.S m)%nat with true by (symmetry; apply Nat.ltb_lt; lia).
        reflexivity.
      * rewrite mget_mset_neq by congruence. rewrite IH by lia.
        destruct (Nat.ltb_spec b m), (Nat.ltb_spec b (Datatypes.S m)); auto; lia.
    + rewrite mget_mset_neq by congruence. rewrite IH by lia.
      replace (a =? i)%nat with false by (symmetry; apply Nat.eqb_neq; auto).
      reflexivity.
Qed.

Lemma for2_dims (n m : nat) (h : nat -> nat -> R -> R) (M : matrix) (n0 m0 : nat) :
  dims M n0 m0 ->
  dims (for_ n (fun i M => for_ m (fun j M => mset M i j (h i j (mget M i j))) M) M) n0 m0.
Proof.
  intros HM. induction n as [|n IH]; simpl; auto.
  apply (for_row_dims m n (h n)); auto.
Qed.

Lemma for2_get_gen (n m : nat) (h : nat -> nat -> R -> R) (M : matrix)
      (n0 m0 a b : nat) :
  dims M n0 m0 -> (n <= n0)%nat -> (m <= m0)%nat ->
  mget (for_ n (fun i M => for_ m (fun j M => mset M i j (h i j (mget M i j))) M) M) a b
  = if (a <? n)%nat && (b <? m)%nat then h a b (mget M a b) else mget M a b.
Proof.
  intros HM Hn Hm. induction n as [|n IH]; simpl for_; auto.
  rewrite (for_row_get m n (h n) _ n0 m0) by (auto using for2_dims; lia).
  rewrite IH by lia.
  destruct (Nat.eq_dec a n) as [->|Hak].
  - rewrite Nat.eqb_refl.
    replace (n <? n)%nat with false by (symmetry; apply Nat.ltb_ge; lia).
    replace (n <? Datatypes.S n)%nat with true by (symmetry; apply Nat.ltb_lt; lia).
    simpl. reflexivity.
  - replace (a =? n)%nat with false by (symmetry; apply Nat.eqb_neq; auto).
    simpl. destruct (Nat.ltb_spec a n), (Nat.ltb_spec a (Datatypes.S n)); auto; lia.
Qed.

Lemma for2_get (n m : nat) (h : nat -> nat -> R -> R) (M : matrix) (a b : nat) :
  dims M n m -> (a < n)%nat -> (b < m)%nat ->
  mget (for_ n (fun i M => for_ m (fun j M => mset M i j (h i j (mget M i j))) M) M) a b
  = h a b (mget M a b).
Proof.
  intros HM Ha Hb. rewrite (for2_get_gen n m h M n m) by (auto; lia).
  apply Nat.ltb_lt in Ha, Hb. now rewrite Ha, Hb.
Qed.

(** ** Runge-Kutta stage updates (timeStepA, timeStepB) *)

Lemma set_dt_stage (params : input.input) (e : ele.ele) :
  (if negb (input.dtType params =? 2)%nat then ele.set_dt (input.dt params) e else e)
  = ele.set_dt (ele.stage_dt params e) e.
Proof.
  unfold ele.stage_dt. destruct (negb (input.dtType params =? 2)%nat); auto.
  destruct e; reflexivity.
Qed.

Lemma set_U_spts_same (e : ele.ele) : ele.set_U_spts (ele.U_spts e) e = e.
Proof. destruct e; reflexivity. Qed.

(** The two nested loops of a stage update, run on the element, are the
    same loops run on [U_spts] alone. *)
Lemma stage_loop (g : ele.ele -> nat -> nat -> R -> R) (e0 : ele.ele) :
  (forall U spt i x, g (ele.set_U_spts U e0) spt i x = g e0 spt i x) ->
  forall U,
    for_ (ele.nSpts e0) (fun spt e =>
      for_ (ele.nFields e) (fun i e =>
        ele.set_U_spts
          (mset (ele.U_spts e) spt i (g e spt i (mget (ele.U_spts e) spt i))) e) e)
      (ele.set_U_spts U e0)
    = ele.set_U_spts
        (for_ (ele.nSpts e0) (fun spt U =>
           for_ (ele.nFields e0) (fun i U => mset U spt i (g e0 spt i (mget U spt i))) U) U)
        e0.
Proof.
  intros Hg U.
  apply (for_lift (fun U => ele.set_U_spts U e0)). intros spt U1 _.
  change (ele.nFields (ele.set_U_spts U1 e0)) with (ele.nFields e0).
  apply (for_lift (fun U => ele.set_U_spts U e0)). intros i U2 _.
  change (ele.U_spts (ele.set_U_spts U2 e0)) with U2.
  rewrite Hg. reflexivity.
Qed.

Lemma timeStepA_eq (params : input.input) (step : nat) (rkVal : R) (e : ele.ele) :
  ele.timeStepA params step rkVal e
  = let e0 := ele.set_dt (ele.stage_dt params e) e in
    ele.set_U_spts
      (for_ (ele.nSpts e) (fun spt U =>
         for_ (ele.nFields e) (fun i U =>
           mset U spt i (ele.gA step rkVal e0 spt i (mget U spt i))) U) (ele.U_spts e))
      e0.
Proof.
  unfold ele.timeStepA. rewrite set_dt_stage. cbv zeta.
  set (e0 := ele.set_dt (ele.stage_dt params e) e).
  rewrite <- (set_U_spts_same e0) at 1 2.
  change (ele.nSpts (ele.set_U_spts (ele.U_spts e0) e0)) with (ele.nSpts e0).
  exact (stage_loop (ele.gA step rkVal) e0 (fun _ _ _ _ => eq_refl) (ele.U_spts e0)).
Qed.

Lemma timeStepB_eq (params : input.input) (step : nat) (rkVal : R) (e : ele.ele) :
  ele.timeStepB params step rkVal e
  = let e0 := ele.set_dt (ele.stage_dt params e) e in
    ele.set_U_spts
      (for_ (ele.nSpts e) (fun spt U =>
         for_ (ele.nFields e) (fun i U =>
           mset U spt i (ele.gB step rkVal e0 spt i (mget U spt i))) U) (ele.U_spts e))
      e0.
Proof.
  unfold ele.timeStepB. rewrite set_dt_stage. cbv zeta.
  set (e0 := ele.set_dt (ele.stage_dt params e) e).
  rewrite <- (set_U_spts_same e0) at 1 2.
  change (ele.nSpts (ele.set_U_spts (ele.U_spts e0) e0)) with (ele.nSpts e0).
  exact (stage_loop (ele.gB step rkVal) e0 (fun _ _ _ _ => eq_refl) (ele.U_spts e0)).
Qed.

Lemma timeStepA_get (params : input.input) (step : nat) (rkVal : R) (e : ele.ele)
      (spt i : nat) :
  dims (ele.U_spts e) (ele.nSpts e) (ele.nFields e) ->
  (spt < ele.nSpts e)%nat -> (i < ele.nFields e)%nat ->
  mget (ele.U_spts (ele.timeStepA params step rkVal e)) spt i
  = mget (ele.U0 e) spt i
    - rkVal * ele.stage_dt params e * mget (nth step (ele.divF_spts e) []) spt i
      / nth spt (ele.detJac_spts e) 0.
Proof.
  intros HU Hs Hi. rewrite timeStepA_eq. cbv zeta.
  change (ele.U_spts (ele.set_U_spts ?U _)) with U.
  rewrite (for2_get (ele.nSpts e) (ele.nFields e)
             (ele.gA step rkVal (ele.set_dt (ele.stage_dt params e) e))) by assumption.
  reflexivity.
Qed.

Lemma timeStepB_get (params : input.input) (step : nat) (rkVal : R) (e : ele.ele)
      (spt i : nat) :
  dims (ele.U_spts e) (ele.nSpts e) (ele.nFields e) ->
  (spt < ele.nSpts e)%nat -> (i < ele.nFields e)%nat ->
  mget (ele.U_spts (ele.timeStepB params step rkVal e)) spt i
  = mget (ele.U_spts e) spt i
    - rkVal * ele.stage_dt params e * mget (nth step (ele.divF_spts e) []) spt i
      / nth spt (ele.detJac_spts e) 0.
Proof.
  intros HU Hs Hi. rewrite timeStepB_eq. cbv zeta.
  change (ele.U_spts (ele.set_U_spts ?U _)) with U.
  rewrite (for2_get (ele.nSpts e) (ele.nFields e)
             (ele.gB step rkVal (ele.set_dt (ele.stage_dt params e) e))) by assumption.
  reflexivity.
Qed.

(** C10.  [timeStepA] and [timeStepB] change nothing of the element but
    [U_spts] and [dt]: the result is the input element with these two
    members replaced, [dt] keeps its value when the time step is local
    ([dtType == 2]) and becomes [params->dt] otherwise; in particular the
    snapshot [U0], the stage divergences, the Jacobian determinants and the
    geometric arrays are those of the input. *)
Theorem timeStep_frame (params : input.input) (step : nat) (rkVal : R) (e : ele.ele) :
  let eA := ele.timeStepA params step rkVal e in
  let eB := ele.timeStepB params step rkVal e in
  let dt' := if (input.dtType params =? 2)%nat then ele.dt e else input.dt params in
  eA = ele.set_U_spts (ele.U_spts eA) (ele.set_dt dt' e) /\
  eB = ele.set_U_spts (ele.U_spts eB) (ele.set_dt dt' e) /\
  (ele.U0 eA = ele.U0 e /\ ele.U0 eB = ele.U0 e) /\
  (ele.divF_spts eA = ele.divF_spts e /\ ele.divF_spts eB = ele.divF_spts e) /\
  (ele.detJac_spts eA = ele.detJac_spts e /\ ele.detJac_spts eB = ele.detJac_spts e) /\
  (ele.detJac_fpts eA = ele.detJac_fpts e /\ ele.detJac_fpts eB = ele.detJac_fpts e) /\
  (ele.Jac_spts eA = ele.Jac_spts e /\ ele.Jac_spts eB = ele.Jac_spts e) /\
  (ele.JGinv_spts eA = ele.JGinv_spts e /\ ele.JGinv_spts eB = ele.JGinv_spts e) /\
  (ele.norm_fpts eA = ele.norm_fpts e /\ ele.norm_fpts eB = ele.norm_fpts e) /\
  (ele.dA_fpts eA = ele.dA_fpts e /\ ele.dA_fpts eB = ele.dA_fpts e) /\
  (ele.nodes eA = ele.nodes e /\ ele.nodes eB = ele.nodes e) /\
  (ele.U_fpts eA = ele.U_fpts e /\ ele.U_fpts eB = ele.U_fpts e).
Proof.
  intros eA eB dt'.
  assert (Hdt : dt' = ele.stage_dt params e).
  { unfold dt', ele.stage_dt. destruct (input.dtType params =? 2)%nat; reflexivity. }
  assert (HA : eA = ele.set_U_spts (ele.U_spts eA) (ele.set_dt dt' e)).
  { unfold eA. rewrite timeStepA_eq, Hdt. reflexivity. }
  assert (HB : eB = ele.set_U_spts (ele.U_spts eB) (ele.set_dt dt' e)).
  { unfold eB. rewrite timeStepB_eq, Hdt. reflexivity. }
  split; [exact HA|]. split; [exact HB|].
  repeat split; solve [rewrite HA; reflexivity | rewrite HB; reflexivity].
Qed.

(** ** solver::update *)

Lemma update_eq (calcDt : solver.solver -> solver.solver)
      (moveMesh calcResidual : nat -> solver.solver -> solver.solver)
      (PMG_Source : bool) (s : solver.solver) :
  solver.update calcDt moveMesh calcResidual PMG_Source s
  = solver.update_stages calcDt moveMesh calcResidual PMG_Source s.
Proof.
  unfold solver.update, solver.update_stages. cbv zeta.
  rewrite !for_fold. reflexivity.
Qed.

(** ** superMesh::clipTet *)

Lemma deadPts_length (tet : superMesh.tetra) (xc : point) (norm : Vec3) :
  List.length (superMesh.deadPts tet xc norm)
  = ((if superMesh.isDead tet xc norm 0 then 1 else 0) +
     (if superMesh.isDead tet xc norm 1 then 1 else 0) +
     (if superMesh.isDead tet xc norm 2 then 1 else 0) +
     (if superMesh.isDead tet xc norm 3 then 1 else 0))%nat.
Proof.
  unfold superMesh.deadPts. simpl filter.
  destruct (superMesh.isDead tet xc norm 0), (superMesh.isDead tet xc norm 1),
    (superMesh.isDead tet xc norm 2), (superMesh.isDead tet xc norm 3); reflexivity.
Qed.

Lemma clipTet_count_aux (tet : superMesh.tetra) (clipFace : list point) (norm : Vec3) :
  List.length (superMesh.clipTet tet clipFace norm)
  = superMesh.count_of_switch (superMesh.nCutSide tet clipFace norm)
  /\ (superMesh.nCutSide tet clipFace norm <= 4)%nat
  /\ (superMesh.nCutSide tet clipFace norm = 0%nat ->
      superMesh.clipTet tet clipFace norm = [tet]).
Proof.
  unfold superMesh.clipTet, superMesh.nCutSide, superMesh.count_of_switch. cbv zeta.
  rewrite deadPts_length. unfold superMesh.deadPts. simpl filter.
  destruct (superMesh.isDead tet _ norm 0), (superMesh.isDead tet _ norm 1),
    (superMesh.isDead tet _ norm 2), (superMesh.isDead tet _ norm 3);
    simpl; repeat split; auto; try lia; discriminate.
Qed.

(** C9 (as the code has it).  [clipTet] returns 1, 3, 3, 1 tetrahedra when
    0, 1, 2, 3 vertices of the input lie on the cut side of the plane, and
    none when all 4 do. *)
Theorem clipTet_count (tet : superMesh.tetra) (clipFace : list point) (norm : Vec3) :
  List.length (superMesh.clipTet tet clipFace norm)
  = superMesh.count_of_switch (superMesh.nCutSide tet clipFace norm)
  /\ (superMesh.nCutSide tet clipFace norm <= 4)%nat.
Proof.
  destruct (clipTet_count_aux tet clipFace norm) as (H1 & H2 & _). auto.
Qed.

Lemma farFace_centroid : superMesh.centroid superMesh.farFace = mkPoint 2 (1/3) (1/3).
Proof.
  unfold superMesh.centroid, superMesh.farFace, pdivide, padd, origin. simpl.
  f_equal; lra.
Qed.

Lemma unitTet_not_cut :
  superMesh.nCutSide superMesh.unitTet superMesh.farFace superMesh.xNormal = 0%nat.
Proof.
  unfold superMesh.nCutSide. cbv zeta. rewrite farFace_centroid.
  unfold superMesh.isDead, superMesh.unitTet, superMesh.xNormal, pdot, psub. simpl.
  Rdecide. reflexivity.
Qed.

(** C9 as stated fails: no vertex of the unit tetrahedron lies on the cut
    side of the plane [x = 2], and [clipTet] returns one tetrahedron (the
    input), not the zero of the stated "0/1/3/3". *)
Lemma clipTet_count_as_specified_fails :
  superMesh.nCutSide superMesh.unitTet superMesh.farFace superMesh.xNormal = 0%nat /\
  superMesh.clipTet superMesh.unitTet superMesh.farFace superMesh.xNormal
  = [superMesh.unitTet] /\
  List.length (superMesh.clipTet superMesh.unitTet superMesh.farFace superMesh.xNormal)
  <> superMesh.count_as_specified
       (superMesh.nCutSide superMesh.unitTet superMesh.farFace superMesh.xNormal).
Proof.
  assert (H := unitTet_not_cut).
  destruct (clipTet_count_aux superMesh.unitTet superMesh.farFace superMesh.xNormal)
    as (Hlen & _ & Hsame).
  split; [exact H|]. split; [exact (Hsame H)|].
  rewrite Hlen, H. cbv. discriminate.
Qed.

(** ** superMesh::integrate *)

Lemma for_id {S : Type} (n : nat) (s : S) : for_ n (fun _ t => t) s = s.
Proof. induction n; simpl; auto. Qed.

(** C8 (what the code does).  [integrate] is fatal exactly when the data
    length differs from [nQpts]; on data of the right length both loops have
    an empty body, the accumulator is still 0 at the closing brace and no
    value is returned: the sum of weight times data times Jacobian is never
    formed. *)
Theorem integrate_outcome (sm : superMesh.superMesh) (data : list R) :
  superMesh.integrate sm data
  = if (List.length data =? superMesh.nQpts sm)%nat
    then superMesh.NoReturn 0
    else superMesh.Fatal
           "To integrate over supermesh, data must lie at its quadrature nodes.".
Proof.
  unfold superMesh.integrate.
  destruct (List.length data =? superMesh.nQpts sm)%nat; simpl; auto.
  rewrite (for_ext _ (fun _ t => t)) by (intros; apply for_id).
  now rewrite for_id.
Qed.

(** ** ele::calcTransforms : determinants at the solution points *)

Lemma spts_frame_refl (U : nat -> Prop) (e : ele.ele) : spts_frame U e e.
Proof. unfold spts_frame; repeat split; auto. Qed.

Lemma spts_frame_trans (U V W : nat -> Prop) (e1 e2 e3 : ele.ele) :
  (forall j, W j -> U j /\ V j) ->
  spts_frame U e1 e2 -> spts_frame V e2 e3 -> spts_frame W e1 e3.
Proof.
  intros HW H1 H2. unfold spts_frame in *.
  destruct H1 as (a1&a2&a3&a4&a5&a6&a7&a8&a9&a10&a11&a12&a13&a14&a15&a16&a17&a18).
  destruct H2 as (b1&b2&b3&b4&b5&b6&b7&b8&b9&b10&b11&b12&b13&b14&b15&b16&b17&b18).
  repeat split; try congruence.
  - intros j Hj. destruct (HW j Hj). rewrite b17, a17; auto.
  - intros j Hj. destruct (HW j Hj). rewrite b18, a18; auto.
Qed.

Lemma detJ_spt_frame (U : nat -> Prop) (moving : bool) (e e' : ele.ele) (k : nat) :
  spts_frame U e e' -> U k -> ele.detJ_spt moving e' k = ele.detJ_spt moving e k.
Proof.
  intros (a1&a2&a3&a4&a5&a6&a7&a8&a9&a10&a11&a12&a13&a14&a15&a16&a17&a18) Hk.
  unfold ele.detJ_spt. rewrite a3, a4, a5, a6, a7, a17, a18 by exact Hk. reflexivity.
Qed.

Lemma calcTransforms_spt_spec (moving : bool) (k : nat) (e : ele.ele) :
  (k < List.length (ele.detJac_spts e))%nat ->
  (k < List.length (ele.Jac_spts e))%nat ->
  match ele.calcTransforms_spt moving k e with
  | Ok e' => spts_frame (fun j => j <> k) e e' /\
             nth k (ele.detJac_spts e') 0 = ele.detJ_spt moving e k /\
             0 <= ele.detJ_spt moving e k
  | FatalError _ => ele.detJ_spt moving e k < 0
  end.
Proof.
  intros Hd HJ. unfold ele.calcTransforms_spt, ele.detJ_spt. cbv zeta.
  set (J := ele.accumJac _ _ _ _ _).
  change (ele.Jac_spts (ele.set_Jac_spts ?v _)) with v.
  rewrite (nth_upd_eq k J) by exact HJ.
  change (ele.nDims (ele.set_Jac_spts _ e)) with (ele.nDims e).
  assert (F0 : spts_frame (fun j => j <> k) e
                 (ele.set_Jac_spts (upd k J (ele.Jac_spts e)) e)).
  { unfold spts_frame; simpl. rewrite upd_length.
    repeat split; auto. intros j Hj. apply nth_upd_neq; auto. }
  destruct (ele.nDims e =? 2)%nat.
  - simpl ele.detJac_spts. rewrite nth_upd_eq by exact Hd.
    destruct (Rltb (ele.det2 J) 0) eqn:Hlt.
    + apply Rltb_iff in Hlt. exact Hlt.
    + apply Rltb_iff_false in Hlt. split; [|split; [|exact Hlt]].
      * unfold spts_frame in *; simpl in *. rewrite !upd_length.
        repeat split; auto; intros j Hj; apply nth_upd_neq; auto.
      * simpl. apply nth_upd_eq; exact Hd.
  - destruct (ele.nDims e =? 3)%nat.
    + simpl ele.detJac_spts. rewrite nth_upd_eq by exact Hd.
      destruct (Rltb (ele.det3 J) 0) eqn:Hlt.
      * apply Rltb_iff in Hlt. exact Hlt.
      * apply Rltb_iff_false in Hlt. split; [|split; [|exact Hlt]].
        -- unfold spts_frame in *; simpl in *. rewrite !upd_length.
           repeat split; auto; intros j Hj; apply nth_upd_neq; auto.
        -- simpl. apply nth_upd_eq; exact Hd.
    + simpl ele.detJac_spts.
      destruct (Rltb (nth k (ele.detJac_spts e) 0) 0) eqn:Hlt.
      * apply Rltb_iff in Hlt. exact Hlt.
      * apply Rltb_iff_false in Hlt. split; [exact F0|]. split; [reflexivity|exact Hlt].
Qed.

Lemma spts_loop_spec (moving : bool) (e : ele.ele) (n : nat) :
  (n <= List.length (ele.detJac_spts e))%nat ->
  (n <= List.length (ele.Jac_spts e))%nat ->
  match forM_ n (ele.calcTransforms_spt moving) e with
  | Ok e' => spts_frame (fun j => (n <= j)%nat) e e' /\
             forall spt, (spt < n)%nat ->
               nth spt (ele.detJac_spts e') 0 = ele.detJ_spt moving e spt /\
               0 <= ele.detJ_spt moving e spt
  | FatalError _ => exists spt, (spt < n)%nat /\ ele.detJ_spt moving e spt < 0
  end.
Proof.
  induction n as [|n IH]; intros Hd HJ; simpl forM_.
  - split; [apply spts_frame_refl | intros; lia].
  - specialize (IH ltac:(lia) ltac:(lia)).
    destruct (forM_ n (ele.calcTransforms_spt moving) e) as [e1|msg]; simpl bind.
    + destruct IH as (F1 & V1).
      assert (L1 := F1). destruct L1 as (_&_&_&_&_&_&_&_&_&_&_&_&_&_&Ld&LJ&_&_).
      pose proof (calcTransforms_spt_spec moving n e1 ltac:(lia) ltac:(lia)) as P.
      rewrite (detJ_spt_frame _ moving e e1 n F1) in P by lia.
      destruct (ele.calcTransforms_spt moving n e1) as [e2|msg].
      * destruct P as (F2 & Veq & Vge). split.
        -- apply (spts_frame_trans _ _ _ e e1 e2) with (2 := F1) (3 := F2).
           intros j Hj; split; lia.
        -- intros spt Hs. destruct (Nat.eq_dec spt n) as [->|Hne]; [auto|].
           destruct F2 as (_&_&_&_&_&_&_&_&_&_&_&_&_&_&_&_&Kd&_).
           rewrite Kd by exact Hne. apply V1; lia.
      * exists n; split; [lia|exact P].
    + destruct IH as (spt & Hs & Hneg). exists spt; split; [lia|exact Hneg].
Qed.

(** ** ele::calcTransforms : the flux-point loop *)

Lemma upd_nth_same {A : Type} (k : nat) (d : A) (l : list A) : upd k (nth k l d) l = l.
Proof.
  revert k; induction l as [|h t IH]; intros [|k]; simpl; auto. f_equal; apply IH.
Qed.

Lemma mset_upd_row (N : matrix) (k d : nat) (r : list R) (x : R) :
  (k < List.length N)%nat -> mset (upd k r N) k d x = upd k (upd d x r) N.
Proof.
  intros Hk. unfold mset. rewrite nth_upd_eq by exact Hk. apply upd_upd.
Qed.

Lemma mget_upd_row (N : matrix) (k d : nat) (r : list R) :
  (k < List.length N)%nat -> mget (upd k r N) k d = nth d r 0.
Proof. intros Hk. unfold mget. now rewrite nth_upd_eq. Qed.

(** A loop of writes into row [k] is the loop on that row. *)
Lemma for_row_lift (n k : nat) (f : nat -> R -> R) (N : matrix) (r : list R) :
  (k < List.length N)%nat ->
  for_ n (fun d N => mset N k d (f d (mget N k d))) (upd k r N)
  = upd k (for_ n (fun d r => upd d (f d (nth d r 0)) r) r) N.
Proof.
  intros Hk. apply (for_lift (fun r => upd k r N)). intros d r0 _.
  rewrite mget_upd_row by exact Hk. apply mset_upd_row; exact Hk.
Qed.

Lemma rawNormal_lift (n k : nat) (c : nat -> nat -> R) (N : matrix) :
  (k < List.length N)%nat ->
  for_ n (fun dim1 N =>
    let N := mset N k dim1 0 in
    for_ n (fun dim2 N => mset N k dim1 (mget N k dim1 + c dim2 dim1)) N) N
  = upd k
      (for_ n (fun dim1 r =>
         let r := upd dim1 0 r in
         for_ n (fun dim2 r => upd dim1 (nth dim1 r 0 + c dim2 dim1) r) r)
         (nth k N [])) N.
Proof.
  intros Hk. rewrite <- (upd_nth_same k [] N) at 1.
  apply (for_lift (fun r => upd k r N)). intros dim1 r0 _. cbv zeta.
  rewrite mset_upd_row by exact Hk.
  apply (for_lift (fun r => upd k r N)). intros dim2 r1 _.
  rewrite mget_upd_row by exact Hk. apply mset_upd_row; exact Hk.
Qed.

Lemma dA_lift (n k : nat) (c : nat -> R) (v : list R) :
  (k < List.length v)%nat ->
  for_ n (fun dim dA => upd k (nth k dA 0 + c dim) dA) (upd k 0 v)
  = upd k (for_ n (fun dim acc => acc + c dim) 0) v.
Proof.
  intros Hk. apply (for_lift (fun a => upd k a v)). intros dim a _.
  rewrite nth_upd_eq by exact Hk. apply upd_upd.
Qed.

Ltac ele_proj :=
  cbn [ele.ID ele.nDims ele.nFields ele.nSpts ele.nFpts ele.nNodes ele.dt ele.nodes
       ele.nodesRK ele.U_spts ele.U_fpts ele.U0 ele.Uavg ele.divF_spts ele.src_spts
       ele.F_spts ele.dF_spts ele.dU_spts ele.dShape_spts ele.dShape_fpts ele.Jac_spts
       ele.Jac_fpts ele.JGinv_spts ele.JGinv_fpts ele.detJac_spts ele.detJac_fpts
       ele.tNorm_fpts ele.norm_fpts ele.dA_fpts ele.gridVel_spts
       ele.set_dt ele.set_U_spts ele.set_U_fpts ele.set_U0 ele.set_divF_spts
       ele.set_F_spts ele.set_dF_spts ele.set_Jac_spts ele.set_Jac_fpts
       ele.set_JGinv_spts ele.set_JGinv_fpts ele.set_detJac_spts ele.set_detJac_fpts
       ele.set_norm_fpts ele.set_dA_fpts].

Lemma fpts_frame_refl (U : nat -> Prop) (e : ele.ele) : fpts_frame U e e.
Proof. unfold fpts_frame; repeat split; auto. Qed.

Lemma fpts_frame_trans (U V W : nat -> Prop) (e1 e2 e3 : ele.ele) :
  (forall j, W j -> U j /\ V j) ->
  fpts_frame U e1 e2 -> fpts_frame V e2 e3 -> fpts_frame W e1 e3.
Proof.
  intros HW (A & B & C) (A' & B' & C'). unfold fpts_frame.
  split; [|split].
  - destruct A as (a1&a2&a3&a4&a5&a6&a7&a8&a9&a10&a11).
    destruct A' as (b1&b2&b3&b4&b5&b6&b7&b8&b9&b10&b11).
    repeat split; congruence.
  - destruct B as (a1&a2&a3&a4&a5). destruct B' as (b1&b2&b3&b4&b5).
    repeat split; congruence.
  - intros j Hj. destruct (HW j Hj) as (Hu & Hv).
    destruct (C j Hu) as (a1&a2&a3&a4&a5). destruct (C' j Hv) as (b1&b2&b3&b4&b5).
    repeat split; congruence.
Qed.

Lemma calcTransforms_fpt_jac_at (moving : bool) (k : nat) (e : ele.ele) :
  (k < List.length (ele.Jac_fpts e))%nat ->
  (k < List.length (ele.JGinv_fpts e))%nat ->
  (k < List.length (ele.detJac_fpts e))%nat ->
  let e' := ele.calcTransforms_fpt_jac moving k e in
  fpts_frame (fun j => j <> k) e e' /\
  ele.norm_fpts e' = ele.norm_fpts e /\ ele.dA_fpts e' = ele.dA_fpts e /\
  nth k (ele.JGinv_fpts e') [] = ele.JGinv_at moving e k /\
  nth k (ele.detJac_fpts e') 0 = ele.detJ_fpt moving e k.
Proof.
  intros HJ HG Hd e'. unfold e', ele.calcTransforms_fpt_jac, ele.JGinv_at, ele.detJ_fpt.
  cbv zeta. ele_proj.
  set (J := ele.accumJac _ _ _ _ _).
  rewrite (nth_upd_eq k J) by exact HJ.
  destruct (ele.nDims e =? 2)%nat; [|destruct (ele.nDims e =? 3)%nat];
    ele_proj; rewrite ?upd_length;
    (split; [unfold fpts_frame; ele_proj; rewrite ?upd_length;
             split; [repeat split; reflexivity|];
             split; [repeat split; reflexivity|];
             intros j Hj; rewrite ?(nth_upd_neq k j) by auto; repeat split; reflexivity|]);
    rewrite ?nth_upd_eq by assumption; repeat split; reflexivity.
Qed.

Lemma sumsq_row (n k : nat) (raw : list R) (N : matrix) :
  (k < List.length N)%nat ->
  for_ n (fun dim acc => acc + mget (upd k raw N) k dim * mget (upd k raw N) k dim) 0
  = ele.sumsq n raw.
Proof.
  intros Hk. unfold ele.sumsq. apply for_ext. intros dim acc _.
  now rewrite mget_upd_row.
Qed.

Lemma calcTransforms_fpt_normal_at (k : nat) (e : ele.ele) :
  (k < List.length (ele.norm_fpts e))%nat ->
  (k < List.length (ele.dA_fpts e))%nat ->
  let raw := ele.rawNormal (ele.nDims e) (nth k (ele.JGinv_fpts e) []) (ele.tNorm_fpts e) k
               (nth k (ele.norm_fpts e) []) in
  ele.calcTransforms_fpt_normal k e
  = ele.set_norm_fpts (upd k (ele.storedNormal (ele.nDims e) raw) (ele.norm_fpts e))
      (ele.set_dA_fpts (upd k (ele.storedArea (ele.nDims e) raw) (ele.dA_fpts e)) e).
Proof.
  intros HN HA raw. unfold ele.calcTransforms_fpt_normal. cbv zeta. ele_proj.
  rewrite (rawNormal_lift (ele.nDims e) k
             (fun dim2 dim1 => mget (nth k (ele.JGinv_fpts e) []) dim2 dim1
                               * mget (ele.tNorm_fpts e) k dim2)) by exact HN.
  fold (ele.rawNormal (ele.nDims e) (nth k (ele.JGinv_fpts e) []) (ele.tNorm_fpts e) k
          (nth k (ele.norm_fpts e) [])).
  fold raw.
  rewrite (dA_lift (ele.nDims e) k
             (fun dim => mget (upd k raw (ele.norm_fpts e)) k dim
                         * mget (upd k raw (ele.norm_fpts e)) k dim)) by exact HA.
  rewrite sumsq_row by exact HN.
  rewrite !(nth_upd_eq k) by (rewrite ?upd_length; exact HA).
  unfold ele.storedNormal, ele.storedArea.
  destruct (Rltb (Rabs (sqrt (ele.sumsq (ele.nDims e) raw))) 1e-10).
  - ele_proj.
    rewrite (for_row_lift (ele.nDims e) k (fun _ _ => 0)) by exact HN.
    rewrite !upd_upd. reflexivity.
  - ele_proj. rewrite ?(nth_upd_eq k) by (rewrite ?upd_length; exact HA).
    rewrite (for_row_lift (ele.nDims e) k
               (fun _ old => old / sqrt (ele.sumsq (ele.nDims e) raw))) by exact HN.
    rewrite !upd_upd. reflexivity.
Qed.

Lemma calcTransforms_fpt_at (moving : bool) (k : nat) (e : ele.ele) :
  (k < List.length (ele.Jac_fpts e))%nat ->
  (k < List.length (ele.JGinv_fpts e))%nat ->
  (k < List.length (ele.detJac_fpts e))%nat ->
  (k < List.length (ele.norm_fpts e))%nat ->
  (k < List.length (ele.dA_fpts e))%nat ->
  let e' := ele.calcTransforms_fpt moving k e in
  fpts_frame (fun j => j <> k) e e' /\
  nth k (ele.norm_fpts e') [] = ele.norm_at moving e k /\
  nth k (ele.dA_fpts e') 0 = ele.dA_at moving e k /\
  nth k (ele.detJac_fpts e') 0 = ele.detJ_fpt moving e k.
Proof.
  intros HJ HG Hd HN HA e'. unfold e', ele.calcTransforms_fpt.
  destruct (calcTransforms_fpt_jac_at moving k e HJ HG Hd) as (F1 & EN & EA & EG & ED).
  set (e1 := ele.calcTransforms_fpt_jac moving k e) in *.
  rewrite (calcTransforms_fpt_normal_at k e1) by (rewrite ?EN, ?EA; assumption).
  cbv zeta.
  assert (F2 : fpts_frame (fun j => j <> k) e1
            (ele.set_norm_fpts
               (upd k (ele.storedNormal (ele.nDims e1)
                         (ele.rawNormal (ele.nDims e1) (nth k (ele.JGinv_fpts e1) [])
                            (ele.tNorm_fpts e1) k (nth k (ele.norm_fpts e1) [])))
                  (ele.norm_fpts e1))
               (ele.set_dA_fpts
                  (upd k (ele.storedArea (ele.nDims e1)
                            (ele.rawNormal (ele.nDims e1) (nth k (ele.JGinv_fpts e1) [])
                               (ele.tNorm_fpts e1) k (nth k (ele.norm_fpts e1) [])))
                     (ele.dA_fpts e1)) e1))).
  { unfold fpts_frame. ele_proj. rewrite !upd_length.
    split; [repeat split; reflexivity|]. split; [repeat split; reflexivity|].
    intros j Hj. rewrite !(nth_upd_neq k j) by auto. repeat split; reflexivity. }
  split; [apply (fpts_frame_trans (fun j => j <> k) (fun j => j <> k) _ e e1); auto|].
  ele_proj.
  rewrite !nth_upd_eq by (rewrite ?EN, ?EA; assumption).
  assert (F1' := F1). destruct F1' as ((_&_&ED3&_&_&_&_&ET&_) & _ & _).
  rewrite EG, EN, ED3, ET.
  split; [reflexivity|]. split; [reflexivity|exact ED].
Qed.

Lemma fpt_views_frame (U : nat -> Prop) (moving : bool) (e e' : ele.ele) (k : nat) :
  fpts_frame U e e' -> U k ->
  ele.norm_at moving e' k = ele.norm_at moving e k /\
  ele.dA_at moving e' k = ele.dA_at moving e k /\
  ele.detJ_fpt moving e' k = ele.detJ_fpt moving e k.
Proof.
  intros ((a1&a2&a3&a4&a5&a6&a7&a8&a9&a10&a11) & _ & C) Hk.
  destruct (C k Hk) as (c1&c2&c3&c4&c5).
  unfold ele.norm_at, ele.dA_at, ele.detJ_fpt, ele.rawNormal_at, ele.JGinv_at.
  rewrite a3, a4, a5, a6, a7, a8, c1, c2, c3, c4. repeat split; reflexivity.
Qed.

Lemma fpts_loop_spec (moving : bool) (e : ele.ele) (n : nat) :
  (n <= List.length (ele.Jac_fpts e))%nat ->
  (n <= List.length (ele.JGinv_fpts e))%nat ->
  (n <= List.length (ele.detJac_fpts e))%nat ->
  (n <= List.length (ele.norm_fpts e))%nat ->
  (n <= List.length (ele.dA_fpts e))%nat ->
  let e' := for_ n (ele.calcTransforms_fpt moving) e in
  fpts_frame (fun j => (n <= j)%nat) e e' /\
  forall k, (k < n)%nat ->
    nth k (ele.norm_fpts e') [] = ele.norm_at moving e k /\
    nth k (ele.dA_fpts e') 0 = ele.dA_at moving e k /\
    nth k (ele.detJac_fpts e') 0 = ele.detJ_fpt moving e k.
Proof.
  induction n as [|n IH]; intros HJ HG Hd HN HA; simpl for_.
  - split; [apply fpts_frame_refl | intros; lia].
  - destruct (IH ltac:(lia) ltac:(lia) ltac:(lia) ltac:(lia) ltac:(lia)) as (F1 & V1).
    set (e1 := for_ n (ele.calcTransforms_fpt moving) e) in *.
    assert (L := F1). destruct L as (_ & (l1&l2&l3&l4&l5) & _).
    destruct (calcTransforms_fpt_at moving n e1
                ltac:(lia) ltac:(lia) ltac:(lia) ltac:(lia) ltac:(lia))
      as (F2 & P1 & P2 & P3).
    destruct (fpt_views_frame _ moving e e1 n F1 (le_n n)) as (Q1 & Q2 & Q3).
    rewrite Q1 in P1. rewrite Q2 in P2. rewrite Q3 in P3.
    split.
    + apply (fpts_frame_trans _ _ _ e e1 _) with (2 := F1) (3 := F2).
      intros j Hj; split; lia.
    + intros k Hk. destruct (Nat.eq_dec k n) as [->|Hne]; [auto|].
      destruct F2 as (_ & _ & C2). destruct (C2 k Hne) as (_&_&c3&c4&c5).
      rewrite c3, c4, c5. apply V1; lia.
Qed.

Lemma fpt_views_spts_frame (U : nat -> Prop) (moving : bool) (e e' : ele.ele) (k : nat) :
  spts_frame U e e' ->
  ele.norm_at moving e' k = ele.norm_at moving e k /\
  ele.dA_at moving e' k = ele.dA_at moving e k /\
  ele.detJ_fpt moving e' k = ele.detJ_fpt moving e k.
Proof.
  intros (a1&a2&a3&a4&a5&a6&a7&a8&a9&a10&a11&a12&a13&a14&a15&a16&a17&a18).
  unfold ele.norm_at, ele.dA_at, ele.detJ_fpt, ele.rawNormal_at, ele.JGinv_at.
  rewrite a3, a4, a5, a6, a8, a9, a10, a11, a12, a13. repeat split; reflexivity.
Qed.

(** The whole of [calcTransforms], on an element whose arrays are sized. *)
Lemma calcTransforms_spec (moving : bool) (e : ele.ele) :
  ele.wf_spts e -> ele.wf_fpts e ->
  match ele.calcTransforms moving e with
  | Ok e' =>
      ele.nDims e' = ele.nDims e /\
      (forall spt, (spt < ele.nSpts e)%nat ->
         nth spt (ele.detJac_spts e') 0 = ele.detJ_spt moving e spt /\
         0 <= ele.detJ_spt moving e spt) /\
      (forall fpt, (fpt < ele.nFpts e)%nat ->
         nth fpt (ele.norm_fpts e') [] = ele.norm_at moving e fpt /\
         nth fpt (ele.dA_fpts e') 0 = ele.dA_at moving e fpt /\
         nth fpt (ele.detJac_fpts e') 0 = ele.detJ_fpt moving e fpt)
  | FatalError _ =>
      exists spt, (spt < ele.nSpts e)%nat /\ ele.detJ_spt moving e spt < 0
  end.
Proof.
  intros (Wd & WJ) ((WN & _) & WA & Wdf & WJf & WGf).
  unfold ele.calcTransforms.
  pose proof (spts_loop_spec moving e (ele.nSpts e) ltac:(lia) ltac:(lia)) as P.
  destruct (forM_ (ele.nSpts e) (ele.calcTransforms_spt moving) e) as [e1|msg];
    simpl bind; [|exact P].
  destruct P as (F1 & V1).
  assert (L := F1).
  destruct L as (a1&a2&a3&a4&a5&a6&a7&a8&a9&a10&a11&a12&a13&a14&a15&a16&a17&a18).
  destruct (fpts_loop_spec moving e1 (ele.nFpts e1)) as (F2 & V2);
    try (rewrite ?a9, ?a10, ?a11, ?a13, ?a14, a2; lia).
  set (e2 := for_ (ele.nFpts e1) (ele.calcTransforms_fpt moving) e1) in *.
  destruct F2 as ((b1&b2&b3&b4&b5&b6&b7&b8&b9&b10&b11) & _ & _).
  split; [congruence|]. split.
  - intros spt Hs. rewrite b11. apply V1, Hs.
  - intros fpt Hf.
    destruct (fpt_views_spts_frame _ moving e e1 fpt F1) as (Q1 & Q2 & Q3).
    rewrite <- Q1, <- Q2, <- Q3. apply V2. lia.
Qed.

(** ** The stored normal is a unit vector or zero *)

Lemma for_upd_length (n : nat) (f : nat -> list R -> R) (r : list R) :
  List.length (for_ n (fun d r => upd d (f d r) r) r) = List.length r.
Proof. induction n as [|n IH]; simpl; auto. now rewrite upd_length. Qed.

Lemma for_upd_get (n : nat) (f : nat -> R -> R) (r : list R) (i : nat) :
  (n <= List.length r)%nat ->
  nth i (for_ n (fun d r => upd d (f d (nth d r 0)) r) r) 0
  = if (i <? n)%nat then f i (nth i r 0) else nth i r 0.
Proof.
  intros Hn. induction n as [|n IH]; simpl for_; auto.
  destruct (Nat.eq_dec i n) as [->|Hne].
  - rewrite nth_upd_eq
      by (rewrite (for_upd_length n (fun d r => f d (nth d r 0))); lia).
    rewrite IH by lia.
    replace (n <? n)%nat with false by (symmetry; apply Nat.ltb_ge; lia).
    replace (n <? S n)%nat with true by (symmetry; apply Nat.ltb_lt; lia).
    reflexivity.
  - rewrite nth_upd_neq by auto. rewrite IH by lia.
    destruct (Nat.ltb_spec i n), (Nat.ltb_spec i (S n)); auto; lia.
Qed.

Lemma rawNormal_length (n : nat) (JG tNorm : matrix) (fpt : nat) (row : list R) :
  List.length (ele.rawNormal n JG tNorm fpt row) = List.length row.
Proof.
  unfold ele.rawNormal.
  apply (for_ind (fun _ r => List.length r = List.length row)); auto.
  intros i r _ Hr. cbv zeta.
  apply (for_ind (fun _ r => List.length r = List.length row)).
  - now rewrite upd_length.
  - intros j r' _ Hr'. now rewrite upd_length.
Qed.

Lemma sumsq_nonneg (n : nat) (row : list R) : 0 <= ele.sumsq n row.
Proof.
  unfold ele.sumsq. induction n as [|n IH]; simpl; [lra|].
  pose proof (Rle_0_sqr (nth n row 0)) as H. unfold Rsqr in H. lra.
Qed.

Lemma sumsq_scaled (n : nat) (row row' : list R) (d : R) :
  (forall i, (i < n)%nat -> nth i row' 0 = nth i row 0 / d) ->
  ele.sumsq n row' = ele.sumsq n row / (d * d).
Proof.
  unfold ele.sumsq. induction n as [|n IH]; intros H; simpl.
  - unfold Rdiv. ring.
  - rewrite IH by (intros; apply H; lia). rewrite (H n) by lia.
    unfold Rdiv. rewrite Rinv_mult. ring.
Qed.

Lemma all_zero_repeat (n : nat) (l : list R) :
  List.length l = n -> (forall i, (i < n)%nat -> nth i l 0 = 0) -> l = repeat 0 n.
Proof.
  intros Hl H. apply (nth_ext _ _ 0 0).
  - now rewrite repeat_length.
  - intros i Hi. rewrite H by lia. symmetry. apply nth_repeat.
Qed.

Lemma stored_normal_cases (n : nat) (raw : list R) :
  List.length raw = n ->
  (ele.storedArea n raw = 0 /\ ele.storedNormal n raw = repeat 0 n) \/
  (1e-10 <= ele.storedArea n raw /\ sqrt (ele.sumsq n (ele.storedNormal n raw)) = 1).
Proof.
  intros Hl. unfold ele.storedArea, ele.storedNormal.
  set (s := sqrt (ele.sumsq n raw)).
  assert (Hs0 : 0 <= s) by apply sqrt_pos.
  destruct (Rltb (Rabs s) 1e-10) eqn:Hlt.
  - left. split; [reflexivity|]. apply all_zero_repeat.
    + rewrite (for_upd_length n (fun _ _ => 0)). exact Hl.
    + intros i Hi. rewrite (for_upd_get n (fun _ _ => 0)) by lia.
      apply Nat.ltb_lt in Hi. now rewrite Hi.
  - right. apply Rltb_iff_false in Hlt. rewrite Rabs_right in Hlt by lra.
    split; [exact Hlt|].
    rewrite (sumsq_scaled n raw _ s).
    + assert (Hss : s * s = ele.sumsq n raw) by (apply sqrt_sqrt, sumsq_nonneg).
      rewrite <- Hss. replace (s * s / (s * s)) with 1 by (field; lra).
      apply sqrt_1.
    + intros i Hi. rewrite (for_upd_get n (fun _ old => old / s)) by lia.
      apply Nat.ltb_lt in Hi. now rewrite Hi.
Qed.

(** ** C2 and C5 on the code *)

Lemma calcTransforms_fpt_keeps_spts (moving : bool) (k : nat) (e : ele.ele) :
  ele.detJac_spts (ele.calcTransforms_fpt moving k e) = ele.detJac_spts e /\
  ele.nFpts (ele.calcTransforms_fpt moving k e) = ele.nFpts e.
Proof.
  assert (H1 : forall e0, ele.detJac_spts (ele.calcTransforms_fpt_normal k e0)
                          = ele.detJac_spts e0 /\
                          ele.nFpts (ele.calcTransforms_fpt_normal k e0) = ele.nFpts e0).
  { intros e0. unfold ele.calcTransforms_fpt_normal. cbv zeta.
    match goal with |- context [if Rltb ?a ?b then _ else _] => destruct (Rltb a b) end;
      split; reflexivity. }
  assert (H2 : ele.detJac_spts (ele.calcTransforms_fpt_jac moving k e) = ele.detJac_spts e /\
               ele.nFpts (ele.calcTransforms_fpt_jac moving k e) = ele.nFpts e).
  { unfold ele.calcTransforms_fpt_jac. cbv zeta. ele_proj.
    destruct (ele.nDims e =? 2)%nat; [|destruct (ele.nDims e =? 3)%nat];
      split; reflexivity. }
  unfold ele.calcTransforms_fpt.
  destruct (H1 (ele.calcTransforms_fpt_jac moving k e)) as (A & B).
  destruct H2 as (C & D). split; congruence.
Qed.

Lemma fpts_loop_keeps_spts (moving : bool) (n : nat) (e : ele.ele) :
  ele.detJac_spts (for_ n (ele.calcTransforms_fpt moving) e) = ele.detJac_spts e.
Proof.
  induction n as [|n IH]; simpl; auto.
  destruct (calcTransforms_fpt_keeps_spts moving n (for_ n (ele.calcTransforms_fpt moving) e))
    as (H & _).
  now rewrite H.
Qed.

Lemma calcTransforms_detJac_aux (moving : bool) (e : ele.ele) :
  ele.wf_spts e ->
  match ele.calcTransforms moving e with
  | Ok e' =>
      forall spt, (spt < ele.nSpts e)%nat ->
        nth spt (ele.detJac_spts e') 0 = ele.detJ_spt moving e spt /\
        0 <= nth spt (ele.detJac_spts e') 0
  | FatalError _ =>
      exists s, (s < ele.nSpts e)%nat /\ ele.detJ_spt moving e s < 0
  end.
Proof.
  intros (Wd & WJ). unfold ele.calcTransforms.
  pose proof (spts_loop_spec moving e (ele.nSpts e) ltac:(lia) ltac:(lia)) as P.
  destruct (forM_ (ele.nSpts e) (ele.calcTransforms_spt moving) e) as [e1|msg];
    simpl bind; [|exact P].
  destruct P as (_ & V1). intros spt Hs. rewrite fpts_loop_keeps_spts.
  destruct (V1 spt Hs) as (H1 & H2). rewrite H1. auto.
Qed.

(** C2 (as the code has it).  On an element whose solution-point arrays are
    sized, [calcTransforms] either returns, and then the determinant stored
    at every solution point is the one computed there and is not negative,
    or it is fatal, and then the determinant is negative at some solution
    point.  So a negative determinant at a solution point is always fatal,
    and a zero one never is. *)
Theorem calcTransforms_detJac (moving : bool) (e : ele.ele) (spt : nat) :
  ele.wf_spts e -> (spt < ele.nSpts e)%nat ->
  match ele.calcTransforms moving e with
  | Ok e' =>
      nth spt (ele.detJac_spts e') 0 = ele.detJ_spt moving e spt /\
      0 <= nth spt (ele.detJac_spts e') 0
  | FatalError _ =>
      exists s, (s < ele.nSpts e)%nat /\ ele.detJ_spt moving e s < 0
  end.
Proof.
  intros W Hs. pose proof (calcTransforms_detJac_aux moving e W) as P.
  destruct (ele.calcTransforms moving e); auto.
Qed.

Ltac Reval :=
  cbv - [Rplus Rminus Rmult Rdiv Ropp Rinv IZR Rltb sqrt Rabs Rmin Rmax Rpower
         Rlt Rle Rgt Rge].

Lemma quad0_wf (nds : list point) (U Um : list R) :
  ele.wf_spts (ele.quad0 nds U Um) /\ ele.wf_fpts (ele.quad0 nds U Um).
Proof.
  split; [split; reflexivity|].
  split; [split; [reflexivity | repeat constructor]|]. repeat split; reflexivity.
Qed.

Lemma square4_detJ : ele.detJ_spt false ele.square4 0 = 4.
Proof. Reval. lra. Qed.

Lemma collapsed_detJ : ele.detJ_spt false ele.collapsed 0 = 0.
Proof. Reval. lra. Qed.

Lemma bowtie_detJ :
  ele.detJ_spt false ele.bowtie 0 = 2 /\ ele.detJ_fpt false ele.bowtie 0 = -1.
Proof. split; Reval; lra. Qed.

(** An order-0 quadrilateral whose determinant at the centre is not
    negative goes through [calcTransforms]. *)
Lemma quad0_returns (nds : list point) (U Um : list R) :
  0 <= ele.detJ_spt false (ele.quad0 nds U Um) 0 ->
  exists e', ele.calcTransforms false (ele.quad0 nds U Um) = Ok e' /\
    nth 0 (ele.detJac_spts e') 0 = ele.detJ_spt false (ele.quad0 nds U Um) 0 /\
    forall fpt, (fpt < 4)%nat ->
      nth fpt (ele.norm_fpts e') [] = ele.norm_at false (ele.quad0 nds U Um) fpt /\
      nth fpt (ele.dA_fpts e') 0 = ele.dA_at false (ele.quad0 nds U Um) fpt /\
      nth fpt (ele.detJac_fpts e') 0 = ele.detJ_fpt false (ele.quad0 nds U Um) fpt.
Proof.
  intros Hd. destruct (quad0_wf nds U Um) as (W1 & W2).
  pose proof (calcTransforms_spec false _ W1 W2) as P.
  destruct (ele.calcTransforms false (ele.quad0 nds U Um)) as [e'|msg].
  - exists e'. destruct P as (_ & V1 & V2). split; [reflexivity|].
    split; [apply (V1 0%nat); simpl; lia | exact V2].
  - destruct P as (s & Hs & Hneg). simpl in Hs.
    assert (s = 0%nat) by lia. subst s. lra.
Qed.

Lemma calcTransforms_detJac_witness :
  match ele.calcTransforms false ele.square4 with
  | Ok e' =>
      nth 0 (ele.detJac_spts e') 0 = ele.detJ_spt false ele.square4 0 /\
      0 <= nth 0 (ele.detJac_spts e') 0
  | FatalError _ =>
      exists s, (s < ele.nSpts ele.square4)%nat /\ ele.detJ_spt false ele.square4 s < 0
  end.
Proof.
  apply (calcTransforms_detJac false ele.square4 0).
  - split; reflexivity.
  - simpl; lia.
Defined.

(** C2 as stated fails.  The collapsed quadrilateral has determinant 0 at
    its solution point and the self-intersecting one has determinant -1 at
    a flux point; [calcTransforms] returns on both and stores these
    values. *)
Lemma calcTransforms_nonpositive_not_fatal :
  (exists e', ele.calcTransforms false ele.collapsed = Ok e' /\
              nth 0 (ele.detJac_spts e') 0 = 0) /\
  (exists e', ele.calcTransforms false ele.bowtie = Ok e' /\
              nth 0 (ele.detJac_fpts e') 0 = -1).
Proof.
  split.
  - destruct (quad0_returns (ele.squareNodes 0) [1] [1]) as (e' & E & Hd & _).
    + fold ele.collapsed. rewrite collapsed_detJ. lra.
    + exists e'. split; [exact E|]. fold ele.collapsed in Hd.
      rewrite Hd. apply collapsed_detJ.
  - destruct bowtie_detJ as (Hs & Hf).
    destruct (quad0_returns
                [mkPoint 0 0 0; mkPoint 4 0 0; mkPoint (-10) (-1) 0; mkPoint 10 (-1) 0]
                [1] [1]) as (e' & E & _ & V).
    + fold ele.bowtie. rewrite Hs. lra.
    + exists e'. split; [exact E|]. fold ele.bowtie in V.
      destruct (V 0%nat ltac:(lia)) as (_ & _ & H). rewrite H. exact Hf.
Qed.

Lemma rawNormal_at_length (moving : bool) (e : ele.ele) (fpt : nat) :
  ele.wf_fpts e -> (fpt < ele.nFpts e)%nat ->
  List.length (ele.rawNormal_at moving e fpt) = ele.nDims e.
Proof.
  intros (WN & _) Hf. unfold ele.rawNormal_at. rewrite rawNormal_length.
  apply (dims_row _ (ele.nFpts e)); assumption.
Qed.

Lemma calcTransforms_normals_aux (moving : bool) (e : ele.ele) :
  ele.wf_spts e -> ele.wf_fpts e ->
  match ele.calcTransforms moving e with
  | Ok e' =>
      forall fpt, (fpt < ele.nFpts e)%nat ->
        (nth fpt (ele.dA_fpts e') 0 = 0 /\
         nth fpt (ele.norm_fpts e') [] = repeat 0 (ele.nDims e))
        \/ (1e-10 <= nth fpt (ele.dA_fpts e') 0 /\ ele.normOfNormal e' fpt = 1)
  | FatalError _ => True
  end.
Proof.
  intros W1 W2. pose proof (calcTransforms_spec moving e W1 W2) as P.
  destruct (ele.calcTransforms moving e) as [e'|msg]; [|exact I].
  destruct P as (Hd & _ & V). intros fpt Hf.
  destruct (V fpt Hf) as (HN & HA & _).
  unfold ele.normOfNormal. rewrite HN, HA, Hd.
  unfold ele.dA_at, ele.norm_at.
  apply stored_normal_cases, rawNormal_at_length; assumption.
Qed.

(** C5 (as the code has it).  After [calcTransforms] has returned on an
    element whose arrays are sized, at every flux point either the stored
    area element is 0 and the stored normal is the zero vector, or the
    stored area element is at least 1e-10 and the stored normal is a unit
    vector (Euclidean norm 1). *)
Theorem calcTransforms_normals (moving : bool) (e : ele.ele) (fpt : nat) :
  ele.wf_spts e -> ele.wf_fpts e -> (fpt < ele.nFpts e)%nat ->
  match ele.calcTransforms moving e with
  | Ok e' =>
      (nth fpt (ele.dA_fpts e') 0 = 0 /\
       nth fpt (ele.norm_fpts e') [] = repeat 0 (ele.nDims e))
      \/ (1e-10 <= nth fpt (ele.dA_fpts e') 0 /\ ele.normOfNormal e' fpt = 1)
  | FatalError _ => True
  end.
Proof.
  intros W1 W2 Hf. pose proof (calcTransforms_normals_aux moving e W1 W2) as P.
  destruct (ele.calcTransforms moving e); auto.
Qed.

Lemma calcTransforms_normals_witness :
  match ele.calcTransforms false ele.square4 with
  | Ok e' =>
      (nth 0 (ele.dA_fpts e') 0 = 0 /\
       nth 0 (ele.norm_fpts e') [] = repeat 0 (ele.nDims ele.square4))
      \/ (1e-10 <= nth 0 (ele.dA_fpts e') 0 /\ ele.normOfNormal e' 0 = 1)
  | FatalError _ => True
  end.
Proof.
  apply (calcTransforms_normals false ele.square4 0).
  - apply quad0_wf.
  - apply quad0_wf.
  - simpl; lia.
Defined.

(** Evaluates [Rmin] and [Rmax] of numerals, innermost first. *)
Ltac Rminmax :=
  repeat match goal with
         | |- context [Rmin ?a ?b] =>
             first [ rewrite (Rmin_left a b) by lra | rewrite (Rmin_right a b) by lra ]
         | |- context [Rmax ?a ?b] =>
             first [ rewrite (Rmax_left a b) by lra | rewrite (Rmax_right a b) by lra ]
         end.

Lemma square4_rawNormal : ele.rawNormal_at false ele.square4 0 = [0; -2].
Proof. Reval. repeat (f_equal; try lra). Qed.

Lemma square4_size : ele.elementSize ele.staticRun ele.square4 = 4.
Proof. Reval. Rminmax. lra. Qed.

Lemma square4_area : ele.dA_at false ele.square4 0 = 2.
Proof.
  unfold ele.dA_at, ele.storedArea. rewrite square4_rawNormal.
  change (ele.nDims ele.square4) with 2%nat.
  replace (ele.sumsq 2 [0; -2]) with (2 * 2) by (Reval; lra).
  rewrite sqrt_square by lra. rewrite Rabs_right by lra. Rdecide. reflexivity.
Qed.

(** C5 as stated fails.  On the square of side 4 (element size 4)
    [calcTransforms] stores the area element 2 and a normal of Euclidean
    norm 1 at the first flux point: they differ by 1, not by less than
    1e-12 times the element size. *)
Lemma normal_norm_differs_from_area :
  exists e', ele.calcTransforms false ele.square4 = Ok e' /\
    nth 0 (ele.dA_fpts e') 0 = 2 /\
    ele.normOfNormal e' 0 = 1 /\
    Rabs (ele.normOfNormal e' 0 - nth 0 (ele.dA_fpts e') 0)
    > 1e-12 * ele.elementSize ele.staticRun ele.square4.
Proof.
  destruct (quad0_returns (ele.squareNodes 4) [1] [1]) as (e' & E & _ & V).
  { fold ele.square4. rewrite square4_detJ. lra. }
  fold ele.square4 in E, V. exists e'. split; [exact E|].
  destruct (V 0%nat ltac:(lia)) as (_ & HA & _). rewrite square4_area in HA.
  destruct (quad0_wf (ele.squareNodes 4) [1] [1]) as (W1 & W2). fold ele.square4 in W1, W2.
  pose proof (calcTransforms_normals_aux false ele.square4 W1 W2) as P.
  rewrite E in P. specialize (P 0%nat ltac:(simpl; lia)).
  assert (HN : ele.normOfNormal e' 0 = 1).
  { destruct P as [(H0 & _)|(_ & H1)]; [rewrite HA in H0; lra | exact H1]. }
  split; [exact HA|]. split; [exact HN|].
  rewrite HN, HA, square4_size.
  replace (1 - 2) with (-1) by lra. rewrite Rabs_left by lra. lra.
Qed.

(** ** ele::getRefLocNewton *)

Lemma clamp_range (x : R) : -1 <= Rmax (Rmin x 1) (-1) <= 1.
Proof.
  unfold Rmax, Rmin. destruct (Rle_dec x 1); destruct (Rle_dec _ (-1)); lra.
Qed.

Lemma pset_clamp_inRefBox (loc : point) (i : nat) (v : R) :
  ele.inRefBox loc ->
  ele.inRefBox (pset (pset loc i v) i (Rmax (Rmin (pidx (pset loc i v) i) 1) (-1))).
Proof.
  intros (Hx & Hy & Hz). pose proof (clamp_range (pidx (pset loc i v) i)) as Hc.
  destruct i as [|[|i]]; unfold ele.inRefBox; simpl in *; repeat split; lra.
Qed.

Lemma last_nth_pred {A : Type} (l : list A) (d : A) :
  last l d = nth (List.length l - 1) l d.
Proof.
  induction l as [|x l IH]; [reflexivity|].
  destruct l as [|y l]; [reflexivity|].
  change (last (x :: y :: l) d) with (last (y :: l) d). rewrite IH.
  simpl. rewrite Nat.sub_0_r. reflexivity.
Qed.

Section NewtonFacts.

Variable shape_quad : point -> nat -> list R.
Variable dshape_quad : point -> nat -> matrix.
Variable det : matrix -> R.
Variable adjoint : matrix -> matrix.
Variable params : input.input.
Variable e : ele.ele.

Let step := ele.newton_step shape_quad dshape_quad det adjoint params e.
Let loop := ele.newton_loop shape_quad dshape_quad det adjoint params e.
Let iter := ele.newton_iter shape_quad dshape_quad det adjoint params e.
Let detJ := ele.newton_detJ shape_quad dshape_quad det params e.

Lemma Rzerob_iff (x : R) : Rzerob x = true <-> x = 0.
Proof.
  unfold Rzerob, Rltb. destruct (Rlt_dec x 0), (Rlt_dec 0 x); simpl; split; intros H;
    try discriminate; try lra; reflexivity.
Qed.

(** A pass has no value exactly when its determinant is zero. *)
Lemma newton_step_None (pos loc : point) : step pos loc = None <-> detJ pos loc = 0.
Proof.
  unfold step, detJ, ele.newton_step, ele.newton_detJ.
  destruct (ele.newton_grad_dx shape_quad dshape_quad params e pos loc) as [grad dx].
  cbv zeta. cbn [fst]. rewrite <- Rzerob_iff.
  destruct (Rzerob (det grad)).
  - split; reflexivity.
  - destruct (for_ (ele.nDims e) _ (0, loc)) as [norm l]. split; discriminate.
Qed.

Lemma newton_step_inRefBox (pos loc loc' : point) (norm' : R) :
  ele.inRefBox loc -> step pos loc = Some (loc', norm') -> ele.inRefBox loc'.
Proof.
  intros Hloc. unfold step, ele.newton_step.
  destruct (ele.newton_grad_dx shape_quad dshape_quad params e pos loc) as [grad dx].
  cbv zeta. destruct (Rzerob (det grad)); [discriminate|].
  match goal with
  | |- context [for_ (ele.nDims e) ?body (0, loc)] =>
      assert (H : ele.inRefBox (snd (for_ (ele.nDims e) body (0, loc))))
  end.
  { apply (for_ind (fun _ st => ele.inRefBox (snd st))); [exact Hloc|].
    intros i [norm l] _ Hl. simpl in *. apply pset_clamp_inRefBox. exact Hl. }
  destruct (for_ (ele.nDims e) _ (0, loc)) as [norm l]. simpl in H.
  intros E. injection E as <- _. exact H.
Qed.

Lemma newton_iter_S (pos : point) (k : nat) (loc : point) (norm : R) :
  iter pos k = Some (loc, norm) -> iter pos (S k) = step pos loc.
Proof. intros H. unfold iter in *. simpl. rewrite H. reflexivity. Qed.

(** The loop entered after [k] passes with [remaining] passes left. *)
Lemma newton_loop_spec (tol : R) (pos : point) (remaining : nat) :
  forall (k : nat) (norm : R) (loc : point) (its : list point),
    (0 < remaining)%nat ->
    iter pos k = Some (loc, norm) -> List.length its = k ->
    ele.inRefBox loc -> Forall ele.inRefBox its ->
    (forall j, (j < k)%nat -> exists l nj nj',
        iter pos j = Some (l, nj) /\ tol < nj /\
        iter pos (S j) = Some (nth j its origin, nj')) ->
    match loop remaining tol pos norm loc its with
    | Some (ok, loc', its') =>
        (k <= List.length its' <= k + remaining)%nat /\
        Forall ele.inRefBox its' /\ ele.inRefBox loc' /\
        (exists norm', iter pos (List.length its') = Some (loc', norm') /\
                       (ok = true -> norm' <= tol)) /\
        (forall j, (j < List.length its')%nat -> exists l nj nj',
            iter pos j = Some (l, nj) /\ tol < nj /\
            iter pos (S j) = Some (nth j its' origin, nj')) /\
        (ok = false <-> List.length its' = (k + remaining)%nat)
    | None =>
        exists j l n, (j < k + remaining)%nat /\ iter pos j = Some (l, n) /\ tol < n /\
                      detJ pos l = 0
    end.
Proof.
  induction remaining as [|r IH]; intros k norm loc its Hr Hk Hlen Hloc Hits Hinv; [lia|].
  unfold loop. cbn [ele.newton_loop]. fold loop. fold step.
  destruct (Rltb tol norm) eqn:Hlt.
  - apply Rltb_iff in Hlt.
    destruct (step pos loc) as [[loc1 norm1]|] eqn:Hs.
    + pose proof (newton_step_inRefBox pos loc loc1 norm1 Hloc Hs) as Hloc1.
      assert (Hk1 : iter pos (S k) = Some (loc1, norm1))
        by (rewrite (newton_iter_S pos k loc norm Hk); exact Hs).
      assert (Hits1 : Forall ele.inRefBox (its ++ [loc1]))
        by (apply Forall_app; split; auto).
      assert (Hlen1 : List.length (its ++ [loc1]) = S k)
        by (rewrite length_app; simpl; lia).
      assert (Hinv1 : forall j, (j < S k)%nat -> exists l nj nj',
                 iter pos j = Some (l, nj) /\ tol < nj /\
                 iter pos (S j) = Some (nth j (its ++ [loc1]) origin, nj')).
      { intros j Hj. destruct (Nat.eq_dec j k) as [->|Hne].
        - exists loc, norm, norm1. split; [exact Hk|]. split; [exact Hlt|].
          rewrite <- Hlen at 2. rewrite nth_middle. exact Hk1.
        - destruct (Hinv j ltac:(lia)) as (l & nj & nj' & A & B & C).
          exists l, nj, nj'. split; [exact A|]. split; [exact B|].
          rewrite app_nth1 by lia. exact C. }
      cbv zeta. destruct (Nat.eqb_spec r 0) as [->|Hr0].
      * rewrite Hlen1. split; [lia|]. split; [exact Hits1|]. split; [exact Hloc1|].
        split; [exists norm1; split; [exact Hk1|discriminate]|].
        split; [exact Hinv1|]. split; [intros _; lia|reflexivity].
      * specialize (IH (S k) norm1 loc1 (its ++ [loc1]) ltac:(lia) Hk1 Hlen1 Hloc1 Hits1
                       Hinv1).
        destruct (loop r tol pos norm1 loc1 (its ++ [loc1])) as [[[ok loc'] its']|].
        -- destruct IH as (A & B & C & D & E & F).
           split; [lia|]. split; [exact B|]. split; [exact C|]. split; [exact D|].
           split; [exact E|]. rewrite F. lia.
        -- destruct IH as (j & l & n & A & B & C & D).
           exists j, l, n. split; [lia|]. repeat split; assumption.
    + exists k, loc, norm. split; [lia|]. split; [exact Hk|]. split; [exact Hlt|].
      apply newton_step_None. exact Hs.
  - apply Rltb_iff_false in Hlt. rewrite Hlen.
    split; [lia|]. split; [exact Hits|]. split; [exact Hloc|].
    split; [exists norm; split; [exact Hk|intros _; lra]|].
    split; [exact Hinv|]. split; [discriminate|lia].
Qed.

Lemma getRefLocNewton_outcome_aux (pos : point) :
  let tol := 1e-12 * ele.elementSize params e in
  if ele.bboxReject params e pos then
    ele.getRefLocNewton_iterates shape_quad dshape_quad det adjoint params e pos
    = Some (false, ele.sentinel, []) /\
    ele.getRefLocNewton shape_quad dshape_quad det adjoint params e pos
    = Some (false, ele.sentinel)
  else
    match ele.getRefLocNewton_iterates shape_quad dshape_quad det adjoint params e pos with
    | Some (ok, loc, its) =>
        ele.getRefLocNewton shape_quad dshape_quad det adjoint params e pos
        = Some (ok, loc) /\
        (List.length its <= 20)%nat /\
        Forall ele.inRefBox its /\ ele.inRefBox loc /\
        (exists norm, iter pos (List.length its) = Some (loc, norm) /\
                      (ok = true -> norm <= tol)) /\
        (forall j, (j < List.length its)%nat -> exists l nj nj',
            iter pos j = Some (l, nj) /\ tol < nj /\
            iter pos (S j) = Some (nth j its origin, nj')) /\
        (ok = false <-> List.length its = 20%nat) /\
        (ok = false -> loc = last its origin) /\
        ((forall j l n, (j < 20)%nat -> iter pos j = Some (l, n) -> tol < n) -> ok = false)
    | None =>
        exists j l n, (j < 20)%nat /\ iter pos j = Some (l, n) /\ tol < n /\
                      detJ pos l = 0
    end.
Proof.
  unfold ele.getRefLocNewton, ele.getRefLocNewton_iterates, ele.bboxReject,
    ele.elementSize.
  destruct (ele.getBoundingBox params e) as [box|]; [|split; reflexivity].
  destruct (ele.outsideBox box pos); [split; reflexivity|].
  cbv zeta.
  match goal with
  | |- context [ele.newton_loop _ _ _ _ _ _ _ ?tol pos 1 origin []] =>
      set (tol0 := tol);
      pose proof (newton_loop_spec tol0 pos ele.iterMax 0 1 origin []) as P
  end.
  assert (H0 : ele.inRefBox origin) by (unfold ele.inRefBox, origin; simpl; lra).
  specialize (P ltac:(unfold ele.iterMax; lia) eq_refl eq_refl H0 (Forall_nil _)
                ltac:(intros j Hj; lia)).
  unfold loop in P.
  destruct (ele.newton_loop _ _ _ _ _ _ _ tol0 pos 1 origin []) as [[[ok loc] its]|].
  - destruct P as (A & B & C & (norm & D1 & D2) & E & F).
    unfold ele.iterMax in *. simpl in A, F.
    split; [reflexivity|]. split; [lia|]. split; [exact B|]. split; [exact C|].
    split; [exists norm; split; assumption|]. split; [exact E|]. split; [exact F|].
    split.
    + intros Hok. apply F in Hok.
      destruct (E (List.length its - 1)%nat ltac:(lia)) as (l & nj & nj' & _ & _ & E3).
      replace (S (List.length its - 1)) with (List.length its) in E3 by lia.
      rewrite D1 in E3. injection E3 as E3 _. rewrite E3.
      symmetry. apply last_nth_pred.
    + intros Hall. destruct ok; [|reflexivity]. exfalso.
      assert (Hn : (List.length its < 20)%nat).
      { destruct (Nat.eq_dec (List.length its) 20) as [H20|H20]; [|lia].
        apply F in H20. discriminate. }
      specialize (Hall _ _ _ Hn D1). specialize (D2 eq_refl). lra.
  - destruct P as (j & l & n & A & B & C & D).
    exists j, l, n. repeat split; assumption.
Qed.

End NewtonFacts.


(** The search on the diamond for the corner [(1,1)] of its bounding box. *)
Lemma diamond_box :
  ele.getBoundingBox ele.staticRun ele.diamond = Some [-1; -1; 0; 1; 1; 0].
Proof. Reval. Rminmax. reflexivity. Qed.

(** Replaces the clamped operand, a quotient of numerals, by its value. *)
Ltac clamp_value v :=
  match goal with
  | |- context [Rmin ?x 1] =>
      replace x with v by (field; repeat split; lra)
  end; Rminmax.

Lemma diamond_first_step :
  ele.newton_step ele.shape_quad4 ele.dshape_quad4 ele.det_2x2 ele.adjoint_2x2
    ele.staticRun ele.diamond (mkPoint 1 1 0) origin = Some (mkPoint 1 0 0, 2).
Proof.
  Reval. Rdecide. cbn [negb andb]. f_equal. f_equal; [f_equal|lra].
  - clamp_value 2. reflexivity.
  - clamp_value 0. reflexivity.
Qed.

Lemma diamond_next_step :
  ele.newton_step ele.shape_quad4 ele.dshape_quad4 ele.det_2x2 ele.adjoint_2x2
    ele.staticRun ele.diamond (mkPoint 1 1 0) (mkPoint 1 0 0) = Some (mkPoint 1 0 0, 1/2).
Proof.
  Reval. Rdecide. cbn [negb andb]. f_equal. f_equal; [f_equal|lra].
  - clamp_value 2. reflexivity.
  - clamp_value 0. reflexivity.
Qed.

Lemma newton_loop_S
      (shape_quad : point -> nat -> list R) (dshape_quad : point -> nat -> matrix)
      (det : matrix -> R) (adjoint : matrix -> matrix)
      (params : input.input) (e : ele.ele) (r : nat) (tol : R) (pos : point)
      (norm : R) (loc : point) (its : list point) :
  ele.newton_loop shape_quad dshape_quad det adjoint params e (S r) tol pos norm loc its
  = if Rltb tol norm then
      match ele.newton_step shape_quad dshape_quad det adjoint params e pos loc with
      | None => None
      | Some (loc, norm) =>
          if (r =? 0)%nat then Some (false, loc, its ++ [loc])
          else ele.newton_loop shape_quad dshape_quad det adjoint params e r tol pos norm
                 loc (its ++ [loc])
      end
    else Some (true, loc, its).
Proof. reflexivity. Qed.

(** A search whose step no longer moves [loc] while the residual stays
    above the tolerance uses up its iterations and returns false. *)
Lemma newton_loop_stuck
      (shape_quad : point -> nat -> list R) (dshape_quad : point -> nat -> matrix)
      (det : matrix -> R) (adjoint : matrix -> matrix)
      (params : input.input) (e : ele.ele) (tol : R) (pos loc : point) (n : R) :
  tol < n ->
  ele.newton_step shape_quad dshape_quad det adjoint params e pos loc = Some (loc, n) ->
  forall (r : nat) (n0 : R) (its : list point),
    tol < n0 ->
    ele.newton_loop shape_quad dshape_quad det adjoint params e (S r) tol pos n0 loc its
    = Some (false, loc, its ++ repeat loc (S r)).
Proof.
  intros Hn Hstep. induction r as [|r IH]; intros n0 its Hn0;
    rewrite newton_loop_S, (Rltb_true tol n0) by exact Hn0; rewrite Hstep.
  - reflexivity.
  - cbn [Nat.eqb]. rewrite (IH n (its ++ [loc]) Hn).
    rewrite <- app_assoc. reflexivity.
Qed.

Lemma diamond_search :
  ele.getRefLocNewton_iterates ele.shape_quad4 ele.dshape_quad4 ele.det_2x2 ele.adjoint_2x2
    ele.staticRun ele.diamond (mkPoint 1 1 0)
  = Some (false, mkPoint 1 0 0, repeat (mkPoint 1 0 0) 20).
Proof.
  unfold ele.getRefLocNewton_iterates. rewrite diamond_box.
  replace (ele.outsideBox [-1; -1; 0; 1; 1; 0] (mkPoint 1 1 0)) with false
    by (unfold ele.outsideBox; simpl; Rdecide; reflexivity).
  cbv zeta. change (ele.nDims ele.diamond =? 3)%nat with false. cbv iota.
  simpl nth.
  replace (Rmin (1 - -1) (1 - -1)) with 2 by (Rminmax; lra).
  unfold ele.iterMax. rewrite newton_loop_S.
  rewrite (Rltb_true (1e-12 * 2) 1) by lra.
  rewrite diamond_first_step. cbn [Nat.eqb app].
  rewrite (newton_loop_stuck _ _ _ _ _ _ (1e-12 * 2) _ _ (1/2)); try lra.
  - reflexivity.
  - apply diamond_next_step.
Qed.


(** The search has no value on a quadrilateral with a doubled node: looking for the
    doubled node [(0,1)], the first pass lands on it, where the residual
    vanishes but the pass that the code still runs divides by a zero
    determinant. *)
Lemma pinched_box :
  ele.getBoundingBox ele.staticRun ele.pinched = Some [0; 0; 0; 1; 1; 0].
Proof. Reval. Rminmax. reflexivity. Qed.

Lemma pinched_first_step :
  ele.newton_step ele.shape_quad4 ele.dshape_quad4 ele.det_2x2 ele.adjoint_2x2
    ele.staticRun ele.pinched (mkPoint 0 1 0) origin = Some (mkPoint 0 1 0, 5/16).
Proof.
  Reval. Rdecide. cbn [negb andb]. f_equal. f_equal; [f_equal|lra].
  - clamp_value 0. reflexivity.
  - clamp_value 1. reflexivity.
Qed.

Lemma pinched_next_step :
  ele.newton_step ele.shape_quad4 ele.dshape_quad4 ele.det_2x2 ele.adjoint_2x2
    ele.staticRun ele.pinched (mkPoint 0 1 0) (mkPoint 0 1 0) = None.
Proof. Reval. Rdecide. reflexivity. Qed.

Lemma pinched_search :
  ele.bboxReject ele.staticRun ele.pinched (mkPoint 0 1 0) = false /\
  ele.getRefLocNewton ele.shape_quad4 ele.dshape_quad4 ele.det_2x2 ele.adjoint_2x2
    ele.staticRun ele.pinched (mkPoint 0 1 0) = None.
Proof.
  assert (Hbox : ele.outsideBox [0; 0; 0; 1; 1; 0] (mkPoint 0 1 0) = false)
    by (unfold ele.outsideBox; simpl; Rdecide; reflexivity).
  split.
  - unfold ele.bboxReject. rewrite pinched_box. exact Hbox.
  - unfold ele.getRefLocNewton, ele.getRefLocNewton_iterates.
    rewrite pinched_box, Hbox.
    cbv zeta. change (ele.nDims ele.pinched =? 3)%nat with false. cbv iota.
    simpl nth.
    replace (Rmin (1 - 0) (1 - 0)) with 1 by (Rminmax; lra).
    unfold ele.iterMax. rewrite newton_loop_S.
    rewrite (Rltb_true (1e-12 * 1) 1) by lra.
    rewrite pinched_first_step. cbn [Nat.eqb app].
    rewrite newton_loop_S.
    rewrite (Rltb_true (1e-12 * 1) (5/16)) by lra.
    rewrite pinched_next_step. reflexivity.
Qed.

(** ** ele::checkEntropy : the density squeeze *)

Lemma scanRho_ok (n : nat) (U : matrix) (st0 : bool * R) :
  scan_ok n U st0 (ele.scanRho n U st0).
Proof.
  unfold ele.scanRho. induction n as [|n IH]; simpl for_.
  - unfold scan_ok. split; [|split; [lra|split; [intros; lia|left; reflexivity]]].
    split; [auto|]. intros [H|(i & Hi & _)]; [exact H|lia].
  - destruct (for_ n _ st0) as [b m]. destruct IH as (I1 & I2 & I3 & I4). simpl in *.
    destruct (Rltb (mget U n 0) 0) eqn:Hlt.
    + apply Rltb_iff in Hlt. unfold scan_ok; simpl.
      pose proof (Rmin_l m (mget U n 0)) as Hl. pose proof (Rmin_r m (mget U n 0)) as Hr.
      split; [|split; [lra|split]].
      * split; [|reflexivity]. intros _. right. exists n. split; [lia|exact Hlt].
      * intros i Hi Hneg. destruct (Nat.eq_dec i n) as [->|Hne]; [exact Hr|].
        specialize (I3 i ltac:(lia) Hneg). lra.
      * unfold Rmin. destruct (Rle_dec m (mget U n 0)).
        -- destruct I4 as [I4|(i & Hi & Hn & He)]; [left; exact I4|].
           right. exists i. split; [lia|]. split; assumption.
        -- right. exists n. split; [lia|]. split; [exact Hlt|reflexivity].
    + apply Rltb_iff_false in Hlt. unfold scan_ok; simpl.
      split; [|split; [exact I2|split]].
      * rewrite I1. split.
        -- intros [H|(i & Hi & Hn)]; [left; exact H|right; exists i; split; [lia|exact Hn]].
        -- intros [H|(i & Hi & Hn)]; [left; exact H|].
           destruct (Nat.eq_dec i n) as [->|Hne]; [lra|].
           right. exists i. split; [lia|exact Hn].
      * intros i Hi Hneg. destruct (Nat.eq_dec i n) as [->|Hne]; [lra|].
        apply I3; [lia|exact Hneg].
      * destruct I4 as [I4|(i & Hi & Hn & He)]; [left; exact I4|].
        right. exists i. split; [lia|]. split; assumption.
Qed.

(** The squeeze fires exactly when some density is negative; [minRho] is
    then the least density over all solution and flux points. *)
Lemma negRho_iff (e : ele.ele) :
  ele.negRho e = true <->
  (exists spt, (spt < ele.nSpts e)%nat /\ mget (ele.U_spts e) spt 0 < 0) \/
  (exists fpt, (fpt < ele.nFpts e)%nat /\ mget (ele.U_fpts e) fpt 0 < 0).
Proof.
  unfold ele.negRho.
  destruct (scanRho_ok (ele.nSpts e) (ele.U_spts e) (false, 1e15)) as (A1 & _).
  destruct (scanRho_ok (ele.nFpts e) (ele.U_fpts e)
              (ele.scanRho (ele.nSpts e) (ele.U_spts e) (false, 1e15))) as (B1 & _).
  rewrite B1, A1. simpl. split.
  - intros [[H|H]|H]; [discriminate|left; exact H|right; exact H].
  - intros [H|H]; [left; right; exact H|right; exact H].
Qed.

Lemma minRho_least (e : ele.ele) :
  ele.negRho e = true ->
  ele.minRho e < 0 /\
  (forall spt, (spt < ele.nSpts e)%nat -> ele.minRho e <= mget (ele.U_spts e) spt 0) /\
  (forall fpt, (fpt < ele.nFpts e)%nat -> ele.minRho e <= mget (ele.U_fpts e) fpt 0) /\
  ((exists spt, (spt < ele.nSpts e)%nat /\ mget (ele.U_spts e) spt 0 = ele.minRho e) \/
   (exists fpt, (fpt < ele.nFpts e)%nat /\ mget (ele.U_fpts e) fpt 0 = ele.minRho e)).
Proof.
  intros Hneg. pose proof (proj1 (negRho_iff e) Hneg) as Hex.
  unfold ele.minRho.
  destruct (scanRho_ok (ele.nSpts e) (ele.U_spts e) (false, 1e15)) as (A1 & A2 & A3 & A4).
  destruct (scanRho_ok (ele.nFpts e) (ele.U_fpts e)
              (ele.scanRho (ele.nSpts e) (ele.U_spts e) (false, 1e15)))
    as (B1 & B2 & B3 & B4).
  set (s1 := ele.scanRho (ele.nSpts e) (ele.U_spts e) (false, 1e15)) in *.
  set (s2 := ele.scanRho (ele.nFpts e) (ele.U_fpts e) s1) in *.
  simpl in A2, A4.
  assert (Hatt :
    (exists spt, (spt < ele.nSpts e)%nat /\ mget (ele.U_spts e) spt 0 < 0 /\
                 snd s2 = mget (ele.U_spts e) spt 0) \/
    (exists fpt, (fpt < ele.nFpts e)%nat /\ mget (ele.U_fpts e) fpt 0 < 0 /\
                 snd s2 = mget (ele.U_fpts e) fpt 0)).
  { destruct B4 as [B4|B4]; [|right; exact B4].
    destruct A4 as [A4|(i & Hi & Hn & He)].
    - exfalso. destruct Hex as [(i & Hi & Hn)|(i & Hi & Hn)].
      + specialize (A3 i Hi Hn). rewrite A4 in A3. lra.
      + specialize (B3 i Hi Hn). rewrite B4, A4 in B3. lra.
    - left. exists i. split; [exact Hi|]. split; [exact Hn|]. congruence. }
  assert (Hlt : snd s2 < 0).
  { destruct Hatt as [(i & _ & Hn & He)|(i & _ & Hn & He)]; rewrite He; exact Hn. }
  split; [exact Hlt|]. split; [|split].
  - intros spt Hs. destruct (Rlt_dec (mget (ele.U_spts e) spt 0) 0) as [Hn|Hn].
    + specialize (A3 spt Hs Hn). lra.
    + lra.
  - intros fpt Hf. destruct (Rlt_dec (mget (ele.U_fpts e) fpt 0) 0) as [Hn|Hn].
    + exact (B3 fpt Hf Hn).
    + lra.
  - destruct Hatt as [(i & Hi & _ & He)|(i & Hi & _ & He)];
      [left|right]; exists i; split; auto.
Qed.

Lemma set_U_fpts_same (e : ele.ele) : ele.set_U_fpts (ele.U_fpts e) e = e.
Proof. destruct e; reflexivity. Qed.

Lemma squeezeRho_eq (eps : R) (e : ele.ele) :
  ele.squeezeRho eps e
  = ele.set_U_fpts (blendRho eps (nth 0 (ele.Uavg e) 0) (ele.nFpts e) (ele.U_fpts e))
      (ele.set_U_spts (blendRho eps (nth 0 (ele.Uavg e) 0) (ele.nSpts e) (ele.U_spts e)) e).
Proof.
  unfold ele.squeezeRho. cbv zeta.
  set (body1 := fun (spt : nat) (e0 : ele.ele) => ele.set_U_spts _ e0).
  assert (H1 : for_ (ele.nSpts e) body1 e
               = ele.set_U_spts
                   (blendRho eps (nth 0 (ele.Uavg e) 0) (ele.nSpts e) (ele.U_spts e)) e).
  { replace (for_ (ele.nSpts e) body1 e)
      with (for_ (ele.nSpts e) body1 (ele.set_U_spts (ele.U_spts e) e))
      by (now rewrite set_U_spts_same).
    unfold blendRho.
    apply (for_lift (fun U => ele.set_U_spts U e)). intros; reflexivity. }
  rewrite H1.
  set (e1 := ele.set_U_spts _ e).
  change (ele.nFpts e1) with (ele.nFpts e).
  set (body2 := fun (fpt : nat) (e0 : ele.ele) => ele.set_U_fpts _ e0).
  replace (for_ (ele.nFpts e) body2 e1)
    with (for_ (ele.nFpts e) body2 (ele.set_U_fpts (ele.U_fpts e) e1))
    by (change (ele.U_fpts e) with (ele.U_fpts e1); now rewrite set_U_fpts_same).
  unfold blendRho.
  apply (for_lift (fun U => ele.set_U_fpts U e1)). intros; reflexivity.
Qed.

Lemma squeezeAll_eq (Eps : R) (e : ele.ele) :
  ele.squeezeAll Eps e
  = ele.set_U_fpts (blendAll Eps (ele.Uavg e) (ele.nFpts e) (ele.nFields e) (ele.U_fpts e))
      (ele.set_U_spts
         (blendAll Eps (ele.Uavg e) (ele.nSpts e) (ele.nFields e) (ele.U_spts e)) e).
Proof.
  unfold ele.squeezeAll. cbv zeta.
  set (body1 := fun (spt : nat) (e0 : ele.ele) => for_ (ele.nFields e0) _ e0).
  assert (H1 : for_ (ele.nSpts e) body1 e
               = ele.set_U_spts
                   (blendAll Eps (ele.Uavg e) (ele.nSpts e) (ele.nFields e) (ele.U_spts e))
                   e).
  { replace (for_ (ele.nSpts e) body1 e)
      with (for_ (ele.nSpts e) body1 (ele.set_U_spts (ele.U_spts e) e))
      by (now rewrite set_U_spts_same).
    unfold blendAll.
    apply (for_lift (fun U => ele.set_U_spts U e)). intros spt U _. unfold body1.
    change (ele.nFields (ele.set_U_spts U e)) with (ele.nFields e).
    apply (for_lift (fun U => ele.set_U_spts U e)). intros; reflexivity. }
  rewrite H1.
  set (e1 := ele.set_U_spts _ e).
  change (ele.nFpts e1) with (ele.nFpts e).
  set (body2 := fun (fpt : nat) (e0 : ele.ele) => for_ (ele.nFields e0) _ e0).
  replace (for_ (ele.nFpts e) body2 e1)
    with (for_ (ele.nFpts e) body2 (ele.set_U_fpts (ele.U_fpts e) e1))
    by (change (ele.U_fpts e) with (ele.U_fpts e1); now rewrite set_U_fpts_same).
  unfold blendAll.
  apply (for_lift (fun U => ele.set_U_fpts U e1)). intros fpt U _. unfold body2.
  change (ele.nFields (ele.set_U_fpts U e1)) with (ele.nFields e).
  apply (for_lift (fun U => ele.set_U_fpts U e1)). intros; reflexivity.
Qed.

Lemma blendRho_dims (eps a0 : R) (n : nat) (M : matrix) (n0 m0 : nat) :
  dims M n0 m0 -> dims (blendRho eps a0 n M) n0 m0.
Proof.
  intros HM. unfold blendRho. apply (for_ind (fun _ M => dims M n0 m0)); auto.
  intros; now apply dims_mset.
Qed.

Lemma blendRho_get (eps a0 : R) (n : nat) (M : matrix) (m0 a b : nat) :
  dims M n m0 -> (1 <= m0)%nat -> (a < n)%nat ->
  mget (blendRho eps a0 n M) a b
  = if (b =? 0)%nat then (1 - eps) * a0 + eps * mget M a 0 else mget M a b.
Proof.
  intros HM Hm Ha. unfold blendRho.
  change (for_ n (fun i M => mset M i 0 ((1 - eps) * a0 + eps * mget M i 0)) M)
    with (for_ n (fun i M =>
            for_ 1 (fun j M => mset M i j ((fun _ _ old => (1 - eps) * a0 + eps * old)
                                             i j (mget M i j))) M) M).
  rewrite (for2_get_gen n 1 _ M n m0) by (auto; lia).
  apply Nat.ltb_lt in Ha. rewrite Ha. simpl andb.
  destruct b as [|b]; reflexivity.
Qed.

Lemma blendAll_dims (Eps : R) (avg : list R) (n m : nat) (M : matrix) (n0 m0 : nat) :
  dims M n0 m0 -> dims (blendAll Eps avg n m M) n0 m0.
Proof.
  intros HM. unfold blendAll.
  apply (for2_dims n m (fun _ j old => Eps * nth j avg 0 + (1 - Eps) * old)). exact HM.
Qed.

Lemma blendAll_get (Eps : R) (avg : list R) (n m : nat) (M : matrix) (a b : nat) :
  dims M n m -> (a < n)%nat -> (b < m)%nat ->
  mget (blendAll Eps avg n m M) a b = Eps * nth b avg 0 + (1 - Eps) * mget M a b.
Proof.
  intros HM Ha Hb. unfold blendAll.
  exact (for2_get n m (fun _ j old => Eps * nth j avg 0 + (1 - Eps) * old) M a b HM Ha Hb).
Qed.

Lemma checkEntropy_density_eq (e : ele.ele) :
  ele.negRho e = true ->
  ele.checkEntropy_density e
  = ele.set_U_fpts
      (blendRho (ele.densityEps e) (nth 0 (ele.Uavg e) 0) (ele.nFpts e) (ele.U_fpts e))
      (ele.set_U_spts
         (blendRho (ele.densityEps e) (nth 0 (ele.Uavg e) 0) (ele.nSpts e) (ele.U_spts e)) e).
Proof.
  intros H. unfold ele.checkEntropy_density. rewrite H. apply squeezeRho_eq.
Qed.

Lemma density_squeeze_aux (e : ele.ele) :
  ele.wf_U e -> (1 <= ele.nFields e)%nat ->
  ele.negRho e = true -> ele.tol <= nth 0 (ele.Uavg e) 0 ->
  let a := nth 0 (ele.Uavg e) 0 in
  let eps := ele.densityEps e in
  let e' := ele.checkEntropy_density e in
  eps = (a - ele.tol) / (a - ele.minRho e) /\ 0 <= eps /\
  (forall spt i, (spt < ele.nSpts e)%nat ->
     mget (ele.U_spts e') spt 0 - ele.tol = eps * (mget (ele.U_spts e) spt 0 - ele.minRho e) /\
     mget (ele.U_spts e') spt (S i) = mget (ele.U_spts e) spt (S i)) /\
  (forall fpt i, (fpt < ele.nFpts e)%nat ->
     mget (ele.U_fpts e') fpt 0 - ele.tol = eps * (mget (ele.U_fpts e) fpt 0 - ele.minRho e) /\
     mget (ele.U_fpts e') fpt (S i) = mget (ele.U_fpts e) fpt (S i)).
Proof.
  intros (WS & WF) HnF Hneg Htol a eps e'. subst a eps e'.
  destruct (minRho_least e Hneg) as (Hm & _).
  assert (Htol0 : 0 < ele.tol) by (unfold ele.tol; lra).
  rewrite checkEntropy_density_eq by exact Hneg. ele_proj.
  unfold ele.densityEps.
  set (a := nth 0 (ele.Uavg e) 0) in *.
  rewrite (Rabs_right (a - ele.tol)) by lra.
  set (eps := (a - ele.tol) / (a - ele.minRho e)).
  assert (Hd : a - ele.minRho e > 0) by lra.
  assert (Hid : forall rho, (1 - eps) * a + eps * rho - ele.tol = eps * (rho - ele.minRho e)).
  { intros rho. unfold eps. field. lra. }
  split; [reflexivity|]. split.
  { unfold eps. apply Rle_mult_inv_pos; lra. }
  split.
  - intros spt i Hs. rewrite !(blendRho_get _ _ _ _ (ele.nFields e)) by assumption.
    simpl. split; [apply Hid|reflexivity].
  - intros fpt i Hf. rewrite !(blendRho_get _ _ _ _ (ele.nFields e)) by assumption.
    simpl. split; [apply Hid|reflexivity].
Qed.

(** C3 (as the code has it).  When the density squeeze of [checkEntropy]
    fires on a cell whose mean density is at least the tolerance 1e-10, the
    blend factor is [(Uavg[0]-tol)/(Uavg[0]-minRho)] with [minRho] the least
    density over all solution and flux points, attained at one of them; the
    squeeze changes the density field only, every squeezed density [rho']
    satisfies [rho' - tol = eps*(rho - minRho)] with [eps >= 0], so the
    density is [tol] wherever it was least and at least [tol] elsewhere. *)
Theorem density_squeeze (e : ele.ele) (spt fpt i : nat) :
  ele.wf_U e -> (1 <= ele.nFields e)%nat ->
  ele.negRho e = true -> ele.tol <= nth 0 (ele.Uavg e) 0 ->
  (spt < ele.nSpts e)%nat -> (fpt < ele.nFpts e)%nat ->
  let a := nth 0 (ele.Uavg e) 0 in
  let eps := ele.densityEps e in
  let e' := ele.checkEntropy_density e in
  eps = (a - ele.tol) / (a - ele.minRho e) /\ 0 <= eps /\
  ele.minRho e <= mget (ele.U_spts e) spt 0 /\
  ele.minRho e <= mget (ele.U_fpts e) fpt 0 /\
  ((exists s, (s < ele.nSpts e)%nat /\ mget (ele.U_spts e) s 0 = ele.minRho e) \/
   (exists f, (f < ele.nFpts e)%nat /\ mget (ele.U_fpts e) f 0 = ele.minRho e)) /\
  mget (ele.U_spts e') spt 0 - ele.tol = eps * (mget (ele.U_spts e) spt 0 - ele.minRho e) /\
  mget (ele.U_fpts e') fpt 0 - ele.tol = eps * (mget (ele.U_fpts e) fpt 0 - ele.minRho e) /\
  mget (ele.U_spts e') spt (S i) = mget (ele.U_spts e) spt (S i) /\
  mget (ele.U_fpts e') fpt (S i) = mget (ele.U_fpts e) fpt (S i).
Proof.
  intros W HnF Hneg Htol Hs Hf a eps e'.
  destruct (density_squeeze_aux e W HnF Hneg Htol) as (H1 & H2 & H3 & H4).
  destruct (minRho_least e Hneg) as (_ & M1 & M2 & M3).
  destruct (H3 spt i Hs) as (S1 & S2). destruct (H4 fpt i Hf) as (F1 & F2).
  repeat (split; [solve [auto]|]). exact F2.
Qed.

(** The cell of the positivity scenario: one solution point with density
    -0.01 on a cell of mean density 1. *)
Lemma restCell_wf (rho avg : R) :
  ele.wf_U (ele.restCell rho avg) /\ (1 <= ele.nFields (ele.restCell rho avg))%nat.
Proof.
  split; [|simpl; lia]. split; (split; [reflexivity|repeat constructor]).
Qed.

Lemma restCell_negRho (rho avg : R) : rho < 0 -> ele.negRho (ele.restCell rho avg) = true.
Proof.
  intros H. apply negRho_iff. left. exists 0%nat. split; [simpl; lia|exact H].
Qed.

Lemma restCell_minRho (rho avg : R) : rho < 0 -> ele.minRho (ele.restCell rho avg) = rho.
Proof.
  intros H.
  destruct (minRho_least _ (restCell_negRho rho avg H)) as (Hm & _ & _ & [(s & Hs & E)|(f & Hf & E)]).
  - simpl in Hs. assert (s = 0%nat) by lia. subst s. symmetry. exact E.
  - exfalso. simpl in Hf.
    assert (Hv : mget (ele.U_fpts (ele.restCell rho avg)) f 0 = 1).
    { destruct f as [|[|[|[|f]]]]; try lia; reflexivity. }
    rewrite Hv in E. lra.
Qed.

Lemma restCell_eps (rho avg : R) :
  rho < 0 ->
  ele.densityEps (ele.restCell rho avg) = Rabs (avg - ele.tol) / (avg - rho).
Proof.
  intros H. unfold ele.densityEps. rewrite restCell_minRho by exact H. reflexivity.
Qed.

Lemma restCell_squeezed (rho avg : R) :
  rho < 0 ->
  mget (ele.U_spts (ele.checkEntropy_density (ele.restCell rho avg))) 0 0
  = (1 - Rabs (avg - ele.tol) / (avg - rho)) * avg + Rabs (avg - ele.tol) / (avg - rho) * rho.
Proof.
  intros H. rewrite checkEntropy_density_eq by (apply restCell_negRho; exact H).
  ele_proj. rewrite restCell_eps by exact H.
  rewrite (blendRho_get _ _ _ _ 4); try (simpl; lia); [reflexivity|].
  split; [reflexivity|repeat constructor].
Qed.

Lemma density_squeeze_witness :
  ele.densityEps (ele.restCell (-0.01) 1) = (1 - 1e-10) / (1 + 0.01) /\
  mget (ele.U_spts (ele.checkEntropy_density (ele.restCell (-0.01) 1))) 0 0 = 1e-10 /\
  mget (ele.U_spts (ele.checkEntropy_density (ele.restCell (-0.01) 1))) 0 3 = 5/2.
Proof.
  assert (Hr : -0.01 < 0) by lra.
  destruct (density_squeeze (ele.restCell (-0.01) 1) 0 0 2) as (E & _ & _ & _ & _ & S1 & _ & S2 & _).
  - apply restCell_wf.
  - apply restCell_wf.
  - apply restCell_negRho; exact Hr.
  - unfold ele.tol; simpl; lra.
  - simpl; lia.
  - simpl; lia.
  - rewrite (restCell_minRho _ _ Hr) in E, S1. unfold ele.tol in *.
    change (nth 0 (ele.Uavg (ele.restCell (-0.01) 1)) 0) with 1 in E.
    change (mget (ele.U_spts (ele.restCell (-0.01) 1)) 0 0) with (-0.01) in S1.
    split; [rewrite E; f_equal; lra|]. split; [lra|exact S2].
Defined.

(** C3 as stated fails.  With a positive mean density below the tolerance
    (5e-11) the squeeze fires, the blend factor is positive while the stated
    quotient is negative, and the worst density ends at 0, not at [tol];
    and on the cell of the scenario (one point at -0.01, mean 1) the blend
    factor is [(1 - 1e-10)/1.01], not [1/(1 + 0.01)]. *)
Lemma density_eps_as_specified_fails :
  (let e := ele.restCell (-0.01) 5e-11 in
   ele.negRho e = true /\ 0 < nth 0 (ele.Uavg e) 0 /\
   ele.densityEps e
   <> (nth 0 (ele.Uavg e) 0 - ele.tol) / (nth 0 (ele.Uavg e) 0 - ele.minRho e) /\
   mget (ele.U_spts (ele.checkEntropy_density e)) 0 0 <> ele.tol) /\
  ele.densityEps (ele.restCell (-0.01) 1) <> 1 / (1 + 0.01).
Proof.
  assert (Hr : -0.01 < 0) by lra.
  split; [cbv zeta; split; [|split; [|split]]|].
  - apply restCell_negRho; exact Hr.
  - simpl; lra.
  - rewrite restCell_eps, restCell_minRho by exact Hr. unfold ele.tol.
    change (nth 0 (ele.Uavg (ele.restCell (-0.01) 5e-11)) 0) with 5e-11.
    rewrite Rabs_left by lra. intros H.
    assert (Hp : 0 < - (5e-11 - 1e-10) / (5e-11 - -0.01))
      by (apply Rdiv_lt_0_compat; lra).
    assert (Hn : (5e-11 - 1e-10) / (5e-11 - -0.01) < 0).
    { apply Ropp_lt_cancel. rewrite Ropp_0, <- Rdiv_opp_l. exact Hp. }
    lra.
  - rewrite restCell_squeezed by exact Hr. unfold ele.tol.
    rewrite Rabs_left by lra.
    replace ((1 - - (5e-11 - 1e-10) / (5e-11 - -0.01)) * 5e-11
             + - (5e-11 - 1e-10) / (5e-11 - -0.01) * -0.01) with 0 by (field; lra).
    lra.
  - rewrite restCell_eps by exact Hr. unfold ele.tol.
    rewrite Rabs_right by lra.
    replace (1 - -0.01) with (1 + 0.01) by lra.
    assert (Hlt : (1 - 1e-10) / (1 + 0.01) < 1 / (1 + 0.01)).
    { unfold Rdiv. apply Rmult_lt_compat_r; [apply Rinv_0_lt_compat|]; lra. }
    lra.
Qed.

(** ** Convexity facts behind the entropy squeeze *)

Lemma ln_le_minus1 (x : R) : 0 < x -> ln x <= x - 1.
Proof.
  intros Hx. pose proof (exp_ineq1_le (ln x)) as H. rewrite exp_ln in H by exact Hx. lra.
Qed.

Lemma exp_le_mono (x y : R) : x <= y -> exp x <= exp y.
Proof.
  intros [H|H]; [left; now apply exp_increasing | subst; right; reflexivity].
Qed.

(** Weighted arithmetic-geometric mean inequality. *)
Lemma Rpower_amgm (a theta : R) :
  0 < a -> 0 <= theta <= 1 -> Rpower a theta <= theta * a + (1 - theta).
Proof.
  intros Ha Ht. set (w := theta * a + (1 - theta)).
  assert (Hw : 0 < w) by (unfold w; nra).
  unfold Rpower.
  assert (H1 : theta * ln a <= ln w + (theta * (a / w - 1) + (1 - theta) * (1 / w - 1))).
  { assert (La : ln (a / w) <= a / w - 1) by (apply ln_le_minus1; apply Rdiv_lt_0_compat; lra).
    assert (Lw : ln (1 / w) <= 1 / w - 1) by (apply ln_le_minus1; apply Rdiv_lt_0_compat; lra).
    assert (Hiw : 0 < / w) by (apply Rinv_0_lt_compat; lra).
    unfold Rdiv in La at 1. rewrite ln_mult, ln_Rinv in La by lra.
    unfold Rdiv in Lw at 1. rewrite Rmult_1_l, ln_Rinv in Lw by lra.
    assert (T1 : theta * (ln a - ln w) <= theta * (a / w - 1))
      by (apply Rmult_le_compat_l; lra).
    assert (T2 : (1 - theta) * (- ln w) <= (1 - theta) * (1 / w - 1))
      by (apply Rmult_le_compat_l; lra).
    lra. }
  assert (H2 : theta * (a / w - 1) + (1 - theta) * (1 / w - 1) = 0).
  { unfold w. field. fold w. lra. }
  rewrite H2, Rplus_0_r in H1.
  apply exp_le_mono in H1. rewrite exp_ln in H1 by exact Hw. exact H1.
Qed.

Lemma Rpower_bernoulli (s g : R) : 0 < s -> 1 <= g -> 1 + g * (s - 1) <= Rpower s g.
Proof.
  intros Hs Hg.
  assert (Hp : 0 < Rpower s g) by (unfold Rpower; apply exp_pos).
  pose proof (Rpower_amgm (Rpower s g) (/ g) Hp) as H.
  assert (Hig : 0 < / g <= 1).
  { split; [apply Rinv_0_lt_compat; lra|]. rewrite <- Rinv_1. apply Rinv_le_contravar; lra. }
  specialize (H ltac:(lra)).
  rewrite Rpower_mult in H. replace (g * / g) with 1 in H by (field; lra).
  rewrite Rpower_1 in H by exact Hs.
  assert (H' : g * s <= g * (/ g * Rpower s g + (1 - / g))) by (apply Rmult_le_compat_l; lra).
  replace (g * (/ g * Rpower s g + (1 - / g))) with (Rpower s g + g - 1) in H' by (field; lra).
  lra.
Qed.

Lemma Rpower_tangent (c z g : R) :
  0 < c -> 0 < z -> 1 <= g ->
  Rpower c g + g * (Rpower c g / c) * (z - c) <= Rpower z g.
Proof.
  intros Hc Hz Hg.
  assert (Hs : 0 < z / c) by (apply Rdiv_lt_0_compat; lra).
  pose proof (Rpower_bernoulli (z / c) g Hs Hg) as H.
  assert (Hpc : 0 < Rpower c g) by (unfold Rpower; apply exp_pos).
  assert (E : Rpower (z / c) g * Rpower c g = Rpower z g).
  { rewrite Rpower_mult_distr by lra. f_equal. field. lra. }
  rewrite <- E.
  apply (Rmult_le_compat_r (Rpower c g)) in H; [|lra].
  replace (Rpower c g + g * (Rpower c g / c) * (z - c))
    with ((1 + g * (z / c - 1)) * Rpower c g) by (field; lra).
  exact H.
Qed.

Lemma Rpower_convex (x y l g : R) :
  0 < x -> 0 < y -> 0 <= l <= 1 -> 1 <= g ->
  Rpower (l * x + (1 - l) * y) g <= l * Rpower x g + (1 - l) * Rpower y g.
Proof.
  intros Hx Hy Hl Hg. set (c := l * x + (1 - l) * y).
  assert (Hc : 0 < c) by (unfold c; nra).
  pose proof (Rpower_tangent c x g Hc Hx Hg) as Tx.
  pose proof (Rpower_tangent c y g Hc Hy Hg) as Ty.
  set (P := Rpower c g) in *. set (D := g * (P / c)) in *.
  assert (Hx' : l * (P + D * (x - c)) <= l * Rpower x g) by (apply Rmult_le_compat_l; lra).
  assert (Hy' : (1 - l) * (P + D * (y - c)) <= (1 - l) * Rpower y g)
    by (apply Rmult_le_compat_l; lra).
  assert (E : l * (P + D * (x - c)) + (1 - l) * (P + D * (y - c)) = P)
    by (unfold c; ring).
  lra.
Qed.

(** Convexity of momentum squared over density. *)
Lemma sq_over_convex (a b ra rb l : R) :
  0 < ra -> 0 < rb -> 0 <= l <= 1 ->
  (l * a + (1 - l) * b) * (l * a + (1 - l) * b) / (l * ra + (1 - l) * rb)
  <= l * (a * a / ra) + (1 - l) * (b * b / rb).
Proof.
  intros Ha Hb Hl.
  assert (Hc : 0 < l * ra + (1 - l) * rb) by nra.
  apply Rmult_le_reg_r with (r := (l * ra + (1 - l) * rb) * ra * rb).
  { apply Rmult_lt_0_compat; [apply Rmult_lt_0_compat|]; lra. }
  replace ((l * a + (1 - l) * b) * (l * a + (1 - l) * b) / (l * ra + (1 - l) * rb)
           * ((l * ra + (1 - l) * rb) * ra * rb))
    with ((l * a + (1 - l) * b) * (l * a + (1 - l) * b) * ra * rb) by (field; lra).
  replace ((l * (a * a / ra) + (1 - l) * (b * b / rb)) * ((l * ra + (1 - l) * rb) * ra * rb))
    with ((l * a * a * rb + (1 - l) * b * b * ra) * (l * ra + (1 - l) * rb)) by (field; lra).
  assert (Hsq : 0 <= l * (1 - l) * ((a * rb - b * ra) * (a * rb - b * ra))).
  { apply Rmult_le_pos; [apply Rmult_le_pos; lra|]. apply Rle_0_sqr. }
  lra.
Qed.

(** ** ele::checkEntropy : the entropy squeeze *)

Lemma tau_primitives (params : input.input) (nD nF : nat) (U : list R) :
  input.equation params = input.NAVIER_STOKES ->
  (nD = 2 \/ nD = 3)%nat -> nF = (nD + 2)%nat ->
  ele.tau params nD (ele.primitives params nD nF U) = ele.tauOf params nD U.
Proof.
  intros Heq [->| ->] ->; unfold ele.tau, ele.primitives, ele.tauOf; rewrite Heq;
    simpl; ring.
Qed.

Lemma pAvg_tauOf (params : input.input) (e : ele.ele) :
  ele.pAvg params e - input.exps0 params * Rpower (nth 0 (ele.Uavg e) 0) (input.gamma params)
  = ele.tauOf params (ele.nDims e) (ele.Uavg e).
Proof.
  unfold ele.pAvg, ele.tauOf. destruct (ele.nDims e =? 3)%nat; ring.
Qed.

Lemma for_Rmin_le (n : nat) (f : nat -> R) (m0 : R) :
  for_ n (fun i m => Rmin m (f i)) m0 <= m0 /\
  forall i, (i < n)%nat -> for_ n (fun i m => Rmin m (f i)) m0 <= f i.
Proof.
  induction n as [|n (IH1 & IH2)]; simpl.
  - split; [lra | intros; lia].
  - pose proof (Rmin_l (for_ n (fun i m => Rmin m (f i)) m0) (f n)) as Hl.
    pose proof (Rmin_r (for_ n (fun i m => Rmin m (f i)) m0) (f n)) as Hr.
    split; [lra|]. intros i Hi. destruct (Nat.eq_dec i n) as [->|Hne]; [exact Hr|].
    specialize (IH2 i ltac:(lia)). lra.
Qed.

Lemma for_Rmin_ge (n : nat) (f : nat -> R) (m0 c : R) :
  c <= m0 -> (forall i, (i < n)%nat -> c <= f i) ->
  c <= for_ n (fun i m => Rmin m (f i)) m0.
Proof.
  intros H0 H. induction n as [|n IH]; simpl; [exact H0|].
  apply Rmin_glb; [apply IH; intros; apply H; lia | apply H; lia].
Qed.

Section EntropySqueeze.

Variable params : input.input.
Variable e : ele.ele.
Hypothesis Heq : input.equation params = input.NAVIER_STOKES.
Hypothesis HnD : (ele.nDims e = 2 \/ ele.nDims e = 3)%nat.
Hypothesis HnF : ele.nFields e = (ele.nDims e + 2)%nat.

Lemma tau_spt (spt : nat) :
  ele.tau params (ele.nDims e) (ele.getPrimitives params e spt)
  = ele.tauOf params (ele.nDims e) (nth spt (ele.U_spts e) []).
Proof. unfold ele.getPrimitives. now apply tau_primitives. Qed.

Lemma tau_fpt (fpt : nat) :
  ele.tau params (ele.nDims e) (ele.getPrimitivesFpt params e fpt)
  = ele.tauOf params (ele.nDims e) (nth fpt (ele.U_fpts e) []).
Proof. unfold ele.getPrimitivesFpt. now apply tau_primitives. Qed.

Lemma minTau_le :
  (forall spt, (spt < ele.nSpts e)%nat ->
     ele.minTau params e <= ele.tauOf params (ele.nDims e) (nth spt (ele.U_spts e) [])) /\
  (forall fpt, (fpt < ele.nFpts e)%nat ->
     ele.minTau params e <= ele.tauOf params (ele.nDims e) (nth fpt (ele.U_fpts e) [])).
Proof.
  unfold ele.minTau. cbv zeta.
  pose (f1 := fun spt => ele.tau params (ele.nDims e) (ele.getPrimitives params e spt)).
  pose (f2 := fun fpt => ele.tau params (ele.nDims e) (ele.getPrimitivesFpt params e fpt)).
  destruct (for_Rmin_le (ele.nSpts e) f1 1e15) as (A0 & A).
  destruct (for_Rmin_le (ele.nFpts e) f2 (for_ (ele.nSpts e) (fun i m => Rmin m (f1 i)) 1e15))
    as (B0 & B).
  split.
  - intros spt Hs. rewrite <- tau_spt.
    eapply Rle_trans; [exact B0 | exact (A spt Hs)].
  - intros fpt Hf. rewrite <- tau_fpt. exact (B fpt Hf).
Qed.

Lemma minTau_ge (c : R) :
  c <= 1e15 ->
  (forall spt, (spt < ele.nSpts e)%nat ->
     c <= ele.tauOf params (ele.nDims e) (nth spt (ele.U_spts e) [])) ->
  (forall fpt, (fpt < ele.nFpts e)%nat ->
     c <= ele.tauOf params (ele.nDims e) (nth fpt (ele.U_fpts e) [])) ->
  c <= ele.minTau params e.
Proof.
  intros H0 HS HF. unfold ele.minTau. cbv zeta.
  apply (for_Rmin_ge (ele.nFpts e)
           (fun fpt => ele.tau params (ele.nDims e) (ele.getPrimitivesFpt params e fpt))).
  - apply (for_Rmin_ge (ele.nSpts e)
             (fun spt => ele.tau params (ele.nDims e) (ele.getPrimitives params e spt)));
      [exact H0|]. intros spt Hs. rewrite tau_spt. apply HS, Hs.
  - intros fpt Hf. rewrite tau_fpt. apply HF, Hf.
Qed.

End EntropySqueeze.

Lemma tauOf_alt (params : input.input) (nD : nat) (U : list R) :
  nth 0 U 0 <> 0 ->
  ele.tauOf params nD U
  = (input.gamma params - 1)
    * (nth (nD + 1) U 0
       - 0.5 * (nth 1 U 0 * nth 1 U 0 / nth 0 U 0 + nth 2 U 0 * nth 2 U 0 / nth 0 U 0
                + (if (nD =? 3)%nat then nth 3 U 0 * nth 3 U 0 / nth 0 U 0 else 0)))
    - input.exps0 params * Rpower (nth 0 U 0) (input.gamma params).
Proof.
  intros H. unfold ele.tauOf. destruct (nD =? 3)%nat; field; exact H.
Qed.

(** [tauOf] is concave on states of positive density. *)
Lemma tauOf_concave (params : input.input) (nD : nat) (A U B : list R) (l : R) :
  1 <= input.gamma params -> 0 <= input.exps0 params ->
  (nD = 2 \/ nD = 3)%nat ->
  0 < nth 0 A 0 -> 0 < nth 0 U 0 -> 0 <= l <= 1 ->
  (forall i, (i < nD + 2)%nat -> nth i B 0 = l * nth i A 0 + (1 - l) * nth i U 0) ->
  l * ele.tauOf params nD A + (1 - l) * ele.tauOf params nD U <= ele.tauOf params nD B.
Proof.
  intros Hg Hs HnD HA HU Hl HB.
  assert (HB0 : nth 0 B 0 = l * nth 0 A 0 + (1 - l) * nth 0 U 0) by (apply HB; lia).
  assert (HB1 : nth 1 B 0 = l * nth 1 A 0 + (1 - l) * nth 1 U 0) by (apply HB; lia).
  assert (HB2 : nth 2 B 0 = l * nth 2 A 0 + (1 - l) * nth 2 U 0) by (apply HB; lia).
  assert (HBE : nth (nD + 1) B 0 = l * nth (nD + 1) A 0 + (1 - l) * nth (nD + 1) U 0)
    by (apply HB; lia).
  assert (HBpos : 0 < nth 0 B 0) by (rewrite HB0; nra).
  rewrite (tauOf_alt params nD A), (tauOf_alt params nD U), (tauOf_alt params nD B) by lra.
  pose proof (Rpower_convex (nth 0 A 0) (nth 0 U 0) l (input.gamma params) HA HU Hl Hg) as CP.
  pose proof (sq_over_convex (nth 1 A 0) (nth 1 U 0) (nth 0 A 0) (nth 0 U 0) l HA HU Hl) as C1.
  pose proof (sq_over_convex (nth 2 A 0) (nth 2 U 0) (nth 0 A 0) (nth 0 U 0) l HA HU Hl) as C2.
  rewrite <- HB0 in CP, C1, C2. rewrite <- HB1 in C1. rewrite <- HB2 in C2.
  rewrite HBE.
  set (g1 := input.gamma params - 1). assert (Hg1 : 0 <= g1) by (unfold g1; lra).
  set (s0 := input.exps0 params) in *.
  set (PA := Rpower (nth 0 A 0) _) in *. set (PU := Rpower (nth 0 U 0) _) in *.
  set (PB := Rpower (nth 0 B 0) _) in *.
  assert (KP : 0 <= s0 * (l * PA + (1 - l) * PU - PB)) by (apply Rmult_le_pos; lra).
  destruct HnD as [->| ->]; simpl Nat.eqb; cbv iota.
  - set (SA := nth 1 A 0 * nth 1 A 0 / nth 0 A 0 + nth 2 A 0 * nth 2 A 0 / nth 0 A 0 + 0).
    set (SU := nth 1 U 0 * nth 1 U 0 / nth 0 U 0 + nth 2 U 0 * nth 2 U 0 / nth 0 U 0 + 0).
    set (SB := nth 1 B 0 * nth 1 B 0 / nth 0 B 0 + nth 2 B 0 * nth 2 B 0 / nth 0 B 0 + 0).
    assert (KS : 0 <= g1 * (l * SA + (1 - l) * SU - SB))
      by (apply Rmult_le_pos; [exact Hg1 | unfold SA, SU, SB; lra]).
    lra.
  - assert (HB3 : nth 3 B 0 = l * nth 3 A 0 + (1 - l) * nth 3 U 0) by (apply HB; lia).
    pose proof (sq_over_convex (nth 3 A 0) (nth 3 U 0) (nth 0 A 0) (nth 0 U 0) l HA HU Hl)
      as C3.
    rewrite <- HB0, <- HB3 in C3.
    set (SA := nth 1 A 0 * nth 1 A 0 / nth 0 A 0 + nth 2 A 0 * nth 2 A 0 / nth 0 A 0
               + nth 3 A 0 * nth 3 A 0 / nth 0 A 0).
    set (SU := nth 1 U 0 * nth 1 U 0 / nth 0 U 0 + nth 2 U 0 * nth 2 U 0 / nth 0 U 0
               + nth 3 U 0 * nth 3 U 0 / nth 0 U 0).
    set (SB := nth 1 B 0 * nth 1 B 0 / nth 0 B 0 + nth 2 B 0 * nth 2 B 0 / nth 0 B 0
               + nth 3 B 0 * nth 3 B 0 / nth 0 B 0).
    assert (KS : 0 <= g1 * (l * SA + (1 - l) * SU - SB))
      by (apply Rmult_le_pos; [exact Hg1 | unfold SA, SU, SB; lra]).
    lra.
Qed.

(** A state with positive densities and non-negative entropy bound is left
    alone by [checkEntropy]. *)
Lemma checkEntropy_fixed (params : input.input) (x : ele.ele) :
  (forall spt, (spt < ele.nSpts x)%nat -> 0 < mget (ele.U_spts x) spt 0) ->
  (forall fpt, (fpt < ele.nFpts x)%nat -> 0 < mget (ele.U_fpts x) fpt 0) ->
  0 <= ele.minTau params x ->
  ele.checkEntropy params x = x.
Proof.
  intros HS HF Ht. unfold ele.checkEntropy, ele.checkEntropy_density.
  assert (Hn : ele.negRho x = false).
  { destruct (ele.negRho x) eqn:E; [|reflexivity].
    apply negRho_iff in E. destruct E as [(s & Hs & Hneg)|(f & Hf & Hneg)].
    - specialize (HS s Hs). lra.
    - specialize (HF f Hf). lra. }
  rewrite Hn. unfold ele.checkEntropy_tau.
  rewrite (Rltb_false (ele.minTau params x) 0) by lra. reflexivity.
Qed.

(** After the density squeeze every density is positive. *)
Lemma density_stage_positive (e : ele.ele) :
  ele.wf_U e -> (1 <= ele.nFields e)%nat -> ele.tol <= nth 0 (ele.Uavg e) 0 ->
  (forall spt, (spt < ele.nSpts e)%nat -> mget (ele.U_spts e) spt 0 <> 0) ->
  (forall fpt, (fpt < ele.nFpts e)%nat -> mget (ele.U_fpts e) fpt 0 <> 0) ->
  let e1 := ele.checkEntropy_density e in
  (forall spt, (spt < ele.nSpts e)%nat -> 0 < mget (ele.U_spts e1) spt 0) /\
  (forall fpt, (fpt < ele.nFpts e)%nat -> 0 < mget (ele.U_fpts e1) fpt 0) /\
  ele.wf_U e1 /\
  ele.nSpts e1 = ele.nSpts e /\ ele.nFpts e1 = ele.nFpts e /\
  ele.nFields e1 = ele.nFields e /\ ele.nDims e1 = ele.nDims e /\
  ele.Uavg e1 = ele.Uavg e.
Proof.
  intros W HnF Htol HS HF e1.
  assert (Htol0 : 0 < ele.tol) by (unfold ele.tol; lra).
  destruct (ele.negRho e) eqn:Hneg.
  - destruct (density_squeeze_aux e W HnF Hneg Htol) as (_ & Heps & H3 & H4).
    destruct (minRho_least e Hneg) as (_ & M1 & M2 & _).
    split; [|split; [|split]].
    + intros spt Hs. destruct (H3 spt 0%nat Hs) as (S1 & _). fold e1 in S1.
      specialize (M1 spt Hs).
      assert (0 <= ele.densityEps e * (mget (ele.U_spts e) spt 0 - ele.minRho e))
        by (apply Rmult_le_pos; lra).
      lra.
    + intros fpt Hf. destruct (H4 fpt 0%nat Hf) as (F1 & _). fold e1 in F1.
      specialize (M2 fpt Hf).
      assert (0 <= ele.densityEps e * (mget (ele.U_fpts e) fpt 0 - ele.minRho e))
        by (apply Rmult_le_pos; lra).
      lra.
    + unfold e1. rewrite checkEntropy_density_eq by exact Hneg.
      destruct W as (WS & WF). split; ele_proj; apply blendRho_dims; assumption.
    + unfold e1. rewrite checkEntropy_density_eq by exact Hneg. repeat split; reflexivity.
  - assert (E1 : e1 = e) by (unfold e1, ele.checkEntropy_density; now rewrite Hneg).
    rewrite E1.
    assert (Hnone : ~ ((exists spt, (spt < ele.nSpts e)%nat /\ mget (ele.U_spts e) spt 0 < 0) \/
                       (exists fpt, (fpt < ele.nFpts e)%nat /\ mget (ele.U_fpts e) fpt 0 < 0))).
    { intros H. apply negRho_iff in H. congruence. }
    split; [|split; [|split; [exact W | repeat split; reflexivity]]].
    + intros spt Hs. specialize (HS spt Hs).
      destruct (Rlt_dec (mget (ele.U_spts e) spt 0) 0) as [Hlt|Hge]; [|lra].
      exfalso. apply Hnone. left. exists spt. split; assumption.
    + intros fpt Hf. specialize (HF fpt Hf).
      destruct (Rlt_dec (mget (ele.U_fpts e) fpt 0) 0) as [Hlt|Hge]; [|lra].
      exfalso. apply Hnone. right. exists fpt. split; assumption.
Qed.

(** After the entropy squeeze, on a state of positive densities whose mean
    has positive density and positive entropy bound, every density is
    positive and no entropy bound is negative. *)
Lemma tau_stage_settled (params : input.input) (e1 : ele.ele) :
  input.equation params = input.NAVIER_STOKES ->
  1 <= input.gamma params -> 0 <= input.exps0 params ->
  (ele.nDims e1 = 2 \/ ele.nDims e1 = 3)%nat ->
  ele.nFields e1 = (ele.nDims e1 + 2)%nat ->
  ele.wf_U e1 ->
  0 < nth 0 (ele.Uavg e1) 0 ->
  0 < ele.tauOf params (ele.nDims e1) (ele.Uavg e1) ->
  (forall spt, (spt < ele.nSpts e1)%nat -> 0 < mget (ele.U_spts e1) spt 0) ->
  (forall fpt, (fpt < ele.nFpts e1)%nat -> 0 < mget (ele.U_fpts e1) fpt 0) ->
  let e2 := ele.checkEntropy_tau params e1 in
  (forall spt, (spt < ele.nSpts e2)%nat -> 0 < mget (ele.U_spts e2) spt 0) /\
  (forall fpt, (fpt < ele.nFpts e2)%nat -> 0 < mget (ele.U_fpts e2) fpt 0) /\
  0 <= ele.minTau params e2.
Proof.
  intros Heq Hg Hs0 HnD HnF (WS & WF) Ha HtA HS HF e2.
  unfold e2, ele.checkEntropy_tau.
  destruct (Rltb (ele.minTau params e1) 0) eqn:Hlt.
  2:{ apply Rltb_iff_false in Hlt. repeat split; assumption. }
  apply Rltb_iff in Hlt.
  rewrite squeezeAll_eq.
  set (t := ele.minTau params e1) in *.
  set (tA := ele.tauOf params (ele.nDims e1) (ele.Uavg e1)) in *.
  assert (HEps : ele.entropyEps params e1 = t / (t - tA)).
  { unfold ele.entropyEps. fold t. unfold tA. rewrite <- pAvg_tauOf. f_equal. ring. }
  rewrite HEps. set (Eps := t / (t - tA)).
  assert (HE0 : 0 < Eps).
  { unfold Eps. replace (t / (t - tA)) with ((- t) / (tA - t)) by (field; lra).
    apply Rdiv_lt_0_compat; lra. }
  assert (HE1 : Eps < 1).
  { unfold Eps. replace (t / (t - tA)) with ((- t) / (tA - t)) by (field; lra).
    apply (Rmult_lt_reg_r (tA - t)); [lra|].
    replace (- t / (tA - t) * (tA - t)) with (- t) by (field; lra). lra. }
  assert (Hzero : Eps * tA + (1 - Eps) * t = 0) by (unfold Eps; field; lra).
  destruct (minTau_le params e1 Heq HnD HnF) as (LS & LF).
  split; [|split].
  - ele_proj. intros spt Hs. rewrite blendAll_get by (auto; lia).
    specialize (HS spt Hs). nra.
  - ele_proj. intros fpt Hf. rewrite blendAll_get by (auto; lia).
    specialize (HF fpt Hf). nra.
  - apply minTau_ge; ele_proj; try assumption; [lra| |].
    + intros spt Hs. rewrite <- Hzero.
      apply Rle_trans
        with (Eps * tA + (1 - Eps) * ele.tauOf params (ele.nDims e1) (nth spt (ele.U_spts e1) [])).
      { specialize (LS spt Hs). fold t in LS. nra. }
      apply tauOf_concave; try assumption; try lra.
      * apply (HS spt Hs).
      * intros i Hi. exact (blendAll_get Eps (ele.Uavg e1) _ _ _ spt i WS Hs ltac:(lia)).
    + intros fpt Hf. rewrite <- Hzero.
      apply Rle_trans
        with (Eps * tA + (1 - Eps) * ele.tauOf params (ele.nDims e1) (nth fpt (ele.U_fpts e1) [])).
      { specialize (LF fpt Hf). fold t in LF. nra. }
      apply tauOf_concave; try assumption; try lra.
      * apply (HF fpt Hf).
      * intros i Hi. exact (blendAll_get Eps (ele.Uavg e1) _ _ _ fpt i WF Hf ltac:(lia)).
Qed.

(** C7 (as the code has it).  For a Navier-Stokes element with sized
    solution arrays, ratio of specific heats at least 1, non-negative
    entropy constant, no density exactly zero, and a mean state of density
    at least [tol] and positive entropy bound, a second [checkEntropy]
    changes nothing. *)
Theorem checkEntropy_idempotent (params : input.input) (e : ele.ele) :
  input.equation params = input.NAVIER_STOKES ->
  1 <= input.gamma params -> 0 <= input.exps0 params ->
  (ele.nDims e = 2 \/ ele.nDims e = 3)%nat ->
  ele.nFields e = (ele.nDims e + 2)%nat ->
  ele.wf_U e ->
  ele.tol <= nth 0 (ele.Uavg e) 0 ->
  0 < ele.tauOf params (ele.nDims e) (ele.Uavg e) ->
  (forall spt, (spt < ele.nSpts e)%nat -> mget (ele.U_spts e) spt 0 <> 0) ->
  (forall fpt, (fpt < ele.nFpts e)%nat -> mget (ele.U_fpts e) fpt 0 <> 0) ->
  ele.checkEntropy params (ele.checkEntropy params e) = ele.checkEntropy params e.
Proof.
  intros Heq Hg Hs0 HnD HnF W Htol HtA HS HF.
  destruct (density_stage_positive e W ltac:(lia) Htol HS HF)
    as (P1 & P2 & W1 & N1 & N2 & N3 & N4 & N5).
  set (e1 := ele.checkEntropy_density e) in *.
  assert (Htol0 : 0 < ele.tol) by (unfold ele.tol; lra).
  assert (A1 : (ele.nDims e1 = 2 \/ ele.nDims e1 = 3)%nat) by (rewrite N4; exact HnD).
  assert (A2 : ele.nFields e1 = (ele.nDims e1 + 2)%nat) by (rewrite N3, N4; exact HnF).
  assert (A3 : 0 < nth 0 (ele.Uavg e1) 0) by (rewrite N5; lra).
  assert (A4 : 0 < ele.tauOf params (ele.nDims e1) (ele.Uavg e1))
    by (rewrite N4, N5; exact HtA).
  assert (A5 : forall spt, (spt < ele.nSpts e1)%nat -> 0 < mget (ele.U_spts e1) spt 0)
    by (rewrite N1; exact P1).
  assert (A6 : forall fpt, (fpt < ele.nFpts e1)%nat -> 0 < mget (ele.U_fpts e1) fpt 0)
    by (rewrite N2; exact P2).
  destruct (tau_stage_settled params e1 Heq Hg Hs0 A1 A2 W1 A3 A4 A5 A6) as (Q1 & Q2 & Q3).
  unfold ele.checkEntropy at 2 3. fold e1.
  apply checkEntropy_fixed; assumption.
Qed.

(** The squeeze on cells of a gas at rest. *)
Lemma lobattoCell_negRho (ea eb em : R) : ele.negRho (ele.lobattoCell ea eb em) = false.
Proof. Reval. Rdecide. reflexivity. Qed.

Lemma lobattoCell_pass (ea eb em t Eps ea' eb' : R) :
  ele.minTau ele.staticRun (ele.lobattoCell ea eb em) = t -> t < 0 ->
  t / (t - 2/5 * em) = Eps ->
  Eps * em + (1 - Eps) * ea = ea' -> Eps * em + (1 - Eps) * eb = eb' ->
  ele.checkEntropy ele.staticRun (ele.lobattoCell ea eb em) = ele.lobattoCell ea' eb' em.
Proof.
  intros Ht Hneg HEps Ha Hb.
  unfold ele.checkEntropy, ele.checkEntropy_density. rewrite lobattoCell_negRho.
  unfold ele.checkEntropy_tau. rewrite Ht, (Rltb_true t 0) by exact Hneg.
  assert (HE : ele.entropyEps ele.staticRun (ele.lobattoCell ea eb em) = Eps).
  { unfold ele.entropyEps. rewrite Ht, <- HEps.
    replace (t - ele.pAvg ele.staticRun (ele.lobattoCell ea eb em)
             + input.exps0 ele.staticRun
               * Rpower (nth 0 (ele.Uavg (ele.lobattoCell ea eb em)) 0)
                   (input.gamma ele.staticRun))
      with (t - 2/5 * em) by (Reval; lra).
    reflexivity. }
  rewrite HE, squeezeAll_eq.
  unfold ele.lobattoCell, ele.stateCell. ele_proj. cbn [List.length].
  match goal with
  | |- context [blendAll Eps ?avg 4 4 ?Us] =>
      replace (blendAll Eps avg 4 4 Us)
        with [[1; 0; 0; ea']; [1; 0; 0; ea']; [1; 0; 0; eb']; [1; 0; 0; eb']]
        by (Reval; rewrite <- Ha, <- Hb; repeat (f_equal; try lra))
  end.
  match goal with
  | |- context [blendAll Eps ?avg 8 4 ?Uf] =>
      replace (blendAll Eps avg 8 4 Uf)
        with [[1; 0; 0; ea']; [1; 0; 0; ea']; [1; 0; 0; ea']; [1; 0; 0; eb'];
              [1; 0; 0; eb']; [1; 0; 0; eb']; [1; 0; 0; eb']; [1; 0; 0; ea']]
        by (Reval; rewrite <- Ha, <- Hb; repeat (f_equal; try lra))
  end.
  reflexivity.
Qed.

Lemma lobattoCell_minTau_1 :
  ele.minTau ele.staticRun (ele.lobattoCell (-1) (-3) (-2)) = -6/5.
Proof. Reval. Rminmax. lra. Qed.

Lemma lobattoCell_minTau_2 :
  ele.minTau ele.staticRun (ele.lobattoCell (-4) 0 (-2)) = -8/5.
Proof. Reval. Rminmax. lra. Qed.

Lemma lobattoCell_minTau_3 :
  ele.minTau ele.staticRun (ele.lobattoCell 3 (-1) 1) = -2/5.
Proof. Reval. Rminmax. lra. Qed.

(** C7 as stated fails.  On a cell at rest with density 1 and energies -1
    and -3 around the mean -2 (negative pressure in the mean), the first
    [checkEntropy] moves the energies to -4 and 0 and the second moves them
    on to 0 and -4. *)
Lemma checkEntropy_second_pass_changes :
  ele.checkEntropy ele.staticRun (ele.lobattoCell (-1) (-3) (-2))
  = ele.lobattoCell (-4) 0 (-2) /\
  ele.checkEntropy ele.staticRun (ele.lobattoCell (-4) 0 (-2))
  = ele.lobattoCell 0 (-4) (-2) /\
  ele.checkEntropy ele.staticRun
    (ele.checkEntropy ele.staticRun (ele.lobattoCell (-1) (-3) (-2)))
  <> ele.checkEntropy ele.staticRun (ele.lobattoCell (-1) (-3) (-2)).
Proof.
  assert (P1 : ele.checkEntropy ele.staticRun (ele.lobattoCell (-1) (-3) (-2))
               = ele.lobattoCell (-4) 0 (-2)).
  { apply (lobattoCell_pass _ _ _ (-6/5) 3);
      first [apply lobattoCell_minTau_1 | lra | field]. }
  assert (P2 : ele.checkEntropy ele.staticRun (ele.lobattoCell (-4) 0 (-2))
               = ele.lobattoCell 0 (-4) (-2)).
  { apply (lobattoCell_pass _ _ _ (-8/5) 2);
      first [apply lobattoCell_minTau_2 | lra | field]. }
  split; [exact P1|]. split; [exact P2|].
  rewrite P1, P2. intros H.
  apply (f_equal (fun c => mget (ele.U_spts c) 0 3)) in H.
  simpl in H. unfold mget in H. simpl in H. lra.
Qed.

Lemma checkEntropy_idempotent_witness :
  ele.minTau ele.staticRun (ele.lobattoCell 3 (-1) 1) < 0 /\
  ele.checkEntropy ele.staticRun (ele.checkEntropy ele.staticRun (ele.lobattoCell 3 (-1) 1))
  = ele.checkEntropy ele.staticRun (ele.lobattoCell 3 (-1) 1).
Proof.
  split; [rewrite lobattoCell_minTau_3; lra|].
  apply (checkEntropy_idempotent ele.staticRun (ele.lobattoCell 3 (-1) 1)).
  - reflexivity.
  - simpl; lra.
  - simpl; lra.
  - left; reflexivity.
  - reflexivity.
  - split; (split; [reflexivity | repeat constructor]).
  - unfold ele.tol; simpl; lra.
  - Reval; lra.
  - intros spt Hs. simpl in Hs.
    destruct spt as [|[|[|[|spt]]]]; try lia; Reval; lra.
  - intros fpt Hf. simpl in Hf.
    destruct fpt as [|[|[|[|[|[|[|[|fpt]]]]]]]]; try lia; Reval; lra.
Defined.

(* ================================================================== *)
(** * The two forms of the flux divergence *)

(** ** Sums and tabulated matrices *)

Lemma Rsum_S (n : nat) (f : nat -> R) : Rsum (S n) f = Rsum n f + f n.
Proof. reflexivity. Qed.

Lemma Rsum_ext (n : nat) (f g : nat -> R) :
  (forall j, (j < n)%nat -> f j = g j) -> Rsum n f = Rsum n g.
Proof.
  intros H. induction n as [|n IH]; [reflexivity|].
  rewrite !Rsum_S, IH, H by (auto; intros; apply H; lia). reflexivity.
Qed.

Lemma Rsum_lin2 (n : nat) (d f0 f1 : nat -> R) (c0 c1 : R) :
  Rsum n (fun j => d j * (0 + c0 * f0 j + c1 * f1 j))
  = c0 * Rsum n (fun j => d j * f0 j) + c1 * Rsum n (fun j => d j * f1 j).
Proof.
  induction n as [|n IH]; [unfold Rsum; simpl; ring|].
  rewrite !Rsum_S, IH. ring.
Qed.

Lemma Rsum_lin3 (n : nat) (d f0 f1 f2 : nat -> R) (c0 c1 c2 : R) :
  Rsum n (fun j => d j * (0 + c0 * f0 j + c1 * f1 j + c2 * f2 j))
  = c0 * Rsum n (fun j => d j * f0 j) + c1 * Rsum n (fun j => d j * f1 j)
    + c2 * Rsum n (fun j => d j * f2 j).
Proof.
  induction n as [|n IH]; [unfold Rsum; simpl; ring|].
  rewrite !Rsum_S, IH. ring.
Qed.

Lemma nth_map_seq {A : Type} (f : nat -> A) (n i : nat) (d : A) :
  (i < n)%nat -> nth i (map f (seq 0 n)) d = f i.
Proof.
  intros Hi. rewrite (nth_indep _ d (f 0%nat)) by (rewrite length_map, length_seq; exact Hi).
  rewrite map_nth, seq_nth by exact Hi. reflexivity.
Qed.

Lemma mget_tabulate (n m : nat) (f : nat -> nat -> R) (i j : nat) :
  (i < n)%nat -> (j < m)%nat -> mget (tabulate n m f) i j = f i j.
Proof.
  intros Hi Hj. unfold mget, tabulate.
  rewrite (nth_map_seq (fun i => map (fun j => f i j) (seq 0 m))) by exact Hi.
  apply (nth_map_seq (fun j => f i j)); exact Hj.
Qed.

Lemma dims_tabulate (n m : nat) (f : nat -> nat -> R) : dims (tabulate n m f) n m.
Proof.
  unfold dims, tabulate. split.
  - now rewrite length_map, length_seq.
  - apply Forall_forall. intros r Hr. apply in_map_iff in Hr.
    destruct Hr as (i & <- & _). now rewrite length_map, length_seq.
Qed.

(** ** Arrays of matrices *)

Lemma upd_cases {A : Type} (i : nat) (l : list A) :
  (forall x d, nth i (upd i x l) d = x) \/ (forall x, upd i x l = l).
Proof.
  destruct (Nat.lt_ge_cases i (List.length l)) as [H|H].
  - left. intros x d. apply nth_upd_eq, H.
  - right. intros x. apply upd_out, H.
Qed.

Lemma mset_cases (M : matrix) (r c : nat) :
  (forall x, mget (mset M r c x) r c = x) \/ (forall x, mset M r c x = M).
Proof.
  unfold mget, mset.
  destruct (upd_cases r M) as [Hr|Hr].
  - destruct (upd_cases c (nth r M [])) as [Hc|Hc].
    + left. intros x. rewrite Hr. apply Hc.
    + right. intros x. rewrite Hc. apply upd_nth_same.
  - right. intros x. apply Hr.
Qed.

Lemma mset_mset (M : matrix) (r c : nat) (x y : R) :
  mset (mset M r c x) r c y = mset M r c y.
Proof.
  unfold mset. destruct (upd_cases r M) as [Hr|Hr].
  - rewrite Hr, !upd_upd. reflexivity.
  - rewrite !Hr. reflexivity.
Qed.

Lemma tset_cases (T : list matrix) (i r c : nat) :
  (forall x, tget (tset T i r c x) i r c = x) \/ (forall x, tset T i r c x = T).
Proof.
  unfold tget, tset.
  destruct (upd_cases i T) as [Hi|Hi].
  - destruct (mset_cases (nth i T []) r c) as [Hm|Hm].
    + left. intros x. rewrite Hi. apply Hm.
    + right. intros x. rewrite Hm. apply upd_nth_same.
  - right. intros x. apply Hi.
Qed.

Lemma tset_tset (T : list matrix) (i r c : nat) (x y : R) :
  tset (tset T i r c x) i r c y = tset T i r c y.
Proof.
  unfold tset. destruct (upd_cases i T) as [Hi|Hi].
  - rewrite Hi, upd_upd, mset_mset. reflexivity.
  - rewrite !Hi. reflexivity.
Qed.

Lemma dimsT_tset (T : list matrix) (d n m i r c : nat) (x : R) :
  dimsT T d n m -> dimsT (tset T i r c x) d n m.
Proof.
  intros [HL HF]. unfold tset. split; [now rewrite upd_length|].
  destruct (Nat.lt_ge_cases i (List.length T)) as [Hi|Hi].
  - apply Forall_upd; [exact HF|]. apply dims_mset.
    rewrite Forall_forall in HF. apply HF, nth_In, Hi.
  - rewrite upd_out by exact Hi. exact HF.
Qed.

Lemma dimsT_nth (T : list matrix) (d n m i : nat) :
  dimsT T d n m -> (i < d)%nat -> dims (nth i T []) n m.
Proof.
  intros [HL HF] Hi. rewrite Forall_forall in HF. apply HF, nth_In. lia.
Qed.

Lemma tget_tset_eq (T : list matrix) (d n m i r c : nat) (x : R) :
  dimsT T d n m -> (i < d)%nat -> (r < n)%nat -> (c < m)%nat ->
  tget (tset T i r c x) i r c = x.
Proof.
  intros HT Hi Hr Hc. unfold tget, tset.
  rewrite nth_upd_eq by (destruct HT; lia).
  apply (mget_mset_eq _ n m); auto. apply (dimsT_nth T d); auto.
Qed.

Lemma tget_tset_neq (T : list matrix) (i r c i' r' c' : nat) (x : R) :
  (i, r, c) <> (i', r', c') -> tget (tset T i r c x) i' r' c' = tget T i' r' c'.
Proof.
  intros H. unfold tget, tset.
  destruct (Nat.eq_dec i i') as [<-|Hi].
  - destruct (upd_cases i T) as [Hu|Hu].
    + rewrite Hu. apply mget_mset_neq. congruence.
    + rewrite Hu. reflexivity.
  - rewrite nth_upd_neq by exact Hi. reflexivity.
Qed.

Lemma dimsQ_qset (Q : list (list matrix)) (d n m a b r c : nat) (x : R) :
  dimsQ Q d n m -> dimsQ (qset Q a b r c x) d n m.
Proof.
  intros [HL HF]. unfold qset. split; [now rewrite upd_length|].
  destruct (Nat.lt_ge_cases a (List.length Q)) as [Ha|Ha].
  - apply Forall_upd; [exact HF|]. apply dimsT_tset.
    rewrite Forall_forall in HF. apply HF, nth_In, Ha.
  - rewrite upd_out by exact Ha. exact HF.
Qed.

Lemma dimsQ_nth (Q : list (list matrix)) (d n m a : nat) :
  dimsQ Q d n m -> (a < d)%nat -> dimsT (nth a Q []) d n m.
Proof.
  intros [HL HF] Ha. rewrite Forall_forall in HF. apply HF, nth_In. lia.
Qed.

Lemma qget_qset_eq (Q : list (list matrix)) (d n m a b r c : nat) (x : R) :
  dimsQ Q d n m -> (a < d)%nat -> (b < d)%nat -> (r < n)%nat -> (c < m)%nat ->
  qget (qset Q a b r c x) a b r c = x.
Proof.
  intros HQ Ha Hb Hr Hc. unfold qget, qset.
  rewrite nth_upd_eq by (destruct HQ; lia).
  apply (tget_tset_eq _ d n m); auto. apply (dimsQ_nth Q d); auto.
Qed.

Lemma qget_qset_neq (Q : list (list matrix)) (a b r c a' b' r' c' : nat) (x : R) :
  (a, b, r, c) <> (a', b', r', c') ->
  qget (qset Q a b r c x) a' b' r' c' = qget Q a' b' r' c'.
Proof.
  intros H. unfold qget, qset.
  destruct (Nat.eq_dec a a') as [<-|Ha].
  - destruct (upd_cases a Q) as [Hu|Hu].
    + rewrite Hu. apply tget_tset_neq. congruence.
    + rewrite Hu. reflexivity.
  - rewrite nth_upd_neq by exact Ha. reflexivity.
Qed.

(** ** The flux at the solution points (calcInviscidFlux_spts) *)

Lemma accum_cell (T : list matrix) (i r c n : nat) (f : nat -> R) :
  for_ n (fun j T => tset T i r c (tget T i r c + f j)) (tset T i r c 0)
  = tset T i r c (Rsum n f).
Proof.
  induction n as [|n IH]; [reflexivity|].
  cbn [for_]. rewrite IH, tset_tset, Rsum_S.
  destruct (tset_cases T i r c) as [H|H].
  - rewrite H. reflexivity.
  - rewrite !H. reflexivity.
Qed.

(** Three nested loops that write every entry once. *)
Lemma for3_tget (nS nD nF : nat) (val : nat -> nat -> nat -> R) (T : list matrix) :
  dimsT T nD nS nF ->
  dimsT (for_ nS (fun s T =>
           for_ nD (fun i T => for_ nF (fun k T => tset T i s k (val s i k)) T) T) T)
        nD nS nF /\
  forall i s k, (i < nD)%nat -> (s < nS)%nat -> (k < nF)%nat ->
    tget (for_ nS (fun s T =>
            for_ nD (fun i T => for_ nF (fun k T => tset T i s k (val s i k)) T) T) T)
         i s k = val s i k.
Proof.
  intros HT.
  pose (Q := fun (s0 i0 k0 : nat) (T' : list matrix) =>
    dimsT T' nD nS nF /\
    forall i s k, (i < nD)%nat -> (s < nS)%nat -> (k < nF)%nat ->
      (s < s0 \/ (s = s0 /\ (i < i0 \/ (i = i0 /\ k < k0))))%nat ->
      tget T' i s k = val s i k).
  assert (G : Q nS 0%nat 0%nat
                (for_ nS (fun s T =>
                   for_ nD (fun i T => for_ nF (fun k T => tset T i s k (val s i k)) T) T) T)).
  { apply (for_ind (fun s T' => Q s 0%nat 0%nat T')).
    - split; [exact HT | intros; lia].
    - intros s0 T1 Hs0 H1.
      assert (G2 : Q s0 nD 0%nat
                     (for_ nD (fun i T =>
                        for_ nF (fun k T => tset T i s0 k (val s0 i k)) T) T1)).
      { apply (for_ind (fun i T' => Q s0 i 0%nat T')); [exact H1|].
        intros i0 T2 Hi0 H2.
        assert (G3 : Q s0 i0 nF (for_ nF (fun k T => tset T i0 s0 k (val s0 i0 k)) T2)).
        { apply (for_ind (fun k T' => Q s0 i0 k T')); [exact H2|].
          intros k0 T3 Hk0 [D3 H3]. split; [apply dimsT_tset, D3|].
          intros i s k Hi Hs Hk L.
          destruct (Nat.eq_dec i i0) as [->|Ni];
            [destruct (Nat.eq_dec s s0) as [->|Ns];
               [destruct (Nat.eq_dec k k0) as [->|Nk]|]|].
          - apply (tget_tset_eq _ nD nS nF); auto.
          - rewrite tget_tset_neq by congruence. apply H3; auto; lia.
          - rewrite tget_tset_neq by congruence. apply H3; auto; lia.
          - rewrite tget_tset_neq by congruence. apply H3; auto; lia. }
        destruct G3 as [D3 H3]. split; [exact D3|].
        intros i s k Hi Hs Hk L. apply H3; auto; lia. }
      destruct G2 as [D2 H2]. split; [exact D2|].
      intros i s k Hi Hs Hk L. apply H2; auto; lia. }
  destruct G as [D G]. split; [exact D|].
  intros i s k Hi Hs Hk. apply G; auto; lia.
Qed.

Lemma set_F_spts_same (e : ele.ele) : ele.set_F_spts (ele.F_spts e) e = e.
Proof. destruct e; reflexivity. Qed.

Section FluxFacts.

Variable inviscidFlux : input.input -> list R -> matrix.

Lemma calcInviscidFlux_spts_eq (params : input.input) (e : ele.ele) :
  ele.calcInviscidFlux_spts inviscidFlux params e
  = ele.set_F_spts
      (for_ (ele.nSpts e) (fun s T =>
         for_ (ele.nDims e) (fun i T =>
           for_ (ele.nFields e) (fun k T =>
             tset T i s k (ele.F_at inviscidFlux params e i s k)) T) T) (ele.F_spts e)) e.
Proof.
  unfold ele.calcInviscidFlux_spts.
  set (body := fun (spt : nat) (e0 : ele.ele) => _).
  replace (for_ (ele.nSpts e) body e)
    with (for_ (ele.nSpts e) body (ele.set_F_spts (ele.F_spts e) e))
    by (now rewrite set_F_spts_same).
  apply (for_lift (fun T => ele.set_F_spts T e)). intros spt T _. unfold body.
  cbv zeta. unfold ele.F_at. cbv zeta.
  change (ele.U_spts (ele.set_F_spts T e)) with (ele.U_spts e).
  change (ele.nDims (ele.set_F_spts T e)) with (ele.nDims e).
  destruct (negb (input.motion params =? 0)%nat).
  - apply (for_lift (fun T => ele.set_F_spts T e)). intros i T1 _.
    change (ele.nFields (ele.set_F_spts T1 e)) with (ele.nFields e).
    apply (for_lift (fun T => ele.set_F_spts T e)). intros; reflexivity.
  - apply (for_lift (fun T => ele.set_F_spts T e)). intros i T1 _.
    change (ele.nFields (ele.set_F_spts T1 e)) with (ele.nFields e).
    apply (for_lift (fun T => ele.set_F_spts T e)). intros k T2 _.
    ele_proj.
    rewrite <- accum_cell.
    apply (for_lift (fun T => ele.set_F_spts T e)). intros; reflexivity.
Qed.

Lemma calcInviscidFlux_spts_at (params : input.input) (e : ele.ele) :
  dimsT (ele.F_spts e) (ele.nDims e) (ele.nSpts e) (ele.nFields e) ->
  let e' := ele.calcInviscidFlux_spts inviscidFlux params e in
  dimsT (ele.F_spts e') (ele.nDims e) (ele.nSpts e) (ele.nFields e) /\
  (forall i s k, (i < ele.nDims e)%nat -> (s < ele.nSpts e)%nat -> (k < ele.nFields e)%nat ->
     tget (ele.F_spts e') i s k = ele.F_at inviscidFlux params e i s k) /\
  e' = ele.set_F_spts (ele.F_spts e') e.
Proof.
  intros HT e'. unfold e'. rewrite calcInviscidFlux_spts_eq. ele_proj.
  destruct (for3_tget (ele.nSpts e) (ele.nDims e) (ele.nFields e)
              (fun s i k => ele.F_at inviscidFlux params e i s k) (ele.F_spts e) HT)
    as [D G].
  split; [exact D|]. split; [exact G|reflexivity].
Qed.

End FluxFacts.

(** ** The operators on the flux *)

Lemma calcDivF_spts_at (op : oper.oper) (step : nat) (e : ele.ele) (s k : nat) :
  solver.oper_fits op e -> (step < List.length (ele.divF_spts e))%nat ->
  (s < ele.nSpts e)%nat -> (k < ele.nFields e)%nat ->
  tget (ele.divF_spts (solver.calcDivF_spts op step e)) step s k
  = Rsum (ele.nDims e) (fun d =>
      Rsum (ele.nSpts e) (fun j =>
        mget (nth d (oper.opp_grad_spts op) []) s j * tget (ele.F_spts e) d j k)).
Proof.
  intros (F1 & F2 & F3) Hstep Hs Hk.
  unfold solver.calcDivF_spts. ele_proj. unfold tget at 1.
  rewrite nth_upd_eq by exact Hstep.
  unfold oper.applyDivFSpts. rewrite F1, F2, F3.
  rewrite mget_tabulate by assumption.
  apply Rsum_ext. intros d _. unfold oper.timesMatrix.
  rewrite mget_tabulate by assumption. reflexivity.
Qed.

Lemma applyGradFSpts_at (op : oper.oper) (F : list matrix) (a b s k : nat) :
  (a < oper.nDims op)%nat -> (b < oper.nDims op)%nat ->
  (s < oper.nSpts op)%nat -> (k < oper.nFields op)%nat ->
  qget (oper.applyGradFSpts op F) a b s k
  = Rsum (oper.nSpts op) (fun j => mget (nth a (oper.opp_grad_spts op) []) s j * tget F b j k).
Proof.
  intros Ha Hb Hs Hk. unfold qget, tget at 1, oper.applyGradFSpts.
  rewrite (nth_map_seq (fun d1 => map _ (seq 0 (oper.nDims op)))) by exact Ha.
  rewrite (nth_map_seq (fun d2 => oper.timesMatrix _ _ _ _ (nth d2 F []))) by exact Hb.
  unfold oper.timesMatrix. rewrite mget_tabulate by assumption. reflexivity.
Qed.

Lemma applyGradFSpts_dims (op : oper.oper) (F : list matrix) :
  dimsQ (oper.applyGradFSpts op F) (oper.nDims op) (oper.nSpts op) (oper.nFields op).
Proof.
  unfold oper.applyGradFSpts. split; [now rewrite length_map, length_seq|].
  apply Forall_forall. intros T HT. apply in_map_iff in HT. destruct HT as (d1 & <- & _).
  split; [now rewrite length_map, length_seq|].
  apply Forall_forall. intros M HM. apply in_map_iff in HM. destruct HM as (d2 & <- & _).
  apply dims_tabulate.
Qed.

(** ** The chain-rule form in two dimensions (transformGradF_spts) *)

Lemma transformGradF_spts_2d (adjoint : matrix -> matrix) (step : nat) (e : ele.ele) :
  ele.nDims e = 2%nat ->
  dimsQ (ele.dF_spts e) 2 (ele.nSpts e) (ele.nFields e) ->
  (step < List.length (ele.divF_spts e))%nat ->
  dimsT (ele.divF_spts e) (List.length (ele.divF_spts e)) (ele.nSpts e) (ele.nFields e) ->
  forall s k, (s < ele.nSpts e)%nat -> (k < ele.nFields e)%nat ->
    tget (ele.divF_spts (ele.transformGradF_spts adjoint step e)) step s k
    = ele.chain2_at e s k.
Proof.
  intros HD HQ Hstep HT.
  unfold ele.transformGradF_spts. rewrite HD. cbn [Nat.eqb].
  set (nS := ele.nSpts e). set (nF := ele.nFields e).
  set (L := List.length (ele.divF_spts e)) in *.
  pose (Inv := fun (s0 k0 : nat) (e' : ele.ele) =>
    (ele.nSpts e' = nS /\ ele.nFields e' = nF /\ ele.Jac_spts e' = ele.Jac_spts e /\
     ele.gridVel_spts e' = ele.gridVel_spts e /\ ele.dU_spts e' = ele.dU_spts e) /\
    dimsQ (ele.dF_spts e') 2 nS nF /\ dimsT (ele.divF_spts e') L nS nF /\
    forall s k, (s < nS)%nat -> (k < nF)%nat ->
      ((s < s0 \/ (s = s0 /\ k < k0))%nat ->
         tget (ele.divF_spts e') step s k = ele.chain2_at e s k) /\
      (~ (s < s0 \/ (s = s0 /\ k < k0))%nat ->
         forall a b, qget (ele.dF_spts e') a b s k = qget (ele.dF_spts e) a b s k)).
  match goal with
  | |- forall s k, _ -> _ -> tget (ele.divF_spts (for_ nS ?body e)) _ _ _ = _ =>
      assert (G : Inv nS 0%nat (for_ nS body e))
  end.
  { apply (for_ind (fun s e' => Inv s 0%nat e')).
    - split; [repeat split; reflexivity|]. split; [exact HQ|]. split; [exact HT|].
      intros s k Hs Hk. split; [intros; lia | intros; reflexivity].
    - intros s0 e1 Hs0 H1. cbv zeta.
      assert (E1 := H1). destruct E1 as ((F1 & F2 & F3 & F4 & F5) & _).
      rewrite F2, F3, F4.
      match goal with
      | |- Inv _ _ (for_ nF ?body e1) => assert (G2 : Inv s0 nF (for_ nF body e1))
      end.
      { apply (for_ind (fun k e' => Inv s0 k e')); [exact H1|].
        intros k0 e2 Hk0 ((E1 & E2 & E3 & E4 & E5) & D2 & T2 & C2).
        unfold Inv. ele_proj. rewrite E3, E5.
        destruct (C2 s0 k0 Hs0 Hk0) as [_ Cn]. specialize (Cn ltac:(lia)).
        split; [repeat split; assumption|].
        split; [apply dimsQ_qset, dimsQ_qset, D2|].
        split; [apply dimsT_tset, T2|].
        intros s k Hs Hk.
        destruct (Nat.eq_dec s s0) as [->|Ns]; [destruct (Nat.eq_dec k k0) as [->|Nk]|].
        + split; [intros _ | intros; lia].
          rewrite (tget_tset_eq _ L nS nF) by assumption.
          rewrite (qget_qset_neq _ 1 1 s0 k0 0 0) by congruence.
          rewrite !(qget_qset_eq _ 2 nS nF)
            by first [assumption | lia | apply dimsQ_qset; assumption].
          rewrite !(qget_qset_neq _ 0 0 s0 k0) by congruence.
          rewrite !Cn. unfold ele.chain2_at. cbv zeta. reflexivity.
        + destruct (C2 s0 k Hs Hk) as [Cd Cu].
          split.
          * intros Hd. rewrite tget_tset_neq by congruence. apply Cd. lia.
          * intros Hu a b. rewrite !qget_qset_neq by congruence. apply Cu. lia.
        + destruct (C2 s k Hs Hk) as [Cd Cu].
          split.
          * intros Hd. rewrite tget_tset_neq by congruence. apply Cd. lia.
          * intros Hu a b. rewrite !qget_qset_neq by congruence. apply Cu. lia. }
      destruct G2 as (Fr & D2 & T2 & C2).
      split; [exact Fr|]. split; [exact D2|]. split; [exact T2|].
      intros s k Hs Hk. destruct (C2 s k Hs Hk) as [Cd Cu].
      split; [intros; apply Cd; lia | intros; apply Cu; lia]. }
  destruct G as (_ & _ & _ & C). intros s k Hs Hk.
  apply (C s k Hs Hk). lia.
Qed.

(** ** The chain-rule form in three dimensions *)

Lemma set_divF_spts_same (e : ele.ele) : ele.set_divF_spts (ele.divF_spts e) e = e.
Proof. destruct e; reflexivity. Qed.

Lemma mget_initializeToZero (M : matrix) (i j : nat) : mget (initializeToZero M) i j = 0.
Proof.
  assert (Z : forall (l : list R) j, nth j (map (fun _ : R => 0) l) 0 = 0).
  { induction l as [|h t IH]; intros [|j']; simpl; auto. }
  unfold mget, initializeToZero. revert i.
  induction M as [|r M IH]; intros [|i]; simpl; auto; now destruct j.
Qed.

Lemma dims_initializeToZero (M : matrix) (n m : nat) :
  dims M n m -> dims (initializeToZero M) n m.
Proof.
  intros [HL HF]. unfold initializeToZero. split; [now rewrite length_map|].
  apply Forall_forall. intros r Hr. apply in_map_iff in Hr. destruct Hr as (r0 & <- & Hin).
  rewrite length_map. rewrite Forall_forall in HF. apply HF, Hin.
Qed.

(** One loop over the fields that adds [c k] to entry [(r,k)] of [T[i]]. *)
Lemma row_add (T : list matrix) (d n0 m0 i r : nat) (c : nat -> R) :
  dimsT T d n0 m0 -> (i < d)%nat -> (r < n0)%nat ->
  dimsT (for_ m0 (fun k T => tset T i r k (tget T i r k + c k)) T) d n0 m0 /\
  (forall k, (k < m0)%nat ->
     tget (for_ m0 (fun k T => tset T i r k (tget T i r k + c k)) T) i r k
     = tget T i r k + c k) /\
  (forall a b k, (a, b) <> (i, r) ->
     tget (for_ m0 (fun k T => tset T i r k (tget T i r k + c k)) T) a b k = tget T a b k).
Proof.
  intros HT Hi Hr.
  pose (Inv := fun (k0 : nat) (T' : list matrix) =>
    dimsT T' d n0 m0 /\
    (forall k, (k < m0)%nat ->
       tget T' i r k = if (k <? k0)%nat then tget T i r k + c k else tget T i r k) /\
    (forall a b k, (a, b) <> (i, r) -> tget T' a b k = tget T a b k)).
  assert (G : Inv m0 (for_ m0 (fun k T => tset T i r k (tget T i r k + c k)) T)).
  { apply (for_ind Inv).
    - split; [exact HT|]. split; [intros; reflexivity | intros; reflexivity].
    - intros k0 T1 Hk0 (D1 & C1 & O1). split; [apply dimsT_tset, D1|]. split.
      + intros k Hk. destruct (Nat.eq_dec k k0) as [->|Nk].
        * rewrite (tget_tset_eq _ d n0 m0) by assumption.
          rewrite C1 by exact Hk.
          replace (k0 <? k0)%nat with false by (symmetry; apply Nat.ltb_ge; lia).
          replace (k0 <? S k0)%nat with true by (symmetry; apply Nat.ltb_lt; lia).
          reflexivity.
        * rewrite tget_tset_neq by congruence. rewrite C1 by exact Hk.
          destruct (Nat.ltb_spec k k0), (Nat.ltb_spec k (S k0)); auto; lia.
      + intros a b k Hab. rewrite tget_tset_neq by congruence. apply O1, Hab. }
  destruct G as (D & C & O). split; [exact D|]. split; [|exact O].
  intros k Hk. rewrite C by exact Hk.
  replace (k <? m0)%nat with true by (symmetry; apply Nat.ltb_lt; lia). reflexivity.
Qed.

(** Such loops one after the other add their terms in order. *)
Lemma rows_add (cs : list (nat -> R)) (T : list matrix) (d n0 m0 i r : nat) :
  dimsT T d n0 m0 -> (i < d)%nat -> (r < n0)%nat ->
  dimsT (fold_left (fun T c => for_ m0 (fun k T => tset T i r k (tget T i r k + c k)) T) cs T)
        d n0 m0 /\
  (forall k, (k < m0)%nat ->
     tget (fold_left (fun T c => for_ m0 (fun k T => tset T i r k (tget T i r k + c k)) T)
             cs T) i r k
     = fold_left (fun acc c => acc + c k) cs (tget T i r k)) /\
  (forall a b k, (a, b) <> (i, r) ->
     tget (fold_left (fun T c => for_ m0 (fun k T => tset T i r k (tget T i r k + c k)) T)
             cs T) a b k = tget T a b k).
Proof.
  intros HT Hi Hr. revert T HT. induction cs as [|c cs IH]; intros T HT; simpl fold_left.
  - split; [exact HT|]. split; intros; reflexivity.
  - destruct (row_add T d n0 m0 i r c HT Hi Hr) as (D1 & C1 & O1).
    destruct (IH _ D1) as (D2 & C2 & O2).
    split; [exact D2|]. split.
    + intros k Hk. rewrite C2, C1 by exact Hk. reflexivity.
    + intros a b k Hab. rewrite O2, O1 by exact Hab. reflexivity.
Qed.

Lemma transformGradF_spts_3d_eq (adjoint : matrix -> matrix) (step : nat) (e : ele.ele) :
  (ele.nDims e =? 2)%nat = false ->
  ele.transformGradF_spts adjoint step e
  = ele.set_divF_spts
      (for_ (ele.nSpts e) (fun s D =>
         fold_left (fun T c =>
                      for_ (ele.nFields e) (fun k T => tset T step s k (tget T step s k + c k)) T)
                   (ele.chain3_terms adjoint e s) D)
         (upd step (initializeToZero (nth step (ele.divF_spts e) [])) (ele.divF_spts e))) e.
Proof.
  intros HD. unfold ele.transformGradF_spts. rewrite HD. cbv zeta.
  change (ele.nSpts (ele.set_divF_spts ?D e)) with (ele.nSpts e).
  apply (for_lift (fun D => ele.set_divF_spts D e)). intros s D _.
  cbv zeta. cbn [for_].
  change (ele.nFields (ele.set_divF_spts D e)) with (ele.nFields e).
  do 12 (erewrite (for_lift (fun D => ele.set_divF_spts D e)) by (intros; reflexivity);
         change (ele.nFields (ele.set_divF_spts ?D e)) with (ele.nFields e)).
  apply (f_equal (fun D => ele.set_divF_spts D e)).
  reflexivity.
Qed.

Lemma chain3_at_terms (adjoint : matrix -> matrix) (e : ele.ele) (s k : nat) :
  ele.chain3_at adjoint e s k
  = fold_left (fun acc c => acc + c k) (ele.chain3_terms adjoint e s) 0.
Proof. reflexivity. Qed.

Lemma transformGradF_spts_3d (adjoint : matrix -> matrix) (step : nat) (e : ele.ele) :
  (ele.nDims e =? 2)%nat = false ->
  (step < List.length (ele.divF_spts e))%nat ->
  dimsT (ele.divF_spts e) (List.length (ele.divF_spts e)) (ele.nSpts e) (ele.nFields e) ->
  forall s k, (s < ele.nSpts e)%nat -> (k < ele.nFields e)%nat ->
    tget (ele.divF_spts (ele.transformGradF_spts adjoint step e)) step s k
    = ele.chain3_at adjoint e s k.
Proof.
  intros HD Hstep HT.
  rewrite (transformGradF_spts_3d_eq adjoint step e HD). ele_proj.
  set (nS := ele.nSpts e). set (nF := ele.nFields e).
  set (L := List.length (ele.divF_spts e)) in *.
  set (D0 := upd step _ (ele.divF_spts e)).
  assert (HD0 : dimsT D0 L nS nF).
  { unfold D0. destruct HT as [HL HF]. split; [now rewrite upd_length|].
    apply Forall_upd; [exact HF|]. apply dims_initializeToZero.
    rewrite Forall_forall in HF. apply HF, nth_In, Hstep. }
  assert (Z0 : forall s k, tget D0 step s k = 0).
  { intros s k. unfold D0, tget. rewrite nth_upd_eq by exact Hstep.
    apply mget_initializeToZero. }
  pose (Inv := fun (s0 : nat) (D : list matrix) =>
    dimsT D L nS nF /\
    forall s k, (s < nS)%nat -> (k < nF)%nat ->
      tget D step s k = if (s <? s0)%nat then ele.chain3_at adjoint e s k else 0).
  match goal with
  | |- forall s k, _ -> _ -> tget (for_ nS ?body D0) _ _ _ = _ =>
      assert (G : Inv nS (for_ nS body D0))
  end.
  { apply (for_ind Inv).
    - split; [exact HD0|]. intros s k _ _. apply Z0.
    - intros s0 D1 Hs0 (T1 & C1).
      destruct (rows_add (ele.chain3_terms adjoint e s0) D1 L nS nF step s0 T1 Hstep Hs0)
        as (T2 & C2 & O2).
      split; [exact T2|]. intros s k Hs Hk.
      destruct (Nat.eq_dec s s0) as [->|Ns].
      + rewrite C2 by exact Hk. rewrite C1 by assumption.
        replace (s0 <? s0)%nat with false by (symmetry; apply Nat.ltb_ge; lia).
        replace (s0 <? S s0)%nat with true by (symmetry; apply Nat.ltb_lt; lia).
        symmetry. apply chain3_at_terms.
      + rewrite O2 by congruence. rewrite C1 by assumption.
        destruct (Nat.ltb_spec s s0), (Nat.ltb_spec s (S s0)); auto; lia. }
  destruct G as (_ & C). intros s k Hs Hk. rewrite C by assumption.
  replace (s <? nS)%nat with true by (symmetry; apply Nat.ltb_lt; exact Hs). reflexivity.
Qed.

(** The adjoint of the space-time Jacobian of a mesh at rest: its space block
    is the stored inverse transformation and its grid-velocity column
    vanishes. *)
Lemma adjoint_4x4_static (a b c d e f g h i : R) :
  ele.adjoint_4x4 [[a; b; c; 0]; [d; e; f; 0]; [g; h; i; 0]; [0; 0; 0; 1]]
  = [[e * i - f * h; c * h - b * i; b * f - c * e; 0];
     [f * g - d * i; a * i - c * g; c * d - a * f; 0];
     [d * h - e * g; b * g - a * h; a * e - b * d; 0];
     [0; 0; 0; a * (e * i - f * h) - b * (d * i - f * g) + c * (d * h - e * g)]].
Proof.
  Reval. repeat (f_equal; try ring).
Qed.

Lemma JGinv_of_2 (J : matrix) :
  ele.JGinv_of 2 J = [[mget J 1 1; - mget J 0 1]; [- mget J 1 0; mget J 0 0]].
Proof. reflexivity. Qed.

Lemma JGinv_of_3 (J : matrix) :
  ele.JGinv_of 3 J
  = [[mget J 1 1 * mget J 2 2 - mget J 1 2 * mget J 2 1;
      mget J 0 2 * mget J 2 1 - mget J 0 1 * mget J 2 2;
      mget J 0 1 * mget J 1 2 - mget J 0 2 * mget J 1 1];
     [mget J 1 2 * mget J 2 0 - mget J 1 0 * mget J 2 2;
      mget J 0 0 * mget J 2 2 - mget J 0 2 * mget J 2 0;
      mget J 0 2 * mget J 1 0 - mget J 0 0 * mget J 1 2];
     [mget J 1 0 * mget J 2 1 - mget J 1 1 * mget J 2 0;
      mget J 0 1 * mget J 2 0 - mget J 0 0 * mget J 2 1;
      mget J 0 0 * mget J 1 1 - mget J 0 1 * mget J 1 0]].
Proof. reflexivity. Qed.

Lemma spaceTimeJacobian_static (e : ele.ele) (s : nat) :
  (forall d, (d < 3)%nat -> mget (ele.gridVel_spts e) s d = 0) ->
  ele.spaceTimeJacobian e s
  = [[mget (nth s (ele.Jac_spts e) []) 0 0; mget (nth s (ele.Jac_spts e) []) 0 1;
      mget (nth s (ele.Jac_spts e) []) 0 2; 0];
     [mget (nth s (ele.Jac_spts e) []) 1 0; mget (nth s (ele.Jac_spts e) []) 1 1;
      mget (nth s (ele.Jac_spts e) []) 1 2; 0];
     [mget (nth s (ele.Jac_spts e) []) 2 0; mget (nth s (ele.Jac_spts e) []) 2 1;
      mget (nth s (ele.Jac_spts e) []) 2 2; 0];
     [0; 0; 0; 1]].
Proof.
  intros Z. unfold ele.spaceTimeJacobian.
  rewrite <- (Z 0%nat), <- (Z 1%nat), <- (Z 2%nat) at 1 by lia.
  reflexivity.
Qed.

Section DivergenceFacts.

Variable inviscidFlux : input.input -> list R -> matrix.

Lemma standard_form (params : input.input) (op : oper.oper) (step : nat) (e : ele.ele)
      (s k : nat) :
  input.motion params = 0%nat ->
  solver.oper_fits op e -> ele.wf_flux e step ->
  (s < ele.nSpts e)%nat -> (k < ele.nFields e)%nat ->
  tget (ele.divF_spts (solver.fluxDivergence inviscidFlux ele.adjoint_4x4 params op step e))
       step s k
  = Rsum (ele.nDims e) (fun d =>
      Rsum (ele.nSpts e) (fun j =>
        mget (nth d (oper.opp_grad_spts op) []) s j
        * Rsum (ele.nDims e) (fun j' =>
            mget (nth j (ele.JGinv_spts e) []) d j'
            * mget (inviscidFlux params (nth j (ele.U_spts e) [])) j' k))).
Proof.
  intros Hm Hop (WF & _ & Hstep & _) Hs Hk.
  unfold solver.fluxDivergence, solver.calcFluxDivergence. rewrite Hm. cbn [Nat.eqb negb].
  destruct (calcInviscidFlux_spts_at inviscidFlux params e WF) as (D1 & G1 & E1).
  set (e1 := ele.calcInviscidFlux_spts inviscidFlux params e) in *.
  assert (N1 : ele.nDims e1 = ele.nDims e) by (rewrite E1; reflexivity).
  assert (N2 : ele.nSpts e1 = ele.nSpts e) by (rewrite E1; reflexivity).
  assert (N3 : ele.nFields e1 = ele.nFields e) by (rewrite E1; reflexivity).
  assert (N4 : ele.divF_spts e1 = ele.divF_spts e) by (rewrite E1; reflexivity).
  rewrite calcDivF_spts_at;
    [ | unfold solver.oper_fits in *; rewrite N1, N2, N3; exact Hop
      | rewrite N4; exact Hstep | rewrite N2; exact Hs | rewrite N3; exact Hk ].
  rewrite N1, N2.
  apply Rsum_ext. intros d Hd. apply Rsum_ext. intros j Hj.
  rewrite G1 by assumption. unfold ele.F_at. rewrite Hm. reflexivity.
Qed.

Lemma chain_gradient (params : input.input) (op : oper.oper) (e : ele.ele) :
  input.motion params <> 0%nat ->
  solver.oper_fits op e ->
  dimsT (ele.F_spts e) (ele.nDims e) (ele.nSpts e) (ele.nFields e) ->
  exists Q T,
    solver.calcGradF_spts op (ele.calcInviscidFlux_spts inviscidFlux params e)
    = ele.set_dF_spts Q (ele.set_F_spts T e) /\
    dimsQ Q (ele.nDims e) (ele.nSpts e) (ele.nFields e) /\
    forall a b s k, (a < ele.nDims e)%nat -> (b < ele.nDims e)%nat ->
      (s < ele.nSpts e)%nat -> (k < ele.nFields e)%nat ->
      qget Q a b s k = solver.gradF_at inviscidFlux params op e a b s k.
Proof.
  intros Hm (O1 & O2 & O3) WF.
  destruct (calcInviscidFlux_spts_at inviscidFlux params e WF) as (D1 & G1 & E1).
  set (e1 := ele.calcInviscidFlux_spts inviscidFlux params e) in *.
  exists (oper.applyGradFSpts op (ele.F_spts e1)), (ele.F_spts e1).
  split; [unfold solver.calcGradF_spts; rewrite E1 at 2; reflexivity|].
  split; [rewrite <- O1, <- O2, <- O3; apply applyGradFSpts_dims|].
  intros a b s k Ha Hb Hs Hk.
  rewrite applyGradFSpts_at by lia. unfold solver.gradF_at. rewrite O2.
  apply Rsum_ext. intros j Hj. rewrite G1 by assumption.
  unfold ele.F_at. apply Nat.eqb_neq in Hm. rewrite Hm. reflexivity.
Qed.

End DivergenceFacts.

Lemma Rsum_two (f : nat -> R) : Rsum 2 f = 0 + f 0%nat + f 1%nat.
Proof. reflexivity. Qed.

Lemma Rsum_three (f : nat -> R) : Rsum 3 f = 0 + f 0%nat + f 1%nat + f 2%nat.
Proof. reflexivity. Qed.

(** C6 (as the code has it).  On an element at rest (zero grid velocity)
    whose Jacobian is the same at every solution point, with the stored
    inverse transformation that of this Jacobian, the divergence that the
    standard conservative path writes into [divF_spts[step]] equals, at
    every solution point and field, the one the chain-rule path writes for
    the same physical flux. *)
Theorem divergence_forms_agree
        (inviscidFlux : input.input -> list R -> matrix)
        (still moving : input.input) (op : oper.oper) (step : nat) (e : ele.ele)
        (spt k : nat) :
  input.motion still = 0%nat -> input.motion moving <> 0%nat ->
  (forall s, (s < ele.nSpts e)%nat ->
     inviscidFlux moving (nth s (ele.U_spts e) [])
     = inviscidFlux still (nth s (ele.U_spts e) [])) ->
  (ele.nDims e = 2 \/ ele.nDims e = 3)%nat ->
  solver.oper_fits op e -> ele.wf_flux e step ->
  ele.metrics_spts e -> ele.constantJacobian e -> ele.zeroGridVel e ->
  (spt < ele.nSpts e)%nat -> (k < ele.nFields e)%nat ->
  tget (ele.divF_spts
          (solver.fluxDivergence inviscidFlux ele.adjoint_4x4 still op step e)) step spt k
  = tget (ele.divF_spts
            (solver.fluxDivergence inviscidFlux ele.adjoint_4x4 moving op step e)) step spt k.
Proof.
  intros Hs0 Hm Hflux HnD Hop WF HJG HJ HV Hs Hk.
  rewrite (standard_form inviscidFlux still op step e spt k Hs0 Hop WF Hs Hk).
  destruct WF as (WT & WQ & Hstep & WD).
  destruct (chain_gradient inviscidFlux moving op e Hm Hop WT) as (Q & T & E3 & DQ & GQ).
  unfold solver.fluxDivergence, solver.calcFluxDivergence.
  apply Nat.eqb_neq in Hm. rewrite Hm. cbn [negb]. rewrite E3.
  set (e3 := ele.set_dF_spts Q (ele.set_F_spts T e)).
  set (J := nth 0 (ele.Jac_spts e) []).
  assert (HG : forall a b, (a < ele.nDims e)%nat -> (b < ele.nDims e)%nat ->
             qget Q a b spt k = solver.gradF_at inviscidFlux still op e a b spt k).
  { intros a b Ha Hb. rewrite GQ by assumption. unfold solver.gradF_at.
    apply Rsum_ext. intros j Hj. rewrite Hflux by exact Hj. reflexivity. }
  destruct HnD as [H2|H3].
  - assert (DQ2 : dimsQ Q 2 (ele.nSpts e) (ele.nFields e)) by (rewrite <- H2; exact DQ).
    rewrite (transformGradF_spts_2d ele.adjoint_4x4 step e3 H2 DQ2 Hstep WD spt k Hs Hk).
    unfold ele.chain2_at. cbv zeta.
    change (ele.dF_spts e3) with Q. change (ele.Jac_spts e3) with (ele.Jac_spts e).
    change (ele.gridVel_spts e3) with (ele.gridVel_spts e).
    change (ele.dU_spts e3) with (ele.dU_spts e).
    rewrite !HV, !HG, (HJ spt Hs) by (assumption || lia). fold J.
    assert (HS : forall d, (d < 2)%nat ->
               Rsum (ele.nSpts e) (fun j =>
                 mget (nth d (oper.opp_grad_spts op) []) spt j
                 * Rsum 2 (fun j' =>
                     mget (nth j (ele.JGinv_spts e) []) d j'
                     * mget (inviscidFlux still (nth j (ele.U_spts e) [])) j' k))
               = mget (ele.JGinv_of 2 J) d 0
                 * solver.gradF_at inviscidFlux still op e d 0 spt k
                 + mget (ele.JGinv_of 2 J) d 1
                   * solver.gradF_at inviscidFlux still op e d 1 spt k).
    { intros d Hd. unfold solver.gradF_at. rewrite <- Rsum_lin2.
      apply Rsum_ext. intros j Hj. rewrite HJG, HJ, H2 by exact Hj. reflexivity. }
    rewrite H2, Rsum_two, (HS 0%nat), (HS 1%nat) by lia.
    rewrite JGinv_of_2.
    generalize (mget J 0 0) (mget J 0 1) (mget J 1 0) (mget J 1 1).
    intros j00 j01 j10 j11. cbv [mget nth]. ring.
  - assert (N2 : (ele.nDims e3 =? 2)%nat = false)
      by (change (ele.nDims e3) with (ele.nDims e); rewrite H3; reflexivity).
    rewrite (transformGradF_spts_3d ele.adjoint_4x4 step e3 N2 Hstep WD spt k Hs Hk).
    unfold ele.chain3_at. cbv zeta.
    rewrite spaceTimeJacobian_static
      by (intros d Hd; change (ele.gridVel_spts e3) with (ele.gridVel_spts e);
          apply HV; [exact Hs | rewrite H3; exact Hd]).
    change (ele.dF_spts e3) with Q. change (ele.Jac_spts e3) with (ele.Jac_spts e).
    change (ele.dU_spts e3) with (ele.dU_spts e).
    rewrite (HJ spt Hs). fold J. rewrite adjoint_4x4_static. cbn [for_].
    rewrite !HG by (rewrite H3; lia).
    assert (HS : forall d, (d < 3)%nat ->
               Rsum (ele.nSpts e) (fun j =>
                 mget (nth d (oper.opp_grad_spts op) []) spt j
                 * Rsum 3 (fun j' =>
                     mget (nth j (ele.JGinv_spts e) []) d j'
                     * mget (inviscidFlux still (nth j (ele.U_spts e) [])) j' k))
               = mget (ele.JGinv_of 3 J) d 0
                 * solver.gradF_at inviscidFlux still op e d 0 spt k
                 + mget (ele.JGinv_of 3 J) d 1
                   * solver.gradF_at inviscidFlux still op e d 1 spt k
                 + mget (ele.JGinv_of 3 J) d 2
                   * solver.gradF_at inviscidFlux still op e d 2 spt k).
    { intros d Hd. unfold solver.gradF_at. rewrite <- Rsum_lin3.
      apply Rsum_ext. intros j Hj. rewrite HJG, HJ, H3 by exact Hj. reflexivity. }
    rewrite H3, Rsum_three, (HS 0%nat), (HS 1%nat), (HS 2%nat) by lia.
    rewrite JGinv_of_3.
    generalize (mget J 0 0) (mget J 0 1) (mget J 0 2) (mget J 1 0) (mget J 1 1)
               (mget J 1 2) (mget J 2 0) (mget J 2 1) (mget J 2 2).
    intros j00 j01 j02 j10 j11 j12 j20 j21 j22. cbv [mget nth]. ring.
Qed.

(** ** Concrete elements *)

Lemma calcTransforms_spt_2d (moving : bool) (k : nat) (e : ele.ele) (J : matrix) :
  ele.nDims e = 2%nat ->
  ele.accumJac (ele.nNodes e) (ele.nDims e) (nth k (ele.dShape_spts e) [])
    (if moving then ele.nodesRK e else ele.nodes e)
    (initializeToZero (nth k (ele.Jac_spts e) [])) = J ->
  (k < List.length (ele.Jac_spts e))%nat ->
  (k < List.length (ele.detJac_spts e))%nat ->
  0 <= ele.det2 J ->
  ele.calcTransforms_spt moving k e =
  Ok (ele.set_JGinv_spts (upd k (ele.adj2 J (nth k (ele.JGinv_spts e) [])) (ele.JGinv_spts e))
        (ele.set_detJac_spts (upd k (ele.det2 J) (ele.detJac_spts e))
           (ele.set_Jac_spts (upd k J (ele.Jac_spts e)) e))).
Proof.
  intros HD HJ LJ Ld Hpos. unfold ele.calcTransforms_spt. cbv zeta. rewrite HJ.
  ele_proj. rewrite HD. cbn [Nat.eqb]. ele_proj.
  rewrite !(nth_upd_eq k) by (rewrite ?upd_length; assumption).
  rewrite Rltb_false by lra. reflexivity.
Qed.

Ltac transforms_step k J :=
  rewrite (calcTransforms_spt_2d false k _ J);
    [ | reflexivity | Reval; repeat (f_equal; try lra) | simpl; lia | simpl; lia
      | Reval; lra ];
  cbn [bind].

(** [trapezoid U] is what [calcTransforms] makes of the trapezoid. *)
Lemma trapezoid_transforms (U : list R) :
  ele.calcTransforms false (solver.quad1 solver.trapezoidNodes U) = Ok (solver.trapezoid U).
Proof.
  unfold ele.calcTransforms.
  change (ele.nSpts (solver.quad1 solver.trapezoidNodes U)) with 4%nat.
  cbn [forM_ bind].
  transforms_step 0%nat [[1; -1/2]; [0; 1]].
  transforms_step 1%nat [[1; 1/2]; [0; 1]].
  transforms_step 2%nat [[2; -1/2]; [0; 1]].
  transforms_step 3%nat [[2; 1/2]; [0; 1]].
  match goal with |- Ok (for_ ?n _ _) = _ => change n with 0%nat end.
  cbn [for_]. unfold solver.trapezoid.
  match goal with
  | |- Ok (ele.set_JGinv_spts ?L (ele.set_detJac_spts ?D (ele.set_Jac_spts ?J _))) = _ =>
      replace L
        with [[[1; 1/2]; [0; 1]]; [[1; -1/2]; [0; 1]]; [[1; 1/2]; [0; 2]]; [[1; -1/2]; [0; 2]]]
        by (Reval; repeat (f_equal; try lra));
      replace D with [1; 1; 2; 2] by (Reval; repeat (f_equal; try lra));
      replace J
        with [[[1; -1/2]; [0; 1]]; [[1; 1/2]; [0; 1]]; [[2; -1/2]; [0; 1]]; [[2; 1/2]; [0; 1]]]
        by (Reval; repeat (f_equal; try lra))
  end.
  reflexivity.
Qed.

Lemma parallelogram_transforms (U : list R) :
  ele.calcTransforms false (solver.quad1 solver.parallelogramNodes U)
  = Ok (solver.parallelogram U).
Proof.
  unfold ele.calcTransforms.
  change (ele.nSpts (solver.quad1 solver.parallelogramNodes U)) with 4%nat.
  cbn [forM_ bind].
  transforms_step 0%nat [[1; 1/2]; [0; 1]].
  transforms_step 1%nat [[1; 1/2]; [0; 1]].
  transforms_step 2%nat [[1; 1/2]; [0; 1]].
  transforms_step 3%nat [[1; 1/2]; [0; 1]].
  match goal with |- Ok (for_ ?n _ _) = _ => change n with 0%nat end.
  cbn [for_]. unfold solver.parallelogram.
  match goal with
  | |- Ok (ele.set_JGinv_spts ?L (ele.set_detJac_spts ?D (ele.set_Jac_spts ?J _))) = _ =>
      replace L with (repeat [[1; -1/2]; [0; 1]] 4)
        by (Reval; repeat (f_equal; try lra));
      replace D with [1; 1; 1; 1] by (Reval; repeat (f_equal; try lra));
      replace J with (repeat [[1; 1/2]; [0; 1]] 4)
        by (Reval; repeat (f_equal; try lra))
  end.
  reflexivity.
Qed.

Lemma trapezoid_standard :
  tget (ele.divF_spts
          (solver.fluxDivergence (solver.advectionFlux 1 1) ele.adjoint_4x4
             solver.advStatic (oper.lobatto1 1) 0 (solver.trapezoid [-1; 1; -1; 1]))) 0 0 0
  = 1/2.
Proof. Reval. lra. Qed.

Lemma trapezoid_chain :
  tget (ele.divF_spts
          (solver.fluxDivergence (solver.advectionFlux 1 1) ele.adjoint_4x4
             solver.advMoving (oper.lobatto1 1) 0 (solver.trapezoid [-1; 1; -1; 1]))) 0 0 0
  = 3/2.
Proof. Reval. lra. Qed.

Lemma quad_zeroGridVel (e : ele.ele) :
  ele.nSpts e = 4%nat -> ele.nDims e = 2%nat -> ele.gridVel_spts e = zeros 4 2 ->
  ele.zeroGridVel e.
Proof.
  intros H4 H2 HV spt dim Hs Hd. rewrite HV. rewrite H4 in Hs. rewrite H2 in Hd.
  destruct spt as [|[|[|[|spt]]]]; try lia;
    destruct dim as [|[|dim]]; try lia; reflexivity.
Qed.

Lemma trapezoid_metrics (U : list R) : ele.metrics_spts (solver.trapezoid U).
Proof.
  intros spt Hs. change (ele.nSpts (solver.trapezoid U)) with 4%nat in Hs.
  destruct spt as [|[|[|[|spt]]]]; try lia; Reval; repeat (f_equal; try lra).
Qed.

Lemma parallelogram_metrics (U : list R) : ele.metrics_spts (solver.parallelogram U).
Proof.
  intros spt Hs. change (ele.nSpts (solver.parallelogram U)) with 4%nat in Hs.
  destruct spt as [|[|[|[|spt]]]]; try lia; Reval; repeat (f_equal; try lra).
Qed.

(** C6 as stated fails.  The trapezoid with corners [(-1,-1)], [(1,-1)],
    [(2,1)], [(-2,1)] is at rest, its metrics are those [calcTransforms]
    computes, and for the advection flux of speed [(1,1)] and the field
    [-1, 1, -1, 1] the standard path writes [1/2] at the first solution
    point where the chain-rule path writes [3/2]. *)
Lemma divergence_forms_differ_on_trapezoid :
  ele.calcTransforms false (solver.quad1 solver.trapezoidNodes [-1; 1; -1; 1])
  = Ok (solver.trapezoid [-1; 1; -1; 1]) /\
  ele.zeroGridVel (solver.trapezoid [-1; 1; -1; 1]) /\
  tget (ele.divF_spts
          (solver.fluxDivergence (solver.advectionFlux 1 1) ele.adjoint_4x4
             solver.advStatic (oper.lobatto1 1) 0 (solver.trapezoid [-1; 1; -1; 1]))) 0 0 0
  <> tget (ele.divF_spts
             (solver.fluxDivergence (solver.advectionFlux 1 1) ele.adjoint_4x4
                solver.advMoving (oper.lobatto1 1) 0 (solver.trapezoid [-1; 1; -1; 1]))) 0 0 0.
Proof.
  split; [apply trapezoid_transforms|].
  split; [apply quad_zeroGridVel; reflexivity|].
  rewrite trapezoid_standard, trapezoid_chain. lra.
Qed.

Lemma divergence_forms_agree_witness :
  tget (ele.divF_spts
          (solver.fluxDivergence (solver.advectionFlux 1 1) ele.adjoint_4x4
             solver.advStatic (oper.lobatto1 1) 0 (solver.parallelogram [-1; 1; -1; 1]))) 0 0 0
  = tget (ele.divF_spts
            (solver.fluxDivergence (solver.advectionFlux 1 1) ele.adjoint_4x4
               solver.advMoving (oper.lobatto1 1) 0 (solver.parallelogram [-1; 1; -1; 1])))
         0 0 0.
Proof.
  apply (divergence_forms_agree (solver.advectionFlux 1 1) solver.advStatic solver.advMoving
           (oper.lobatto1 1) 0 (solver.parallelogram [-1; 1; -1; 1]) 0 0).
  - reflexivity.
  - simpl; lia.
  - intros; reflexivity.
  - left; reflexivity.
  - repeat split.
  - repeat split; simpl; try lia; repeat constructor.
  - apply parallelogram_metrics.
  - intros spt Hs. change (ele.nSpts (solver.parallelogram [-1; 1; -1; 1])) with 4%nat in Hs.
    destruct spt as [|[|[|[|spt]]]]; try lia; reflexivity.
  - apply quad_zeroGridVel; reflexivity.
  - simpl; lia.
  - simpl; lia.
Defined.

(** ** The stored metrics are those the theorem asks for *)

Lemma calcTransforms_fpt_keeps_metrics (moving : bool) (k : nat) (e : ele.ele) :
  ele.Jac_spts (ele.calcTransforms_fpt moving k e) = ele.Jac_spts e /\
  ele.JGinv_spts (ele.calcTransforms_fpt moving k e) = ele.JGinv_spts e /\
  ele.nSpts (ele.calcTransforms_fpt moving k e) = ele.nSpts e /\
  ele.nDims (ele.calcTransforms_fpt moving k e) = ele.nDims e.
Proof.
  assert (H1 : forall e0,
             ele.Jac_spts (ele.calcTransforms_fpt_normal k e0) = ele.Jac_spts e0 /\
             ele.JGinv_spts (ele.calcTransforms_fpt_normal k e0) = ele.JGinv_spts e0 /\
             ele.nSpts (ele.calcTransforms_fpt_normal k e0) = ele.nSpts e0 /\
             ele.nDims (ele.calcTransforms_fpt_normal k e0) = ele.nDims e0).
  { intros e0. unfold ele.calcTransforms_fpt_normal. cbv zeta.
    match goal with |- context [if Rltb ?a ?b then _ else _] => destruct (Rltb a b) end;
      repeat split; reflexivity. }
  assert (H2 : ele.Jac_spts (ele.calcTransforms_fpt_jac moving k e) = ele.Jac_spts e /\
               ele.JGinv_spts (ele.calcTransforms_fpt_jac moving k e) = ele.JGinv_spts e /\
               ele.nSpts (ele.calcTransforms_fpt_jac moving k e) = ele.nSpts e /\
               ele.nDims (ele.calcTransforms_fpt_jac moving k e) = ele.nDims e).
  { unfold ele.calcTransforms_fpt_jac. cbv zeta. ele_proj.
    destruct (ele.nDims e =? 2)%nat; [|destruct (ele.nDims e =? 3)%nat];
      repeat split; reflexivity. }
  unfold ele.calcTransforms_fpt.
  destruct (H1 (ele.calcTransforms_fpt_jac moving k e)) as (A1 & A2 & A3 & A4).
  destruct H2 as (B1 & B2 & B3 & B4). repeat split; congruence.
Qed.

Lemma fpts_loop_keeps_metrics (moving : bool) (n : nat) (e : ele.ele) :
  ele.Jac_spts (for_ n (ele.calcTransforms_fpt moving) e) = ele.Jac_spts e /\
  ele.JGinv_spts (for_ n (ele.calcTransforms_fpt moving) e) = ele.JGinv_spts e /\
  ele.nSpts (for_ n (ele.calcTransforms_fpt moving) e) = ele.nSpts e /\
  ele.nDims (for_ n (ele.calcTransforms_fpt moving) e) = ele.nDims e.
Proof.
  induction n as [|n IH]; simpl; [repeat split; reflexivity|].
  destruct (calcTransforms_fpt_keeps_metrics moving n
              (for_ n (ele.calcTransforms_fpt moving) e)) as (A1 & A2 & A3 & A4).
  destruct IH as (B1 & B2 & B3 & B4). repeat split; congruence.
Qed.

Lemma adj2_sized (J JG : matrix) : dims JG 2 2 -> ele.adj2 J JG = ele.JGinv_of 2 J.
Proof.
  intros [HL HF].
  destruct JG as [|r0 [|r1 [|r2 JG]]]; try discriminate.
  inversion HF as [|? ? H0 HF1]; subst. inversion HF1 as [|? ? H1 _]; subst.
  destruct r0 as [|a [|b [|c r0]]]; try discriminate.
  destruct r1 as [|a' [|b' [|c' r1]]]; try discriminate.
  reflexivity.
Qed.

Lemma adj3_sized (J JG : matrix) : dims JG 3 3 -> ele.adj3 J JG = ele.JGinv_of 3 J.
Proof.
  intros [HL HF].
  destruct JG as [|r0 [|r1 [|r2 [|r3 JG]]]]; try discriminate.
  inversion HF as [|? ? H0 HF1]; subst. inversion HF1 as [|? ? H1 HF2]; subst.
  inversion HF2 as [|? ? H2 _]; subst.
  destruct r0 as [|a0 [|b0 [|c0 [|d0 r0]]]]; try discriminate.
  destruct r1 as [|a1 [|b1 [|c1 [|d1 r1]]]]; try discriminate.
  destruct r2 as [|a2 [|b2 [|c2 [|d2 r2]]]]; try discriminate.
  reflexivity.
Qed.

(** One pass of the solution-point loop that returns leaves the lengths
    and the other entries alone and stores the inverse transformation of
    the Jacobian it stores. *)
Lemma calcTransforms_spt_metrics (moving : bool) (k : nat) (e e' : ele.ele) :
  (ele.nDims e = 2 \/ ele.nDims e = 3)%nat ->
  (k < List.length (ele.Jac_spts e))%nat ->
  (k < List.length (ele.JGinv_spts e))%nat ->
  dims (nth k (ele.JGinv_spts e) []) (ele.nDims e) (ele.nDims e) ->
  ele.calcTransforms_spt moving k e = Ok e' ->
  ele.nDims e' = ele.nDims e /\ ele.nSpts e' = ele.nSpts e /\
  List.length (ele.Jac_spts e') = List.length (ele.Jac_spts e) /\
  List.length (ele.JGinv_spts e') = List.length (ele.JGinv_spts e) /\
  nth k (ele.JGinv_spts e') [] = ele.JGinv_of (ele.nDims e) (nth k (ele.Jac_spts e') []) /\
  forall j, j <> k ->
    nth j (ele.Jac_spts e') [] = nth j (ele.Jac_spts e) [] /\
    nth j (ele.JGinv_spts e') [] = nth j (ele.JGinv_spts e) [].
Proof.
  intros HD LJ LG DG. unfold ele.calcTransforms_spt. cbv zeta.
  set (J := ele.accumJac _ _ _ _ _). ele_proj.
  rewrite (nth_upd_eq k J) by exact LJ.
  destruct HD as [H2|H3].
  - rewrite H2 in *. cbn [Nat.eqb]. ele_proj.
    destruct (Rltb _ 0); [discriminate|]. intros H. injection H as <-. ele_proj.
    rewrite !upd_length, !nth_upd_eq by assumption.
    repeat split; try reflexivity; try assumption.
    + apply adj2_sized, DG.
    + apply nth_upd_neq; auto.
    + apply nth_upd_neq; auto.
  - rewrite H3 in *. cbn [Nat.eqb]. ele_proj.
    destruct (Rltb _ 0); [discriminate|]. intros H. injection H as <-. ele_proj.
    rewrite !upd_length, !nth_upd_eq by assumption.
    repeat split; try reflexivity; try assumption.
    + apply adj3_sized, DG.
    + apply nth_upd_neq; auto.
    + apply nth_upd_neq; auto.
Qed.

(** After [calcTransforms] has returned on an element whose metric arrays
    are sized, the stored inverse transformation at every solution point is
    that of the stored Jacobian. *)
Lemma calcTransforms_metrics (moving : bool) (e e' : ele.ele) :
  (ele.nDims e = 2 \/ ele.nDims e = 3)%nat ->
  (ele.nSpts e <= List.length (ele.Jac_spts e))%nat ->
  (ele.nSpts e <= List.length (ele.JGinv_spts e))%nat ->
  (forall spt, (spt < ele.nSpts e)%nat ->
     dims (nth spt (ele.JGinv_spts e) []) (ele.nDims e) (ele.nDims e)) ->
  ele.calcTransforms moving e = Ok e' ->
  ele.metrics_spts e'.
Proof.
  intros HD LJ LG DG. unfold ele.calcTransforms.
  assert (G : forall n, (n <= ele.nSpts e)%nat ->
            match forM_ n (ele.calcTransforms_spt moving) e with
            | Ok e1 =>
                ele.nDims e1 = ele.nDims e /\ ele.nSpts e1 = ele.nSpts e /\
                List.length (ele.Jac_spts e1) = List.length (ele.Jac_spts e) /\
                List.length (ele.JGinv_spts e1) = List.length (ele.JGinv_spts e) /\
                (forall spt, (spt < n)%nat ->
                   nth spt (ele.JGinv_spts e1) []
                   = ele.JGinv_of (ele.nDims e) (nth spt (ele.Jac_spts e1) [])) /\
                (forall spt, (n <= spt)%nat ->
                   nth spt (ele.JGinv_spts e1) [] = nth spt (ele.JGinv_spts e) [])
            | FatalError _ => True
            end).
  { induction n as [|n IH]; intros Hn; simpl forM_.
    - repeat split; auto. intros; lia.
    - specialize (IH ltac:(lia)).
      destruct (forM_ n (ele.calcTransforms_spt moving) e) as [e1|msg]; simpl bind; [|exact I].
      destruct IH as (I1 & I2 & I3 & I4 & I5 & I6).
      destruct (ele.calcTransforms_spt moving n e1) as [e2|msg] eqn:E2; [|exact I].
      destruct (calcTransforms_spt_metrics moving n e1 e2) as (S1 & S2 & S3 & S4 & S5 & S6);
        try assumption; try (rewrite ?I1, ?I3, ?I4; lia || assumption).
      { rewrite I1, I6 by lia. apply DG. lia. }
      rewrite S1, S2, S3, S4, I1, I2, I3, I4. repeat split; auto.
      + intros spt Hs. destruct (Nat.eq_dec spt n) as [->|Ne].
        * rewrite S5, I1. reflexivity.
        * destruct (S6 spt Ne) as (A & B). rewrite A, B. apply I5. lia.
      + intros spt Hs. destruct (S6 spt ltac:(lia)) as (_ & B). rewrite B. apply I6. lia. }
  specialize (G (ele.nSpts e) (le_n _)).
  destruct (forM_ (ele.nSpts e) (ele.calcTransforms_spt moving) e) as [e1|msg];
    simpl bind; [|discriminate].
  intros H. injection H as <-.
  destruct G as (I1 & I2 & _ & _ & I5 & _).
  destruct (fpts_loop_keeps_metrics moving (ele.nFpts e1) e1) as (K1 & K2 & K3 & K4).
  intros spt Hs. rewrite K1, K2, K4, I1. rewrite K3, I2 in Hs. apply I5, Hs.
Qed.

(* ================================================================== *)
(** * Further properties of the kernels *)

(** ** superMesh::clipTet : where the clipped tetrahedra lie *)

Lemma intersect_on_plane (a b xc n : point) :
  pdot n (psub b a) <> 0 -> pdot (psub (superMesh.intersect a b xc n) xc) n = 0.
Proof.
  intros H. unfold superMesh.intersect, pdot, psub, padd, pscale in *.
  destruct a, b, xc, n; simpl in *. field. exact H.
Qed.

Lemma pdot_edge (a b xc n : point) :
  pdot n (psub b a) = pdot (psub b xc) n - pdot (psub a xc) n.
Proof. unfold pdot, psub. destruct a, b, xc, n; simpl. ring. Qed.

Lemma intersect_param (a b xc n : point) :
  superMesh.intersect a b xc n
  = padd (pscale (psub b a) (- pdot (psub a xc) n / pdot n (psub b a))) a.
Proof.
  unfold superMesh.intersect. f_equal. f_equal. f_equal.
  unfold pdot, psub. destruct a, xc, n; simpl. ring.
Qed.

Lemma isDead_true (tet : superMesh.tetra) (xc n : point) (i : nat) :
  superMesh.isDead tet xc n i = true -> 0 < pdot (psub (superMesh.nodes tet i) xc) n.
Proof. unfold superMesh.isDead. apply Rltb_iff. Qed.

Lemma isDead_false (tet : superMesh.tetra) (xc n : point) (i : nat) :
  superMesh.isDead tet xc n i = false -> pdot (psub (superMesh.nodes tet i) xc) n <= 0.
Proof. unfold superMesh.isDead. apply Rltb_iff_false. Qed.

(** A point cut on an edge between a vertex on the cut side and one that is
    not lies on the plane, and between the two. *)
Lemma cut_point (tet : superMesh.tetra) (xc n : point) (i j : nat) :
  (i < 4)%nat -> (j < 4)%nat ->
  superMesh.isDead tet xc n i <> superMesh.isDead tet xc n j ->
  pdot (psub (superMesh.intersect (superMesh.nodes tet i) (superMesh.nodes tet j) xc n) xc) n
  = 0 /\
  superMesh.onEdge tet
    (superMesh.intersect (superMesh.nodes tet i) (superMesh.nodes tet j) xc n).
Proof.
  intros Hi Hj Hne.
  pose proof (pdot_edge (superMesh.nodes tet i) (superMesh.nodes tet j) xc n) as E.
  assert (S : (0 < pdot (psub (superMesh.nodes tet i) xc) n /\
               pdot (psub (superMesh.nodes tet j) xc) n <= 0) \/
              (pdot (psub (superMesh.nodes tet i) xc) n <= 0 /\
               0 < pdot (psub (superMesh.nodes tet j) xc) n)).
  { destruct (superMesh.isDead tet xc n i) eqn:Di, (superMesh.isDead tet xc n j) eqn:Dj;
      try congruence.
    - left. split; [apply isDead_true, Di | apply isDead_false, Dj].
    - right. split; [apply isDead_false, Di | apply isDead_true, Dj]. }
  set (da := pdot (psub (superMesh.nodes tet i) xc) n) in *.
  set (db := pdot (psub (superMesh.nodes tet j) xc) n) in *.
  assert (Hnz : pdot n (psub (superMesh.nodes tet j) (superMesh.nodes tet i)) <> 0)
    by (rewrite E; lra).
  split; [apply intersect_on_plane, Hnz|].
  exists i, j, (- da / pdot n (psub (superMesh.nodes tet j) (superMesh.nodes tet i))).
  split; [exact Hi|]. split; [exact Hj|]. split; [|apply intersect_param].
  rewrite E. destruct S as [[S1 S2]|[S1 S2]].
  - replace (- da / (db - da)) with (da / (da - db)) by (field; lra).
    split.
    + apply Rmult_le_pos; [lra|]. apply Rlt_le, Rinv_0_lt_compat. lra.
    + apply (Rmult_le_reg_r (da - db)); [lra|]. unfold Rdiv.
      rewrite Rmult_assoc, Rinv_l by lra. lra.
  - split.
    + unfold Rdiv. apply Rmult_le_pos; [lra|]. apply Rlt_le, Rinv_0_lt_compat. lra.
    + apply (Rmult_le_reg_r (db - da)); [lra|]. unfold Rdiv.
      rewrite Rmult_assoc, Rinv_l by lra. lra.
Qed.

Lemma kept_point (tet : superMesh.tetra) (i : nat) :
  (i < 4)%nat -> superMesh.onEdge tet (superMesh.nodes tet i).
Proof.
  intros Hi. exists i, i, 0. split; [exact Hi|]. split; [exact Hi|]. split; [lra|].
  unfold padd, pscale, psub. destruct (superMesh.nodes tet i); simpl. f_equal; ring.
Qed.

Lemma nodes_mk (a b c d : point) :
  superMesh.nodes (superMesh.mkTetra a b c d) 0 = a /\
  superMesh.nodes (superMesh.mkTetra a b c d) 1 = b /\
  superMesh.nodes (superMesh.mkTetra a b c d) 2 = c /\
  superMesh.nodes (superMesh.mkTetra a b c d) 3 = d.
Proof. repeat split; reflexivity. Qed.

Ltac clip_vertex :=
  first
    [ split; [apply isDead_false; assumption | apply kept_point; lia]
    | match goal with
      | |- pdot (psub (superMesh.intersect (superMesh.nodes ?t ?i) (superMesh.nodes ?t ?j) ?xc ?n) ?xc) ?n <= 0 /\ _ =>
          destruct (cut_point t xc n i j) as [P1 P2];
          [lia | lia | congruence | split; [rewrite P1; lra | exact P2]]
      end ].

Lemma clipTet_vertices (tet : superMesh.tetra) (clipFace : list point) (norm : Vec3)
      (t : superMesh.tetra) (i : nat) :
  superMesh.nCutSide tet clipFace norm <> 2%nat \/
  superMesh.isDead tet (superMesh.centroid clipFace) norm 0
  = superMesh.isDead tet (superMesh.centroid clipFace) norm 1 ->
  In t (superMesh.clipTet tet clipFace norm) -> (i < 4)%nat ->
  pdot (psub (superMesh.nodes t i) (superMesh.centroid clipFace)) norm <= 0 /\
  superMesh.onEdge tet (superMesh.nodes t i).
Proof.
  unfold superMesh.clipTet, superMesh.nCutSide. cbv zeta.
  set (xc := superMesh.centroid clipFace).
  unfold superMesh.deadPts, superMesh.keepPts. simpl filter.
  destruct (superMesh.isDead tet xc norm 0) eqn:D0,
           (superMesh.isDead tet xc norm 1) eqn:D1,
           (superMesh.isDead tet xc norm 2) eqn:D2,
           (superMesh.isDead tet xc norm 3) eqn:D3;
    cbn -[superMesh.nodes superMesh.intersect]; intros H Hin Hi;
    try (exfalso; destruct H as [H|H]; [apply H; reflexivity | discriminate H]);
    repeat (destruct Hin as [<-|Hin]); try contradiction;
    destruct i as [|[|[|[|i]]]]; try lia;
    rewrite ?(proj1 (nodes_mk _ _ _ _)), ?(proj1 (proj2 (nodes_mk _ _ _ _))),
      ?(proj1 (proj2 (proj2 (nodes_mk _ _ _ _)))), ?(proj2 (proj2 (proj2 (nodes_mk _ _ _ _))));
    clip_vertex.
Qed.

(** X1.  Unless exactly two vertices are cut with nodes 0 and 1 on different
    sides, every vertex of every tetrahedron that [clipTet] returns lies on
    the side of the plane that is kept (or on the plane) and on an edge of
    the input tetrahedron. *)
Theorem clipTet_keeps_side (tet : superMesh.tetra) (clipFace : list point) (norm : Vec3)
        (t : superMesh.tetra) (i : nat) :
  superMesh.nCutSide tet clipFace norm <> 2%nat \/
  superMesh.isDead tet (superMesh.centroid clipFace) norm 0
  = superMesh.isDead tet (superMesh.centroid clipFace) norm 1 ->
  In t (superMesh.clipTet tet clipFace norm) -> (i < 4)%nat ->
  pdot (psub (superMesh.nodes t i) (superMesh.centroid clipFace)) norm <= 0 /\
  superMesh.onEdge tet (superMesh.nodes t i).
Proof. apply clipTet_vertices. Qed.

Lemma midFace_centroid : superMesh.centroid superMesh.midFace = mkPoint (1/2) (1/3) (1/3).
Proof.
  unfold superMesh.centroid, superMesh.midFace, pdivide, padd, origin. simpl.
  f_equal; lra.
Qed.

Lemma unitTet_midFace_dead :
  superMesh.isDead superMesh.unitTet (superMesh.centroid superMesh.midFace)
    superMesh.xNormal 0 = false /\
  superMesh.isDead superMesh.unitTet (superMesh.centroid superMesh.midFace)
    superMesh.xNormal 1 = true /\
  superMesh.isDead superMesh.unitTet (superMesh.centroid superMesh.midFace)
    superMesh.xNormal 2 = false /\
  superMesh.isDead superMesh.unitTet (superMesh.centroid superMesh.midFace)
    superMesh.xNormal 3 = false.
Proof.
  rewrite midFace_centroid.
  unfold superMesh.isDead, superMesh.unitTet, superMesh.xNormal, pdot, psub. simpl.
  Rdecide. repeat split; reflexivity.
Qed.

Lemma clipTet_keeps_side_witness :
  pdot (psub (superMesh.nodes
                (superMesh.mkTetra (mkPoint 0 0 0) (mkPoint 0 1 0)
                   (superMesh.intersect (mkPoint 1 0 0) (mkPoint 0 0 0)
                      (superMesh.centroid superMesh.midFace) superMesh.xNormal)
                   (mkPoint 0 0 1)) 2)
          (superMesh.centroid superMesh.midFace)) superMesh.xNormal <= 0 /\
  superMesh.onEdge superMesh.unitTet
    (superMesh.nodes
       (superMesh.mkTetra (mkPoint 0 0 0) (mkPoint 0 1 0)
          (superMesh.intersect (mkPoint 1 0 0) (mkPoint 0 0 0)
             (superMesh.centroid superMesh.midFace) superMesh.xNormal)
          (mkPoint 0 0 1)) 2).
Proof.
  destruct unitTet_midFace_dead as (D0 & D1 & D2 & D3).
  apply (clipTet_keeps_side superMesh.unitTet superMesh.midFace superMesh.xNormal).
  - left. unfold superMesh.nCutSide. cbv zeta. rewrite D0, D1, D2, D3. simpl. lia.
  - unfold superMesh.clipTet. cbv zeta. unfold superMesh.deadPts. simpl filter.
    rewrite D0, D1, D2, D3. simpl. left. reflexivity.
  - lia.
Defined.

(** X2.  When exactly two vertices are cut and nodes 0 and 1 are on
    different sides, the re-orientation table of [clipTet] puts a cut
    vertex among the kept ones: some tetrahedron it returns has a vertex
    strictly on the cut side. *)
Theorem clipTet_keeps_cut_vertex (tet : superMesh.tetra) (clipFace : list point)
        (norm : Vec3) :
  superMesh.nCutSide tet clipFace norm = 2%nat ->
  superMesh.isDead tet (superMesh.centroid clipFace) norm 0
  <> superMesh.isDead tet (superMesh.centroid clipFace) norm 1 ->
  exists t i, In t (superMesh.clipTet tet clipFace norm) /\ (i < 4)%nat /\
    0 < pdot (psub (superMesh.nodes t i) (superMesh.centroid clipFace)) norm.
Proof.
  unfold superMesh.clipTet, superMesh.nCutSide. cbv zeta.
  set (xc := superMesh.centroid clipFace).
  unfold superMesh.deadPts, superMesh.keepPts. simpl filter.
  destruct (superMesh.isDead tet xc norm 0) eqn:D0,
           (superMesh.isDead tet xc norm 1) eqn:D1,
           (superMesh.isDead tet xc norm 2) eqn:D2,
           (superMesh.isDead tet xc norm 3) eqn:D3;
    cbn -[superMesh.nodes superMesh.intersect]; intros H2 Hne;
    try discriminate H2; try (exfalso; apply Hne; reflexivity).
  all: eexists;
    first
      [ exists 0%nat; split; [left; reflexivity|]; split; [lia|];
        rewrite (proj1 (nodes_mk _ _ _ _)); apply isDead_true; assumption
      | exists 3%nat; split; [left; reflexivity|]; split; [lia|];
        rewrite (proj2 (proj2 (proj2 (nodes_mk _ _ _ _)))); apply isDead_true; assumption ].
Qed.

Lemma unitTet_diagFace_dead :
  superMesh.isDead superMesh.unitTet (superMesh.centroid superMesh.diagFace)
    superMesh.diagNormal 0 = false /\
  superMesh.isDead superMesh.unitTet (superMesh.centroid superMesh.diagFace)
    superMesh.diagNormal 1 = true /\
  superMesh.isDead superMesh.unitTet (superMesh.centroid superMesh.diagFace)
    superMesh.diagNormal 2 = true /\
  superMesh.isDead superMesh.unitTet (superMesh.centroid superMesh.diagFace)
    superMesh.diagNormal 3 = false.
Proof.
  replace (superMesh.centroid superMesh.diagFace) with (mkPoint (1/3) (1/6) (1/3))
    by (unfold superMesh.centroid, superMesh.diagFace, pdivide, padd, origin; simpl;
        f_equal; lra).
  unfold superMesh.isDead, superMesh.unitTet, superMesh.diagNormal, pdot, psub. simpl.
  Rdecide. repeat split; reflexivity.
Qed.

Lemma clipTet_keeps_cut_vertex_witness :
  exists t i,
    In t (superMesh.clipTet superMesh.unitTet superMesh.diagFace superMesh.diagNormal) /\
    (i < 4)%nat /\
    0 < pdot (psub (superMesh.nodes t i) (superMesh.centroid superMesh.diagFace))
          superMesh.diagNormal.
Proof.
  destruct unitTet_diagFace_dead as (D0 & D1 & D2 & D3).
  apply (clipTet_keeps_cut_vertex superMesh.unitTet superMesh.diagFace superMesh.diagNormal).
  - unfold superMesh.nCutSide. cbv zeta. rewrite D0, D1, D2, D3. reflexivity.
  - rewrite D0, D1. discriminate.
Defined.

(** ** superMesh::splitHexIntoTet *)

(** X3.  [splitHexIntoTet] returns five tetrahedra; every vertex of each is
    one of the eight corners given, and every corner is a vertex of one of
    them. *)
Theorem splitHexIntoTet_corners (hexNodes : list point) :
  List.length hexNodes = 8%nat ->
  List.length (superMesh.splitHexIntoTet hexNodes) = 5%nat /\
  (forall t i, In t (superMesh.splitHexIntoTet hexNodes) -> (i < 4)%nat ->
     In (superMesh.nodes t i) hexNodes) /\
  (forall p, In p hexNodes ->
     exists t i, In t (superMesh.splitHexIntoTet hexNodes) /\ (i < 4)%nat /\
       superMesh.nodes t i = p).
Proof.
  intros H8.
  destruct hexNodes as [|p0 [|p1 [|p2 [|p3 [|p4 [|p5 [|p6 [|p7 [|p8 l]]]]]]]]];
    try discriminate H8.
  split; [reflexivity|]. split.
  - intros t i Hin Hi. cbn in Hin.
    repeat (destruct Hin as [<-|Hin]); try contradiction;
      destruct i as [|[|[|[|i]]]]; try lia; cbn; tauto.
  - intros p Hin. cbn in Hin.
    destruct Hin as [<-|[<-|[<-|[<-|[<-|[<-|[<-|[<-|[]]]]]]]]].
    + exists (superMesh.mkTetra p0 p1 p4 p3), 0%nat. cbn. split; [tauto|]. split; [lia|reflexivity].
    + exists (superMesh.mkTetra p0 p1 p4 p3), 1%nat. cbn. split; [tauto|]. split; [lia|reflexivity].
    + exists (superMesh.mkTetra p2 p1 p6 p3), 0%nat. cbn. split; [tauto|]. split; [lia|reflexivity].
    + exists (superMesh.mkTetra p0 p1 p4 p3), 3%nat. cbn. split; [tauto|]. split; [lia|reflexivity].
    + exists (superMesh.mkTetra p0 p1 p4 p3), 2%nat. cbn. split; [tauto|]. split; [lia|reflexivity].
    + exists (superMesh.mkTetra p5 p1 p6 p4), 0%nat. cbn. split; [tauto|]. split; [lia|reflexivity].
    + exists (superMesh.mkTetra p2 p1 p6 p3), 2%nat. cbn. split; [tauto|]. split; [lia|reflexivity].
    + exists (superMesh.mkTetra p7 p3 p4 p6), 0%nat. cbn. split; [tauto|]. split; [lia|reflexivity].
Qed.

Lemma splitHexIntoTet_corners_witness :
  List.length (superMesh.splitHexIntoTet (repeat origin 8)) = 5%nat.
Proof.
  apply (splitHexIntoTet_corners (repeat origin 8)). reflexivity.
Defined.

(** ** ele::getBoundingBox and ele::calcPos *)

Lemma bbox_fold (rest : list point) (a0 a1 a2 b0 b1 b2 : R) :
  exists c0 c1 c2 d0 d1 d2,
    fold_left
      (fun bbox pt =>
         for_ 3 (fun dim bbox =>
           let bbox := upd dim (Rmin (nth dim bbox 0) (pidx pt dim)) bbox in
           upd (dim + 3) (Rmax (nth (dim + 3) bbox 0) (pidx pt dim)) bbox) bbox)
      rest [a0; a1; a2; b0; b1; b2] = [c0; c1; c2; d0; d1; d2] /\
    (c0 <= a0 /\ c1 <= a1 /\ c2 <= a2 /\ b0 <= d0 /\ b1 <= d1 /\ b2 <= d2) /\
    (forall p, In p rest ->
       c0 <= px p <= d0 /\ c1 <= py p <= d1 /\ c2 <= pz p <= d2) /\
    (c0 = a0 \/ exists p, In p rest /\ px p = c0) /\
    (c1 = a1 \/ exists p, In p rest /\ py p = c1) /\
    (c2 = a2 \/ exists p, In p rest /\ pz p = c2) /\
    (d0 = b0 \/ exists p, In p rest /\ px p = d0) /\
    (d1 = b1 \/ exists p, In p rest /\ py p = d1) /\
    (d2 = b2 \/ exists p, In p rest /\ pz p = d2).
Proof.
  revert a0 a1 a2 b0 b1 b2. induction rest as [|q rest IH]; intros a0 a1 a2 b0 b1 b2.
  - exists a0, a1, a2, b0, b1, b2. simpl.
    repeat split; try lra; try (left; reflexivity); contradiction.
  - simpl fold_left.
    change (for_ 3 _ [a0; a1; a2; b0; b1; b2])
      with [Rmin a0 (px q); Rmin a1 (py q); Rmin a2 (pz q);
            Rmax b0 (px q); Rmax b1 (py q); Rmax b2 (pz q)].
    destruct (IH (Rmin a0 (px q)) (Rmin a1 (py q)) (Rmin a2 (pz q))
                 (Rmax b0 (px q)) (Rmax b1 (py q)) (Rmax b2 (pz q)))
      as (c0 & c1 & c2 & d0 & d1 & d2 & E & (L0 & L1 & L2 & U0 & U1 & U2) & A
          & M0 & M1 & M2 & N0 & N1 & N2).
    exists c0, c1, c2, d0, d1, d2. split; [exact E|].
    pose proof (Rmin_l a0 (px q)). pose proof (Rmin_r a0 (px q)).
    pose proof (Rmin_l a1 (py q)). pose proof (Rmin_r a1 (py q)).
    pose proof (Rmin_l a2 (pz q)). pose proof (Rmin_r a2 (pz q)).
    pose proof (Rmax_l b0 (px q)). pose proof (Rmax_r b0 (px q)).
    pose proof (Rmax_l b1 (py q)). pose proof (Rmax_r b1 (py q)).
    pose proof (Rmax_l b2 (pz q)). pose proof (Rmax_r b2 (pz q)).
    split; [repeat split; lra|]. split.
    { intros p [<-|Hp]; [repeat split; lra | apply A, Hp]. }
    repeat split.
    + destruct M0 as [->|(p & Hp & Ep)]; [|right; exists p; split; [right; exact Hp|exact Ep]].
      unfold Rmin. destruct (Rle_dec a0 (px q)); [left; reflexivity|].
      right. exists q. split; [left; reflexivity|reflexivity].
    + destruct M1 as [->|(p & Hp & Ep)]; [|right; exists p; split; [right; exact Hp|exact Ep]].
      unfold Rmin. destruct (Rle_dec a1 (py q)); [left; reflexivity|].
      right. exists q. split; [left; reflexivity|reflexivity].
    + destruct M2 as [->|(p & Hp & Ep)]; [|right; exists p; split; [right; exact Hp|exact Ep]].
      unfold Rmin. destruct (Rle_dec a2 (pz q)); [left; reflexivity|].
      right. exists q. split; [left; reflexivity|reflexivity].
    + destruct N0 as [->|(p & Hp & Ep)]; [|right; exists p; split; [right; exact Hp|exact Ep]].
      unfold Rmax. destruct (Rle_dec b0 (px q)); [|left; reflexivity].
      right. exists q. split; [left; reflexivity|reflexivity].
    + destruct N1 as [->|(p & Hp & Ep)]; [|right; exists p; split; [right; exact Hp|exact Ep]].
      unfold Rmax. destruct (Rle_dec b1 (py q)); [|left; reflexivity].
      right. exists q. split; [left; reflexivity|reflexivity].
    + destruct N2 as [->|(p & Hp & Ep)]; [|right; exists p; split; [right; exact Hp|exact Ep]].
      unfold Rmax. destruct (Rle_dec b2 (pz q)); [|left; reflexivity].
      right. exists q. split; [left; reflexivity|reflexivity].
Qed.

(** X4.  The bounding box of an element with at least one node holds, in
    every direction, the least and the greatest coordinate of its nodes:
    every node lies between the two bounds and each bound is the coordinate
    of some node. *)
Theorem getBoundingBox_tight (params : input.input) (e : ele.ele) (box : list R)
        (dim : nat) :
  ele.getBoundingBox params e = Some box -> (dim < 3)%nat ->
  let nds := if (input.motion params =? 0)%nat then ele.nodes e else ele.nodesRK e in
  List.length box = 6%nat /\
  (forall p, In p nds -> nth dim box 0 <= pidx p dim <= nth (dim + 3) box 0) /\
  (exists p, In p nds /\ pidx p dim = nth dim box 0) /\
  (exists p, In p nds /\ pidx p dim = nth (dim + 3) box 0).
Proof.
  unfold ele.getBoundingBox. cbv zeta.
  destruct (if (input.motion params =? 0)%nat then ele.nodes e else ele.nodesRK e)
    as [|n0 rest]; [discriminate|].
  pose proof (bbox_fold rest (px n0) (py n0) (pz n0) (px n0) (py n0) (pz n0)) as P.
  cbv zeta in P.
  destruct P as (c0 & c1 & c2 & d0 & d1 & d2 & E & (L0 & L1 & L2 & U0 & U1 & U2) & A
                 & M0 & M1 & M2 & N0 & N1 & N2).
  rewrite E. intros H Hd. injection H as <-. split; [reflexivity|].
  assert (W : forall (c a : R) (f : point -> R),
             a = f n0 -> (c = a \/ exists p, In p rest /\ f p = c) ->
             exists p, In p (n0 :: rest) /\ f p = c).
  { intros c a f Ha [->|(p & Hp & Ep)].
    - exists n0. split; [left; reflexivity|symmetry; exact Ha].
    - exists p. split; [right; exact Hp|exact Ep]. }
  destruct dim as [|[|[|dim]]]; try lia; simpl nth; simpl pidx; (split; [|split]).
  - intros p [<-|Hp]; [lra | apply (A p Hp)].
  - apply (W c0 (px n0) px); auto.
  - apply (W d0 (px n0) px); auto.
  - intros p [<-|Hp]; [lra | apply (A p Hp)].
  - apply (W c1 (py n0) py); auto.
  - apply (W d1 (py n0) py); auto.
  - intros p [<-|Hp]; [lra | apply (A p Hp)].
  - apply (W c2 (pz n0) pz); auto.
  - apply (W d2 (pz n0) pz); auto.
Qed.

Lemma square4_box :
  ele.getBoundingBox ele.staticRun ele.square4 = Some [0; 0; 0; 4; 4; 0].
Proof. Reval. Rminmax. reflexivity. Qed.

Lemma getBoundingBox_tight_witness :
  List.length [0; 0; 0; 4; 4; 0] = 6%nat /\
  (exists p, In p (ele.nodes ele.square4) /\ pidx p 0 = nth (0 + 3) [0; 0; 0; 4; 4; 0] 0).
Proof.
  destruct (getBoundingBox_tight ele.staticRun ele.square4 [0; 0; 0; 4; 4; 0] 0 square4_box
              ltac:(lia)) as (H1 & _ & _ & H4).
  split; [exact H1 | exact H4].
Defined.

Lemma Rsum_le (n : nat) (f g : nat -> R) :
  (forall i, (i < n)%nat -> f i <= g i) -> Rsum n f <= Rsum n g.
Proof.
  intros H. induction n as [|n IH]; [unfold Rsum; simpl; lra|].
  rewrite !Rsum_S. specialize (H n (Nat.lt_succ_diag_r n)) as Hn.
  assert (Rsum n f <= Rsum n g) by (apply IH; intros; apply H; lia). lra.
Qed.

Lemma Rsum_scal_r (n : nat) (w : nat -> R) (c : R) :
  Rsum n (fun i => w i * c) = Rsum n w * c.
Proof.
  induction n as [|n IH]; [unfold Rsum; simpl; ring|]. rewrite !Rsum_S, IH. ring.
Qed.

Lemma pidx_pset (p : point) (d d' : nat) (v : R) :
  (d < 3)%nat -> (d' < 3)%nat ->
  pidx (pset p d v) d' = if (d =? d')%nat then v else pidx p d'.
Proof.
  intros Hd Hd'. destruct d as [|[|[|d]]]; try lia;
    destruct d' as [|[|[|d']]]; try lia; reflexivity.
Qed.

Lemma for_pset_get (n : nat) (c : nat -> R) (p : point) (d : nat) :
  (n <= 3)%nat -> (d < 3)%nat ->
  pidx (for_ n (fun dim pt => pset pt dim (pidx pt dim + c dim)) p) d
  = if (d <? n)%nat then pidx p d + c d else pidx p d.
Proof.
  intros Hn Hd. induction n as [|n IH]; [reflexivity|].
  cbn [for_]. rewrite pidx_pset by lia.
  destruct (Nat.eqb_spec n d) as [->|Ne]; rewrite !IH by lia.
  - replace (d <? S d)%nat with true by (symmetry; apply Nat.ltb_lt; lia).
    replace (d <? d)%nat with false by (symmetry; apply Nat.ltb_ge; lia). reflexivity.
  - destruct (Nat.ltb_spec d n), (Nat.ltb_spec d (S n)); auto; lia.
Qed.

(** The position is the sum of the nodes weighted by the shape functions. *)
Lemma calcPos_sum (getShape : point -> list R) (params : input.input) (e : ele.ele)
      (loc : point) (d : nat) :
  (ele.nDims e <= 3)%nat -> (d < ele.nDims e)%nat ->
  pidx (ele.calcPos getShape params e loc) d
  = Rsum (ele.nNodes e) (fun iv =>
      nth iv (getShape loc) 0
      * pidx (nth iv (if (input.motion params =? 0)%nat then ele.nodes e else ele.nodesRK e)
                origin) d).
Proof.
  intros H3 Hd. unfold ele.calcPos. cbv zeta.
  induction (ele.nNodes e) as [|n IH].
  - destruct d as [|[|d]]; reflexivity.
  - cbn [for_]. rewrite for_pset_get by lia. rewrite IH, Rsum_S.
    replace (d <? ele.nDims e)%nat with true by (symmetry; apply Nat.ltb_lt; exact Hd).
    reflexivity.
Qed.

(** X5.  When the shape functions at [loc] are non-negative and add up to
    1 over the nodes, the position [calcPos] returns lies, in every
    direction of the element, between the bounds of its bounding box. *)
Theorem calcPos_in_box (getShape : point -> list R) (params : input.input) (e : ele.ele)
        (loc : point) (box : list R) (d : nat) :
  ele.getBoundingBox params e = Some box ->
  (ele.nDims e <= 3)%nat -> (d < ele.nDims e)%nat ->
  ele.nNodes e
  = List.length (if (input.motion params =? 0)%nat then ele.nodes e else ele.nodesRK e) ->
  (forall iv, (iv < ele.nNodes e)%nat -> 0 <= nth iv (getShape loc) 0) ->
  Rsum (ele.nNodes e) (fun iv => nth iv (getShape loc) 0) = 1 ->
  nth d box 0 <= pidx (ele.calcPos getShape params e loc) d <= nth (d + 3) box 0.
Proof.
  intros HB H3 Hd HN Hpos Hsum.
  destruct (getBoundingBox_tight params e box d HB ltac:(lia)) as (_ & A & _ & _).
  cbv zeta in A. rewrite calcPos_sum by assumption.
  set (nds := if (input.motion params =? 0)%nat then ele.nodes e else ele.nodesRK e) in *.
  set (w := fun iv => nth iv (getShape loc) 0) in *.
  assert (B : forall iv, (iv < ele.nNodes e)%nat ->
            nth d box 0 <= pidx (nth iv nds origin) d <= nth (d + 3) box 0).
  { intros iv Hiv. apply A, nth_In. lia. }
  split.
  - replace (nth d box 0) with (Rsum (ele.nNodes e) w * nth d box 0) by (rewrite Hsum; ring).
    rewrite <- Rsum_scal_r. apply Rsum_le. intros iv Hiv.
    apply Rmult_le_compat_l; [apply Hpos, Hiv | apply B, Hiv].
  - replace (nth (d + 3) box 0) with (Rsum (ele.nNodes e) w * nth (d + 3) box 0)
      by (rewrite Hsum; ring).
    rewrite <- Rsum_scal_r. apply Rsum_le. intros iv Hiv.
    apply Rmult_le_compat_l; [apply Hpos, Hiv | apply B, Hiv].
Qed.

Lemma calcPos_in_box_witness :
  nth 0 [0; 0; 0; 4; 4; 0] 0
  <= pidx (ele.calcPos (fun loc => ele.shape_quad4 loc 4) ele.staticRun ele.square4 origin) 0
  <= nth (0 + 3) [0; 0; 0; 4; 4; 0] 0.
Proof.
  apply (calcPos_in_box (fun loc => ele.shape_quad4 loc 4) ele.staticRun ele.square4 origin
           [0; 0; 0; 4; 4; 0] 0 square4_box).
  - simpl; lia.
  - simpl; lia.
  - reflexivity.
  - intros iv Hiv. change (ele.nNodes ele.square4) with 4%nat in Hiv.
    destruct iv as [|[|[|[|iv]]]]; try lia; Reval; lra.
  - Reval. lra.
Defined.

(** ** ele::calcTransforms : the stored inverse transformation *)

Lemma calcTransforms_spt_det (moving : bool) (k : nat) (e e' : ele.ele) :
  (ele.nDims e = 2 \/ ele.nDims e = 3)%nat ->
  (k < List.length (ele.Jac_spts e))%nat ->
  (k < List.length (ele.detJac_spts e))%nat ->
  ele.calcTransforms_spt moving k e = Ok e' ->
  ele.nDims e' = ele.nDims e /\
  List.length (ele.Jac_spts e') = List.length (ele.Jac_spts e) /\
  List.length (ele.detJac_spts e') = List.length (ele.detJac_spts e) /\
  nth k (ele.detJac_spts e') 0 = ele.detJac_of (ele.nDims e) (nth k (ele.Jac_spts e') []) /\
  forall j, j <> k ->
    nth j (ele.Jac_spts e') [] = nth j (ele.Jac_spts e) [] /\
    nth j (ele.detJac_spts e') 0 = nth j (ele.detJac_spts e) 0.
Proof.
  intros HD LJ Ld. unfold ele.calcTransforms_spt. cbv zeta.
  set (J := ele.accumJac _ _ _ _ _). ele_proj.
  rewrite (nth_upd_eq k J) by exact LJ.
  destruct HD as [H2|H3].
  - rewrite H2 in *. cbn [Nat.eqb]. ele_proj.
    destruct (Rltb _ 0); [discriminate|]. intros H. injection H as <-. ele_proj.
    rewrite !upd_length, !nth_upd_eq by assumption.
    repeat split; try reflexivity; try assumption; apply nth_upd_neq; auto.
  - rewrite H3 in *. cbn [Nat.eqb]. ele_proj.
    destruct (Rltb _ 0); [discriminate|]. intros H. injection H as <-. ele_proj.
    rewrite !upd_length, !nth_upd_eq by assumption.
    repeat split; try reflexivity; try assumption; apply nth_upd_neq; auto.
Qed.

Lemma calcTransforms_det (moving : bool) (e e' : ele.ele) :
  (ele.nDims e = 2 \/ ele.nDims e = 3)%nat ->
  (ele.nSpts e <= List.length (ele.Jac_spts e))%nat ->
  (ele.nSpts e <= List.length (ele.detJac_spts e))%nat ->
  ele.calcTransforms moving e = Ok e' ->
  forall spt, (spt < ele.nSpts e)%nat ->
    nth spt (ele.detJac_spts e') 0
    = ele.detJac_of (ele.nDims e) (nth spt (ele.Jac_spts e') []).
Proof.
  intros HD LJ Ld. unfold ele.calcTransforms.
  assert (G : forall n, (n <= ele.nSpts e)%nat ->
            match forM_ n (ele.calcTransforms_spt moving) e with
            | Ok e1 =>
                ele.nDims e1 = ele.nDims e /\
                List.length (ele.Jac_spts e1) = List.length (ele.Jac_spts e) /\
                List.length (ele.detJac_spts e1) = List.length (ele.detJac_spts e) /\
                forall spt, (spt < n)%nat ->
                  nth spt (ele.detJac_spts e1) 0
                  = ele.detJac_of (ele.nDims e) (nth spt (ele.Jac_spts e1) [])
            | FatalError _ => True
            end).
  { induction n as [|n IH]; intros Hn; simpl forM_.
    - repeat split; auto. intros; lia.
    - specialize (IH ltac:(lia)).
      destruct (forM_ n (ele.calcTransforms_spt moving) e) as [e1|msg]; simpl bind; [|exact I].
      destruct IH as (I1 & I2 & I3 & I4).
      destruct (ele.calcTransforms_spt moving n e1) as [e2|msg] eqn:E2; [|exact I].
      destruct (calcTransforms_spt_det moving n e1 e2) as (S1 & S2 & S3 & S4 & S5);
        try assumption; try (rewrite ?I1, ?I2, ?I3; lia || assumption).
      rewrite S1, S2, S3, I1, I2, I3. repeat split; auto.
      intros spt Hs. destruct (Nat.eq_dec spt n) as [->|Ne].
      + rewrite S4, I1. reflexivity.
      + destruct (S5 spt Ne) as (A & B). rewrite A, B. apply I4. lia. }
  specialize (G (ele.nSpts e) (le_n _)).
  destruct (forM_ (ele.nSpts e) (ele.calcTransforms_spt moving) e) as [e1|msg];
    simpl bind; [|discriminate].
  intros H. injection H as <-.
  destruct G as (I1 & _ & _ & I4).
  destruct (fpts_loop_keeps_metrics moving (ele.nFpts e1) e1) as (K1 & _ & _ & _).
  intros spt Hs. rewrite K1, fpts_loop_keeps_spts. apply I4, Hs.
Qed.

Lemma adjugate_product (nD : nat) (J : matrix) (i k : nat) :
  (nD = 2 \/ nD = 3)%nat -> (i < nD)%nat -> (k < nD)%nat ->
  Rsum nD (fun j => mget (ele.JGinv_of nD J) i j * mget J j k)
  = if (i =? k)%nat then ele.detJac_of nD J else 0.
Proof.
  intros [-> | ->] Hi Hk.
  - rewrite Rsum_two, JGinv_of_2. unfold ele.detJac_of, ele.det2. cbn [Nat.eqb].
    destruct i as [|[|i]]; try lia; destruct k as [|[|k]]; try lia;
      generalize (mget J 0 0) (mget J 0 1) (mget J 1 0) (mget J 1 1); intros a b c d;
      cbv [mget nth Nat.eqb]; ring.
  - rewrite Rsum_three, JGinv_of_3. unfold ele.detJac_of, ele.det3. cbn [Nat.eqb]. cbv zeta.
    destruct i as [|[|[|i]]]; try lia; destruct k as [|[|[|k]]]; try lia;
      generalize (mget J 0 0) (mget J 0 1) (mget J 0 2) (mget J 1 0) (mget J 1 1)
                 (mget J 1 2) (mget J 2 0) (mget J 2 1) (mget J 2 2);
      intros j00 j01 j02 j10 j11 j12 j20 j21 j22;
      cbv [mget nth Nat.eqb]; ring.
Qed.

(** X6.  After [calcTransforms] has returned on a two- or three-dimensional
    element whose metric arrays are sized, at every solution point the
    stored inverse transformation times the stored Jacobian is the stored
    determinant times the identity. *)
Theorem calcTransforms_inverse (moving : bool) (e e' : ele.ele) (spt i k : nat) :
  (ele.nDims e = 2 \/ ele.nDims e = 3)%nat ->
  (ele.nSpts e <= List.length (ele.Jac_spts e))%nat ->
  (ele.nSpts e <= List.length (ele.detJac_spts e))%nat ->
  (ele.nSpts e <= List.length (ele.JGinv_spts e))%nat ->
  (forall s, (s < ele.nSpts e)%nat ->
     dims (nth s (ele.JGinv_spts e) []) (ele.nDims e) (ele.nDims e)) ->
  ele.calcTransforms moving e = Ok e' ->
  (spt < ele.nSpts e)%nat -> (i < ele.nDims e)%nat -> (k < ele.nDims e)%nat ->
  Rsum (ele.nDims e) (fun j =>
    mget (nth spt (ele.JGinv_spts e') []) i j * mget (nth spt (ele.Jac_spts e') []) j k)
  = if (i =? k)%nat then nth spt (ele.detJac_spts e') 0 else 0.
Proof.
  intros HD LJ Ld LG DG HE Hs Hi Hk.
  pose proof (calcTransforms_metrics moving e e' HD LJ LG DG HE) as M.
  pose proof (calcTransforms_det moving e e' HD LJ Ld HE spt Hs) as D.
  assert (N : ele.nDims e' = ele.nDims e /\ ele.nSpts e' = ele.nSpts e).
  { unfold ele.calcTransforms in HE.
    pose proof (spts_loop_spec moving e (ele.nSpts e) Ld LJ) as P.
    destruct (forM_ (ele.nSpts e) (ele.calcTransforms_spt moving) e) as [e1|msg];
      simpl bind in HE; [|discriminate].
    injection HE as <-. destruct P as ((a1&a2&a3&_) & _).
    destruct (fpts_loop_keeps_metrics moving (ele.nFpts e1) e1) as (_ & _ & K3 & K4).
    rewrite K3, K4. auto. }
  destruct N as (N1 & N2).
  rewrite (M spt) by (rewrite N2; exact Hs). rewrite N1, D.
  apply adjugate_product; assumption.
Qed.

Lemma trapezoid_start_sized (U : list R) :
  (forall s, (s < 4)%nat ->
     dims (nth s (ele.JGinv_spts (solver.quad1 solver.trapezoidNodes U)) []) 2 2).
Proof.
  intros s Hs. destruct s as [|[|[|[|s]]]]; try lia; repeat constructor.
Qed.

Lemma calcTransforms_inverse_witness :
  Rsum 2 (fun j =>
    mget (nth 0 (ele.JGinv_spts (solver.trapezoid [-1; 1; -1; 1])) []) 0 j
    * mget (nth 0 (ele.Jac_spts (solver.trapezoid [-1; 1; -1; 1])) []) j 0)
  = nth 0 (ele.detJac_spts (solver.trapezoid [-1; 1; -1; 1])) 0.
Proof.
  apply (calcTransforms_inverse false (solver.quad1 solver.trapezoidNodes [-1; 1; -1; 1])
           (solver.trapezoid [-1; 1; -1; 1]) 0 0 0).
  - left; reflexivity.
  - simpl; lia.
  - simpl; lia.
  - simpl; lia.
  - apply trapezoid_start_sized.
  - apply trapezoid_transforms.
  - simpl; lia.
  - simpl; lia.
  - simpl; lia.
Defined.

(** ** checkEntropy and checkDensity *)

Lemma set_U_twice (F2 S2 F1 S1 : matrix) (e : ele.ele) :
  ele.set_U_fpts F2 (ele.set_U_spts S2 (ele.set_U_fpts F1 (ele.set_U_spts S1 e)))
  = ele.set_U_fpts F2 (ele.set_U_spts S2 e).
Proof. reflexivity. Qed.

Lemma set_U_same (e : ele.ele) :
  e = ele.set_U_fpts (ele.U_fpts e) (ele.set_U_spts (ele.U_spts e) e).
Proof. destruct e; reflexivity. Qed.

Lemma checkEntropy_density_shape (e : ele.ele) :
  ele.checkEntropy_density e
  = ele.set_U_fpts (ele.U_fpts (ele.checkEntropy_density e))
      (ele.set_U_spts (ele.U_spts (ele.checkEntropy_density e)) e).
Proof.
  unfold ele.checkEntropy_density. destruct (ele.negRho e).
  - rewrite squeezeRho_eq. reflexivity.
  - apply set_U_same.
Qed.

Lemma checkEntropy_tau_shape (params : input.input) (e : ele.ele) :
  ele.checkEntropy_tau params e
  = ele.set_U_fpts (ele.U_fpts (ele.checkEntropy_tau params e))
      (ele.set_U_spts (ele.U_spts (ele.checkEntropy_tau params e)) e).
Proof.
  unfold ele.checkEntropy_tau. destruct (Rltb (ele.minTau params e) 0).
  - rewrite squeezeAll_eq. reflexivity.
  - apply set_U_same.
Qed.

Lemma checkEntropy_shape (params : input.input) (e : ele.ele) :
  ele.checkEntropy params e
  = ele.set_U_fpts (ele.U_fpts (ele.checkEntropy params e))
      (ele.set_U_spts (ele.U_spts (ele.checkEntropy params e)) e).
Proof.
  unfold ele.checkEntropy.
  etransitivity; [apply checkEntropy_tau_shape|].
  generalize (ele.U_fpts (ele.checkEntropy_tau params (ele.checkEntropy_density e)))
             (ele.U_spts (ele.checkEntropy_tau params (ele.checkEntropy_density e))).
  intros F S. rewrite (checkEntropy_density_shape e). apply set_U_twice.
Qed.

Lemma primitives_rho (params : input.input) (nD : nat) (U : list R) :
  input.equation params = input.NAVIER_STOKES -> (nD = 2 \/ nD = 3)%nat ->
  nth 0 (ele.primitives params nD (nD + 2) U) 0 = nth 0 U 0.
Proof.
  intros Heq [->| ->]; unfold ele.primitives; rewrite Heq; reflexivity.
Qed.

(** X7.  For a Navier-Stokes element under the conditions of the squeeze
    (sized solution arrays, ratio of specific heats at least 1, non-negative
    entropy constant, no density exactly zero, a mean state of density at
    least [tol] and positive entropy bound), [checkEntropy] changes only
    [U_spts] and [U_fpts], and afterwards the primitive variables at every
    solution and flux point have positive density and a pressure of at
    least [exps0 * rho^gamma]. *)
Theorem checkEntropy_admissible (params : input.input) (e : ele.ele) :
  input.equation params = input.NAVIER_STOKES ->
  1 <= input.gamma params -> 0 <= input.exps0 params ->
  (ele.nDims e = 2 \/ ele.nDims e = 3)%nat ->
  ele.nFields e = (ele.nDims e + 2)%nat ->
  ele.wf_U e ->
  ele.tol <= nth 0 (ele.Uavg e) 0 ->
  0 < ele.tauOf params (ele.nDims e) (ele.Uavg e) ->
  (forall spt, (spt < ele.nSpts e)%nat -> mget (ele.U_spts e) spt 0 <> 0) ->
  (forall fpt, (fpt < ele.nFpts e)%nat -> mget (ele.U_fpts e) fpt 0 <> 0) ->
  let e' := ele.checkEntropy params e in
  e' = ele.set_U_fpts (ele.U_fpts e') (ele.set_U_spts (ele.U_spts e') e) /\
  (forall spt, (spt < ele.nSpts e)%nat ->
     0 < nth 0 (ele.getPrimitives params e' spt) 0 /\
     input.exps0 params
       * Rpower (nth 0 (ele.getPrimitives params e' spt) 0) (input.gamma params)
     <= nth (ele.nDims e + 1) (ele.getPrimitives params e' spt) 0) /\
  (forall fpt, (fpt < ele.nFpts e)%nat ->
     0 < nth 0 (ele.getPrimitivesFpt params e' fpt) 0 /\
     input.exps0 params
       * Rpower (nth 0 (ele.getPrimitivesFpt params e' fpt) 0) (input.gamma params)
     <= nth (ele.nDims e + 1) (ele.getPrimitivesFpt params e' fpt) 0).
Proof.
  intros Heq Hg Hs0 HnD HnF W Htol HtA HS HF e'.
  destruct (density_stage_positive e W ltac:(lia) Htol HS HF)
    as (P1 & P2 & W1 & N1 & N2 & N3 & N4 & N5).
  set (e1 := ele.checkEntropy_density e) in *.
  assert (Htol0 : 0 < ele.tol) by (unfold ele.tol; lra).
  assert (A1 : (ele.nDims e1 = 2 \/ ele.nDims e1 = 3)%nat) by (rewrite N4; exact HnD).
  assert (A2 : ele.nFields e1 = (ele.nDims e1 + 2)%nat) by (rewrite N3, N4; exact HnF).
  assert (A3 : 0 < nth 0 (ele.Uavg e1) 0) by (rewrite N5; lra).
  assert (A4 : 0 < ele.tauOf params (ele.nDims e1) (ele.Uavg e1))
    by (rewrite N4, N5; exact HtA).
  assert (A5 : forall spt, (spt < ele.nSpts e1)%nat -> 0 < mget (ele.U_spts e1) spt 0)
    by (rewrite N1; exact P1).
  assert (A6 : forall fpt, (fpt < ele.nFpts e1)%nat -> 0 < mget (ele.U_fpts e1) fpt 0)
    by (rewrite N2; exact P2).
  destruct (tau_stage_settled params e1 Heq Hg Hs0 A1 A2 W1 A3 A4 A5 A6) as (Q1 & Q2 & Q3).
  change (ele.checkEntropy_tau params e1) with e' in Q1, Q2, Q3.
  pose proof (checkEntropy_shape params e) as Sh. fold e' in Sh.
  assert (M1 : ele.nSpts e' = ele.nSpts e) by (rewrite Sh; reflexivity).
  assert (M2 : ele.nFpts e' = ele.nFpts e) by (rewrite Sh; reflexivity).
  assert (M3 : ele.nDims e' = ele.nDims e) by (rewrite Sh; reflexivity).
  assert (M4 : ele.nFields e' = ele.nFields e) by (rewrite Sh; reflexivity).
  assert (B1 : (ele.nDims e' = 2 \/ ele.nDims e' = 3)%nat) by (rewrite M3; exact HnD).
  assert (B2 : ele.nFields e' = (ele.nDims e' + 2)%nat) by (rewrite M3, M4; exact HnF).
  destruct (minTau_le params e' Heq B1 B2) as (L1 & L2).
  split; [exact Sh|]. split.
  - intros spt Hs. rewrite <- M1 in Hs.
    specialize (Q1 spt Hs). specialize (L1 spt Hs).
    rewrite <- (tau_spt params e' Heq B1 B2) in L1. unfold ele.tau in L1.
    rewrite M3 in L1.
    assert (R0 : nth 0 (ele.getPrimitives params e' spt) 0 = mget (ele.U_spts e') spt 0).
    { unfold ele.getPrimitives. rewrite B2. apply primitives_rho; assumption. }
    rewrite R0 in *. split; [exact Q1 | lra].
  - intros fpt Hf. rewrite <- M2 in Hf.
    specialize (Q2 fpt Hf). specialize (L2 fpt Hf).
    rewrite <- (tau_fpt params e' Heq B1 B2) in L2. unfold ele.tau in L2.
    rewrite M3 in L2.
    assert (R0 : nth 0 (ele.getPrimitivesFpt params e' fpt) 0 = mget (ele.U_fpts e') fpt 0).
    { unfold ele.getPrimitivesFpt. rewrite B2. apply primitives_rho; assumption. }
    rewrite R0 in *. split; [exact Q2 | lra].
Qed.

Lemma checkEntropy_admissible_witness :
  ele.minTau ele.staticRun (ele.lobattoCell 3 (-1) 1) < 0 /\
  0 < nth 0 (ele.getPrimitives ele.staticRun
               (ele.checkEntropy ele.staticRun (ele.lobattoCell 3 (-1) 1)) 0) 0.
Proof.
  split; [rewrite lobattoCell_minTau_3; lra|].
  apply (checkEntropy_admissible ele.staticRun (ele.lobattoCell 3 (-1) 1)).
  - reflexivity.
  - simpl; lra.
  - simpl; lra.
  - left; reflexivity.
  - reflexivity.
  - split; (split; [reflexivity | repeat constructor]).
  - unfold ele.tol; simpl; lra.
  - Reval; lra.
  - intros s Hs'. simpl in Hs'.
    destruct s as [|[|[|[|s]]]]; try lia; Reval; lra.
  - intros fpt Hf. simpl in Hf.
    destruct fpt as [|[|[|[|[|[|[|[|fpt]]]]]]]]; try lia; Reval; lra.
  - simpl; lia.
Defined.

(** X8.  [checkEntropy] leaves an element as it is when no density is
    negative and the entropy-bounding value [p - exps0 * rho^gamma] of the
    primitive variables is non-negative at every solution and flux
    point. *)
Theorem checkEntropy_noop (params : input.input) (e : ele.ele) :
  (forall spt, (spt < ele.nSpts e)%nat ->
     0 <= mget (ele.U_spts e) spt 0 /\
     0 <= ele.tau params (ele.nDims e) (ele.getPrimitives params e spt)) ->
  (forall fpt, (fpt < ele.nFpts e)%nat ->
     0 <= mget (ele.U_fpts e) fpt 0 /\
     0 <= ele.tau params (ele.nDims e) (ele.getPrimitivesFpt params e fpt)) ->
  ele.checkEntropy params e = e.
Proof.
  intros HS HF. unfold ele.checkEntropy, ele.checkEntropy_density.
  assert (Hn : ele.negRho e = false).
  { destruct (ele.negRho e) eqn:E; [|reflexivity].
    apply negRho_iff in E. destruct E as [(s & Hs & Hneg)|(f & Hf & Hneg)].
    - destruct (HS s Hs). lra.
    - destruct (HF f Hf). lra. }
  rewrite Hn. unfold ele.checkEntropy_tau.
  assert (Ht : 0 <= ele.minTau params e).
  { unfold ele.minTau. cbv zeta.
    apply for_Rmin_ge; [apply for_Rmin_ge; [lra|]|].
    - intros i Hi. apply HS, Hi.
    - intros i Hi. apply HF, Hi. }
  rewrite (Rltb_false (ele.minTau params e) 0) by lra. reflexivity.
Qed.

Lemma checkEntropy_noop_witness :
  ele.checkEntropy ele.staticRun (ele.lobattoCell 1 2 1) = ele.lobattoCell 1 2 1.
Proof.
  apply (checkEntropy_noop ele.staticRun (ele.lobattoCell 1 2 1)).
  - intros s Hs. simpl in Hs.
    destruct s as [|[|[|[|s]]]]; try lia; split; Reval; lra.
  - intros fpt Hf. simpl in Hf.
    destruct fpt as [|[|[|[|[|[|[|[|fpt]]]]]]]]; try lia; split; Reval; lra.
Defined.

Lemma Rsum_affine (n : nat) (w f : nat -> R) (p q : R) :
  Rsum n (fun s => w s * (p + q * f s))
  = p * Rsum n w + q * Rsum n (fun s => w s * f s).
Proof.
  induction n as [|n IH]; [unfold Rsum; simpl; ring|].
  rewrite !Rsum_S, IH. ring.
Qed.

(** X9.  The squeezes of [checkEntropy] blend every solution-point state
    with the mean state [Uavg], so they keep a weighted mean: for weights
    that sum to 1, a field whose weighted mean over the solution points is
    its entry of [Uavg] has the same weighted mean after [checkEntropy]. *)
Theorem checkEntropy_keeps_mean (params : input.input) (e : ele.ele)
        (w : nat -> R) (i : nat) :
  ele.wf_U e -> (i < ele.nFields e)%nat ->
  Rsum (ele.nSpts e) w = 1 ->
  Rsum (ele.nSpts e) (fun s => w s * mget (ele.U_spts e) s i) = nth i (ele.Uavg e) 0 ->
  Rsum (ele.nSpts e)
       (fun s => w s * mget (ele.U_spts (ele.checkEntropy params e)) s i)
  = nth i (ele.Uavg e) 0.
Proof.
  intros (WS & WF) Hi Hw Hm.
  set (e1 := ele.checkEntropy_density e).
  assert (S1 : ele.nSpts e1 = ele.nSpts e /\ ele.nFields e1 = ele.nFields e
               /\ ele.Uavg e1 = ele.Uavg e
               /\ dims (ele.U_spts e1) (ele.nSpts e) (ele.nFields e)
               /\ Rsum (ele.nSpts e) (fun s => w s * mget (ele.U_spts e1) s i)
                  = nth i (ele.Uavg e) 0).
  { unfold e1, ele.checkEntropy_density. destruct (ele.negRho e).
    - rewrite squeezeRho_eq. ele_proj.
      do 3 (split; [reflexivity|]). split; [apply blendRho_dims; exact WS|].
      rewrite (Rsum_ext _ _ (fun s => w s *
                 (if (i =? 0)%nat
                  then (1 - ele.densityEps e) * nth 0 (ele.Uavg e) 0
                       + ele.densityEps e * mget (ele.U_spts e) s i
                  else 0 + 1 * mget (ele.U_spts e) s i))).
      + destruct (Nat.eqb_spec i 0) as [->|Hne];
          rewrite Rsum_affine, Hw, Hm; ring.
      + intros s Hs. rewrite (blendRho_get _ _ _ _ (ele.nFields e)) by (auto; lia).
        destruct (Nat.eqb_spec i 0) as [->|Hne]; [reflexivity|]. f_equal. ring.
    - do 3 (split; [reflexivity|]). split; assumption. }
  destruct S1 as (N1 & N2 & N3 & D1 & Hm1).
  unfold ele.checkEntropy. fold e1. unfold ele.checkEntropy_tau.
  destruct (Rltb (ele.minTau params e1) 0); [|exact Hm1].
  rewrite squeezeAll_eq. ele_proj. rewrite N1, N2, N3.
  rewrite (Rsum_ext _ _ (fun s => w s *
             (ele.entropyEps params e1 * nth i (ele.Uavg e) 0
              + (1 - ele.entropyEps params e1) * mget (ele.U_spts e1) s i))).
  - rewrite Rsum_affine, Hw, Hm1. ring.
  - intros s Hs. rewrite blendAll_get by assumption. reflexivity.
Qed.

Lemma checkEntropy_keeps_mean_witness :
  ele.minTau ele.staticRun (ele.lobattoCell 3 (-1) 1) < 0 /\
  Rsum 4 (fun s => 1/4 * mget (ele.U_spts (ele.checkEntropy ele.staticRun
                                             (ele.lobattoCell 3 (-1) 1))) s 3)
  = 1.
Proof.
  split; [rewrite lobattoCell_minTau_3; lra|].
  apply (checkEntropy_keeps_mean ele.staticRun (ele.lobattoCell 3 (-1) 1)
           (fun _ => 1/4) 3).
  - split; (split; [reflexivity | repeat constructor]).
  - simpl; lia.
  - unfold Rsum; simpl; lra.
  - unfold Rsum, mget; simpl; lra.
Defined.

(** ** checkDensity *)

Lemma scanRho_break_fst (pts : list nat) (U : matrix) (st : bool * R) :
  fst (ele.scanRho_break pts U st) = true <->
  (fst st = true \/ exists pt, In pt pts /\ mget U pt 0 < 0).
Proof.
  induction pts as [|pt rest IH]; simpl.
  - split; [auto | intros [H|(pt & [] & _)]; exact H].
  - destruct (Rltb (mget U pt 0) 0) eqn:E.
    + apply Rltb_iff in E. simpl. split; [|reflexivity].
      intros _. right. exists pt. auto.
    + apply Rltb_iff_false in E. rewrite IH. split.
      * intros [H|(p & Hp & Hneg)]; [auto|]. right. exists p. auto.
      * intros [H|(p & [<-|Hp] & Hneg)]; [auto|lra|]. right. exists p. auto.
Qed.

Lemma checkDensity_fst (e : ele.ele) :
  fst (ele.checkDensity e) = true <->
  ((exists spt, (spt < ele.nSpts e)%nat /\ mget (ele.U_spts e) spt 0 < 0) \/
   (exists fpt, (fpt < ele.nFpts e)%nat /\ mget (ele.U_fpts e) fpt 0 < 0)).
Proof.
  unfold ele.checkDensity.
  pose proof (scanRho_break_fst (seq 0 (ele.nSpts e)) (ele.U_spts e) (false, 1e15)) as H1.
  destruct (ele.scanRho_break (seq 0 (ele.nSpts e)) (ele.U_spts e) (false, 1e15))
    as [n1 m1].
  pose proof (scanRho_break_fst (seq 0 (ele.nFpts e)) (ele.U_fpts e) (n1, m1)) as H2.
  destruct (ele.scanRho_break (seq 0 (ele.nFpts e)) (ele.U_fpts e) (n1, m1))
    as [n2 m2].
  simpl fst in *.
  assert (G : fst (if n2 then (n2, ele.squeezeRho
                     (Rabs (nth 0 (ele.Uavg e) 0 - ele.tol) / (nth 0 (ele.Uavg e) 0 - m2)) e)
                   else (n2, e)) = n2) by (destruct n2; reflexivity).
  rewrite G, H2, H1. split.
  - intros [[H|(p & Hp & Hneg)]|(p & Hp & Hneg)]; [discriminate| |].
    + left. exists p. apply in_seq in Hp. split; [lia|exact Hneg].
    + right. exists p. apply in_seq in Hp. split; [lia|exact Hneg].
  - intros [(p & Hp & Hneg)|(p & Hp & Hneg)].
    + left. right. exists p. split; [apply in_seq; lia|exact Hneg].
    + right. exists p. split; [apply in_seq; lia|exact Hneg].
Qed.

Lemma checkDensity_snd (e : ele.ele) :
  (fst (ele.checkDensity e) = false -> snd (ele.checkDensity e) = e) /\
  snd (ele.checkDensity e)
  = ele.set_U_fpts (ele.U_fpts (snd (ele.checkDensity e)))
      (ele.set_U_spts (ele.U_spts (snd (ele.checkDensity e))) e).
Proof.
  unfold ele.checkDensity.
  destruct (ele.scanRho_break (seq 0 (ele.nSpts e)) (ele.U_spts e) (false, 1e15))
    as [n1 m1].
  destruct (ele.scanRho_break (seq 0 (ele.nFpts e)) (ele.U_fpts e) (n1, m1))
    as [n2 m2].
  destruct n2; simpl fst; simpl snd.
  - split; [discriminate|]. rewrite squeezeRho_eq. reflexivity.
  - split; [reflexivity|apply set_U_same].
Qed.

(** X10.  [ele::checkDensity] returns true exactly when the density is
    negative at some solution or flux point; when it returns false the
    element is unchanged, and in either case nothing but [U_spts] and
    [U_fpts] is written. *)
Theorem checkDensity_flag (e : ele.ele) :
  (fst (ele.checkDensity e) = true <->
   ((exists spt, (spt < ele.nSpts e)%nat /\ mget (ele.U_spts e) spt 0 < 0) \/
    (exists fpt, (fpt < ele.nFpts e)%nat /\ mget (ele.U_fpts e) fpt 0 < 0))) /\
  (fst (ele.checkDensity e) = false -> snd (ele.checkDensity e) = e) /\
  snd (ele.checkDensity e)
  = ele.set_U_fpts (ele.U_fpts (snd (ele.checkDensity e)))
      (ele.set_U_spts (ele.U_spts (snd (ele.checkDensity e))) e).
Proof.
  split; [apply checkDensity_fst | apply checkDensity_snd].
Qed.

(** The flag is raised by nothing but the report of an element. *)
Lemma flag_step_sound (check : nat -> bool) (sched : list solver.flag_access) :
  forall st : bool * (nat -> bool),
    (fst st = true -> exists i, check i = true) ->
    (forall j, snd st j = true -> exists i, check i = true) ->
    fst (fold_left (solver.flag_step check) sched st) = true ->
    exists i, check i = true.
Proof.
  induction sched as [|a sched IH]; intros [sq seen] H1 H2; simpl fold_left.
  - exact H1.
  - destruct a as [i|i]; apply IH; simpl in *.
    + exact H1.
    + intros j. destruct (j =? i)%nat; [exact H1|apply H2].
    + intros H. apply orb_true_iff in H. destruct H as [H|H]; [exists i; exact H|].
      exact (H2 i H).
    + exact H2.
Qed.

(** Run one after the other, the iterations accumulate the reports. *)
Lemma flag_step_serial (check : nat -> bool) (n : nat) :
  forall (a : nat) (sq : bool) (seen : nat -> bool),
    fst (fold_left (solver.flag_step check)
           (flat_map (fun i => [solver.ReadFlag i; solver.WriteFlag i]) (seq a n))
           (sq, seen))
    = sq || existsb check (seq a n).
Proof.
  induction n as [|n IH]; intros a sq seen; simpl.
  - now rewrite orb_false_r.
  - rewrite IH, Nat.eqb_refl.
    destruct (check a), sq, (existsb check (seq (S a) n)); reflexivity.
Qed.

Lemma serial_filter (i n : nat) :
  forall a : nat,
    filter (fun x => (solver.access_iter x =? i)%nat)
      (flat_map (fun i => [solver.ReadFlag i; solver.WriteFlag i]) (seq a n))
    = if ((a <=? i) && (i <? a + n))%nat then [solver.ReadFlag i; solver.WriteFlag i] else [].
Proof.
  induction n as [|n IH]; intros a; simpl.
  - destruct (a <=? i)%nat eqn:E1, (i <? a + 0)%nat eqn:E2; try reflexivity.
    apply Nat.leb_le in E1. apply Nat.ltb_lt in E2. lia.
  - rewrite IH. destruct (Nat.eqb_spec a i) as [->|Hne].
    + rewrite Nat.leb_refl.
      replace (S i <=? i)%nat with false by (symmetry; apply Nat.leb_gt; lia).
      replace (i <? i + S n)%nat with true by (symmetry; apply Nat.ltb_lt; lia).
      reflexivity.
    + replace (i <? S a + n)%nat with (i <? a + S n)%nat by (f_equal; lia).
      destruct (Nat.leb_spec a i), (Nat.leb_spec (S a) i); try lia; reflexivity.
Qed.

Lemma serialSchedule_ok (n : nat) : solver.isSchedule n (solver.serialSchedule n) = true.
Proof.
  unfold solver.isSchedule, solver.serialSchedule. apply andb_true_iff. split.
  - apply forallb_forall. intros x Hx. apply in_flat_map in Hx.
    destruct Hx as (i & Hi & Hx). apply in_seq in Hi. apply Nat.ltb_lt.
    destruct Hx as [<-|[<-|[]]]; simpl; lia.
  - apply forallb_forall. intros i Hi. apply in_seq in Hi. rewrite serial_filter.
    replace ((0 <=? i) && (i <? 0 + n))%nat with true; [reflexivity|].
    symmetry. apply andb_true_iff. split; [apply Nat.leb_le|apply Nat.ltb_lt]; lia.
Qed.

(** A positive report at position [i] comes from an element with a
    negative density, and conversely. *)
Lemma check_reports (l : list ele.ele) :
  (exists i, nth i (map fst (map ele.checkDensity l)) false = true) <->
  (exists e, In e l /\ fst (ele.checkDensity e) = true).
Proof.
  rewrite map_map. split.
  - intros (i & Hi).
    destruct (Nat.lt_ge_cases i (List.length l)) as [Hlt|Hge].
    + destruct l as [|d l']; [simpl in Hlt; lia|].
      exists (nth i (d :: l') d). split; [apply nth_In; exact Hlt|].
      rewrite <- Hi. symmetry.
      rewrite (nth_indep _ false (fst (ele.checkDensity d)))
        by (rewrite length_map; exact Hlt).
      apply (map_nth (fun e => fst (ele.checkDensity e))).
    + rewrite nth_overflow in Hi by (rewrite length_map; exact Hge). discriminate.
  - intros (e & Hin & He). destruct (In_nth _ _ e Hin) as (i & Hi & Hn).
    exists i. rewrite (nth_indep _ false (fst (ele.checkDensity e)))
      by (rewrite length_map; exact Hi).
    rewrite (map_nth (fun e => fst (ele.checkDensity e))), Hn. exact He.
Qed.

Lemma existsb_seq_nth (l : list bool) :
  existsb (fun i => nth i l false) (seq 0 (List.length l)) = true <->
  exists i, nth i l false = true.
Proof.
  rewrite existsb_exists. split.
  - intros (i & _ & Hi). exists i. exact Hi.
  - intros (i & Hi). exists i. split; [|exact Hi]. apply in_seq.
    destruct (Nat.lt_ge_cases i (List.length l)) as [Hlt|Hge]; [lia|].
    rewrite nth_overflow in Hi by exact Hge. discriminate.
Qed.

Lemma solver_checkDensity_eles (sched : list solver.flag_access) (s : solver.solver) :
  solver.eles (snd (solver.checkDensity sched s))
  = map (fun e => snd (ele.checkDensity e)) (solver.eles s).
Proof.
  unfold solver.checkDensity. cbv zeta.
  destruct (fold_left _ sched (false, fun _ => false)) as [sq seen].
  simpl. apply map_map.
Qed.

Lemma solver_checkDensity_sound (sched : list solver.flag_access) (s : solver.solver) :
  fst (solver.checkDensity sched s) = true ->
  exists e, In e (solver.eles s) /\ fst (ele.checkDensity e) = true.
Proof.
  unfold solver.checkDensity. cbv zeta. intros H. apply check_reports.
  apply (flag_step_sound _ sched (false, fun _ => false)); simpl; try discriminate.
  destruct (fold_left _ sched (false, fun _ => false)) as [sq seen]. exact H.
Qed.

Lemma solver_checkDensity_unchanged (sched : list solver.flag_access) (s : solver.solver) :
  (forall e, In e (solver.eles s) -> fst (ele.checkDensity e) = false) ->
  snd (solver.checkDensity sched s) = s.
Proof.
  intros Hall.
  assert (Hm : map (fun e => snd (ele.checkDensity e)) (solver.eles s) = solver.eles s).
  { rewrite <- (map_id (solver.eles s)) at 2. apply map_ext_in. intros e Hin.
    apply checkDensity_snd. apply Hall. exact Hin. }
  pose proof (solver_checkDensity_eles sched s) as E. rewrite Hm in E.
  unfold solver.checkDensity in *. cbv zeta in *.
  destruct (fold_left _ sched (false, fun _ => false)) as [sq seen].
  cbn [snd] in *. change (solver.eles (solver.set_eles ?L s)) with L in E.
  rewrite E. destruct s; reflexivity.
Qed.

Lemma solver_checkDensity_serial (s : solver.solver) :
  fst (solver.checkDensity (solver.serialSchedule (List.length (solver.eles s))) s) = true
  <-> exists e, In e (solver.eles s) /\ fst (ele.checkDensity e) = true.
Proof.
  rewrite <- check_reports.
  unfold solver.checkDensity, solver.serialSchedule. cbv zeta.
  pose proof (flag_step_serial
                (fun i => nth i (map fst (map ele.checkDensity (solver.eles s))) false)
                (List.length (solver.eles s)) 0 false (fun _ => false)) as F.
  destruct (fold_left _ _ (false, fun _ => false)) as [sq seen].
  cbn [fst] in *. rewrite F. simpl orb.
  rewrite <- existsb_seq_nth, !length_map. reflexivity.
Qed.

(** Two iterations, the second reading the flag before the first has
    written it and writing after it: the report of the first is lost. *)
Lemma solver_checkDensity_lost (s : solver.solver) (e0 e1 : ele.ele) :
  solver.eles s = [e0; e1] ->
  fst (ele.checkDensity e1) = false ->
  fst (solver.checkDensity
         [solver.ReadFlag 1; solver.ReadFlag 0; solver.WriteFlag 0; solver.WriteFlag 1] s)
  = false.
Proof.
  intros Hs H1. unfold solver.checkDensity. rewrite Hs. simpl. rewrite H1. reflexivity.
Qed.

(** X11.  [solver::checkDensity] runs [ele::checkDensity] on every element,
    each element being replaced by its squeezed self.  The iterations
    share the flag [squeezed]; in whatever order their reads and writes of
    it take place, a returned true means that some element has a negative
    density, and if no element has one the result is false and the solver
    is unchanged.  When the iterations run one after the other (a build
    without OpenMP) the result is true exactly when some element has a
    negative density, and false leaves the solver unchanged.  Under OpenMP
    the report of an element can be lost: with two elements of which only
    the first has a negative density, the order in which the second
    iteration reads the flag first and writes it last returns false. *)
Theorem solver_checkDensity_flag (s : solver.solver) :
  let negative := fun e =>
    (exists spt, (spt < ele.nSpts e)%nat /\ mget (ele.U_spts e) spt 0 < 0) \/
    (exists fpt, (fpt < ele.nFpts e)%nat /\ mget (ele.U_fpts e) fpt 0 < 0) in
  let n := List.length (solver.eles s) in
  (forall sched,
     solver.eles (snd (solver.checkDensity sched s))
     = map (fun e => snd (ele.checkDensity e)) (solver.eles s) /\
     (fst (solver.checkDensity sched s) = true ->
      exists e, In e (solver.eles s) /\ negative e) /\
     ((forall e, In e (solver.eles s) -> ~ negative e) ->
      solver.checkDensity sched s = (false, s))) /\
  (solver.isSchedule n (solver.serialSchedule n) = true /\
   (fst (solver.checkDensity (solver.serialSchedule n) s) = true <->
    exists e, In e (solver.eles s) /\ negative e) /\
   (fst (solver.checkDensity (solver.serialSchedule n) s) = false ->
    snd (solver.checkDensity (solver.serialSchedule n) s) = s)) /\
  (forall e0 e1, solver.eles s = [e0; e1] -> negative e0 -> ~ negative e1 ->
     let sched := [solver.ReadFlag 1; solver.ReadFlag 0;
                   solver.WriteFlag 0; solver.WriteFlag 1] in
     solver.isSchedule n sched = true /\
     fst (solver.checkDensity sched s) = false /\
     fst (solver.checkDensity (solver.serialSchedule n) s) = true).
Proof.
  intros negative n. subst n.
  assert (Hneg : forall e, fst (ele.checkDensity e) = true <-> negative e)
    by (intros e; apply checkDensity_fst).
  assert (Hnot : forall e, ~ negative e -> fst (ele.checkDensity e) = false).
  { intros e He. destruct (fst (ele.checkDensity e)) eqn:E; [|reflexivity].
    exfalso. apply He, Hneg, E. }
  split; [|split].
  - intros sched. split; [apply solver_checkDensity_eles|]. split.
    + intros H. destruct (solver_checkDensity_sound sched s H) as (e & Hin & He).
      exists e. split; [exact Hin|apply Hneg; exact He].
    + intros Hall.
      assert (Hf : forall e, In e (solver.eles s) -> fst (ele.checkDensity e) = false)
        by (intros e Hin; apply Hnot, Hall, Hin).
      rewrite (surjective_pairing (solver.checkDensity sched s)).
      rewrite (solver_checkDensity_unchanged sched s Hf). f_equal.
      destruct (fst (solver.checkDensity sched s)) eqn:E; [|reflexivity].
      destruct (solver_checkDensity_sound sched s E) as (e & Hin & He).
      rewrite (Hf e Hin) in He. discriminate.
  - split; [apply serialSchedule_ok|]. split.
    + rewrite solver_checkDensity_serial. split; intros (e & Hin & He); exists e;
        (split; [exact Hin|apply Hneg; exact He]).
    + intros Hf. apply solver_checkDensity_unchanged. intros e Hin.
      destruct (fst (ele.checkDensity e)) eqn:E; [|reflexivity].
      assert (X : fst (solver.checkDensity
                         (solver.serialSchedule (List.length (solver.eles s))) s) = true)
        by (apply solver_checkDensity_serial; exists e; auto).
      congruence.
  - intros e0 e1 Hs H0 H1 sched. split; [|split].
    + rewrite Hs. reflexivity.
    + apply (solver_checkDensity_lost s e0 e1 Hs). apply Hnot, H1.
    + apply solver_checkDensity_serial. exists e0. split; [rewrite Hs; left; reflexivity|].
      apply Hneg, H0.
Qed.

(** On two cells at rest, the first with density [-1]: run in order the
    iterations return true, in the other order they return false. *)
Lemma solver_checkDensity_flag_witness :
  fst (solver.checkDensity (solver.serialSchedule 2) solver.squeezePair) = true /\
  solver.isSchedule 2 [solver.ReadFlag 1; solver.ReadFlag 0;
                       solver.WriteFlag 0; solver.WriteFlag 1] = true /\
  fst (solver.checkDensity [solver.ReadFlag 1; solver.ReadFlag 0;
                            solver.WriteFlag 0; solver.WriteFlag 1] solver.squeezePair)
  = false.
Proof.
  destruct (solver_checkDensity_flag solver.squeezePair) as (_ & _ & L).
  destruct (L (ele.restCell (-1) 1) (ele.restCell 1 1) eq_refl) as (A & B & C).
  - left. exists 0%nat. split; [simpl; lia|]. cbn. lra.
  - intros [(spt & Hs & Hv)|(fpt & Hf & Hv)].
    + simpl in Hs. assert (spt = 0%nat) by lia. subst. cbn in Hv. lra.
    + simpl in Hf.
      destruct fpt as [|[|[|[|fpt]]]]; cbn in Hv; try lra. lia.
  - split; [exact C|]. split; [exact A|exact B].
Defined.

(** ** The stage loop of timeStepB *)

Lemma timeStepB_loop (params : input.input) (b : nat -> R) (S : nat) (e : ele.ele) :
  dims (ele.U_spts e) (ele.nSpts e) (ele.nFields e) ->
  let e' := for_ S (fun k e => ele.timeStepB params k (b k) e) e in
  dims (ele.U_spts e') (ele.nSpts e) (ele.nFields e) /\
  ele.nSpts e' = ele.nSpts e /\ ele.nFields e' = ele.nFields e /\
  ele.divF_spts e' = ele.divF_spts e /\ ele.detJac_spts e' = ele.detJac_spts e /\
  ele.stage_dt params e' = ele.stage_dt params e /\ ele.ID e' = ele.ID e /\
  forall spt i, (spt < ele.nSpts e)%nat -> (i < ele.nFields e)%nat ->
    mget (ele.U_spts e') spt i
    = mget (ele.U_spts e) spt i
      - Rsum S (fun k => b k * ele.stage_dt params e
                         * mget (nth k (ele.divF_spts e) []) spt i
                         / nth spt (ele.detJac_spts e) 0).
Proof.
  intros HU. induction S as [|S IH]; cbv zeta.
  - simpl. repeat split; try assumption; try apply HU.
    intros. unfold Rsum. simpl. ring.
  - cbv zeta in IH. destruct IH as (D & N1 & N2 & N3 & N4 & N5 & N6 & G).
    simpl for_. set (e1 := for_ S (fun k e => ele.timeStepB params k (b k) e) e) in *.
    assert (D1 : dims (ele.U_spts e1) (ele.nSpts e1) (ele.nFields e1))
      by (rewrite N1, N2; exact D).
    pose proof (timeStepB_eq params S (b S) e1) as E. cbv zeta in E.
    assert (Hdt : ele.stage_dt params (ele.timeStepB params S (b S) e1)
                  = ele.stage_dt params e).
    { rewrite E, <- N5. unfold ele.stage_dt.
      destruct (negb (input.dtType params =? 2)%nat); reflexivity. }
    split.
    { rewrite E. ele_proj. rewrite N1, N2.
      apply (for2_dims (ele.nSpts e) (ele.nFields e)
               (ele.gB S (b S) (ele.set_dt (ele.stage_dt params e1) e1))). exact D. }
    split; [rewrite E; exact N1|]. split; [rewrite E; exact N2|].
    split; [rewrite E; exact N3|]. split; [rewrite E; exact N4|].
    split; [exact Hdt|]. split; [rewrite E; exact N6|].
    intros spt i Hs Hi.
    rewrite (timeStepB_get params S (b S) e1 spt i D1) by (rewrite ?N1, ?N2; assumption).
    rewrite G, N3, N4, N5, Rsum_S by assumption. ring.
Qed.

Lemma timeStepB_loop_ID (params : input.input) (b : nat -> R) (S : nat) (e : ele.ele) :
  ele.ID (for_ S (fun k e => ele.timeStepB params k (b k) e) e) = ele.ID e.
Proof.
  induction S as [|S IH]; [reflexivity|].
  simpl for_. rewrite timeStepB_eq. exact IH.
Qed.

Lemma set_eles_same (s : solver.solver) : solver.set_eles (solver.eles s) s = s.
Proof. destruct s; reflexivity. Qed.

Lemma solver_timeStepB_loop (s : solver.solver) (S : nat) :
  for_ S (fun step s => solver.timeStepB step false s) s
  = solver.set_eles
      (map (fun e =>
              if solver.fieldInterp s
                 && negb (solver.isNormal (nth (ele.ID e) (solver.iblankCell s) solver.HOLE))
              then e
              else for_ S (fun k e =>
                     ele.timeStepB (solver.params s) k
                       (nth k (input.RKb (solver.params s)) 0) e) e)
           (solver.eles s)) s.
Proof.
  induction S as [|S IH].
  - simpl for_. rewrite <- (set_eles_same s) at 1. f_equal.
    rewrite <- (map_id (solver.eles s)) at 1. apply map_ext. intros e.
    destruct (_ && _); reflexivity.
  - cbn [for_]. rewrite IH. unfold solver.timeStepB. cbv zeta.
    set (L := map _ (solver.eles s)).
    change (solver.fieldInterp (solver.set_eles L s)) with (solver.fieldInterp s).
    change (solver.params (solver.set_eles L s)) with (solver.params s).
    destruct (solver.fieldInterp s) eqn:FI.
    + unfold solver.forNormalEles.
      change (solver.eles (solver.set_eles L s)) with L.
      change (solver.iblankCell (solver.set_eles L s)) with (solver.iblankCell s).
      unfold solver.set_eles at 1. simpl. unfold solver.set_eles. f_equal.
      unfold L. rewrite map_map. apply map_ext. intros e. simpl andb.
      destruct (solver.isNormal (nth (ele.ID e) (solver.iblankCell s) solver.HOLE)) eqn:N;
        simpl negb; cbv iota.
      * pose proof (timeStepB_loop_ID (solver.params s)
                      (fun k => nth k (input.RKb (solver.params s)) 0) S e) as HID.
        rewrite HID, N. reflexivity.
      * rewrite N. reflexivity.
    + unfold solver.forEles.
      change (solver.eles (solver.set_eles L s)) with L.
      unfold solver.set_eles. simpl. f_equal.
      unfold L. rewrite map_map. apply map_ext. intros e. reflexivity.
Qed.

(** X12.  The loop of [update] that applies [timeStepB] for the stages
    [0..S-1] in order adds up the stage residuals: an element that takes
    part in the update (any element, or in the overset field-interpolation
    mode one whose cell is [NORMAL]) ends with
    [U - sum_k RKb[k]*dt*divF[k]/detJac] at every solution point and field,
    [U] being the solution it entered the loop with; in the overset
    field-interpolation mode an element whose cell is not [NORMAL] leaves
    the loop as it entered. *)
Theorem timeStepB_stages (s : solver.solver) (S j : nat) (e : ele.ele) (spt i : nat) :
  nth_error (solver.eles s) j = Some e ->
  dims (ele.U_spts e) (ele.nSpts e) (ele.nFields e) ->
  (spt < ele.nSpts e)%nat -> (i < ele.nFields e)%nat ->
  let s' := for_ S (fun step s => solver.timeStepB step false s) s in
  let blanked :=
    solver.fieldInterp s
    && negb (solver.isNormal (nth (ele.ID e) (solver.iblankCell s) solver.HOLE)) in
  exists e', nth_error (solver.eles s') j = Some e' /\
    if blanked then e' = e
    else mget (ele.U_spts e') spt i
         = mget (ele.U_spts e) spt i
           - Rsum S (fun k => nth k (input.RKb (solver.params s)) 0
                              * ele.stage_dt (solver.params s) e
                              * mget (nth k (ele.divF_spts e) []) spt i
                              / nth spt (ele.detJac_spts e) 0).
Proof.
  intros Hj HU Hs Hi s' blanked. unfold s'. rewrite solver_timeStepB_loop.
  change (solver.eles (solver.set_eles ?L s)) with L.
  rewrite nth_error_map, Hj. simpl option_map. fold blanked.
  eexists. split; [reflexivity|].
  destruct blanked; [reflexivity|].
  destruct (timeStepB_loop (solver.params s)
              (fun k => nth k (input.RKb (solver.params s)) 0) S e HU)
    as (_ & _ & _ & _ & _ & _ & _ & G).
  apply G; assumption.
Qed.

Lemma timeStepB_stages_witness :
  exists e', nth_error (solver.eles
               (for_ 4 (fun step s => solver.timeStepB step false s) solver.solver1)) 0
             = Some e' /\
    mget (ele.U_spts e') 0 0
    = 1 - Rsum 4 (fun k => nth k [1/6; 1/3; 1/3; 1/6] 0 * (1/2)
                           * mget (nth k [[[2]]; [[0]]; [[0]]; [[0]]] []) 0 0
                           / 4).
Proof.
  exact (timeStepB_stages solver.solver1 4 0 solver.ele1 0 0 eq_refl
           (conj eq_refl (Forall_cons _ eq_refl (Forall_nil _)))
           (le_n 1) (le_n 1)).
Defined.

(** ** Loops that rewrite one row or one entry per pass *)

Lemma for_rows_length {A : Type} (n : nat) (g : nat -> A -> A) (d : A) (l : list A) :
  List.length (for_ n (fun i l => upd i (g i (nth i l d)) l) l) = List.length l.
Proof.
  induction n as [|n IH]; [reflexivity|]. cbn [for_]. now rewrite upd_length.
Qed.

Lemma for_rows_get {A : Type} (n : nat) (g : nat -> A -> A) (d : A) (l : list A) (i : nat) :
  (n <= List.length l)%nat ->
  nth i (for_ n (fun i l => upd i (g i (nth i l d)) l) l) d
  = if (i <? n)%nat then g i (nth i l d) else nth i l d.
Proof.
  intros Hn. induction n as [|n IH]; [reflexivity|]. cbn [for_].
  destruct (Nat.eq_dec i n) as [->|Hne].
  - rewrite nth_upd_eq by (rewrite for_rows_length; lia). rewrite IH by lia.
    replace (n <? n)%nat with false by (symmetry; apply Nat.ltb_ge; lia).
    replace (n <? S n)%nat with true by (symmetry; apply Nat.ltb_lt; lia).
    reflexivity.
  - rewrite nth_upd_neq by auto. rewrite IH by lia.
    destruct (Nat.ltb_spec i n), (Nat.ltb_spec i (S n)); auto; lia.
Qed.

Lemma mset_row (M : matrix) (i j : nat) (x : R) :
  mset M i j x = upd i (upd j x (nth i M [])) M.
Proof. reflexivity. Qed.

Lemma mset_row2 (M : matrix) (i j k : nat) (x y : R) :
  (i < List.length M)%nat ->
  mset (upd i (nth i M []) M) i j x = mset M i j x ->
  mset (mset M i j x) i k y = upd i (upd k y (upd j x (nth i M []))) M.
Proof.
  intros Hi _. unfold mset. rewrite nth_upd_eq by exact Hi. apply upd_upd.
Qed.

(** ** setTransformedNormals_fpts *)

Lemma setTNorm2 (fpt : nat) (a b : R) (e : ele.ele) :
  (fpt < List.length (ele.tNorm_fpts e))%nat ->
  ele.setTNorm fpt 1 b (ele.setTNorm fpt 0 a e)
  = ele.set_tNorm_fpts
      (upd fpt (upd 1 b (upd 0 a (nth fpt (ele.tNorm_fpts e) []))) (ele.tNorm_fpts e)) e.
Proof.
  intros H.
  change (ele.setTNorm fpt 1 b (ele.setTNorm fpt 0 a e))
    with (ele.set_tNorm_fpts (mset (mset (ele.tNorm_fpts e) fpt 0 a) fpt 1 b) e).
  unfold mset. rewrite nth_upd_eq by exact H. rewrite upd_upd. reflexivity.
Qed.

Lemma setTNorm3 (fpt : nat) (a b c : R) (e : ele.ele) :
  (fpt < List.length (ele.tNorm_fpts e))%nat ->
  ele.setTNorm fpt 2 c (ele.setTNorm fpt 1 b (ele.setTNorm fpt 0 a e))
  = ele.set_tNorm_fpts
      (upd fpt (upd 2 c (upd 1 b (upd 0 a (nth fpt (ele.tNorm_fpts e) []))))
           (ele.tNorm_fpts e)) e.
Proof.
  intros H.
  change (ele.setTNorm fpt 2 c (ele.setTNorm fpt 1 b (ele.setTNorm fpt 0 a e)))
    with (ele.set_tNorm_fpts
            (mset (mset (mset (ele.tNorm_fpts e) fpt 0 a) fpt 1 b) fpt 2 c) e).
  unfold mset. rewrite !nth_upd_eq by (rewrite ?upd_length; exact H).
  rewrite !upd_upd. reflexivity.
Qed.

Lemma sumsq_2 (a b : R) : ele.sumsq 2 [a; b] = a*a + b*b.
Proof. unfold ele.sumsq. simpl. ring. Qed.

Lemma sumsq_3 (a b c : R) : ele.sumsq 3 [a; b; c] = a*a + b*b + c*c.
Proof. unfold ele.sumsq. simpl. ring. Qed.

Lemma row2_upd (a b : R) (r : list R) :
  List.length r = 2%nat -> upd 1 b (upd 0 a r) = [a; b].
Proof. destruct r as [|x [|y [|z r]]]; simpl; intros H; try discriminate; reflexivity. Qed.

Lemma row3_upd (a b c : R) (r : list R) :
  List.length r = 3%nat -> upd 2 c (upd 1 b (upd 0 a r)) = [a; b; c].
Proof.
  destruct r as [|x [|y [|z [|t r]]]]; simpl; intros H; try discriminate; reflexivity.
Qed.

(** The squared length of the reference normal stored at a flux point. *)
Lemma tNorm_step (eType : ele.eType_t) (order : nat) (e : ele.ele) (fpt : nat) :
  (eType = ele.TRI /\ ele.nDims e = 2%nat /\ (fpt / (order + 1) < 3)%nat) \/
  (eType = ele.QUAD /\ ele.nDims e = 2%nat /\ (fpt / (order + 1) < 4)%nat) \/
  (eType = ele.HEX /\ ele.nDims e = 3%nat
   /\ (fpt / ((order + 1) * (order + 1)) < 6)%nat) ->
  dims (ele.tNorm_fpts e) (ele.nFpts e) (ele.nDims e) ->
  (fpt < ele.nFpts e)%nat ->
  exists row,
    match eType with
    | ele.TRI =>
        match (fpt / (order + 1))%nat with
        | 0%nat => Ok (ele.setTNorm fpt 1 (-1) (ele.setTNorm fpt 0 0 e))
        | 1%nat => Ok (ele.setTNorm fpt 1 (sqrt 2) (ele.setTNorm fpt 0 (sqrt 2) e))
        | 2%nat => Ok (ele.setTNorm fpt 1 0 (ele.setTNorm fpt 0 (-1) e))
        | _ => Ok e
        end
    | ele.QUAD =>
        match (fpt / (order + 1))%nat with
        | 0%nat => Ok (ele.setTNorm fpt 1 (-1) (ele.setTNorm fpt 0 0 e))
        | 1%nat => Ok (ele.setTNorm fpt 1 0 (ele.setTNorm fpt 0 1 e))
        | 2%nat => Ok (ele.setTNorm fpt 1 1 (ele.setTNorm fpt 0 0 e))
        | 3%nat => Ok (ele.setTNorm fpt 1 0 (ele.setTNorm fpt 0 (-1) e))
        | _ => Ok e
        end
    | ele.HEX =>
        match (fpt / ((order + 1) * (order + 1)))%nat with
        | 0%nat => Ok (ele.setTNorm fpt 2 (-1) (ele.setTNorm fpt 1 0 (ele.setTNorm fpt 0 0 e)))
        | 1%nat => Ok (ele.setTNorm fpt 2 1 (ele.setTNorm fpt 1 0 (ele.setTNorm fpt 0 0 e)))
        | 2%nat => Ok (ele.setTNorm fpt 2 0 (ele.setTNorm fpt 1 0 (ele.setTNorm fpt 0 (-1) e)))
        | 3%nat => Ok (ele.setTNorm fpt 2 0 (ele.setTNorm fpt 1 0 (ele.setTNorm fpt 0 1 e)))
        | 4%nat => Ok (ele.setTNorm fpt 2 0 (ele.setTNorm fpt 1 (-1) (ele.setTNorm fpt 0 0 e)))
        | 5%nat => Ok (ele.setTNorm fpt 2 0 (ele.setTNorm fpt 1 1 (ele.setTNorm fpt 0 0 e)))
        | _ => Ok e
        end
    | ele.OTHER => FatalError "Element type not yet implemented."
    end
    = Ok (ele.set_tNorm_fpts (upd fpt row (ele.tNorm_fpts e)) e) /\
    List.length row = ele.nDims e /\
    ele.sumsq (ele.nDims e) row
    = match eType, (fpt / (order + 1))%nat with
      | ele.TRI, 1%nat => 4
      | _, _ => 1
      end.
Proof.
  intros Hc HT Hf.
  assert (HL : (fpt < List.length (ele.tNorm_fpts e))%nat) by (destruct HT; lia).
  pose proof (dims_row _ _ _ fpt HT Hf) as HR.
  destruct Hc as [(-> & HD & Hface)|[(-> & HD & Hface)|(-> & HD & Hface)]];
    rewrite HD in *.
  - destruct (fpt / (order + 1))%nat as [|[|[|k]]]; try lia;
      rewrite (setTNorm2 _ _ _ _ HL), (row2_upd _ _ _ HR);
      eexists; (split; [reflexivity|]); (split; [reflexivity|]);
      rewrite sumsq_2; try lra.
    replace (sqrt 2 * sqrt 2) with 2 by (symmetry; apply sqrt_sqrt; lra). lra.
  - destruct (fpt / (order + 1))%nat as [|[|[|[|k]]]]; try lia;
      rewrite (setTNorm2 _ _ _ _ HL), (row2_upd _ _ _ HR);
      eexists; (split; [reflexivity|]); (split; [reflexivity|]);
      rewrite sumsq_2; lra.
  - destruct (fpt / ((order + 1) * (order + 1)))%nat as [|[|[|[|[|[|k]]]]]]; try lia;
      rewrite (setTNorm3 _ _ _ _ _ HL), (row3_upd _ _ _ _ HR);
      eexists; (split; [reflexivity|]); (split; [reflexivity|]);
      rewrite sumsq_3; destruct (fpt / (order + 1))%nat as [|[|?]]; lra.
Qed.

(** X13.  On a triangle, quadrilateral or hexahedron whose flux points are
    those of its faces ([order+1] per edge, [(order+1)^2] per hexahedron
    face) and whose [tNorm_fpts] is sized, [setTransformedNormals_fpts]
    returns, writes nothing but [tNorm_fpts], and stores at every flux
    point a reference normal of length 1, except on the second face of a
    triangle, where the stored vector [(sqrt 2, sqrt 2)] has squared
    length 4. *)
Theorem setTransformedNormals_fpts_length (eType : ele.eType_t) (order : nat)
        (e : ele.ele) :
  (eType = ele.TRI /\ ele.nDims e = 2%nat /\ ele.nFpts e = (3 * (order + 1))%nat) \/
  (eType = ele.QUAD /\ ele.nDims e = 2%nat /\ ele.nFpts e = (4 * (order + 1))%nat) \/
  (eType = ele.HEX /\ ele.nDims e = 3%nat
   /\ ele.nFpts e = (6 * ((order + 1) * (order + 1)))%nat) ->
  dims (ele.tNorm_fpts e) (ele.nFpts e) (ele.nDims e) ->
  exists T,
    ele.setTransformedNormals_fpts eType order e = Ok (ele.set_tNorm_fpts T e) /\
    dims T (ele.nFpts e) (ele.nDims e) /\
    forall fpt, (fpt < ele.nFpts e)%nat ->
      ele.sumsq (ele.nDims e) (nth fpt T [])
      = match eType, (fpt / (order + 1))%nat with
        | ele.TRI, 1%nat => 4
        | _, _ => 1
        end.
Proof.
  intros Hc HT. unfold ele.setTransformedNormals_fpts.
  set (body := fun (fpt : nat) (e0 : ele.ele) => _).
  assert (G : forall n, (n <= ele.nFpts e)%nat ->
            exists T, forM_ n body e = Ok (ele.set_tNorm_fpts T e) /\
              dims T (ele.nFpts e) (ele.nDims e) /\
              forall fpt, (fpt < n)%nat ->
                ele.sumsq (ele.nDims e) (nth fpt T [])
                = match eType, (fpt / (order + 1))%nat with
                  | ele.TRI, 1%nat => 4
                  | _, _ => 1
                  end).
  { induction n as [|n IH]; intros Hn.
    - exists (ele.tNorm_fpts e). split; [|split; [exact HT|intros; lia]].
      simpl. f_equal. destruct e; reflexivity.
    - destruct (IH ltac:(lia)) as (T & E & D & P).
      cbn [forM_]. rewrite E. cbn [bind].
      assert (Hc' :
        (eType = ele.TRI /\ ele.nDims (ele.set_tNorm_fpts T e) = 2%nat
         /\ (n / (order + 1) < 3)%nat) \/
        (eType = ele.QUAD /\ ele.nDims (ele.set_tNorm_fpts T e) = 2%nat
         /\ (n / (order + 1) < 4)%nat) \/
        (eType = ele.HEX /\ ele.nDims (ele.set_tNorm_fpts T e) = 3%nat
         /\ (n / ((order + 1) * (order + 1)) < 6)%nat)).
      { destruct Hc as [(A & B & C)|[(A & B & C)|(A & B & C)]];
          [left|right; left|right; right]; (split; [exact A|]); (split; [exact B|]);
          apply Nat.Div0.div_lt_upper_bound; lia. }
      destruct (tNorm_step eType order (ele.set_tNorm_fpts T e) n Hc' D Hn)
        as (row & E1 & L1 & S1).
      exists (upd n row T). split; [exact E1|]. split.
      + destruct D as [DL DF]. split; [now rewrite upd_length|].
        apply Forall_upd; assumption.
      + intros fpt Hf. destruct (Nat.eq_dec fpt n) as [->|Hne].
        * rewrite nth_upd_eq by (destruct D; lia). exact S1.
        * rewrite nth_upd_neq by auto. apply P. lia. }
  apply G. lia.
Qed.

Lemma setTransformedNormals_fpts_length_witness :
  exists T,
    ele.setTransformedNormals_fpts ele.QUAD 0 ele.square4 = Ok (ele.set_tNorm_fpts T ele.square4) /\
    dims T 4 2 /\
    forall fpt, (fpt < 4)%nat -> ele.sumsq 2 (nth fpt T []) = 1.
Proof.
  apply (setTransformedNormals_fpts_length ele.QUAD 0 ele.square4).
  - right; left. repeat split.
  - split; [reflexivity | repeat constructor].
Defined.

(** ** getUSpts and setUSpts *)

Lemma matrix_ext (A B : matrix) (n m : nat) :
  dims A n m -> dims B n m ->
  (forall i j, (i < n)%nat -> (j < m)%nat -> mget A i j = mget B i j) -> A = B.
Proof.
  intros HA HB H.
  apply (nth_ext A B [] []); [destruct HA, HB; congruence|].
  intros i Hi. assert (Hi' : (i < n)%nat) by (destruct HA; lia).
  apply (nth_ext _ _ 0 0).
  - rewrite (dims_row A n m i HA Hi'), (dims_row B n m i HB Hi'). reflexivity.
  - intros j Hj. rewrite (dims_row A n m i HA Hi') in Hj. exact (H i j Hi' Hj).
Qed.

Lemma for_block_length (m b : nat) (h : nat -> R) (buf : list R) :
  List.length (for_ m (fun f buf => upd (b + f) (h f) buf) buf) = List.length buf.
Proof. induction m as [|m IH]; [reflexivity|]. cbn [for_]. now rewrite upd_length. Qed.

Lemma for_block_get (m b : nat) (h : nat -> R) (buf : list R) (k : nat) :
  (b + m <= List.length buf)%nat ->
  nth k (for_ m (fun f buf => upd (b + f) (h f) buf) buf) 0
  = if (b <=? k)%nat && (k <? b + m)%nat then h (k - b)%nat else nth k buf 0.
Proof.
  intros Hm. induction m as [|m IH]; cbn [for_].
  - destruct (Nat.leb_spec b k), (Nat.ltb_spec k (b + 0)); simpl; auto; lia.
  - destruct (Nat.eq_dec k (b + m)) as [->|Hne].
    + rewrite nth_upd_eq by (rewrite for_block_length; lia).
      replace (b <=? b + m)%nat with true by (symmetry; apply Nat.leb_le; lia).
      replace (b + m <? b + S m)%nat with true by (symmetry; apply Nat.ltb_lt; lia).
      simpl. f_equal. lia.
    + rewrite nth_upd_neq by auto. rewrite IH by lia.
      destruct (Nat.leb_spec b k), (Nat.ltb_spec k (b + m)), (Nat.ltb_spec k (b + S m));
        simpl; auto; lia.
Qed.

(** A buffer filled block by block. *)
Lemma for_flat (n m : nat) (g : nat -> nat -> R) (buf : list R) :
  (n * m <= List.length buf)%nat ->
  let res := for_ n (fun s buf => for_ m (fun f buf => upd (s * m + f) (g s f) buf) buf) buf in
  List.length res = List.length buf /\
  (forall s f, (s < n)%nat -> (f < m)%nat -> nth (s * m + f) res 0 = g s f) /\
  (forall k, (n * m <= k)%nat -> nth k res 0 = nth k buf 0).
Proof.
  intros Hn. induction n as [|n IH]; cbv zeta.
  - simpl. repeat split; auto. intros; lia.
  - cbv zeta in IH. destruct IH as (L & G & K); [lia|].
    cbn [for_].
    set (r := for_ n (fun s buf => for_ m (fun f buf => upd (s * m + f) (g s f) buf) buf) buf)
      in *.
    assert (Hr : (n * m + m <= List.length r)%nat) by (rewrite L; lia).
    split; [rewrite for_block_length; exact L|]. split.
    + intros s f Hs Hf. rewrite for_block_get by exact Hr.
      destruct (Nat.eq_dec s n) as [->|Hne].
      * replace (n * m <=? n * m + f)%nat with true by (symmetry; apply Nat.leb_le; lia).
        replace (n * m + f <? n * m + m)%nat with true by (symmetry; apply Nat.ltb_lt; lia).
        simpl. f_equal. lia.
      * assert (s * m + f < n * m)%nat by nia.
        replace (n * m <=? s * m + f)%nat with false by (symmetry; apply Nat.leb_gt; lia).
        simpl. apply G; lia.
    + intros k Hk. rewrite for_block_get by exact Hr.
      replace (k <? n * m + m)%nat with false by (symmetry; apply Nat.ltb_ge; lia).
      rewrite andb_false_r. apply K. lia.
Qed.

Lemma setUSpts_eq (Uvec : list R) (e : ele.ele) :
  ele.setUSpts Uvec e
  = ele.set_U_spts
      (for_ (ele.nSpts e) (fun spt U =>
         for_ (ele.nFields e) (fun field U =>
           mset U spt field
                ((fun s f (_ : R) => nth (s * ele.nFields e + f) Uvec 0)
                   spt field (mget U spt field))) U) (ele.U_spts e)) e.
Proof.
  unfold ele.setUSpts, ele.setU.
  rewrite <- (set_U_spts_same e) at 1 2.
  change (ele.nSpts (ele.set_U_spts (ele.U_spts e) e)) with (ele.nSpts e).
  exact (stage_loop (fun e0 s f _ => nth (s * ele.nFields e0 + f) Uvec 0) e
           (fun _ _ _ _ => eq_refl) (ele.U_spts e)).
Qed.

(** X14.  Reading the solution of an element into a buffer with [getUSpts]
    and writing the buffer back with [setUSpts] leaves the element as it
    was, when [U_spts] is sized and the buffer holds [nSpts*nFields]
    entries. *)
Theorem setUSpts_getUSpts (e : ele.ele) (buf : list R) :
  dims (ele.U_spts e) (ele.nSpts e) (ele.nFields e) ->
  (ele.nSpts e * ele.nFields e <= List.length buf)%nat ->
  ele.setUSpts (ele.getUSpts e buf) e = e.
Proof.
  intros HU Hb. rewrite setUSpts_eq.
  destruct (for_flat (ele.nSpts e) (ele.nFields e) (fun s f => mget (ele.U_spts e) s f)
              buf Hb) as (_ & G & _).
  match goal with |- ele.set_U_spts ?M e = e =>
    replace M with (ele.U_spts e); [apply set_U_spts_same|symmetry] end.
  apply (matrix_ext _ _ (ele.nSpts e) (ele.nFields e)); [|exact HU|].
  - apply (for2_dims (ele.nSpts e) (ele.nFields e)
             (fun s f (_ : R) => nth (s * ele.nFields e + f) (ele.getUSpts e buf) 0)).
    exact HU.
  - intros i j Hi Hj.
    rewrite (for2_get (ele.nSpts e) (ele.nFields e)
               (fun s f (_ : R) => nth (s * ele.nFields e + f) (ele.getUSpts e buf) 0))
      by assumption.
    apply G; assumption.
Qed.

Lemma setUSpts_getUSpts_witness :
  ele.setUSpts (ele.getUSpts (ele.lobattoCell 3 (-1) 1) (repeat 0 16)) (ele.lobattoCell 3 (-1) 1)
  = ele.lobattoCell 3 (-1) 1.
Proof.
  apply (setUSpts_getUSpts (ele.lobattoCell 3 (-1) 1) (repeat 0 16)).
  - split; [reflexivity | repeat constructor].
  - simpl; lia.
Defined.

(** X15.  Writing a buffer of [nSpts*nFields] values into a sized [U_spts]
    with [setUSpts] and reading it back with [getUSpts] into a buffer of
    the same length returns the values written: entry [spt*nFields+field]
    of the buffer is [U_spts(spt,field)]. *)
Theorem getUSpts_setUSpts (e : ele.ele) (Uvec buf : list R) :
  dims (ele.U_spts e) (ele.nSpts e) (ele.nFields e) ->
  List.length Uvec = (ele.nSpts e * ele.nFields e)%nat ->
  List.length buf = (ele.nSpts e * ele.nFields e)%nat ->
  ele.getUSpts (ele.setUSpts Uvec e) buf = Uvec /\
  forall spt field, (spt < ele.nSpts e)%nat -> (field < ele.nFields e)%nat ->
    mget (ele.U_spts (ele.setUSpts Uvec e)) spt field
    = nth (spt * ele.nFields e + field) Uvec 0.
Proof.
  intros HU HV Hb.
  assert (HG : forall spt field, (spt < ele.nSpts e)%nat -> (field < ele.nFields e)%nat ->
            mget (ele.U_spts (ele.setUSpts Uvec e)) spt field
            = nth (spt * ele.nFields e + field) Uvec 0).
  { intros s f Hs Hf. rewrite setUSpts_eq. ele_proj.
    rewrite (for2_get (ele.nSpts e) (ele.nFields e)
               (fun s f (_ : R) => nth (s * ele.nFields e + f) Uvec 0)) by assumption.
    reflexivity. }
  split; [|exact HG].
  unfold ele.getUSpts.
  assert (N1 : ele.nSpts (ele.setUSpts Uvec e) = ele.nSpts e)
    by (rewrite setUSpts_eq; reflexivity).
  assert (N2 : ele.nFields (ele.setUSpts Uvec e) = ele.nFields e)
    by (rewrite setUSpts_eq; reflexivity).
  rewrite N1, N2.
  destruct (for_flat (ele.nSpts e) (ele.nFields e)
              (fun s f => mget (ele.U_spts (ele.setUSpts Uvec e)) s f) buf ltac:(lia))
    as (L & G & _).
  cbv zeta in L, G.
  apply (nth_ext _ _ 0 0); [rewrite L; congruence|].
  intros k Hk. rewrite L, Hb in Hk.
  assert (Hm : (0 < ele.nFields e)%nat) by nia.
  pose proof (Nat.div_mod_eq k (ele.nFields e)) as Hdm.
  pose proof (Nat.mod_upper_bound k (ele.nFields e) ltac:(lia)) as Hmod.
  assert (Hdiv : (k / ele.nFields e < ele.nSpts e)%nat)
    by (apply Nat.Div0.div_lt_upper_bound; lia).
  assert (Hk2 : k = (k / ele.nFields e * ele.nFields e + k mod ele.nFields e)%nat)
    by (rewrite Nat.mul_comm; exact Hdm).
  transitivity (nth (k / ele.nFields e * ele.nFields e + k mod ele.nFields e) Uvec 0);
    [|f_equal; symmetry; exact Hk2].
  rewrite Hk2 at 1.
  rewrite G by assumption. apply HG; assumption.
Qed.

Lemma getUSpts_setUSpts_witness :
  ele.getUSpts (ele.setUSpts [5] ele.square4) [0] = [5].
Proof.
  apply (getUSpts_setUSpts ele.square4 [5] [0]).
  - split; [reflexivity | repeat constructor].
  - reflexivity.
  - reflexivity.
Defined.

(** ** getNormResidual *)

(** Every entry of the result is the outcome of the loop over the solution
    points on that entry alone. *)
Lemma getNormResidual_entry (weights : list R) (normType : nat) (e : ele.ele) :
  List.length (ele.getNormResidual weights normType e) = ele.nFields e /\
  forall i, (i < ele.nFields e)%nat ->
    nth i (ele.getNormResidual weights normType e) 0
    = for_ (ele.nSpts e) (fun spt acc =>
        let d := mget (nth 0 (ele.divF_spts e) []) spt i in
        if (normType =? 1)%nat then acc + Rabs d * nth spt weights 0
        else if (normType =? 2)%nat then
          acc + d * d / nth spt (ele.detJac_spts e) 0 * nth spt weights 0
        else if (normType =? 3)%nat then Rmax (Rabs d / nth spt (ele.detJac_spts e) 0) acc
        else acc) 0.
Proof.
  unfold ele.getNormResidual. induction (ele.nSpts e) as [|n [IHl IHg]].
  - simpl. split; [apply repeat_length|]. intros i Hi. apply nth_repeat.
  - cbn [for_].
    set (r := for_ n _ (repeat 0 (ele.nFields e))) in *.
    pose (h := fun (i : nat) (old : R) =>
      if (normType =? 1)%nat
      then old + Rabs (mget (nth 0 (ele.divF_spts e) []) n i) * nth n weights 0
      else if (normType =? 2)%nat
      then old + mget (nth 0 (ele.divF_spts e) []) n i * mget (nth 0 (ele.divF_spts e) []) n i
                 / nth n (ele.detJac_spts e) 0 * nth n weights 0
      else if (normType =? 3)%nat
      then Rmax (Rabs (mget (nth 0 (ele.divF_spts e) []) n i) / nth n (ele.detJac_spts e) 0) old
      else old).
    rewrite (for_ext _ (fun i res => upd i (h i (nth i res 0)) res)).
    + split; [rewrite (for_upd_length _ (fun i res => h i (nth i res 0))); exact IHl|].
      intros i Hi. rewrite for_upd_get by lia.
      apply Nat.ltb_lt in Hi as Hi'. rewrite Hi'. unfold h. cbv zeta.
      rewrite IHg by exact Hi. reflexivity.
    + intros i res _. unfold h. cbv zeta.
      destruct (normType =? 1)%nat; [reflexivity|].
      destruct (normType =? 2)%nat; [reflexivity|].
      destruct (normType =? 3)%nat; [reflexivity|].
      symmetry. apply upd_nth_same.
Qed.

Lemma for_Rmax_spec (n : nat) (f : nat -> R) :
  let m := for_ n (fun s acc => Rmax (f s) acc) 0 in
  0 <= m /\ (forall s, (s < n)%nat -> f s <= m) /\
  (m = 0 \/ exists s, (s < n)%nat /\ m = f s).
Proof.
  induction n as [|n IH]; cbv zeta.
  - simpl. split; [lra|]. split; [intros; lia|left; reflexivity].
  - cbv zeta in IH. destruct IH as (P & U & A). cbn [for_].
    set (m := for_ n (fun s acc => Rmax (f s) acc) 0) in *.
    split; [pose proof (Rmax_r (f n) m); lra|]. split.
    + intros s Hs. destruct (Nat.eq_dec s n) as [->|Hne]; [apply Rmax_l|].
      pose proof (Rmax_r (f n) m). specialize (U s ltac:(lia)). lra.
    + unfold Rmax. destruct (Rle_dec (f n) m).
      * destruct A as [A|(s & Hs & A)]; [left; exact A|].
        right. exists s. split; [lia|exact A].
      * right. exists n. split; [lia|reflexivity].
Qed.

(** X16.  For [normType == 3], entry [i] of [getNormResidual] is the
    largest of 0 and the values [|divF_spts[0](spt,i)| / detJac_spts[spt]]
    over the solution points: it is non-negative, at least each of these
    values, and either 0 or one of them. *)
Theorem getNormResidual_inf (weights : list R) (e : ele.ele) (i : nat) :
  (i < ele.nFields e)%nat ->
  let r := nth i (ele.getNormResidual weights 3 e) 0 in
  let v := fun spt =>
    Rabs (mget (nth 0 (ele.divF_spts e) []) spt i) / nth spt (ele.detJac_spts e) 0 in
  0 <= r /\
  (forall spt, (spt < ele.nSpts e)%nat -> v spt <= r) /\
  (r = 0 \/ exists spt, (spt < ele.nSpts e)%nat /\ r = v spt).
Proof.
  intros Hi r v. unfold r.
  rewrite (proj2 (getNormResidual_entry weights 3 e) i Hi). simpl Nat.eqb. cbv iota zeta.
  exact (for_Rmax_spec (ele.nSpts e) v).
Qed.

Lemma getNormResidual_inf_witness :
  0 <= nth 0 (ele.getNormResidual [1] 3 solver.ele1) 0 /\
  Rabs (mget (nth 0 (ele.divF_spts solver.ele1) []) 0 0) / nth 0 (ele.detJac_spts solver.ele1) 0
  <= nth 0 (ele.getNormResidual [1] 3 solver.ele1) 0.
Proof.
  pose proof (getNormResidual_inf [1] solver.ele1 0 (le_n 1)) as H.
  cbv zeta in H. destruct H as (H1 & H2 & _).
  split; [exact H1|]. exact (H2 0%nat (le_n 1)).
Defined.

(** X17.  [getNormResidual] returns one entry per field.  For
    [normType == 1] entry [i] is the weighted sum of [|divF_spts[0](spt,i)|]
    over the solution points, for [normType == 2] the weighted sum of
    [divF_spts[0](spt,i)^2 / detJac_spts[spt]], and for a [normType] other
    than 1, 2 and 3 it is 0. *)
Theorem getNormResidual_sums (weights : list R) (normType : nat) (e : ele.ele) (i : nat) :
  (i < ele.nFields e)%nat ->
  let r := ele.getNormResidual weights normType e in
  let d := fun spt => mget (nth 0 (ele.divF_spts e) []) spt i in
  List.length r = ele.nFields e /\
  (normType = 1%nat ->
   nth i r 0 = Rsum (ele.nSpts e) (fun spt => Rabs (d spt) * nth spt weights 0)) /\
  (normType = 2%nat ->
   nth i r 0 = Rsum (ele.nSpts e) (fun spt =>
                 d spt * d spt / nth spt (ele.detJac_spts e) 0 * nth spt weights 0)) /\
  (normType <> 1%nat -> normType <> 2%nat -> normType <> 3%nat -> nth i r 0 = 0).
Proof.
  intros Hi r d. unfold r.
  destruct (getNormResidual_entry weights normType e) as (L & G).
  split; [exact L|]. rewrite (G i Hi). cbv zeta.
  split; [|split].
  - intros ->. reflexivity.
  - intros ->. reflexivity.
  - intros H1 H2 H3.
    apply Nat.eqb_neq in H1, H2, H3. rewrite H1, H2, H3.
    apply (for_ind (fun _ acc => acc = 0)); auto.
Qed.

Lemma getNormResidual_sums_witness :
  nth 0 (ele.getNormResidual [1] 1 solver.ele1) 0 = Rsum 1 (fun spt => Rabs 2 * 1) /\
  nth 0 (ele.getNormResidual [1] 7 solver.ele1) 0 = 0.
Proof.
  split.
  - pose proof (getNormResidual_sums [1] 1 solver.ele1 0 (le_n 1)) as H.
    cbv zeta in H. destruct H as (_ & H & _). exact (H eq_refl).
  - pose proof (getNormResidual_sums [1] 7 solver.ele1 0 (le_n 1)) as H.
    cbv zeta in H. destruct H as (_ & _ & _ & H).
    apply H; discriminate.
Defined.

(** ** calcWaveSpFpts and calcDt *)

Lemma for_tab_length {A : Type} (n : nat) (val : nat -> A) (l : list A) :
  List.length (for_ n (fun i l => upd i (val i) l) l) = List.length l.
Proof. induction n as [|n IH]; [reflexivity|]. cbn [for_]. now rewrite upd_length. Qed.

Lemma for_tab_get {A : Type} (n : nat) (val : nat -> A) (d : A) (l : list A) (i : nat) :
  (n <= List.length l)%nat ->
  nth i (for_ n (fun i l => upd i (val i) l) l) d
  = if (i <? n)%nat then val i else nth i l d.
Proof.
  intros Hn. induction n as [|n IH]; [reflexivity|]. cbn [for_].
  destruct (Nat.eq_dec i n) as [->|Hne].
  - rewrite nth_upd_eq by (rewrite for_tab_length; lia).
    replace (n <? S n)%nat with true by (symmetry; apply Nat.ltb_lt; lia). reflexivity.
  - rewrite nth_upd_neq by auto. rewrite IH by lia.
    destruct (Nat.ltb_spec i n), (Nat.ltb_spec i (S n)); auto; lia.
Qed.

(** X18.  After [calcWaveSpFpts] the wave speed stored at a flux point of
    positive area element is non-negative, for either equation and with or
    without mesh motion; the array keeps its length and its entries beyond
    the flux points. *)
Theorem calcWaveSpFpts_nonneg (params : input.input) (advectV : point)
        (gridVel_fpts : matrix) (e : ele.ele) (waveSp_fpts : list R) (fpt : nat) :
  (ele.nFpts e <= List.length waveSp_fpts)%nat ->
  (fpt < ele.nFpts e)%nat ->
  0 < nth fpt (ele.dA_fpts e) 0 ->
  let ws := ele.calcWaveSpFpts params advectV gridVel_fpts e waveSp_fpts in
  0 <= nth fpt ws 0 /\
  List.length ws = List.length waveSp_fpts /\
  forall k, (ele.nFpts e <= k)%nat -> nth k ws 0 = nth k waveSp_fpts 0.
Proof.
  intros HL Hf HA ws. unfold ws, ele.calcWaveSpFpts.
  assert (Hinv : 0 < / nth fpt (ele.dA_fpts e) 0) by (apply Rinv_0_lt_compat; exact HA).
  assert (Hk : forall k, (ele.nFpts e <= k)%nat -> (k <? ele.nFpts e)%nat = false)
    by (intros; apply Nat.ltb_ge; lia).
  apply Nat.ltb_lt in Hf.
  destruct (input.equation params), (negb (input.motion params =? 0)%nat),
    (ele.nDims e =? 3)%nat; cbv beta iota zeta;
    match goal with |- context [for_ _ ?body _] =>
      match body with (fun fpt l => upd fpt (@?val fpt) l) =>
        rewrite (for_tab_length _ val);
        (split; [|split; [reflexivity|intros k Hk'; rewrite (for_tab_get _ val) by exact HL;
                                      rewrite (Hk k Hk'); reflexivity]]);
        rewrite (for_tab_get _ val) by exact HL; rewrite Hf
      end end;
    unfold Rdiv; (apply Rmult_le_pos; [|lra]);
    first [apply sqrt_pos
          | apply Rplus_le_le_0_compat; [apply Rabs_pos | apply sqrt_pos]].
Qed.

Lemma calcWaveSpFpts_nonneg_witness :
  0 <= nth 0 (ele.calcWaveSpFpts ele.staticRun origin (zeros 4 2)
                (ele.set_dA_fpts [2; 2; 2; 2] ele.square4) [0; 0; 0; 0]) 0.
Proof.
  apply (calcWaveSpFpts_nonneg ele.staticRun origin (zeros 4 2)
           (ele.set_dA_fpts [2; 2; 2; 2] ele.square4) [0; 0; 0; 0] 0).
  - simpl; lia.
  - simpl; lia.
  - simpl; lra.
Defined.

(** The largest wave speed over the flux points of positive area element,
    as [calcDt] accumulates it from 0. *)
Lemma calcDt_waveSp (dA ws : list R) (n : nat) :
  let m := for_ n (fun fpt waveSp =>
             if Rltb 0 (nth fpt dA 0) then Rmax waveSp (nth fpt ws 0) else waveSp) 0 in
  0 <= m /\ forall fpt, (fpt < n)%nat -> 0 < nth fpt dA 0 -> nth fpt ws 0 <= m.
Proof.
  induction n as [|n IH]; cbv zeta.
  - simpl. split; [lra|intros; lia].
  - cbv zeta in IH. destruct IH as (P & U). cbn [for_].
    set (m := for_ n _ 0) in *.
    destruct (Rltb 0 (nth n dA 0)) eqn:E.
    + pose proof (Rmax_l m (nth n ws 0)). pose proof (Rmax_r m (nth n ws 0)).
      split; [lra|]. intros fpt Hf HA.
      destruct (Nat.eq_dec fpt n) as [->|Hne]; [lra|].
      specialize (U fpt ltac:(lia) HA). lra.
    + apply Rltb_iff_false in E. split; [exact P|]. intros fpt Hf HA.
      destruct (Nat.eq_dec fpt n) as [->|Hne]; [lra|]. apply U; [lia|exact HA].
Qed.

Lemma calcDt_waveSp_ext (dA ws ws' : list R) (n : nat) :
  (forall fpt, (fpt < n)%nat -> 0 < nth fpt dA 0 -> nth fpt ws' 0 = nth fpt ws 0) ->
  for_ n (fun fpt waveSp =>
    if Rltb 0 (nth fpt dA 0) then Rmax waveSp (nth fpt ws' 0) else waveSp) 0
  = for_ n (fun fpt waveSp =>
      if Rltb 0 (nth fpt dA 0) then Rmax waveSp (nth fpt ws 0) else waveSp) 0.
Proof.
  intros H. induction n as [|n IH]; [reflexivity|]. cbn [for_].
  rewrite IH by (intros; apply H; auto; lia).
  destruct (Rltb 0 (nth n dA 0)) eqn:E; [|reflexivity].
  apply Rltb_iff in E. rewrite (H n) by (auto; lia). reflexivity.
Qed.

(** X19.  For a positive product [CFL * getCFLLimit(order)], the time step
    of [ele::calcDt] is positive, is stored in the element (nothing else
    changes), is at most [2e10] times that product, and at every flux point
    of positive area element satisfies
    [dt * waveSp_fpts[fpt] <= 2 * CFL * getCFLLimit(order)]; the wave
    speeds at the other flux points (collapsed edges) have no influence on
    it. *)
Theorem calcDt_cfl (CFL cflLimit : R) (waveSp_fpts : list R) (e : ele.ele) :
  0 < CFL * cflLimit ->
  let r := ele.calcDt CFL cflLimit waveSp_fpts e in
  0 < fst r /\ fst r <= CFL * cflLimit * 2e10 /\
  snd r = ele.set_dt (fst r) e /\
  (forall fpt, (fpt < ele.nFpts e)%nat -> 0 < nth fpt (ele.dA_fpts e) 0 ->
     fst r * nth fpt waveSp_fpts 0 <= 2 * (CFL * cflLimit)) /\
  (forall ws', (forall fpt, (fpt < ele.nFpts e)%nat -> 0 < nth fpt (ele.dA_fpts e) 0 ->
                  nth fpt ws' 0 = nth fpt waveSp_fpts 0) ->
     ele.calcDt CFL cflLimit ws' e = r).
Proof.
  intros HC r. unfold r, ele.calcDt. cbv zeta. cbn [fst snd].
  destruct (calcDt_waveSp (ele.dA_fpts e) waveSp_fpts (ele.nFpts e)) as (P & U).
  cbv zeta in P, U.
  set (m := for_ (ele.nFpts e) _ 0) in *.
  assert (Hm : 0 < m + 1e-10) by lra.
  assert (Hi : 0 < / (m + 1e-10)) by (apply Rinv_0_lt_compat; exact Hm).
  split; [unfold Rdiv; nra|]. split.
  - assert (/ (m + 1e-10) <= 1e10).
    { replace 1e10 with (/ 1e-10) by lra.
      apply Rinv_le_contravar; lra. }
    unfold Rdiv. nra.
  - split; [reflexivity|]. split.
    + intros fpt Hf HA. specialize (U fpt Hf HA).
      assert (nth fpt waveSp_fpts 0 * / (m + 1e-10) <= 1).
      { apply (Rmult_le_reg_r (m + 1e-10)); [exact Hm|].
        rewrite Rmult_assoc, Rinv_l by lra. lra. }
      unfold Rdiv. nra.
    + intros ws' H. unfold m.
      rewrite (calcDt_waveSp_ext (ele.dA_fpts e) waveSp_fpts ws' (ele.nFpts e) H).
      reflexivity.
Qed.

Lemma calcDt_cfl_witness :
  0 < fst (ele.calcDt (1/2) 1 [3; 1; 2; 1] (ele.set_dA_fpts [2; 2; 0; 2] ele.square4)).
Proof.
  apply (calcDt_cfl (1/2) 1 [3; 1; 2; 1] (ele.set_dA_fpts [2; 2; 0; 2] ele.square4)).
  lra.
Defined.

(** ** solver::calcDt *)

Lemma nth_error_upd_eq {A : Type} (i : nat) (x : A) (l : list A) :
  (i < List.length l)%nat -> nth_error (upd i x l) i = Some x.
Proof.
  revert i; induction l as [|h t IH]; intros [|i] H; simpl in *; try lia; auto.
  apply IH. lia.
Qed.

Lemma nth_error_upd_neq {A : Type} (i j : nat) (x : A) (l : list A) :
  i <> j -> nth_error (upd i x l) j = nth_error l j.
Proof.
  revert i j; induction l as [|h t IH]; intros [|i] [|j] H; simpl; auto; try congruence.
Qed.

Section CalcDtFacts.

Variable CFL : R.
Variable cflLimit : nat -> R.
Variable waveSp_fpts : nat -> list R.
Variable s : solver.solver.

Lemma solver_calcDt_loop (n : nat) :
  (n <= List.length (solver.eles s))%nat ->
  let st := for_ n (fun i '(dt, es) =>
      match nth_error es i with
      | Some e =>
          let '(d, e') := ele.calcDt CFL (cflLimit i) (waveSp_fpts i) e in
          (Some (match dt with Some x => Rmin x d | None => d end), upd i e' es)
      | None => (dt, es)
      end) (@None R, solver.eles s) in
  List.length (snd st) = List.length (solver.eles s) /\
  (forall i, (n <= i)%nat -> nth_error (snd st) i = nth_error (solver.eles s) i) /\
  (forall i e, (i < n)%nat -> nth_error (solver.eles s) i = Some e ->
     nth_error (snd st) i = Some (ele.set_dt (fst (ele.calcDt CFL (cflLimit i) (waveSp_fpts i) e)) e)) /\
  match fst st with
  | None => n = 0%nat
  | Some x =>
      (forall i e, (i < n)%nat -> nth_error (solver.eles s) i = Some e -> x <= fst (ele.calcDt CFL (cflLimit i) (waveSp_fpts i) e)) /\
      exists i e, (i < n)%nat /\ nth_error (solver.eles s) i = Some e /\ x = fst (ele.calcDt CFL (cflLimit i) (waveSp_fpts i) e)
  end.
Proof.
  induction n as [|n IH]; intros Hn; cbv zeta.
  - simpl. repeat split; auto; intros; lia.
  - cbv zeta in IH. destruct (IH ltac:(lia)) as (L & K & G & M). clear IH.
    cbn [for_]. destruct (for_ n _ (None, solver.eles s)) as [dt es].
    cbn [fst snd] in *.
    destruct (nth_error (solver.eles s) n) as [e|] eqn:En;
      [|apply nth_error_None in En; lia].
    rewrite (K n (le_n n)), En.
    change (ele.calcDt CFL (cflLimit n) (waveSp_fpts n) e)
      with (fst (ele.calcDt CFL (cflLimit n) (waveSp_fpts n) e), ele.set_dt (fst (ele.calcDt CFL (cflLimit n) (waveSp_fpts n) e)) e).
    cbn [fst snd].
    split; [rewrite upd_length; exact L|]. split.
    { intros i Hi. rewrite nth_error_upd_neq by lia. apply K. lia. }
    split.
    { intros i e0 Hi He0. destruct (Nat.eq_dec i n) as [->|Hne].
      - rewrite nth_error_upd_eq by lia. congruence.
      - rewrite nth_error_upd_neq by auto. apply G; [lia|exact He0]. }
    destruct dt as [x|].
    + destruct M as (M1 & i0 & e0 & Hi0 & He0 & Hx). split.
      * intros i e1 Hi He1. destruct (Nat.eq_dec i n) as [->|Hne].
        -- replace e1 with e by congruence. apply Rmin_r.
        -- pose proof (Rmin_l x (fst (ele.calcDt CFL (cflLimit n) (waveSp_fpts n) e))). specialize (M1 i e1 ltac:(lia) He1). lra.
      * unfold Rmin. destruct (Rle_dec x (fst (ele.calcDt CFL (cflLimit n) (waveSp_fpts n) e))).
        -- exists i0, e0. split; [lia|]. split; assumption.
        -- exists n, e. split; [lia|]. split; [exact En|reflexivity].
    + subst n. split.
      * intros i e1 Hi He1. assert (i = 0%nat) by lia. subst i.
        replace e1 with e by congruence. lra.
      * exists 0%nat, e. split; [lia|]. split; [exact En|reflexivity].
Qed.

End CalcDtFacts.

(** The reduction returns the smallest of the values it is given. *)
Lemma MPI_Allreduce_MIN_spec (ranks : list (option R)) (d : option R) :
  match solver.MPI_Allreduce_MIN d ranks with
  | None => d = None /\ (forall x, ~ In (Some x) ranks)
  | Some m =>
      (forall x, d = Some x -> m <= x) /\
      (forall x, In (Some x) ranks -> m <= x) /\
      (d = Some m \/ In (Some m) ranks)
  end.
Proof.
  unfold solver.MPI_Allreduce_MIN. revert d.
  induction ranks as [|r ranks IH]; intros d; simpl.
  - destruct d as [x|].
    + split; [intros y E; injection E as <-; lra|]. split; [tauto|]. left; reflexivity.
    + split; [reflexivity|tauto].
  - specialize (IH (solver.min_dt d r)).
    destruct (fold_left solver.min_dt ranks (solver.min_dt d r)) as [m|].
    + destruct IH as (A & B & C). split; [|split].
      * intros x ->. destruct r as [y|]; simpl in A.
        -- specialize (A _ eq_refl). pose proof (Rmin_l x y). lra.
        -- apply A; reflexivity.
      * intros x [->|Hx]; [|apply B; exact Hx].
        destruct d as [y|]; simpl in A.
        -- specialize (A _ eq_refl). pose proof (Rmin_r y x). lra.
        -- apply A; reflexivity.
      * destruct C as [C|C]; [|right; right; exact C].
        destruct d as [x|], r as [y|]; simpl in C; try discriminate.
        -- injection C as <-. unfold Rmin. destruct (Rle_dec x y); [left|right; left];
             reflexivity.
        -- left; exact C.
        -- right; left; exact C.
    + destruct IH as (A & B).
      destruct d as [x|], r as [y|]; simpl in A; try discriminate.
      split; [reflexivity|]. intros x [E|Hx]; [discriminate|exact (B x Hx)].
Qed.

(** X20.  [solver::calcDt] stores in every element its own time step and
    in [params->dt] the smallest of the time steps of its elements and,
    unless the build has no MPI, of the values the other ranks hand to the
    reduction: the stored value is at most each of them and is one of
    them, so in a build without MPI it is the time step of one of the
    elements.  The model has no result exactly when there is no element
    and no finite value from another rank (the code leaves [INFINITY] in
    [params->dt]). *)
Theorem solver_calcDt_min (CFL : R) (cflLimit : nat -> R) (waveSp_fpts : nat -> list R)
        (NO_MPI : bool) (dtRanks : list (option R)) (s : solver.solver) :
  let dtOf := fun i e => fst (ele.calcDt CFL (cflLimit i) (waveSp_fpts i) e) in
  let others := if NO_MPI then [] else dtRanks in
  match solver.calcDt CFL cflLimit waveSp_fpts NO_MPI dtRanks s with
  | None => solver.eles s = [] /\ (forall x, ~ In (Some x) others)
  | Some s' =>
      (forall i e, nth_error (solver.eles s) i = Some e ->
         input.dt (solver.params s') <= dtOf i e /\
         nth_error (solver.eles s') i = Some (ele.set_dt (dtOf i e) e)) /\
      (forall x, In (Some x) others -> input.dt (solver.params s') <= x) /\
      ((exists i e, nth_error (solver.eles s) i = Some e /\
          input.dt (solver.params s') = dtOf i e) \/
       In (Some (input.dt (solver.params s'))) others) /\
      List.length (solver.eles s') = List.length (solver.eles s)
  end.
Proof.
  intros dtOf others. unfold solver.calcDt.
  pose proof (solver_calcDt_loop CFL cflLimit waveSp_fpts s
                (List.length (solver.eles s)) (le_n _)) as H.
  cbv zeta in H. destruct H as (L & _ & G & M).
  destruct (for_ (List.length (solver.eles s)) _ (None, solver.eles s)) as [dt es].
  cbn [fst snd] in *. cbv zeta.
  assert (R : match (if NO_MPI then dt else solver.MPI_Allreduce_MIN dt dtRanks) with
              | None => dt = None /\ (forall x, ~ In (Some x) others)
              | Some m =>
                  (forall x, dt = Some x -> m <= x) /\
                  (forall x, In (Some x) others -> m <= x) /\
                  (dt = Some m \/ In (Some m) others)
              end).
  { unfold others. destruct NO_MPI; [|apply MPI_Allreduce_MIN_spec].
    destruct dt as [x|].
    - split; [intros y E; injection E as <-; lra|]. split; [intros y []|].
      left; reflexivity.
    - split; [reflexivity|intros y []]. }
  destruct (if NO_MPI then dt else solver.MPI_Allreduce_MIN dt dtRanks) as [m|].
  - destruct R as (R1 & R2 & R3).
    change (input.dt (solver.params
              (solver.set_params (input.set_dt m (solver.params s)) (solver.set_eles es s))))
      with m.
    change (solver.eles
              (solver.set_params (input.set_dt m (solver.params s)) (solver.set_eles es s)))
      with es.
    split; [|split; [exact R2|split; [|exact L]]].
    + intros i e He.
      assert (Hi : (i < List.length (solver.eles s))%nat)
        by (apply nth_error_Some; congruence).
      split; [|apply G; assumption].
      destruct dt as [x|].
      * destruct M as (M1 & _). specialize (M1 i e Hi He). specialize (R1 x eq_refl).
        fold (dtOf i e) in M1. lra.
      * exfalso. subst. lia.
    + destruct R3 as [R3|R3]; [|right; exact R3].
      subst dt. destruct M as (_ & i0 & e0 & Hi0 & He0 & Hx).
      left. exists i0, e0. split; assumption.
  - destruct R as (R1 & R2). subst dt. split; [|exact R2].
    apply length_zero_iff_nil. exact M.
Qed.

(** Two ranks, of which this one holds no element: [params->dt] receives
    the value of the other rank. *)
Lemma solver_calcDt_other_rank (CFL : R) (cflLimit : nat -> R)
      (waveSp_fpts : nat -> list R) :
  option_map (fun s' => input.dt (solver.params s'))
    (solver.calcDt CFL cflLimit waveSp_fpts false [Some (1/4)]
       (solver.set_eles [] solver.solver1))
  = Some (1/4).
Proof. reflexivity. Qed.

(** ** setInitialCondition *)

Lemma for_succ {S : Type} (n : nat) (body : nat -> S -> S) (s : S) :
  for_ (Datatypes.S n) body s = body n (for_ n body s).
Proof. reflexivity. Qed.

(** The loop that fills [U_spts] with one Navier-Stokes state per solution
    point writes whole rows. *)
Lemma nsFill_eq (e : ele.ele) (rho mx my mz en : nat -> R) (n : nat) :
  (ele.nDims e = 2 \/ ele.nDims e = 3)%nat ->
  dims (ele.U_spts e) (ele.nSpts e) (ele.nDims e + 2) ->
  (n <= ele.nSpts e)%nat ->
  for_ n (fun spt e =>
    let e := ele.setU spt 0 (rho spt) e in
    let e := ele.setU spt 1 (mx spt) e in
    let e := ele.setU spt 2 (my spt) e in
    let e := if (ele.nDims e =? 3)%nat then ele.setU spt 3 (mz spt) e else e in
    ele.setU spt (ele.nDims e + 1) (en spt) e) e
  = ele.set_U_spts
      (for_ n (fun spt U =>
         upd spt (if (ele.nDims e =? 3)%nat
                  then [rho spt; mx spt; my spt; mz spt; en spt]
                  else [rho spt; mx spt; my spt; en spt]) U) (ele.U_spts e)) e.
Proof.
  intros HD HU Hn. induction n as [|n IH].
  - simpl. symmetry. apply set_U_spts_same.
  - rewrite for_succ, IH by lia. clear IH. rewrite for_succ.
    match goal with |- context [for_ n ?b (ele.U_spts e)] =>
      set (Un := for_ n b (ele.U_spts e)) end.
    assert (HL : (n < List.length Un)%nat)
      by (unfold Un; rewrite for_tab_length; destruct HU; lia).
    assert (HR : List.length (nth n Un []) = (ele.nDims e + 2)%nat).
    { unfold Un. rewrite for_tab_get by (destruct HU; lia).
      replace (n <? n)%nat with false by (symmetry; apply Nat.ltb_ge; lia).
      apply (dims_row _ _ _ n HU). lia. }
    clearbody Un. cbv zeta. unfold ele.setU. ele_proj.
    destruct HD as [HD|HD]; rewrite HD in *; simpl Nat.eqb; cbv iota; ele_proj;
      rewrite ?HD; simpl Nat.add;
      unfold mset; rewrite !nth_upd_eq by (rewrite ?upd_length; exact HL);
      rewrite !upd_upd.
    + destruct (nth n Un []) as [|a [|b [|c [|d [|x r]]]]]; simpl in HR; try discriminate.
      reflexivity.
    + destruct (nth n Un []) as [|a [|b [|c [|d [|x [|y r]]]]]]; simpl in HR;
        try discriminate.
      reflexivity.
Qed.

(** X21.  The uniform initial condition ([icType == 0]) of a Navier-Stokes
    run stores at every solution point the conserved state whose primitive
    variables are the prescribed ones: after [setInitialCondition],
    [getPrimitives] returns [rhoIC], [vxIC], [vyIC] (and [vzIC] in three
    dimensions) and [pIC], for a non-zero [rhoIC] and [gamma] other than
    1. *)
Theorem setInitialCondition_uniform (params : input.input) (ic : input.initialCondition)
        (pos_spts : list point) (e : ele.ele) (spt : nat) :
  input.equation params = input.NAVIER_STOKES ->
  input.icType ic = 0%nat ->
  (ele.nDims e = 2 \/ ele.nDims e = 3)%nat ->
  ele.nFields e = (ele.nDims e + 2)%nat ->
  dims (ele.U_spts e) (ele.nSpts e) (ele.nFields e) ->
  input.rhoIC ic <> 0 -> input.gamma params <> 1 ->
  (spt < ele.nSpts e)%nat ->
  ele.getPrimitives params (ele.setInitialCondition params ic pos_spts e) spt
  = if (ele.nDims e =? 3)%nat
    then [input.rhoIC ic; input.vxIC ic; input.vyIC ic; input.vzIC ic; input.pIC ic]
    else [input.rhoIC ic; input.vxIC ic; input.vyIC ic; input.pIC ic].
Proof.
  intros Heq Hic HD HF HU Hrho Hg Hs.
  rewrite HF in HU.
  assert (E0 : ele.setInitialCondition params ic pos_spts e
               = ele.set_U_spts
                   (for_ (ele.nSpts e) (fun spt U =>
                      upd spt
                        (if (ele.nDims e =? 3)%nat
                         then [input.rhoIC ic; input.rhoIC ic * input.vxIC ic;
                               input.rhoIC ic * input.vyIC ic;
                               input.rhoIC ic
                               * (if (ele.nDims e =? 3)%nat then input.vzIC ic else 0);
                               input.pIC ic / (input.gamma params - 1)
                               + 0.5 * input.rhoIC ic
                                 * (input.vxIC ic * input.vxIC ic
                                    + input.vyIC ic * input.vyIC ic
                                    + (if (ele.nDims e =? 3)%nat then input.vzIC ic else 0)
                                      * (if (ele.nDims e =? 3)%nat then input.vzIC ic else 0))]
                         else [input.rhoIC ic; input.rhoIC ic * input.vxIC ic;
                               input.rhoIC ic * input.vyIC ic;
                               input.pIC ic / (input.gamma params - 1)
                               + 0.5 * input.rhoIC ic
                                 * (input.vxIC ic * input.vxIC ic
                                    + input.vyIC ic * input.vyIC ic
                                    + (if (ele.nDims e =? 3)%nat then input.vzIC ic else 0)
                                      * (if (ele.nDims e =? 3)%nat then input.vzIC ic else 0))])
                        U) (ele.U_spts e)) e).
  { unfold ele.setInitialCondition. rewrite Heq, Hic. simpl Nat.eqb. cbv iota.
    exact (nsFill_eq e _ _ _ _ _ (ele.nSpts e) HD HU (le_n _)). }
  rewrite E0. unfold ele.getPrimitives. ele_proj.
  match goal with |- context [for_ _ ?body _] =>
    match body with (fun spt l => upd spt (@?val spt) l) =>
      rewrite (for_tab_get _ val) by (destruct HU; lia)
    end end.
  apply Nat.ltb_lt in Hs. rewrite Hs. rewrite HF.
  assert (Hg' : input.gamma params - 1 <> 0) by lra.
  unfold ele.primitives. rewrite Heq.
  destruct HD as [HD|HD]; rewrite HD; simpl; repeat (f_equal; try (field; auto)).
Qed.

Lemma setInitialCondition_uniform_witness :
  ele.getPrimitives ele.staticRun
    (ele.setInitialCondition ele.staticRun
       (input.mkInitialCondition 0 1 2 3 0 4) [] (ele.lobattoCell 3 (-1) 1)) 0
  = [1; 2; 3; 4].
Proof.
  apply (setInitialCondition_uniform ele.staticRun (input.mkInitialCondition 0 1 2 3 0 4)
           [] (ele.lobattoCell 3 (-1) 1) 0).
  - reflexivity.
  - reflexivity.
  - left; reflexivity.
  - reflexivity.
  - split; [reflexivity | repeat constructor].
  - simpl; lra.
  - simpl; lra.
  - simpl; lia.
Defined.

Lemma vortex_base_pos (g r2 : R) :
  1 < g <= 25 -> 0 <= r2 ->
  0 < 1 - 5*5*(g - 1) / (8*g*PI*PI) * exp (1 - r2).
Proof.
  intros [Hg1 Hg2] Hr.
  assert (HPI : 3 < PI) by (pose proof PI2_3_2; lra).
  assert (HPI2 : 9 < PI * PI) by nra.
  assert (He : 0 < exp (1 - r2) <= 3).
  { split; [apply exp_pos|].
    pose proof (exp_le_mono (1 - r2) 1 ltac:(lra)). pose proof exp_le_3. lra. }
  assert (HD : 0 < 8*g*PI*PI) by nra.
  assert (HA : 5*5*(g - 1) / (8*g*PI*PI) * exp (1 - r2) < 1).
  { apply (Rmult_lt_reg_r (8*g*PI*PI)); [exact HD|].
    replace (5*5*(g - 1) / (8*g*PI*PI) * exp (1 - r2) * (8*g*PI*PI))
      with (25 * ((g - 1) * exp (1 - r2))) by (field; nra).
    assert ((g - 1) * exp (1 - r2) <= 3 * (g - 1)) by nra.
    assert (9 * g < g * (PI * PI)) by nra.
    lra. }
  lra.
Qed.

(** X22.  The isentropic-vortex initial condition ([icType == 1]) of a
    Navier-Stokes run, for a ratio of specific heats between 1 and 25:
    the base of the power that gives the density is positive, and the
    primitive variables that [getPrimitives] returns after
    [setInitialCondition] have a density of at least [1e-3] and the
    pressure [rho^gamma]. *)
Theorem setInitialCondition_vortex (params : input.input) (ic : input.initialCondition)
        (pos_spts : list point) (e : ele.ele) (spt : nat) :
  input.equation params = input.NAVIER_STOKES ->
  input.icType ic = 1%nat ->
  (ele.nDims e = 2 \/ ele.nDims e = 3)%nat ->
  ele.nFields e = (ele.nDims e + 2)%nat ->
  dims (ele.U_spts e) (ele.nSpts e) (ele.nFields e) ->
  1 < input.gamma params <= 25 ->
  (spt < ele.nSpts e)%nat ->
  let x := px (nth spt pos_spts origin) in
  let y := py (nth spt pos_spts origin) in
  let base := 1 - 5*5*(input.gamma params - 1) / (8 * input.gamma params * PI * PI)
                  * exp (1 - (x*x + y*y)) in
  let V := ele.getPrimitives params (ele.setInitialCondition params ic pos_spts e) spt in
  0 < base /\
  nth 0 V 0 = Rmax (Rpower base (1 / (input.gamma params - 1) + 1e-5)) 1e-3 /\
  1e-3 <= nth 0 V 0 /\
  nth (ele.nDims e + 1) V 0 = Rpower (nth 0 V 0) (input.gamma params).
Proof.
  intros Heq Hic HD HF HU Hg Hs x y base V.
  rewrite HF in HU.
  split; [apply vortex_base_pos; [exact Hg | nra]|].
  set (rho := fun s =>
    Rmax (Rpower (1 - 5*5*(input.gamma params - 1) / (8 * input.gamma params * PI * PI)
                      * exp (1 - (px (nth s pos_spts origin) * px (nth s pos_spts origin)
                                  + py (nth s pos_spts origin) * py (nth s pos_spts origin))))
                 (1 / (input.gamma params - 1) + 1e-5)) 1e-3).
  set (vx := fun s =>
    1 - 5 * py (nth s pos_spts origin) / (2*PI)
        * exp ((1 - (px (nth s pos_spts origin) * px (nth s pos_spts origin)
                     + py (nth s pos_spts origin) * py (nth s pos_spts origin))) / 2)).
  set (vy := fun s =>
    1 + 5 * px (nth s pos_spts origin) / (2*PI)
        * exp ((1 - (px (nth s pos_spts origin) * px (nth s pos_spts origin)
                     + py (nth s pos_spts origin) * py (nth s pos_spts origin))) / 2)).
  assert (E0 : ele.setInitialCondition params ic pos_spts e
               = ele.set_U_spts
                   (for_ (ele.nSpts e) (fun s U =>
                      upd s
                        (if (ele.nDims e =? 3)%nat
                         then [rho s; rho s * vx s; rho s * vy s; 0;
                               Rpower (rho s) (input.gamma params) / (input.gamma params - 1)
                               + 0.5 * rho s * (vx s * vx s + vy s * vy s)]
                         else [rho s; rho s * vx s; rho s * vy s;
                               Rpower (rho s) (input.gamma params) / (input.gamma params - 1)
                               + 0.5 * rho s * (vx s * vx s + vy s * vy s)])
                        U) (ele.U_spts e)) e).
  { unfold ele.setInitialCondition. rewrite Heq, Hic. simpl Nat.eqb. cbv iota.
    exact (nsFill_eq e _ _ _ _ _ (ele.nSpts e) HD HU (le_n _)). }
  assert (Hrho : 1e-3 <= rho spt) by (unfold rho; apply Rmax_r).
  assert (Hg' : input.gamma params - 1 <> 0) by lra.
  assert (HV : V = if (ele.nDims e =? 3)%nat
                   then [rho spt; vx spt; vy spt; 0; Rpower (rho spt) (input.gamma params)]
                   else [rho spt; vx spt; vy spt; Rpower (rho spt) (input.gamma params)]).
  { unfold V. rewrite E0. unfold ele.getPrimitives. ele_proj.
    match goal with |- context [for_ _ ?body _] =>
      match body with (fun spt l => upd spt (@?val spt) l) =>
        rewrite (for_tab_get _ val) by (destruct HU; lia)
      end end.
    apply Nat.ltb_lt in Hs. rewrite Hs. rewrite HF.
    unfold ele.primitives. rewrite Heq.
    generalize dependent (rho spt). intros r Hr.
    generalize (vx spt) (vy spt) (Rpower r (input.gamma params)). intros a b p.
    destruct HD as [HD|HD]; rewrite HD; simpl; repeat (f_equal; try (field; lra)). }
  rewrite HV.
  destruct HD as [HD|HD]; rewrite HD; simpl; (split; [reflexivity|]);
    (split; [exact Hrho|reflexivity]).
Qed.

Lemma setInitialCondition_vortex_witness :
  1e-3 <= nth 0 (ele.getPrimitives ele.staticRun
                   (ele.setInitialCondition ele.staticRun
                      (input.mkInitialCondition 1 0 0 0 0 0)
                      [origin; origin; origin; origin] (ele.lobattoCell 3 (-1) 1)) 0) 0.
Proof.
  apply (setInitialCondition_vortex ele.staticRun (input.mkInitialCondition 1 0 0 0 0 0)
           [origin; origin; origin; origin] (ele.lobattoCell 3 (-1) 1) 0).
  - reflexivity.
  - reflexivity.
  - left; reflexivity.
  - reflexivity.
  - split; [reflexivity | repeat constructor].
  - simpl; lra.
  - simpl; lia.
Defined.

(** ** calcTransforms under a rigid translation *)

Lemma accumJac_get (n nD : nat) (dS : matrix) (nds : list point) (J0 : matrix) :
  dims J0 nD nD ->
  dims (ele.accumJac n nD dS nds J0) nD nD /\
  forall a b, (a < nD)%nat -> (b < nD)%nat ->
    mget (ele.accumJac n nD dS nds J0) a b
    = mget J0 a b + Rsum n (fun i => mget dS i b * pidx (nth i nds origin) a).
Proof.
  intros HJ. unfold ele.accumJac. induction n as [|n [IHd IHg]].
  - simpl. split; [exact HJ|]. intros. unfold Rsum. simpl. ring.
  - rewrite for_succ.
    set (Jn := for_ n _ J0) in *.
    split.
    + apply (for2_dims nD nD
               (fun d1 d2 old => old + mget dS n d2 * pidx (nth n nds origin) d1)).
      exact IHd.
    + intros a b Ha Hb.
      rewrite (for2_get nD nD
                 (fun d1 d2 old => old + mget dS n d2 * pidx (nth n nds origin) d1))
        by assumption.
      rewrite IHg by assumption. rewrite Rsum_S. ring.
Qed.

Lemma pidx_padd (p t : point) (a : nat) : pidx (padd p t) a = pidx p a + pidx t a.
Proof. destruct a as [|[|a]]; reflexivity. Qed.

Lemma accumJac_translate (n nD : nat) (dS : matrix) (nds : list point) (J0 : matrix)
      (t : Vec3) :
  dims J0 nD nD -> (n <= List.length nds)%nat ->
  ele.dShape_sums_zero n nD dS ->
  ele.accumJac n nD dS (map (fun p => padd p t) nds) J0 = ele.accumJac n nD dS nds J0.
Proof.
  intros HJ Hn Hz.
  destruct (accumJac_get n nD dS (map (fun p => padd p t) nds) J0 HJ) as (D1 & G1).
  destruct (accumJac_get n nD dS nds J0 HJ) as (D2 & G2).
  apply (matrix_ext _ _ nD nD D1 D2). intros a b Ha Hb.
  rewrite G1, G2 by assumption. f_equal.
  rewrite (Rsum_ext n _ (fun i => mget dS i b * (pidx (nth i nds origin) a + 1 * pidx t a))).
  - transitivity (Rsum n (fun i => mget dS i b * (pidx t a + 1 * pidx (nth i nds origin) a))).
    + apply Rsum_ext. intros; ring.
    + rewrite Rsum_affine, (Hz b Hb). ring.
  - intros i Hi.
    rewrite (nth_indep _ origin (padd origin t))
      by (rewrite length_map; lia).
    rewrite (map_nth (fun p => padd p t)), pidx_padd. ring.
Qed.

Ltac ele_projT :=
  cbn [ele.ID ele.nDims ele.nFields ele.nSpts ele.nFpts ele.nNodes ele.dt ele.nodes
       ele.nodesRK ele.U_spts ele.U_fpts ele.U0 ele.Uavg ele.divF_spts ele.src_spts
       ele.F_spts ele.dF_spts ele.dU_spts ele.dShape_spts ele.dShape_fpts ele.Jac_spts
       ele.Jac_fpts ele.JGinv_spts ele.JGinv_fpts ele.detJac_spts ele.detJac_fpts
       ele.tNorm_fpts ele.norm_fpts ele.dA_fpts ele.gridVel_spts
       ele.set_Jac_spts ele.set_Jac_fpts ele.set_JGinv_spts ele.set_JGinv_fpts
       ele.set_detJac_spts ele.set_detJac_fpts ele.set_norm_fpts ele.set_dA_fpts
       ele.set_nodes ele.set_nodesRK ele.translate].

Lemma calcTransforms_spt_translate (moving : bool) (t : Vec3) (k : nat) (e : ele.ele) :
  (ele.nNodes e <= List.length (ele.nodes e))%nat ->
  (ele.nNodes e <= List.length (ele.nodesRK e))%nat ->
  dims (nth k (ele.Jac_spts e) []) (ele.nDims e) (ele.nDims e) ->
  ele.dShape_sums_zero (ele.nNodes e) (ele.nDims e) (nth k (ele.dShape_spts e) []) ->
  ele.calcTransforms_spt moving k (ele.translate t e)
  = match ele.calcTransforms_spt moving k e with
    | Ok e' => Ok (ele.translate t e')
    | FatalError msg => FatalError msg
    end.
Proof.
  intros Hn Hr HJ Hz.
  assert (HA : ele.accumJac (ele.nNodes e) (ele.nDims e) (nth k (ele.dShape_spts e) [])
                 (map (fun p => padd p t) (if moving then ele.nodesRK e else ele.nodes e))
                 (initializeToZero (nth k (ele.Jac_spts e) []))
               = ele.accumJac (ele.nNodes e) (ele.nDims e) (nth k (ele.dShape_spts e) [])
                   (if moving then ele.nodesRK e else ele.nodes e)
                   (initializeToZero (nth k (ele.Jac_spts e) []))).
  { apply accumJac_translate; [apply dims_initializeToZero; exact HJ| |exact Hz].
    destruct moving; assumption. }
  unfold ele.calcTransforms_spt. cbv zeta. ele_projT.
  replace (if moving
           then map (fun p => padd p t) (ele.nodesRK e)
           else map (fun p => padd p t) (ele.nodes e))
    with (map (fun p => padd p t) (if moving then ele.nodesRK e else ele.nodes e))
    by (destruct moving; reflexivity).
  rewrite HA.
  generalize (ele.accumJac (ele.nNodes e) (ele.nDims e) (nth k (ele.dShape_spts e) [])
                (if moving then ele.nodesRK e else ele.nodes e)
                (initializeToZero (nth k (ele.Jac_spts e) []))).
  intros J.
  destruct (ele.nDims e =? 2)%nat; [|destruct (ele.nDims e =? 3)%nat]; ele_projT;
    match goal with |- context [Rltb ?a 0] => destruct (Rltb a 0) end; reflexivity.
Qed.

Lemma calcTransforms_fpt_translate (moving : bool) (t : Vec3) (k : nat) (e : ele.ele) :
  (ele.nNodes e <= List.length (ele.nodes e))%nat ->
  (ele.nNodes e <= List.length (ele.nodesRK e))%nat ->
  dims (nth k (ele.Jac_fpts e) []) (ele.nDims e) (ele.nDims e) ->
  ele.dShape_sums_zero (ele.nNodes e) (ele.nDims e) (nth k (ele.dShape_fpts e) []) ->
  ele.calcTransforms_fpt moving k (ele.translate t e)
  = ele.translate t (ele.calcTransforms_fpt moving k e).
Proof.
  intros Hn Hr HJ Hz.
  assert (HA : ele.accumJac (ele.nNodes e) (ele.nDims e) (nth k (ele.dShape_fpts e) [])
                 (map (fun p => padd p t) (if moving then ele.nodesRK e else ele.nodes e))
                 (initializeToZero (nth k (ele.Jac_fpts e) []))
               = ele.accumJac (ele.nNodes e) (ele.nDims e) (nth k (ele.dShape_fpts e) [])
                   (if moving then ele.nodesRK e else ele.nodes e)
                   (initializeToZero (nth k (ele.Jac_fpts e) []))).
  { apply accumJac_translate; [apply dims_initializeToZero; exact HJ| |exact Hz].
    destruct moving; assumption. }
  assert (HJac : ele.calcTransforms_fpt_jac moving k (ele.translate t e)
                 = ele.translate t (ele.calcTransforms_fpt_jac moving k e)).
  { unfold ele.calcTransforms_fpt_jac. cbv zeta. ele_projT.
    replace (if moving
             then map (fun p => padd p t) (ele.nodesRK e)
             else map (fun p => padd p t) (ele.nodes e))
      with (map (fun p => padd p t) (if moving then ele.nodesRK e else ele.nodes e))
      by (destruct moving; reflexivity).
    rewrite HA.
    generalize (ele.accumJac (ele.nNodes e) (ele.nDims e) (nth k (ele.dShape_fpts e) [])
                  (if moving then ele.nodesRK e else ele.nodes e)
                  (initializeToZero (nth k (ele.Jac_fpts e) []))).
    intros J.
    destruct (ele.nDims e =? 2)%nat; [|destruct (ele.nDims e =? 3)%nat]; reflexivity. }
  unfold ele.calcTransforms_fpt. rewrite HJac.
  generalize (ele.calcTransforms_fpt_jac moving k e). intros e1.
  unfold ele.calcTransforms_fpt_normal. cbv zeta. ele_projT.
  match goal with |- context [Rltb ?a 1e-10] => destruct (Rltb a 1e-10) end; reflexivity.
Qed.

Lemma spts_loop_translate (moving : bool) (t : Vec3) (e : ele.ele) (n : nat) :
  (ele.nNodes e <= List.length (ele.nodes e))%nat ->
  (ele.nNodes e <= List.length (ele.nodesRK e))%nat ->
  (n <= List.length (ele.detJac_spts e))%nat ->
  (n <= List.length (ele.Jac_spts e))%nat ->
  (forall k, (k < n)%nat ->
     dims (nth k (ele.Jac_spts e) []) (ele.nDims e) (ele.nDims e) /\
     ele.dShape_sums_zero (ele.nNodes e) (ele.nDims e) (nth k (ele.dShape_spts e) [])) ->
  forM_ n (ele.calcTransforms_spt moving) (ele.translate t e)
  = match forM_ n (ele.calcTransforms_spt moving) e with
    | Ok e' => Ok (ele.translate t e')
    | FatalError msg => FatalError msg
    end.
Proof.
  intros Hn Hr. induction n as [|n IH]; intros Hd HJ HK; [reflexivity|].
  cbn [forM_]. rewrite IH by (try lia; intros; apply HK; lia).
  pose proof (spts_loop_spec moving e n ltac:(lia) ltac:(lia)) as P.
  destruct (forM_ n (ele.calcTransforms_spt moving) e) as [e1|msg]; cbn [bind];
    [|reflexivity].
  destruct P as ((a1&a2&a3&a4&a5&a6&a7&a8&a9&a10&a11&a12&a13&a14&a15&a16&a17&a18) & _).
  destruct (HK n ltac:(lia)) as (D & Z).
  apply calcTransforms_spt_translate.
  - rewrite a4, a5. exact Hn.
  - rewrite a4, a6. exact Hr.
  - rewrite a3, (a18 n (le_n n)). exact D.
  - rewrite a3, a4, a7. exact Z.
Qed.

Lemma fpts_loop_translate (moving : bool) (t : Vec3) (e : ele.ele) (n : nat) :
  (ele.nNodes e <= List.length (ele.nodes e))%nat ->
  (ele.nNodes e <= List.length (ele.nodesRK e))%nat ->
  (n <= List.length (ele.Jac_fpts e))%nat ->
  (n <= List.length (ele.JGinv_fpts e))%nat ->
  (n <= List.length (ele.detJac_fpts e))%nat ->
  (n <= List.length (ele.norm_fpts e))%nat ->
  (n <= List.length (ele.dA_fpts e))%nat ->
  (forall k, (k < n)%nat ->
     dims (nth k (ele.Jac_fpts e) []) (ele.nDims e) (ele.nDims e) /\
     ele.dShape_sums_zero (ele.nNodes e) (ele.nDims e) (nth k (ele.dShape_fpts e) [])) ->
  for_ n (ele.calcTransforms_fpt moving) (ele.translate t e)
  = ele.translate t (for_ n (ele.calcTransforms_fpt moving) e).
Proof.
  intros Hn Hr. induction n as [|n IH]; intros H1 H2 H3 H4 H5 HK; [reflexivity|].
  rewrite !for_succ. rewrite IH by (try lia; intros; apply HK; lia).
  destruct (fpts_loop_spec moving e n ltac:(lia) ltac:(lia) ltac:(lia) ltac:(lia)
              ltac:(lia)) as (((b1&b2&b3&b4&b5&b6&b7&b8&b9&b10&b11) & _ & U) & _).
  destruct (HK n ltac:(lia)) as (D & Z).
  destruct (U n (le_n n)) as (U1 & _).
  apply calcTransforms_fpt_translate.
  - rewrite b4, b5. exact Hn.
  - rewrite b4, b6. exact Hr.
  - rewrite b3, U1. exact D.
  - rewrite b3, b4, b7. exact Z.
Qed.

(** X23.  [calcTransforms] does not see a rigid translation of the
    element: when the arrays it writes are sized and the shape derivatives
    at every solution and flux point add up to zero over the nodes, running
    it on the element with every node moved by [t] gives what it gives on
    the element itself, with the nodes moved by [t] -- the same Jacobians,
    determinants, inverse transformations, normals and area elements, or
    the same fatal error.  ([move] relies on this when it skips
    [calcTransforms] for [motion == 4].) *)
Theorem calcTransforms_translation (moving : bool) (t : Vec3) (e : ele.ele) :
  (ele.nNodes e <= List.length (ele.nodes e))%nat ->
  (ele.nNodes e <= List.length (ele.nodesRK e))%nat ->
  ele.wf_spts e -> ele.wf_fpts e ->
  (forall k, (k < ele.nSpts e)%nat ->
     dims (nth k (ele.Jac_spts e) []) (ele.nDims e) (ele.nDims e) /\
     ele.dShape_sums_zero (ele.nNodes e) (ele.nDims e) (nth k (ele.dShape_spts e) [])) ->
  (forall k, (k < ele.nFpts e)%nat ->
     dims (nth k (ele.Jac_fpts e) []) (ele.nDims e) (ele.nDims e) /\
     ele.dShape_sums_zero (ele.nNodes e) (ele.nDims e) (nth k (ele.dShape_fpts e) [])) ->
  ele.calcTransforms moving (ele.translate t e)
  = match ele.calcTransforms moving e with
    | Ok e' => Ok (ele.translate t e')
    | FatalError msg => FatalError msg
    end.
Proof.
  intros Hn Hr (Wd & WJ) ((WN & _) & WA & Wdf & WJf & WGf) HS HF.
  unfold ele.calcTransforms.
  change (ele.nSpts (ele.translate t e)) with (ele.nSpts e).
  rewrite (spts_loop_translate moving t e (ele.nSpts e)) by (auto; lia).
  pose proof (spts_loop_spec moving e (ele.nSpts e) ltac:(lia) ltac:(lia)) as P.
  destruct (forM_ (ele.nSpts e) (ele.calcTransforms_spt moving) e) as [e1|msg];
    cbn [bind]; [|reflexivity].
  destruct P as ((a1&a2&a3&a4&a5&a6&a7&a8&a9&a10&a11&a12&a13&a14&a15&a16&a17&a18) & _).
  change (ele.nFpts (ele.translate t e1)) with (ele.nFpts e1).
  f_equal. apply fpts_loop_translate;
    rewrite ?a2, ?a3, ?a4, ?a5, ?a6, ?a8, ?a9, ?a10, ?a11, ?a13, ?a14; auto; lia.
Qed.

Lemma calcTransforms_translation_witness :
  ele.calcTransforms false (ele.translate (mkPoint 1 2 0) ele.square4)
  = match ele.calcTransforms false ele.square4 with
    | Ok e' => Ok (ele.translate (mkPoint 1 2 0) e')
    | FatalError msg => FatalError msg
    end.
Proof.
  apply (calcTransforms_translation false (mkPoint 1 2 0) ele.square4).
  - simpl; lia.
  - simpl; lia.
  - split; reflexivity.
  - repeat split; try reflexivity; repeat constructor.
  - intros k Hk. simpl in Hk. destruct k as [|k]; [|lia].
    split; [split; [reflexivity | repeat constructor]|].
    intros d Hd. simpl in Hd.
    destruct d as [|[|d]]; [unfold Rsum, mget; simpl; lra..|lia].
  - intros k Hk. simpl in Hk. destruct k as [|[|[|[|k]]]]; [..|lia];
      (split; [split; [reflexivity | repeat constructor]|]);
      intros d Hd; simpl in Hd;
      (destruct d as [|[|d]]; [unfold Rsum, mget; simpl; lra..|lia]).
Defined.

(** ** What the flux divergence leaves alone *)

Lemma flux_frame_refl (step : nat) (e : ele.ele) : flux_frame step e e.
Proof. split; [destruct e; reflexivity|]. split; reflexivity. Qed.

Lemma flux_frame_dF (step : nat) (e e' : ele.ele) (Y : list (list matrix)) :
  flux_frame step e e' -> flux_frame step e (ele.set_dF_spts Y e').
Proof.
  intros (H & L & K). split; [|split; [exact L|exact K]].
  rewrite H. reflexivity.
Qed.

Lemma flux_frame_upd (step : nat) (e e' : ele.ele) (M : matrix) :
  flux_frame step e e' ->
  flux_frame step e (ele.set_divF_spts (upd step M (ele.divF_spts e')) e').
Proof.
  intros (H & L & K). split; [|split].
  - rewrite H. reflexivity.
  - ele_proj. rewrite upd_length. exact L.
  - intros s Hs. ele_proj. rewrite nth_upd_neq by auto. apply K, Hs.
Qed.

Lemma flux_frame_tset (step : nat) (e e' : ele.ele) (r c : nat) (x : R) :
  flux_frame step e e' ->
  flux_frame step e (ele.set_divF_spts (tset (ele.divF_spts e') step r c x) e').
Proof. intros H. unfold tset. apply flux_frame_upd, H. Qed.

Lemma transformGradF_spts_frame (adjoint : matrix -> matrix) (step : nat) (e0 e : ele.ele) :
  flux_frame step e0 e ->
  flux_frame step e0 (ele.transformGradF_spts adjoint step e).
Proof.
  intros H. unfold ele.transformGradF_spts.
  destruct (ele.nDims e =? 2)%nat.
  - apply (for_ind (fun _ e' => flux_frame step e0 e')); [exact H|].
    intros spt e1 _ H1. cbv zeta.
    apply (for_ind (fun _ e' => flux_frame step e0 e')); [exact H1|].
    intros k e2 _ H2.
    apply flux_frame_tset. apply flux_frame_dF. apply flux_frame_dF. exact H2.
  - cbv zeta.
    apply (for_ind (fun _ e' => flux_frame step e0 e')); [apply flux_frame_upd, H|].
    intros spt e1 _ H1.
    apply (for_ind (fun _ e' => flux_frame step e0 e')).
    + apply (for_ind (fun _ e' => flux_frame step e0 e')); [exact H1|].
      intros d1 e2 _ H2.
      apply (for_ind (fun _ e' => flux_frame step e0 e')); [exact H2|].
      intros d2 e3 _ H3.
      apply (for_ind (fun _ e' => flux_frame step e0 e')); [exact H3|].
      intros k e4 _ H4. apply flux_frame_tset, H4.
    + intros d e2 _ H2.
      apply (for_ind (fun _ e' => flux_frame step e0 e')); [exact H2|].
      intros k e3 _ H3. apply flux_frame_tset, H3.
Qed.

(** X24.  Computing the flux divergence of stage [step] on an element, in
    the conservative form (static mesh) or by the chain rule (moving
    mesh), writes [divF_spts[step]] and, on a moving mesh, [dF_spts], and
    nothing else: the result is the input element with these two members
    replaced, [divF_spts] keeps its length, and the divergences stored for
    the other stages are those of the input. *)
Theorem calcFluxDivergence_frame (adjoint : matrix -> matrix) (params : input.input)
        (op : oper.oper) (step : nat) (e : ele.ele) :
  let e' := solver.calcFluxDivergence adjoint params op step e in
  e' = ele.set_divF_spts (ele.divF_spts e') (ele.set_dF_spts (ele.dF_spts e') e) /\
  List.length (ele.divF_spts e') = List.length (ele.divF_spts e) /\
  (forall s, s <> step -> nth s (ele.divF_spts e') [] = nth s (ele.divF_spts e) []) /\
  (input.motion params = 0%nat -> ele.dF_spts e' = ele.dF_spts e).
Proof.
  intros e'.
  assert (H : flux_frame step e e').
  { unfold e', solver.calcFluxDivergence.
    destruct (negb (input.motion params =? 0)%nat).
    - apply transformGradF_spts_frame. unfold solver.calcGradF_spts.
      apply flux_frame_dF, flux_frame_refl.
    - unfold solver.calcDivF_spts. apply flux_frame_upd, flux_frame_refl. }
  destruct H as (H1 & H2 & H3).
  split; [exact H1|]. split; [exact H2|]. split; [exact H3|].
  intros Hm. unfold e', solver.calcFluxDivergence. rewrite Hm. reflexivity.
Qed.

(** ** transformGradU_physToRef *)

Lemma dims_zeros (n m : nat) : dims (zeros n m) n m.
Proof.
  unfold zeros. split; [apply repeat_length|].
  apply Forall_forall. intros r Hr. apply repeat_spec in Hr. subst r. apply repeat_length.
Qed.

Lemma dimsT_repeat (M : matrix) (d n m : nat) : dims M n m -> dimsT (repeat M d) d n m.
Proof.
  intros HM. split; [apply repeat_length|].
  apply Forall_forall. intros r Hr. apply repeat_spec in Hr. subst r. exact HM.
Qed.

(** Two nested loops that write the entries [(spt,k)] of the first two
    matrices. *)
Lemma for2_tget2 (nS nF d : nat) (v0 v1 : nat -> nat -> R) (T : list matrix) :
  dimsT T d nS nF -> (2 <= d)%nat ->
  let T' := for_ nS (fun s T =>
              for_ nF (fun k T => tset (tset T 0 s k (v0 s k)) 1 s k (v1 s k)) T) T in
  dimsT T' d nS nF /\
  forall s k, (s < nS)%nat -> (k < nF)%nat ->
    tget T' 0 s k = v0 s k /\ tget T' 1 s k = v1 s k.
Proof.
  intros HT Hd.
  pose (Q := fun (s0 k0 : nat) (T' : list matrix) =>
    dimsT T' d nS nF /\
    forall s k, (s < nS)%nat -> (k < nF)%nat ->
      (s < s0 \/ (s = s0 /\ k < k0))%nat ->
      tget T' 0 s k = v0 s k /\ tget T' 1 s k = v1 s k).
  assert (G : Q nS 0%nat
                (for_ nS (fun s T =>
                   for_ nF (fun k T => tset (tset T 0 s k (v0 s k)) 1 s k (v1 s k)) T) T)).
  { apply (for_ind (fun s T' => Q s 0%nat T')).
    - split; [exact HT | intros; lia].
    - intros s0 T1 Hs0 H1.
      assert (G2 : Q s0 nF
                     (for_ nF (fun k T => tset (tset T 0 s0 k (v0 s0 k)) 1 s0 k (v1 s0 k)) T1)).
      { apply (for_ind (fun k T' => Q s0 k T')); [exact H1|].
        intros k0 T2 Hk0 [D2 H2].
        assert (D3 : dimsT (tset T2 0 s0 k0 (v0 s0 k0)) d nS nF) by (apply dimsT_tset, D2).
        split; [apply dimsT_tset, D3|].
        intros s k Hs Hk L.
        destruct (Nat.eq_dec s s0) as [->|Ns]; [destruct (Nat.eq_dec k k0) as [->|Nk]|].
        - split.
          + rewrite tget_tset_neq by congruence.
            apply (tget_tset_eq _ d nS nF); auto; lia.
          + apply (tget_tset_eq _ d nS nF); auto; lia.
        - rewrite !tget_tset_neq by congruence. apply H2; auto; lia.
        - rewrite !tget_tset_neq by congruence. apply H2; auto; lia. }
      destruct G2 as [D2 H2]. split; [exact D2|].
      intros s k Hs Hk L. apply H2; auto; lia. }
  destruct G as [D G]. split; [exact D|].
  intros s k Hs Hk. apply G; auto; lia.
Qed.

(** X25.  [transformGradU_physToRef] returns [nDims] matrices of
    [nSpts x nFields] entries.  In two dimensions, on an element whose
    stored inverse transformation is that of its Jacobian (as
    [calcTransforms] leaves it), the gradient along the reference direction
    [i] is the sum over [j] of [JGinv_spts[spt](i,j) * dU_spts[j](spt,k)];
    for any other [nDims] every entry of the result is zero. *)
Theorem transformGradU_physToRef_spec (e : ele.ele) :
  let out := ele.transformGradU_physToRef e in
  dimsT out (ele.nDims e) (ele.nSpts e) (ele.nFields e) /\
  (ele.nDims e <> 2%nat ->
   out = repeat (zeros (ele.nSpts e) (ele.nFields e)) (ele.nDims e)) /\
  (ele.nDims e = 2%nat -> ele.metrics_spts e ->
   forall i spt k, (i < 2)%nat -> (spt < ele.nSpts e)%nat -> (k < ele.nFields e)%nat ->
     tget out i spt k
     = Rsum 2 (fun j => mget (nth spt (ele.JGinv_spts e) []) i j
                        * tget (ele.dU_spts e) j spt k)).
Proof.
  intros out. unfold out, ele.transformGradU_physToRef. cbv zeta.
  assert (HZ : dimsT (repeat (zeros (ele.nSpts e) (ele.nFields e)) (ele.nDims e))
                 (ele.nDims e) (ele.nSpts e) (ele.nFields e))
    by (apply dimsT_repeat, dims_zeros).
  destruct (Nat.eqb_spec (ele.nDims e) 2) as [H2|H2].
  - destruct (for2_tget2 (ele.nSpts e) (ele.nFields e) (ele.nDims e)
                (fun s k => tget (ele.dU_spts e) 0 s k * mget (nth s (ele.Jac_spts e) []) 1 1
                            - tget (ele.dU_spts e) 1 s k * mget (nth s (ele.Jac_spts e) []) 0 1)
                (fun s k => - tget (ele.dU_spts e) 0 s k * mget (nth s (ele.Jac_spts e) []) 1 0
                            + tget (ele.dU_spts e) 1 s k * mget (nth s (ele.Jac_spts e) []) 0 0)
                _ HZ ltac:(lia)) as (D & G).
    cbv zeta in D, G.
    split; [exact D|]. split; [intros; contradiction|].
    intros _ HM i spt k Hi Hs Hk.
    destruct (G spt k Hs Hk) as (G0 & G1).
    destruct i as [|[|i]]; [rewrite G0|rewrite G1|lia];
      rewrite (HM spt Hs), H2, JGinv_of_2, Rsum_two; unfold mget; simpl; ring.
  - split; [exact HZ|]. split; [reflexivity|]. intros; contradiction.
Qed.

Lemma transformGradU_physToRef_spec_witness :
  tget (ele.transformGradU_physToRef (solver.trapezoid [1; 2; 3; 4])) 0 0 0
  = Rsum 2 (fun j => mget (nth 0 (ele.JGinv_spts (solver.trapezoid [1; 2; 3; 4])) []) 0 j
                     * tget (ele.dU_spts (solver.trapezoid [1; 2; 3; 4])) j 0 0).
Proof.
  pose proof (transformGradU_physToRef_spec (solver.trapezoid [1; 2; 3; 4])) as H.
  cbv zeta in H. destruct H as (_ & _ & H).
  apply H; [reflexivity| |simpl; lia..].
  apply trapezoid_metrics.
Defined.

(** ** getDxNelderMead *)

Lemma pidx_pabs (p : point) (i : nat) : pidx (pabs p) i = Rabs (pidx p i).
Proof. destruct i as [|[|i]]; reflexivity. Qed.

Lemma penalty_pos (r : R) : 1 < r -> 0 < exp ((r - 1) * (r - 1) * ((r - 1) * (r - 1))) - 1.
Proof.
  intros Hr.
  assert (H : 0 < (r - 1) * (r - 1) * ((r - 1) * (r - 1))).
  { assert (0 < (r - 1) * (r - 1)) by nra. nra. }
  pose proof (exp_increasing _ _ H) as E. rewrite exp_0 in E. lra.
Qed.

Lemma penalty_loop (n : nat) (r : nat -> R) (d : R) :
  let v := for_ n (fun i norm =>
             if Rltb 1 (r i)
             then norm + (exp ((r i - 1) * (r i - 1) * ((r i - 1) * (r i - 1))) - 1)
             else norm) d in
  d <= v /\
  ((forall i, (i < n)%nat -> r i <= 1) -> v = d) /\
  ((exists i, (i < n)%nat /\ 1 < r i) -> d < v).
Proof.
  induction n as [|n IH]; cbv zeta.
  - simpl. split; [lra|]. split; [reflexivity|]. intros (i & Hi & _). lia.
  - cbv zeta in IH. destruct IH as (A & B & C). rewrite for_succ.
    set (v := for_ n _ d) in *.
    destruct (Rltb 1 (r n)) eqn:E.
    + apply Rltb_iff in E. pose proof (penalty_pos (r n) E) as P.
      split; [lra|]. split; [|intros _; lra].
      intros H. specialize (H n ltac:(lia)). lra.
    + apply Rltb_iff_false in E.
      split; [exact A|]. split.
      * intros H. apply B. intros i Hi. apply H. lia.
      * intros (i & Hi & Hr). apply C. exists i. split; [|exact Hr].
        destruct (Nat.eq_dec i n) as [->|Hne]; [lra|lia].
Qed.

(** X26.  The objective of the Nelder-Mead search is never smaller than
    the distance between [physPos] and the image [calcPos(refLoc)] of the
    reference location; it is that distance when every reference
    coordinate below [nDims] lies in [[-1,1]], and strictly larger as soon
    as one of them lies outside. *)
Theorem getDxNelderMead_penalty (getShape : point -> list R) (params : input.input)
        (e : ele.ele) (refLoc physPos : point) :
  let d := pnorm (psub physPos (ele.calcPos getShape params e refLoc)) in
  let v := ele.getDxNelderMead getShape params e refLoc physPos in
  0 <= d <= v /\
  ((forall i, (i < ele.nDims e)%nat -> Rabs (pidx refLoc i) <= 1) -> v = d) /\
  ((exists i, (i < ele.nDims e)%nat /\ 1 < Rabs (pidx refLoc i)) -> d < v).
Proof.
  intros d v. unfold v, ele.getDxNelderMead. cbv zeta. fold d.
  destruct (penalty_loop (ele.nDims e) (fun i => pidx (pabs refLoc) i) d)
    as (A & B & C).
  cbv zeta in A, B, C.
  split; [split; [apply sqrt_pos|exact A]|]. split.
  - intros H. apply B. intros i Hi. rewrite pidx_pabs. apply H, Hi.
  - intros (i & Hi & Hr). apply C. exists i. split; [exact Hi|].
    rewrite pidx_pabs. exact Hr.
Qed.

(** ** transformFlux_physToRef *)

Lemma transformFlux_physToRef_static (adjoint : matrix -> matrix) (params : input.input)
      (e : ele.ele) :
  input.motion params = 0%nat ->
  let out := ele.transformFlux_physToRef adjoint params e in
  dimsT out (ele.nDims e) (ele.nSpts e) (ele.nFields e) /\
  forall i s k, (i < ele.nDims e)%nat -> (s < ele.nSpts e)%nat -> (k < ele.nFields e)%nat ->
    tget out i s k
    = Rsum (ele.nDims e) (fun j =>
        mget (nth s (ele.JGinv_spts e) []) i j * tget (ele.F_spts e) j s k).
Proof.
  intros Hm out. unfold out, ele.transformFlux_physToRef. rewrite Hm. simpl negb.
  cbv iota zeta.
  rewrite (for_ext _
    (fun s T => for_ (ele.nDims e) (fun i T =>
       for_ (ele.nFields e) (fun k T =>
         tset T i s k
              ((fun s i k => Rsum (ele.nDims e) (fun j =>
                  mget (nth s (ele.JGinv_spts e) []) i j * tget (ele.F_spts e) j s k))
                 s i k)) T) T)).
  - apply (for3_tget (ele.nSpts e) (ele.nDims e) (ele.nFields e)
             (fun s i k => Rsum (ele.nDims e) (fun j =>
                mget (nth s (ele.JGinv_spts e) []) i j * tget (ele.F_spts e) j s k))).
    apply dimsT_repeat, dims_zeros.
  - intros s T _. apply for_ext. intros i T1 _. apply for_ext. intros k T2 _.
    apply accum_cell.
Qed.

(** X27.  On a static mesh [transformFlux_physToRef] returns [nDims]
    matrices of [nSpts x nFields] entries, the flux along the reference
    direction [i] being the sum over [j] of
    [JGinv_spts[spt](i,j) * F_spts[j](spt,k)]; applied to the physical flux
    (as [calcInviscidFlux_spts] stores it on a moving mesh) it gives the
    flux that [calcInviscidFlux_spts] stores on a static mesh, for a flux
    function that does not depend on the motion flag. *)
Theorem transformFlux_physToRef_agrees (inviscidFlux : input.input -> list R -> matrix)
        (adjoint : matrix -> matrix) (ps pm : input.input) (e : ele.ele) (i s k : nat) :
  input.motion ps = 0%nat -> input.motion pm <> 0%nat ->
  (forall U, inviscidFlux pm U = inviscidFlux ps U) ->
  dimsT (ele.F_spts e) (ele.nDims e) (ele.nSpts e) (ele.nFields e) ->
  (i < ele.nDims e)%nat -> (s < ele.nSpts e)%nat -> (k < ele.nFields e)%nat ->
  tget (ele.transformFlux_physToRef adjoint ps e) i s k
  = Rsum (ele.nDims e) (fun j =>
      mget (nth s (ele.JGinv_spts e) []) i j * tget (ele.F_spts e) j s k) /\
  tget (ele.transformFlux_physToRef adjoint ps
          (ele.calcInviscidFlux_spts inviscidFlux pm e)) i s k
  = tget (ele.F_spts (ele.calcInviscidFlux_spts inviscidFlux ps e)) i s k.
Proof.
  intros Hs Hm Hflux HT Hi Hsp Hk.
  split; [apply (transformFlux_physToRef_static adjoint ps e Hs); assumption|].
  destruct (calcInviscidFlux_spts_at inviscidFlux pm e HT) as (D1 & G1 & E1).
  destruct (calcInviscidFlux_spts_at inviscidFlux ps e HT) as (D2 & G2 & E2).
  cbv zeta in *.
  set (em := ele.calcInviscidFlux_spts inviscidFlux pm e) in *.
  assert (N : ele.nDims em = ele.nDims e /\ ele.nSpts em = ele.nSpts e
              /\ ele.nFields em = ele.nFields e /\ ele.JGinv_spts em = ele.JGinv_spts e
              /\ ele.U_spts em = ele.U_spts e)
    by (rewrite E1; repeat split; reflexivity).
  destruct N as (N1 & N2 & N3 & N4 & N5).
  destruct (transformFlux_physToRef_static adjoint ps em Hs) as (_ & G).
  rewrite G by (rewrite ?N1, ?N2, ?N3; assumption).
  rewrite N1, N4, G2 by assumption.
  unfold ele.F_at. cbv zeta.
  apply Nat.eqb_eq in Hs as Hs'. rewrite Hs'. simpl negb. cbv iota.
  apply Rsum_ext. intros j Hj. f_equal.
  rewrite G1 by assumption. unfold ele.F_at. cbv zeta.
  apply Nat.eqb_neq in Hm as Hm'. rewrite Hm'. simpl negb. cbv iota.
  rewrite Hflux. reflexivity.
Qed.

Lemma transformFlux_physToRef_agrees_witness :
  tget (ele.transformFlux_physToRef (fun M => M) solver.advStatic
          (ele.calcInviscidFlux_spts (fun _ U => [[nth 0 U 0]; [2 * nth 0 U 0]])
             solver.advMoving (solver.trapezoid [1; 2; 3; 4]))) 0 0 0
  = tget (ele.F_spts (ele.calcInviscidFlux_spts (fun _ U => [[nth 0 U 0]; [2 * nth 0 U 0]])
                        solver.advStatic (solver.trapezoid [1; 2; 3; 4]))) 0 0 0.
Proof.
  refine (proj2 (transformFlux_physToRef_agrees
                   (fun _ U => [[nth 0 U 0]; [2 * nth 0 U 0]]) (fun M => M)
                   solver.advStatic solver.advMoving (solver.trapezoid [1; 2; 3; 4])
                   0 0 0 _ _ _ _ _ _ _)).
  - reflexivity.
  - simpl; lia.
  - intros; reflexivity.
  - split; [reflexivity | repeat constructor].
  - simpl; lia.
  - simpl; lia.
  - simpl; lia.
Defined.

(** ** timeStepA restarts from the snapshot *)

Lemma timeStepA_matrix (params : input.input) (step : nat) (rkVal : R) (e : ele.ele)
      (X : matrix) :
  dims X (ele.nSpts e) (ele.nFields e) ->
  ele.timeStepA params step rkVal (ele.set_U_spts X e)
  = ele.set_U_spts
      (tabulate (ele.nSpts e) (ele.nFields e) (fun spt i =>
         mget (ele.U0 e) spt i
         - rkVal * ele.stage_dt params e * mget (nth step (ele.divF_spts e) []) spt i
           / nth spt (ele.detJac_spts e) 0))
      (ele.set_dt (ele.stage_dt params e) e).
Proof.
  intros HX. rewrite timeStepA_eq. cbv zeta.
  change (ele.stage_dt params (ele.set_U_spts X e)) with (ele.stage_dt params e).
  change (ele.nSpts (ele.set_U_spts X e)) with (ele.nSpts e).
  change (ele.nFields (ele.set_U_spts X e)) with (ele.nFields e).
  change (ele.U_spts (ele.set_U_spts X e)) with X.
  set (g := ele.gA step rkVal
              (ele.set_dt (ele.stage_dt params e) (ele.set_U_spts X e))).
  assert (HM : for_ (ele.nSpts e) (fun spt U =>
                 for_ (ele.nFields e) (fun i U => mset U spt i (g spt i (mget U spt i))) U) X
               = tabulate (ele.nSpts e) (ele.nFields e) (fun spt i =>
                   mget (ele.U0 e) spt i
                   - rkVal * ele.stage_dt params e
                     * mget (nth step (ele.divF_spts e) []) spt i
                     / nth spt (ele.detJac_spts e) 0)).
  { apply (matrix_ext _ _ (ele.nSpts e) (ele.nFields e)).
    - apply (for2_dims (ele.nSpts e) (ele.nFields e) g). exact HX.
    - apply dims_tabulate.
    - intros i j Hi Hj.
      rewrite (for2_get (ele.nSpts e) (ele.nFields e) g) by assumption.
      rewrite mget_tabulate by assumption. reflexivity. }
  rewrite HM. reflexivity.
Qed.

(** X28.  [timeStepA] builds the stage solution from the snapshot [U0]
    and never reads the current solution: on an element with a sized
    [U_spts], replacing [U_spts] by any other sized array before the call
    does not change the result, and applying the same [timeStepA] twice
    gives what one application gives. *)
Theorem timeStepA_from_snapshot (params : input.input) (step : nat) (rkVal : R)
        (e : ele.ele) (X : matrix) :
  dims (ele.U_spts e) (ele.nSpts e) (ele.nFields e) ->
  dims X (ele.nSpts e) (ele.nFields e) ->
  ele.timeStepA params step rkVal (ele.set_U_spts X e) = ele.timeStepA params step rkVal e /\
  ele.timeStepA params step rkVal (ele.timeStepA params step rkVal e)
  = ele.timeStepA params step rkVal e.
Proof.
  intros HU HX.
  assert (E : ele.timeStepA params step rkVal e
              = ele.timeStepA params step rkVal (ele.set_U_spts (ele.U_spts e) e))
    by (now rewrite set_U_spts_same).
  split.
  - rewrite E, !timeStepA_matrix by assumption. reflexivity.
  - rewrite E. rewrite (timeStepA_matrix params step rkVal e (ele.U_spts e) HU).
    set (M := tabulate _ _ _).
    set (e0 := ele.set_dt (ele.stage_dt params e) e).
    assert (HM : dims M (ele.nSpts e0) (ele.nFields e0)) by apply dims_tabulate.
    rewrite (timeStepA_matrix params step rkVal e0 M HM).
    assert (Hd : ele.stage_dt params e0 = ele.stage_dt params e).
    { unfold e0, ele.stage_dt. destruct (negb (input.dtType params =? 2)%nat); reflexivity. }
    rewrite Hd. reflexivity.
Qed.

Lemma timeStepA_from_snapshot_witness :
  ele.timeStepA solver.rk44 0 (1/2) (ele.set_U_spts [[7]] solver.ele1)
  = ele.timeStepA solver.rk44 0 (1/2) solver.ele1.
Proof.
  apply (timeStepA_from_snapshot solver.rk44 0 (1/2) solver.ele1 [[7]]).
  - split; [reflexivity | repeat constructor].
  - split; [reflexivity | repeat constructor].
Defined.

(** ** solver::update : the effect on the elements *)

Lemma stageUpdateA_eq (PMG_Source : bool) (params : input.input) (step : nat) (rkVal : R)
      (e : ele.ele) :
  ele.stageUpdateA PMG_Source params step rkVal e
  = let e0 := ele.set_dt (ele.stage_dt params e) e in
    ele.set_U_spts
      (for_ (ele.nSpts e) (fun spt U =>
         for_ (ele.nFields e) (fun i U =>
           mset U spt i
             ((if PMG_Source then ele.gA_source else ele.gA) step rkVal e0 spt i
                (mget U spt i))) U) (ele.U_spts e))
      e0.
Proof.
  destruct PMG_Source; [|apply timeStepA_eq].
  unfold ele.stageUpdateA, ele.timeStepA_source. rewrite set_dt_stage. cbv zeta.
  set (e0 := ele.set_dt (ele.stage_dt params e) e).
  rewrite <- (set_U_spts_same e0) at 1 2.
  change (ele.nSpts (ele.set_U_spts (ele.U_spts e0) e0)) with (ele.nSpts e0).
  exact (stage_loop (ele.gA_source step rkVal) e0 (fun _ _ _ _ => eq_refl) (ele.U_spts e0)).
Qed.

Lemma stageUpdateB_eq (PMG_Source : bool) (params : input.input) (step : nat) (rkVal : R)
      (e : ele.ele) :
  ele.stageUpdateB PMG_Source params step rkVal e
  = let e0 := ele.set_dt (ele.stage_dt params e) e in
    ele.set_U_spts
      (for_ (ele.nSpts e) (fun spt U =>
         for_ (ele.nFields e) (fun i U =>
           mset U spt i
             ((if PMG_Source then ele.gB_source else ele.gB) step rkVal e0 spt i
                (mget U spt i))) U) (ele.U_spts e))
      e0.
Proof.
  destruct PMG_Source; [|apply timeStepB_eq].
  unfold ele.stageUpdateB, ele.timeStepB_source. rewrite set_dt_stage. cbv zeta.
  set (e0 := ele.set_dt (ele.stage_dt params e) e).
  rewrite <- (set_U_spts_same e0) at 1 2.
  change (ele.nSpts (ele.set_U_spts (ele.U_spts e0) e0)) with (ele.nSpts e0).
  exact (stage_loop (ele.gB_source step rkVal) e0 (fun _ _ _ _ => eq_refl) (ele.U_spts e0)).
Qed.

Lemma stageUpdateA_get (PMG_Source : bool) (params : input.input) (step : nat) (rkVal : R)
      (e : ele.ele) (spt i : nat) :
  dims (ele.U_spts e) (ele.nSpts e) (ele.nFields e) ->
  (spt < ele.nSpts e)%nat -> (i < ele.nFields e)%nat ->
  mget (ele.U_spts (ele.stageUpdateA PMG_Source params step rkVal e)) spt i
  = mget (ele.U0 e) spt i
    - rkVal * ele.stage_dt params e * ele.stageRHS PMG_Source step e spt i
      / nth spt (ele.detJac_spts e) 0.
Proof.
  intros HU Hs Hi. rewrite stageUpdateA_eq. cbv zeta.
  change (ele.U_spts (ele.set_U_spts ?U _)) with U.
  rewrite (for2_get (ele.nSpts e) (ele.nFields e)
             ((if PMG_Source then ele.gA_source else ele.gA) step rkVal
                (ele.set_dt (ele.stage_dt params e) e))) by assumption.
  destruct PMG_Source; reflexivity.
Qed.

Lemma stageUpdateB_get (PMG_Source : bool) (params : input.input) (step : nat) (rkVal : R)
      (e : ele.ele) (spt i : nat) :
  dims (ele.U_spts e) (ele.nSpts e) (ele.nFields e) ->
  (spt < ele.nSpts e)%nat -> (i < ele.nFields e)%nat ->
  mget (ele.U_spts (ele.stageUpdateB PMG_Source params step rkVal e)) spt i
  = mget (ele.U_spts e) spt i
    - rkVal * ele.stage_dt params e * ele.stageRHS PMG_Source step e spt i
      / nth spt (ele.detJac_spts e) 0.
Proof.
  intros HU Hs Hi. rewrite stageUpdateB_eq. cbv zeta.
  change (ele.U_spts (ele.set_U_spts ?U _)) with U.
  rewrite (for2_get (ele.nSpts e) (ele.nFields e)
             ((if PMG_Source then ele.gB_source else ele.gB) step rkVal
                (ele.set_dt (ele.stage_dt params e) e))) by assumption.
  destruct PMG_Source; reflexivity.
Qed.

(** The stage loop of [timeStepB] on one element, with or without the
    multigrid source. *)
Lemma stageUpdateB_loop (PMG_Source : bool) (params : input.input) (b : nat -> R) (S : nat)
      (e : ele.ele) :
  dims (ele.U_spts e) (ele.nSpts e) (ele.nFields e) ->
  let e' := for_ S (fun k e => ele.stageUpdateB PMG_Source params k (b k) e) e in
  dims (ele.U_spts e') (ele.nSpts e) (ele.nFields e) /\
  ele.nSpts e' = ele.nSpts e /\ ele.nFields e' = ele.nFields e /\
  ele.divF_spts e' = ele.divF_spts e /\ ele.src_spts e' = ele.src_spts e /\
  ele.detJac_spts e' = ele.detJac_spts e /\
  ele.stage_dt params e' = ele.stage_dt params e /\
  forall spt i, (spt < ele.nSpts e)%nat -> (i < ele.nFields e)%nat ->
    mget (ele.U_spts e') spt i
    = mget (ele.U_spts e) spt i
      - Rsum S (fun k => b k * ele.stage_dt params e
                         * ele.stageRHS PMG_Source k e spt i
                         / nth spt (ele.detJac_spts e) 0).
Proof.
  intros HU. induction S as [|S IH]; cbv zeta.
  - simpl. repeat split; try assumption; try apply HU.
    intros. unfold Rsum. simpl. ring.
  - cbv zeta in IH. destruct IH as (D & N1 & N2 & N3 & N3' & N4 & N5 & G).
    rewrite for_succ.
    set (e1 := for_ S (fun k e => ele.stageUpdateB PMG_Source params k (b k) e) e) in *.
    assert (D1 : dims (ele.U_spts e1) (ele.nSpts e1) (ele.nFields e1))
      by (rewrite N1, N2; exact D).
    pose proof (stageUpdateB_eq PMG_Source params S (b S) e1) as E. cbv zeta in E.
    assert (Hdt : ele.stage_dt params (ele.stageUpdateB PMG_Source params S (b S) e1)
                  = ele.stage_dt params e).
    { rewrite E, <- N5. unfold ele.stage_dt.
      destruct (negb (input.dtType params =? 2)%nat); reflexivity. }
    split.
    { rewrite E. ele_proj. rewrite N1, N2.
      apply (for2_dims (ele.nSpts e) (ele.nFields e)
               ((if PMG_Source then ele.gB_source else ele.gB) S (b S)
                  (ele.set_dt (ele.stage_dt params e1) e1))). exact D. }
    split; [rewrite E; exact N1|]. split; [rewrite E; exact N2|].
    split; [rewrite E; exact N3|]. split; [rewrite E; exact N3'|].
    split; [rewrite E; exact N4|]. split; [exact Hdt|].
    intros spt i Hs Hi.
    rewrite (stageUpdateB_get PMG_Source params S (b S) e1 spt i D1)
      by (rewrite ?N1, ?N2; assumption).
    rewrite G, N4, N5, Rsum_S by assumption.
    replace (ele.stageRHS PMG_Source S e1 spt i) with (ele.stageRHS PMG_Source S e spt i)
      by (unfold ele.stageRHS; rewrite N3, N3'; reflexivity).
    ring.
Qed.

Lemma stageUpdateB_loop_ID (PMG_Source : bool) (params : input.input) (b : nat -> R)
      (S : nat) (e : ele.ele) :
  ele.ID (for_ S (fun k e => ele.stageUpdateB PMG_Source params k (b k) e) e) = ele.ID e.
Proof.
  induction S as [|S IH]; [reflexivity|].
  rewrite for_succ, stageUpdateB_eq. exact IH.
Qed.

(** [solver::timeStepA] and [solver::timeStepB] element by element. *)
Lemma solver_timeStepA_map (step : nat) (PMG_Source : bool) (s : solver.solver) :
  solver.timeStepA step PMG_Source s
  = solver.set_eles
      (map (fun e =>
              if solver.passedOver s e then e
              else ele.stageUpdateA PMG_Source (solver.params s) step
                     (nth (step + 1) (input.RKa (solver.params s)) 0) e)
           (solver.eles s)) s.
Proof.
  unfold solver.timeStepA, solver.passedOver, ele.stageUpdateA,
    solver.forNormalEles, solver.forEles. cbv zeta.
  destruct PMG_Source, (solver.fieldInterp s); simpl andb; f_equal;
    apply map_ext; intros e;
    try (destruct (solver.isNormal _); reflexivity); reflexivity.
Qed.

Lemma solver_timeStepB_map (step : nat) (PMG_Source : bool) (s : solver.solver) :
  solver.timeStepB step PMG_Source s
  = solver.set_eles
      (map (fun e =>
              if solver.passedOver s e then e
              else ele.stageUpdateB PMG_Source (solver.params s) step
                     (nth step (input.RKb (solver.params s)) 0) e)
           (solver.eles s)) s.
Proof.
  unfold solver.timeStepB, solver.passedOver, ele.stageUpdateB,
    solver.forNormalEles, solver.forEles. cbv zeta.
  destruct PMG_Source, (solver.fieldInterp s); simpl andb; f_equal;
    apply map_ext; intros e;
    try (destruct (solver.isNormal _); reflexivity); reflexivity.
Qed.

Lemma solver_stageB_loop (PMG_Source : bool) (s : solver.solver) (S : nat) :
  for_ S (fun step s => solver.timeStepB step PMG_Source s) s
  = solver.set_eles
      (map (fun e =>
              if solver.passedOver s e then e
              else for_ S (fun k e =>
                     ele.stageUpdateB PMG_Source (solver.params s) k
                       (nth k (input.RKb (solver.params s)) 0) e) e)
           (solver.eles s)) s.
Proof.
  induction S as [|S IH].
  - simpl for_. rewrite <- (set_eles_same s) at 1. f_equal.
    rewrite <- (map_id (solver.eles s)) at 1. apply map_ext. intros e.
    destruct (solver.passedOver s e); reflexivity.
  - rewrite for_succ, IH, solver_timeStepB_map.
    set (L := map _ (solver.eles s)).
    change (solver.set_eles ?A (solver.set_eles L s)) with (solver.set_eles A s).
    change (solver.eles (solver.set_eles L s)) with L.
    f_equal. unfold L. rewrite map_map. apply map_ext. intros e. fold L.
    change (solver.params (solver.set_eles L s)) with (solver.params s).
    assert (PO : forall x, solver.passedOver (solver.set_eles L s) x = solver.passedOver s x)
      by reflexivity.
    rewrite PO. clear PO. clearbody L.
    destruct (solver.passedOver s e) eqn:P.
    + rewrite P. reflexivity.
    + set (e1 := for_ S _ e).
      assert (HID : ele.ID e1 = ele.ID e) by apply stageUpdateB_loop_ID.
      assert (P1 : solver.passedOver s e1 = false).
      { rewrite <- P. unfold solver.passedOver. rewrite HID. reflexivity. }
      rewrite P1. rewrite for_succ. reflexivity.
Qed.

(** A stage ending in [timeStepA], on the element at position [j]. *)
Lemma solver_timeStepA_nth (step : nat) (PMG_Source : bool) (s : solver.solver)
      (j : nat) (e : ele.ele) :
  nth_error (solver.eles s) j = Some e ->
  dims (ele.U_spts e) (ele.nSpts e) (ele.nFields e) ->
  exists e', nth_error (solver.eles (solver.timeStepA step PMG_Source s)) j = Some e' /\
    ele.U0 e' = ele.U0 e /\
    if solver.passedOver s e then e' = e
    else forall spt i, (spt < ele.nSpts e)%nat -> (i < ele.nFields e)%nat ->
      mget (ele.U_spts e') spt i
      = mget (ele.U0 e) spt i
        - nth (step + 1) (input.RKa (solver.params s)) 0
          * ele.stage_dt (solver.params s) e
          * ele.stageRHS PMG_Source step e spt i
          / nth spt (ele.detJac_spts e) 0.
Proof.
  intros Hj HU. rewrite solver_timeStepA_map.
  change (solver.eles (solver.set_eles ?L s)) with L.
  rewrite nth_error_map, Hj. simpl option_map.
  eexists. split; [reflexivity|].
  destruct (solver.passedOver s e); [split; reflexivity|].
  split; [rewrite stageUpdateA_eq; reflexivity|].
  intros spt i Hs Hi. apply stageUpdateA_get; assumption.
Qed.

(** The snapshot taken in stage 0. *)
Lemma solver_copyUspts_U0_nth (s : solver.solver) (j : nat) (e : ele.ele) :
  nth_error (solver.eles s) j = Some e ->
  exists e', nth_error (solver.eles (solver.copyUspts_U0 s)) j = Some e' /\
    ele.U_spts e' = ele.U_spts e /\ ele.U0 e' = ele.U_spts e.
Proof.
  intros Hj. unfold solver.copyUspts_U0, solver.forEles.
  change (solver.eles (solver.set_eles ?L s)) with L.
  rewrite nth_error_map, Hj. simpl option_map.
  eexists. split; [reflexivity|]. split; reflexivity.
Qed.

(** The restore and the [timeStepB] loop, on the element at position [j]. *)
Lemma solver_restore_stageB_nth (PMG_Source : bool) (restore : bool) (S : nat)
      (s : solver.solver) (j : nat) (e : ele.ele) :
  nth_error (solver.eles s) j = Some e ->
  let Ustart := if restore then ele.U0 e else ele.U_spts e in
  dims Ustart (ele.nSpts e) (ele.nFields e) ->
  exists e',
    nth_error
      (solver.eles
         (for_ S (fun step s => solver.timeStepB step PMG_Source s)
            (if restore then solver.copyU0_Uspts s else s))) j = Some e' /\
    if solver.passedOver s e then ele.U_spts e' = Ustart
    else forall spt i, (spt < ele.nSpts e)%nat -> (i < ele.nFields e)%nat ->
      mget (ele.U_spts e') spt i
      = mget Ustart spt i
        - Rsum S (fun k => nth k (input.RKb (solver.params s)) 0
                           * ele.stage_dt (solver.params s) e
                           * ele.stageRHS PMG_Source k e spt i
                           / nth spt (ele.detJac_spts e) 0).
Proof.
  intros Hj Ustart HU. rewrite solver_stageB_loop.
  change (solver.eles (solver.set_eles ?L ?t)) with L.
  set (sU := if restore then solver.copyU0_Uspts s else s).
  set (eU := if restore then ele.copyU0_Uspts e else e).
  assert (HsU : nth_error (solver.eles sU) j = Some eU).
  { unfold sU, eU. destruct restore; [|exact Hj].
    unfold solver.copyU0_Uspts, solver.forEles.
    change (solver.eles (solver.set_eles ?L s)) with L.
    rewrite nth_error_map, Hj. reflexivity. }
  assert (Hp : solver.params sU = solver.params s) by (unfold sU; destruct restore; reflexivity).
  assert (Hb : solver.passedOver sU eU = solver.passedOver s e)
    by (unfold sU, eU; destruct restore; reflexivity).
  assert (HUs : ele.U_spts eU = Ustart) by (unfold eU, Ustart; destruct restore; reflexivity).
  assert (Hn : ele.nSpts eU = ele.nSpts e /\ ele.nFields eU = ele.nFields e /\
               ele.divF_spts eU = ele.divF_spts e /\ ele.src_spts eU = ele.src_spts e /\
               ele.detJac_spts eU = ele.detJac_spts e /\
               ele.stage_dt (solver.params s) eU = ele.stage_dt (solver.params s) e)
    by (unfold eU; destruct restore; repeat split; reflexivity).
  destruct Hn as (n1 & n2 & n3 & n4 & n5 & n6).
  rewrite nth_error_map, HsU. simpl option_map. rewrite Hb, Hp.
  eexists. split; [reflexivity|].
  destruct (solver.passedOver s e); [exact HUs|].
  assert (HD : dims (ele.U_spts eU) (ele.nSpts eU) (ele.nFields eU))
    by (rewrite HUs, n1, n2; exact HU).
  destruct (stageUpdateB_loop PMG_Source (solver.params s)
              (fun k => nth k (input.RKb (solver.params s)) 0) S eU HD)
    as (_ & _ & _ & _ & _ & _ & _ & G).
  intros spt i Hs Hi. rewrite G by (rewrite ?n1, ?n2; assumption).
  rewrite HUs, n5, n6. unfold ele.stageRHS. rewrite n3, n4. reflexivity.
Qed.

(** The snapshot through the stages. *)
Lemma solver_timeStepA_U0 (step : nat) (PMG_Source : bool) (s : solver.solver) :
  map ele.U0 (solver.eles (solver.timeStepA step PMG_Source s))
  = map ele.U0 (solver.eles s).
Proof.
  rewrite solver_timeStepA_map.
  change (solver.eles (solver.set_eles ?L s)) with L.
  rewrite map_map. apply map_ext. intros e.
  destruct (solver.passedOver s e); [reflexivity|].
  rewrite stageUpdateA_eq. reflexivity.
Qed.

Section Snapshot.

Variables moveMesh calcResidual : nat -> solver.solver -> solver.solver.
Variable PMG_Source : bool.
Hypothesis moveMesh_keeps : forall k, solver.keeps_U0 (moveMesh k).
Hypothesis calcResidual_keeps : forall k, solver.keeps_U0 (calcResidual k).

Lemma stageA_first_U0 (t : solver.solver) :
  map ele.U0 (solver.eles (solver.stageA moveMesh calcResidual PMG_Source 0 t))
  = map ele.U_spts (solver.eles (moveMesh 0%nat (solver.set_rkTime_stage 0 t))).
Proof.
  unfold solver.stageA. cbv zeta. simpl Nat.eqb. cbv iota.
  rewrite solver_timeStepA_U0, calcResidual_keeps.
  unfold solver.copyUspts_U0, solver.forEles.
  change (solver.eles (solver.set_eles ?L ?u)) with L.
  rewrite map_map. apply map_ext. intros e. reflexivity.
Qed.

Lemma stageA_later_U0 (k : nat) (t : solver.solver) :
  k <> 0%nat ->
  map ele.U0 (solver.eles (solver.stageA moveMesh calcResidual PMG_Source k t))
  = map ele.U0 (solver.eles t).
Proof.
  intros Hk. unfold solver.stageA. cbv zeta.
  replace (k =? 0)%nat with false by (symmetry; apply Nat.eqb_neq; exact Hk).
  rewrite solver_timeStepA_U0, calcResidual_keeps, moveMesh_keeps. reflexivity.
Qed.

Lemma stagesA_later_U0 (l : list nat) :
  Forall (fun k => k <> 0%nat) l ->
  forall t,
    map ele.U0 (solver.eles
      (fold_left (fun t k => solver.stageA moveMesh calcResidual PMG_Source k t) l t))
    = map ele.U0 (solver.eles t).
Proof.
  induction 1 as [|k l Hk _ IH]; intros t; simpl; [reflexivity|].
  rewrite IH. apply stageA_later_U0. exact Hk.
Qed.

Lemma update_snapshot (nRK : nat) (s0 : solver.solver) :
  (2 <= nRK)%nat ->
  let sA := fold_left (fun t k => solver.stageA moveMesh calcResidual PMG_Source k t)
              (seq 0 (nRK - 1)) s0 in
  let sR := calcResidual (nRK - 1)%nat
              (moveMesh (nRK - 1)%nat (solver.set_rkTime_stage (nRK - 1) sA)) in
  map ele.U0 (solver.eles sR)
  = map ele.U_spts (solver.eles (moveMesh 0%nat (solver.set_rkTime_stage 0 s0))).
Proof.
  intros Hn sA sR. unfold sR. rewrite calcResidual_keeps, moveMesh_keeps.
  change (solver.eles (solver.set_rkTime_stage (nRK - 1) sA)) with (solver.eles sA).
  unfold sA. destruct (nRK - 1)%nat as [|m] eqn:E; [lia|].
  simpl seq. simpl fold_left. rewrite stagesA_later_U0.
  - apply stageA_first_U0.
  - apply Forall_forall. intros k Hk. apply in_seq in Hk. lia.
Qed.

End Snapshot.

(** C1.  At every solution point and field [timeStepA(step, a)] stores
    [U0 - a*dt*divF[step]/detJac] and [timeStepB(step, b)] stores
    [U - b*dt*divF[step]/detJac]; the solver hands [timeStepA] the
    coefficient [RKa[step+1]] and [timeStepB] the coefficient [RKb[step]];
    and one call of [update] with [S >= 1] stages runs stages [0..S-2] each
    ending in [timeStepA], computes the residual of stage [S-1], restores
    [U = U0] once when [S > 1], applies [timeStepB] for the stages
    [0..S-1] in order and last adds [dt] to the simulation time.

    On the elements this reads as follows.  A stage ending in [timeStepA]
    copies the solution of every element into its snapshot when it is
    stage 0, and leaves every element that takes part with
    [U0 - RKa[step+1]*dt*r/detJac] at every solution point and field, where
    [U0], [dt], the residual [r] of the stage and [detJac] are those of the
    element as the residual computation left it, and with its snapshot
    untouched.  The whole update leaves every element that takes part with
    [U* - sum_k RKb[k]*dt*r_k/detJac], where [U*] is the snapshot of the
    element after the residual of the last stage when [S > 1] and its
    solution otherwise; an element that is passed over ends with [U*].
    When neither the mesh motion nor the residual computation writes the
    snapshots and [S > 1], the snapshot restored is the solution with
    which the elements entered the residual computation of stage 0. *)
Theorem update_runge_kutta
        (calcDt : solver.solver -> solver.solver)
        (moveMesh calcResidual : nat -> solver.solver -> solver.solver)
        (PMG_Source : bool) (s : solver.solver)
        (step : nat) (a b : R) (e : ele.ele) (spt i : nat) :
  (1 <= solver.nRKSteps s)%nat ->
  dims (ele.U_spts e) (ele.nSpts e) (ele.nFields e) ->
  (spt < ele.nSpts e)%nat -> (i < ele.nFields e)%nat ->
  mget (ele.U_spts (ele.timeStepA (solver.params s) step a e)) spt i
  = mget (ele.U0 e) spt i
    - a * ele.stage_dt (solver.params s) e * mget (nth step (ele.divF_spts e) []) spt i
      / nth spt (ele.detJac_spts e) 0
  /\
  mget (ele.U_spts (ele.timeStepB (solver.params s) step b e)) spt i
  = mget (ele.U_spts e) spt i
    - b * ele.stage_dt (solver.params s) e * mget (nth step (ele.divF_spts e) []) spt i
      / nth spt (ele.detJac_spts e) 0
  /\
  solver.timeStepA step false s
  = (if solver.fieldInterp s then solver.forNormalEles else solver.forEles)
      (ele.timeStepA (solver.params s) step (nth (step + 1) (input.RKa (solver.params s)) 0)) s
  /\
  solver.timeStepB step false s
  = (if solver.fieldInterp s then solver.forNormalEles else solver.forEles)
      (ele.timeStepB (solver.params s) step (nth step (input.RKb (solver.params s)) 0)) s
  /\
  solver.update calcDt moveMesh calcResidual PMG_Source s
  = (let nRK := solver.nRKSteps s in
     let s0 := solver.set_params
                 (input.set_iter (input.iter (solver.params s) + 1) (solver.params s)) s in
     let s0 := if negb (input.dtType (solver.params s0) =? 0)%nat then calcDt s0 else s0 in
     let sA := fold_left
                 (fun t k => solver.stageA moveMesh calcResidual PMG_Source k t)
                 (seq 0 (nRK - 1)) s0 in
     let sR := calcResidual (nRK - 1)%nat
                 (moveMesh (nRK - 1)%nat (solver.set_rkTime_stage (nRK - 1) sA)) in
     let sU := if (1 <? nRK)%nat then solver.copyU0_Uspts sR else sR in
     let sB := fold_left (fun t k => solver.timeStepB k PMG_Source t) (seq 0 nRK) sU in
     solver.set_params
       (input.set_time
          (input.time (solver.params sB) + input.dt (solver.params sB))
          (solver.params sB)) sB)
  /\
  (forall (t : solver.solver) (j : nat),
     let tM := moveMesh step (solver.set_rkTime_stage step t) in
     let tC := if (step =? 0)%nat then solver.copyUspts_U0 tM else tM in
     let tR := calcResidual step tC in
     (forall eM, nth_error (solver.eles tM) j = Some eM ->
        exists eC, nth_error (solver.eles tC) j = Some eC /\
          ele.U_spts eC = ele.U_spts eM /\
          ele.U0 eC = if (step =? 0)%nat then ele.U_spts eM else ele.U0 eM) /\
     (forall eR, nth_error (solver.eles tR) j = Some eR ->
        dims (ele.U_spts eR) (ele.nSpts eR) (ele.nFields eR) ->
        exists e',
          nth_error
            (solver.eles (solver.stageA moveMesh calcResidual PMG_Source step t)) j
          = Some e' /\
          ele.U0 e' = ele.U0 eR /\
          if solver.passedOver tR eR then e' = eR
          else forall p q, (p < ele.nSpts eR)%nat -> (q < ele.nFields eR)%nat ->
            mget (ele.U_spts e') p q
            = mget (ele.U0 eR) p q
              - nth (step + 1) (input.RKa (solver.params tR)) 0
                * ele.stage_dt (solver.params tR) eR
                * ele.stageRHS PMG_Source step eR p q
                / nth p (ele.detJac_spts eR) 0))
  /\
  (let nRK := solver.nRKSteps s in
   let s0 := solver.set_params
               (input.set_iter (input.iter (solver.params s) + 1) (solver.params s)) s in
   let s0 := if negb (input.dtType (solver.params s0) =? 0)%nat then calcDt s0 else s0 in
   let sA := fold_left
               (fun t k => solver.stageA moveMesh calcResidual PMG_Source k t)
               (seq 0 (nRK - 1)) s0 in
   let sR := calcResidual (nRK - 1)%nat
               (moveMesh (nRK - 1)%nat (solver.set_rkTime_stage (nRK - 1) sA)) in
   (forall (j : nat) (e0 : ele.ele),
      nth_error (solver.eles sR) j = Some e0 ->
      let Ustart := if (1 <? nRK)%nat then ele.U0 e0 else ele.U_spts e0 in
      dims Ustart (ele.nSpts e0) (ele.nFields e0) ->
      exists e',
        nth_error
          (solver.eles (solver.update calcDt moveMesh calcResidual PMG_Source s)) j
        = Some e' /\
        if solver.passedOver sR e0 then ele.U_spts e' = Ustart
        else forall p q, (p < ele.nSpts e0)%nat -> (q < ele.nFields e0)%nat ->
          mget (ele.U_spts e') p q
          = mget Ustart p q
            - Rsum nRK (fun k => nth k (input.RKb (solver.params sR)) 0
                                 * ele.stage_dt (solver.params sR) e0
                                 * ele.stageRHS PMG_Source k e0 p q
                                 / nth p (ele.detJac_spts e0) 0)) /\
   ((2 <= nRK)%nat ->
    (forall k, solver.keeps_U0 (moveMesh k)) ->
    (forall k, solver.keeps_U0 (calcResidual k)) ->
    map ele.U0 (solver.eles sR)
    = map ele.U_spts (solver.eles (moveMesh 0%nat (solver.set_rkTime_stage 0 s0))))).
Proof.
  intros _ HU Hs Hi.
  split; [apply timeStepA_get; assumption|].
  split; [apply timeStepB_get; assumption|].
  split; [unfold solver.timeStepA; destruct (solver.fieldInterp s); reflexivity|].
  split; [unfold solver.timeStepB; destruct (solver.fieldInterp s); reflexivity|].
  split; [apply update_eq|].
  split.
  - intros t j tM tC tR. split.
    + intros eM HM. unfold tC. destruct (step =? 0)%nat.
      * apply solver_copyUspts_U0_nth. exact HM.
      * exists eM. split; [exact HM|split; reflexivity].
    + intros eR HR HD.
      change (solver.stageA moveMesh calcResidual PMG_Source step t)
        with (solver.timeStepA step PMG_Source tR).
      apply solver_timeStepA_nth; assumption.
  - intros nRK s0 s1 sA sR. split.
    + intros j e0 Hj Ustart HD.
      pose proof (solver_restore_stageB_nth PMG_Source (1 <? nRK)%nat nRK sR j e0 Hj HD)
        as (e' & He' & Hval).
      exists e'. split; [|exact Hval].
      rewrite update_eq. unfold solver.update_stages. cbv zeta.
      change (solver.eles (solver.set_params ?P ?X)) with (solver.eles X).
      rewrite <- for_fold. exact He'.
    + intros Hn Hm Hc.
      apply (update_snapshot moveMesh calcResidual PMG_Source Hm Hc nRK s1 Hn).
Qed.

Lemma update_runge_kutta_witness :
  mget (ele.U_spts (ele.timeStepA solver.rk44 0 (1/2) solver.ele1)) 0 0 = 7/8 /\
  mget (ele.U_spts (ele.timeStepB solver.rk44 0 (1/6) solver.ele1)) 0 0 = 23/24 /\
  input.time (solver.params
     (solver.update (fun s => s) (fun _ s => s) (fun _ s => s) false solver.solver1))
  = 1/2 /\
  exists e',
    nth_error
      (solver.eles
         (solver.update (fun s => s) (fun _ s => s) (fun _ s => s) false solver.solver1)) 0
    = Some e' /\
    mget (ele.U_spts e') 0 0 = 23/24.
Proof.
  destruct (update_runge_kutta (fun s => s) (fun _ s => s) (fun _ s => s) false
              solver.solver1 0 (1/2) (1/6) solver.ele1 0 0)
    as (HA & HB & _ & _ & HU & _ & HE & _).
  - simpl; lia.
  - split; [reflexivity | repeat constructor].
  - simpl; lia.
  - simpl; lia.
  - change (solver.params solver.solver1) with solver.rk44 in HA, HB.
    split; [|split; [|split]].
    + rewrite HA. cbn. lra.
    + rewrite HB. cbn. lra.
    + rewrite HU. cbn. lra.
    + cbv zeta in HE.
      match type of HE with
      | forall j e0, nth_error (solver.eles ?sR) j = Some e0 -> _ =>
          destruct (HE 0%nat (nth 0 (solver.eles sR) solver.ele1) eq_refl)
            as (e' & He' & Hval)
      end.
      * split; [reflexivity | repeat constructor].
      * exists e'. split; [exact He'|].
        cbn [solver.passedOver solver.fieldInterp] in Hval.
        rewrite (Hval 0%nat 0%nat) by (simpl; lia).
        Reval. lra.
Defined.
